(** * Bit-tools: the bit-editor command interpreter

    A shallow embedding of [bit-editor.go] (functions [bytesToBits],
    [bitsToBytes], [applyBlockOps] and [applyEdits]) together with the
    properties of the interpreter that the design document states. The
    later parts embed the other tools of the repository: the Hamming coder
    of [hamming.go], the interleaver of [interleaver.go], the shift
    registers of [lfsr.go] and the checks of [crc.go].

    Conventions of the embedding:
    - a Go [byte] is a [Z] in [0, 256); byte arithmetic wraps modulo 256;
    - a Go [int] is a 64-bit two's-complement integer, a [Z] kept in
      [-2^63, 2^63) by [wrap];
    - a Go [string] is a list of bytes, here a [list ascii];
    - a bit sequence is a Go [[]byte] holding one bit per element;
    - writes to the diagnostic stream are recorded in a log that is threaded
      through every function, next to the returned value or error. *)

From Stdlib Require Import ZArith Bool Ascii String List Lia.
Import ListNotations.
Local Open Scope Z_scope.

(** ** Bit packing *)

Module BitPacking.

(** [j] ranges over [0..7] in the inner loop of [bytesToBits]. *)
Definition bit_of_byte (b : Z) (j : nat) : Z :=
  if Z.land (Z.shiftr b (7 - Z.of_nat j)) 1 =? 1 then 1 else 0.

(** [bytesToBits]: [bits[i*8+j]] is bit [7-j] of [data[i]]. *)
Definition bytesToBits (data : list Z) : list Z :=
  flat_map (fun b => map (bit_of_byte b) (seq 0 8)) data.

(** [data[byteIndex] |= v] *)
Fixpoint or_at (byteIndex : nat) (v : Z) (data : list Z) : list Z :=
  match data, byteIndex with
  | [], _ => []
  | x :: tl, O => Z.lor x v :: tl
  | x :: tl, S k => x :: or_at k v tl
  end.

(** The loop [for i := 0; i < len(bits); i++] of [bitsToBytes], started at
    index [i] with the remaining bits. *)
Fixpoint bitsToBytes_loop (i : nat) (bits : list Z) (data : list Z) : list Z :=
  match bits with
  | [] => data
  | bit :: rest =>
      bitsToBytes_loop (S i) rest
        (if bit =? 1
         then or_at (i / 8)%nat (Z.shiftl 1 (7 - Z.of_nat (i mod 8))) data
         else data)
  end.

Definition bitsToBytes (bits : list Z) : list Z :=
  let byteCount := ((length bits + 7) / 8)%nat in
  bitsToBytes_loop 0 bits (repeat 0 byteCount).

Definition is_byte (b : Z) : Prop := 0 <= b < 256.

End BitPacking.
Import BitPacking.

(** ** Go primitives used by the interpreter *)

Module GoLib.

Definition min_int : Z := - 2 ^ 63.
Definition max_int : Z := 2 ^ 63 - 1.

(** Two's-complement wrap-around of [int] arithmetic. *)
Definition wrap (z : Z) : Z := (z + 2 ^ 63) mod 2 ^ 64 - 2 ^ 63.

(** Subtraction on [byte]. *)
Definition byte_sub (a b : Z) : Z := (a - b) mod 256.

Definition code (c : ascii) : Z := Z.of_N (N_of_ascii c).

Definition is_digit (c : ascii) : bool := (48 <=? code c) && (code c <=? 57).

(** [c == '0' || c == '1'] *)
Definition is_binary (c : ascii) : bool := (c =? "0")%char || (c =? "1")%char.

(** [strings.ContainsRune(set, rune(c))] for an ASCII [set] and a byte [c]. *)
Definition ContainsRune (set : list ascii) (c : ascii) : bool :=
  existsb (Ascii.eqb c) set.

Fixpoint digits_value (acc : Z) (s : list ascii) : option Z :=
  match s with
  | [] => Some acc
  | c :: tl => if is_digit c then digits_value (acc * 10 + (code c - 48)) tl else None
  end.

(** [strconv.Atoi]: an optional sign, then one or more decimal digits; the
    value has to fit a 64-bit [int]. [None] stands for a non-nil error. *)
Definition Atoi (s : list ascii) : option Z :=
  let '(neg, ds) :=
    match s with
    | c :: tl => if (c =? "-")%char then (true, tl)
                 else if (c =? "+")%char then (false, tl) else (false, s)
    | [] => (false, [])
    end in
  match ds with
  | [] => None
  | _ => match digits_value 0 ds with
         | None => None
         | Some u => let v := if neg then - u else u in
                     if (min_int <=? v) && (v <=? max_int) then Some v else None
         end
  end.

(** The longest prefix of [text] without a character satisfying [stop]:
    the loop [for i := cmdIdx; i < len(s); i++ { if stop(s[i]) { break } }]
    followed by [s[cmdIdx:nextCmdIdx]]. *)
Fixpoint take_until (stop : ascii -> bool) (text : list ascii) : list ascii :=
  match text with
  | [] => []
  | c :: tl => if stop c then [] else c :: take_until stop tl
  end.

(** [strings.IndexRune(text, c)], [None] for -1. *)
Fixpoint IndexRune (text : list ascii) (c : ascii) : option nat :=
  match text with
  | [] => None
  | d :: tl => if (d =? c)%char then Some O else option_map S (IndexRune tl c)
  end.

(** [strings.SplitN(s, ":", 2)]. *)
Definition SplitN2 (s : list ascii) : list (list ascii) :=
  match IndexRune s ":"%char with
  | None => [s]
  | Some k => [firstn k s; skipn (S k) s]
  end.

(** [strings.Contains(s, ":")]. *)
Definition Contains_colon (s : list ascii) : bool :=
  match IndexRune s ":"%char with None => false | Some _ => true end.

(** The slice expression [s[lo:hi]] on a slice whose capacity is its length;
    [None] is the runtime panic "slice bounds out of range". *)
Definition slice (s : list Z) (lo hi : Z) : option (list Z) :=
  if (0 <=? lo) && (lo <=? hi) && (hi <=? Z.of_nat (length s))
  then Some (firstn (Z.to_nat (hi - lo)) (skipn (Z.to_nat lo) s))
  else None.

(** [s[k:k+8]] for an index known to be in range. *)
Definition byte_at (s : list Z) (k : nat) : list Z := firstn 8 (skipn k s).

End GoLib.
Import GoLib.

(** ** Errors, diagnostics and the interpreter monad *)

(** One constructor per [fmt.Errorf] of [applyEdits] and [applyBlockOps]. *)
Inductive error : Type :=
| ErrStartOutOfBounds (startBit : Z)
| ErrStartAfterEnd (startBit endBit : Z)
| ErrMismatchedBrackets
| ErrBlockNeedsNumber
| ErrBlockBadNumber (num : list ascii)
| ErrBadNumericArg (command : ascii) (argStr : list ascii)
| ErrByteSwapMultiple (count : Z)
| ErrBadInsert (argStr : list ascii)
| ErrLogicalFormat (command : ascii) (argStr : list ascii)
| ErrLogicalCount (command : ascii) (num : list ascii)
| ErrEmptyPattern (command : ascii)
| ErrBadPattern (command : ascii) (pattern : list ascii)
| ErrUnknownCommand (command : ascii)
| ErrBlockNeedsPattern (command : ascii)
| ErrBlockEmptyPattern (command : ascii)
| ErrNotAllowedInBlock (command : ascii)
| ErrUnknownInBlock (command : ascii).

(** The error classes of the design document. *)
Inductive error_class : Type :=
| RangeError | InvalidArgument | InvalidPattern | MismatchedBrackets
| MissingBlockCount | DisallowedInBlock | UnknownCommand.

Definition class_of (e : error) : error_class :=
  match e with
  | ErrStartOutOfBounds _ | ErrStartAfterEnd _ _ => RangeError
  | ErrMismatchedBrackets => MismatchedBrackets
  | ErrBlockNeedsNumber | ErrBlockBadNumber _ => MissingBlockCount
  | ErrBadNumericArg _ _ | ErrByteSwapMultiple _ | ErrBadInsert _
  | ErrLogicalFormat _ _ | ErrLogicalCount _ _ | ErrBlockNeedsPattern _ => InvalidArgument
  | ErrEmptyPattern _ | ErrBadPattern _ _ | ErrBlockEmptyPattern _ => InvalidPattern
  | ErrUnknownCommand _ | ErrUnknownInBlock _ => UnknownCommand
  | ErrNotAllowedInBlock _ => DisallowedInBlock
  end.

(** One constructor per [fmt.Fprintf(os.Stderr, ...)]. *)
Inductive event : Type :=
| LogStart (total startBit endBit : Z)
| LogBlockCommand (subProgram : list ascii) (count inputPos : Z)
| LogBlockOp (name : string) (argStr : list ascii)
| LogCommand (name : string) (argStr : list ascii) (inputPos : Z)
| LogWrote (bits : Z).

(** How a call ends: with a value, with an error, with a runtime panic, or
    (for the replay loop only) still running when the fuel is spent. *)
Inductive outcome (A : Type) : Type :=
| Ok (a : A)
| Failed (e : error)
| Panic
| OutOfFuel.
Arguments Ok {A} a.
Arguments Failed {A} e.
Arguments Panic {A}.
Arguments OutOfFuel {A}.

(** A computation appends to the diagnostic log and ends in an outcome. *)
Definition M (A : Type) : Type := list event -> outcome A * list event.

Definition ret {A} (a : A) : M A := fun log => (Ok a, log).
Definition throw {A} (e : error) : M A := fun log => (Failed e, log).
Definition panic {A} : M A := fun log => (Panic, log).
Definition out_of_fuel {A} : M A := fun log => (OutOfFuel, log).
Definition emit (ev : event) : M unit := fun log => (Ok tt, log ++ [ev]).
Definition when (b : bool) (m : M unit) : M unit := if b then m else ret tt.

Definition bind {A B} (m : M A) (f : A -> M B) : M B :=
  fun log =>
    match m log with
    | (Ok a, log') => f a log'
    | (Failed e, log') => (Failed e, log')
    | (Panic, log') => (Panic, log')
    | (OutOfFuel, log') => (OutOfFuel, log')
    end.

Notation "x <- m ;; k" := (bind m (fun x => k))
  (at level 61, m at next level, right associativity).
Notation "m ;; k" := (bind m (fun _ => k))
  (at level 61, right associativity).

(** What the caller gets back: the diagnostics are not part of it. *)
Definition result {A} (m : M A) : outcome A := fst (m []).

(** ** The interpreter *)

Definition prog (s : string) : list ascii := list_ascii_of_string s.

(** [commandNames]; a missing key reads as the empty string. *)
Definition commandNames (command : ascii) : string :=
  if (command =? "t")%char then "Take"
  else if (command =? "s")%char then "Skip"
  else if (command =? "i")%char then "Insert"
  else if (command =? "n")%char then "Invert"
  else if (command =? "v")%char then "Reverse Bits"
  else if (command =? "b")%char then "Byte-Swap"
  else if (command =? "x")%char then "XOR"
  else if (command =? "a")%char then "AND"
  else if (command =? "o")%char then "OR"
  else "".

(** [byte(pattern[i%len(pattern)] - '0')] *)
Definition patternBit (pattern : list ascii) (i : nat) : Z :=
  byte_sub (code (nth (i mod length pattern) pattern "000"%char)) 48.

(** The inner [switch command] of the logical commands; [resultBit] keeps
    its zero value for any other command. *)
Definition logical_op (command : ascii) (bit p : Z) : Z :=
  if (command =? "x")%char then Z.lxor bit p
  else if (command =? "a")%char then Z.land bit p
  else if (command =? "o")%char then Z.lor bit p
  else 0.

(** [for i, bit := range chunk { ... op(bit, patternBit) ... }] *)
Definition logical_chunk (command : ascii) (pattern : list ascii) (chunk : list Z) : list Z :=
  map (fun ib => logical_op command (snd ib) (patternBit pattern (fst ib)))
      (combine (seq 0 (length chunk)) chunk).

(** [1 - bit] on every element. *)
Definition invert_chunk (chunk : list Z) : list Z := map (byte_sub 1) chunk.

(** Case ['b'] of [applyBlockOps]: with more than one whole byte, byte [i]
    of the chunk is overwritten by byte [numBytes-1-i] of its copy; the
    bits after the last whole byte stay where they are. *)
Definition block_byteswap (chunk : list Z) : list Z :=
  let numBytes := (length chunk / 8)%nat in
  if (1 <? numBytes)%nat
  then flat_map (fun i => byte_at chunk ((numBytes - 1 - i) * 8)) (seq 0 numBytes)
       ++ skipn (numBytes * 8) chunk
  else chunk.

(** Case ['b'] of [applyEdits]: the whole bytes of the chunk from the last
    to the first, then the bits that do not form a whole byte. *)
Definition byteswap_chunk (chunk : list Z) : list Z :=
  let numBytes := (length chunk / 8)%nat in
  flat_map (fun i => byte_at chunk (i * 8)) (rev (seq 0 numBytes))
  ++ (if (length chunk mod 8 =? 0)%nat then [] else skipn (numBytes * 8) chunk).

Definition block_stop (c : ascii) : bool := ContainsRune (prog "nvxao") c.
Definition command_stop (c : ascii) : bool := ContainsRune (prog "tsnivxaob[") c.

(** The [switch command] of [applyBlockOps]. *)
Definition block_op (command : ascii) (argStr : list ascii) (chunk : list Z) : M (list Z) :=
  if (command =? "n")%char then ret (invert_chunk chunk)
  else if (command =? "v")%char then ret (rev chunk)
  else if (command =? "b")%char then ret (block_byteswap chunk)
  else if ContainsRune (prog "xao") command then
    if negb (Contains_colon argStr) then throw (ErrBlockNeedsPattern command)
    else
      let pattern := nth 1 (SplitN2 argStr) [] in
      match pattern with
      | [] => throw (ErrBlockEmptyPattern command)
      | _ => ret (logical_chunk command pattern chunk)
      end
  else if ContainsRune (prog "tsi") command then throw (ErrNotAllowedInBlock command)
  else throw (ErrUnknownInBlock command).

(** The loop of [applyBlockOps]. [text] is [subProgram[cmdIdx:]] when
    [skip = 0]; a positive [skip] counts the characters of [text] that were
    already consumed as the argument of the previous command. *)
Fixpoint block_loop (verbose : bool) (text : list ascii) (skip : nat)
    (processedChunk : list Z) : M (list Z) :=
  match text with
  | [] => ret processedChunk
  | command :: tl =>
      match skip with
      | S k => block_loop verbose tl k processedChunk
      | O =>
          let argStr :=
            if ContainsRune (prog "xao") command then take_until block_stop tl else [] in
          when verbose (emit (LogBlockOp (commandNames command) argStr)) ;;
          chunk' <- block_op command argStr processedChunk ;;
          block_loop verbose tl (length argStr) chunk'
      end
  end.

Definition applyBlockOps (initialChunk : list Z) (subProgram : list ascii)
    (verbose : bool) : M (list Z) :=
  block_loop verbose subProgram 0 initialChunk.

(** The two variables of [applyEdits] that commands update. *)
Record state : Type := mkState { inputPos : Z; outputBits : list Z }.

Section Engine.

Variable inputBits : list Z.
(** [endBit] after its adjustment at the head of [applyEdits]. *)
Variable endBit : Z.

(** [readEnd := inputPos + count; if readEnd > endBit { readEnd = endBit }] *)
Definition read_end (pos count : Z) : Z :=
  let readEnd := wrap (pos + count) in
  if endBit <? readEnd then endBit else readEnd.

(** [inputBits[inputPos:readEnd]] *)
Definition read_chunk (pos count : Z) : M (list Z) :=
  match slice inputBits pos (read_end pos count) with
  | Some chunk => ret chunk
  | None => panic
  end.

(** A command that appends [f chunk] and moves the cursor to [readEnd]. *)
Definition consume (f : list Z -> list Z) (count : Z) (st : state) : M state :=
  chunk <- read_chunk (inputPos st) count ;;
  ret (mkState (read_end (inputPos st) count) (outputBits st ++ f chunk)).

(** The outer [switch command] of [applyEdits]. *)
Definition simple_op (command : ascii) (argStr : list ascii) (st : state) : M state :=
  if ContainsRune (prog "tsnvb") command then
    match Atoi argStr with
    | None => throw (ErrBadNumericArg command argStr)
    | Some count =>
        if (command =? "t")%char then consume (fun chunk => chunk) count st
        else if (command =? "s")%char then
          ret (mkState (wrap (inputPos st + count)) (outputBits st))
        else if (command =? "n")%char then consume invert_chunk count st
        else if (command =? "v")%char then consume (@rev Z) count st
        else
          if negb (Z.rem count 8 =? 0) then throw (ErrByteSwapMultiple count)
          else consume byteswap_chunk count st
    end
  else if (command =? "i")%char then
    if forallb is_binary argStr
    then ret (mkState (inputPos st)
                      (outputBits st ++ map (fun c => byte_sub (code c) 48) argStr))
    else throw (ErrBadInsert argStr)
  else if ContainsRune (prog "xao") command then
    match SplitN2 argStr with
    | [num; pattern] =>
        match Atoi num with
        | None => throw (ErrLogicalCount command num)
        | Some count =>
            match pattern with
            | [] => throw (ErrEmptyPattern command)
            | _ =>
                if forallb is_binary pattern
                then consume (logical_chunk command pattern) count st
                else throw (ErrBadPattern command pattern)
            end
        end
    | _ => throw (ErrLogicalFormat command argStr)
    end
  else throw (ErrUnknownCommand command).

Definition wrote (before after : state) : event :=
  LogWrote (Z.of_nat (length (outputBits after)) - Z.of_nat (length (outputBits before))).

(** The branch [if command == '['] of the inner loop; [tl] is the text after
    the bracket. Returns the new state and how many characters of [tl] the
    command used. *)
Definition block_command (shouldLog : bool) (tl : list ascii) (st : state)
    : M (state * nat) :=
  match IndexRune tl "]"%char with
  | None => throw ErrMismatchedBrackets
  | Some endBracketIdx =>
      let subProgram := firstn endBracketIdx tl in
      let num := take_until (fun c => negb (is_digit c)) (skipn (S endBracketIdx) tl) in
      match num with
      | [] => throw ErrBlockNeedsNumber
      | _ =>
          match Atoi num with
          | None => throw (ErrBlockBadNumber num)
          | Some count =>
              when shouldLog (emit (LogBlockCommand subProgram count (inputPos st))) ;;
              chunk <- read_chunk (inputPos st) count ;;
              processedChunk <- applyBlockOps chunk subProgram shouldLog ;;
              let st' := mkState (read_end (inputPos st) count)
                                 (outputBits st ++ processedChunk) in
              when shouldLog (emit (wrote st st')) ;;
              ret (st', (S endBracketIdx + length num)%nat)
          end
      end
  end.

(** The rest of the inner loop body: argument scan, [switch], log. *)
Definition simple_command (shouldLog : bool) (command : ascii) (tl : list ascii)
    (st : state) : M (state * nat) :=
  let argStr := take_until command_stop tl in
  when shouldLog (emit (LogCommand (commandNames command) argStr (inputPos st))) ;;
  st' <- simple_op command argStr st ;;
  when (shouldLog && negb (command =? "s")%char) (emit (wrote st st')) ;;
  ret (st', length argStr).

(** One iteration of the inner loop, after its [break] test. *)
Definition exec_command (shouldLog : bool) (command : ascii) (tl : list ascii)
    (st : state) : M (state * nat) :=
  if (command =? "[")%char then block_command shouldLog tl st
  else simple_command shouldLog command tl st.

(** The inner loop [for cmdIdx < len(commands)]: one pass over the program
    text. [text] is [commands[cmdIdx:]] when [skip = 0]; a positive [skip]
    counts characters the previous command has consumed. *)
Fixpoint run_pass (shouldLog : bool) (text : list ascii) (skip : nat) (st : state)
    : M state :=
  match text with
  | [] => ret st
  | command :: tl =>
      match skip with
      | S k => run_pass shouldLog tl k st
      | O =>
          if endBit <=? inputPos st then ret st
          else
            r <- exec_command shouldLog command tl st ;;
            run_pass shouldLog tl (snd r) (fst r)
      end
  end.

Variable commands : list ascii.
Variables verbose verboseOnce : bool.

(** The outer loop [for inputPos < endBit]; [fuel] bounds the number of
    passes. [shouldLog] only changes when [logPrinted] does, between passes. *)
Fixpoint run (fuel : nat) (logPrinted : bool) (st : state) : M state :=
  if inputPos st <? endBit then
    match commands with
    | [] => ret st
    | _ :: _ =>
        match fuel with
        | O => out_of_fuel
        | S fuel' =>
            let shouldLog := verbose && (negb verboseOnce || negb logPrinted) in
            st' <- run_pass shouldLog commands 0 st ;;
            run fuel' true st'
        end
    end
  else ret st.

End Engine.

(** [applyEdits]; the replay loop is cut after [fuel] passes. *)
Definition applyEdits (fuel : nat) (data : list Z) (commands : list ascii)
    (startBit endBit : Z) (verbose verboseOnce : bool) : M (list Z) :=
  let inputBits := bytesToBits data in
  let len := Z.of_nat (length inputBits) in
  if (startBit <? 0) || (len <? startBit) then throw (ErrStartOutOfBounds startBit)
  else
    let endBit := if (endBit <=? 0) || (len <? endBit) then len else endBit in
    if endBit <? startBit then throw (ErrStartAfterEnd startBit endBit)
    else
      when verbose (emit (LogStart len startBit endBit)) ;;
      st <- run inputBits endBit commands verbose verboseOnce fuel false
                (mkState startBit []) ;;
      ret (bitsToBytes (outputBits st)).

(** ** Vocabulary of the statements *)

(** [transform] relates the arguments of [applyEdits] to what the call
    returns: the value or error of some run that the fuel did not cut. *)
Definition transform (data : list Z) (commands : list ascii) (startBit endBit : Z)
    (verbose verboseOnce : bool) (r : outcome (list Z)) : Prop :=
  exists fuel,
    result (applyEdits fuel data commands startBit endBit verbose verboseOnce) = r
    /\ r <> OutOfFuel.

(** What one iteration does to the byte under construction. *)
Definition set_bit (j : nat) (bit x : Z) : Z :=
  if bit =? 1 then Z.lor x (Z.shiftl 1 (7 - Z.of_nat j)) else x.

(** The eight iterations that consume the bits of one byte. *)
Definition pack8 (b : Z) : Z :=
  set_bit 7 (bit_of_byte b 7) (set_bit 6 (bit_of_byte b 6)
  (set_bit 5 (bit_of_byte b 5) (set_bit 4 (bit_of_byte b 4)
  (set_bit 3 (bit_of_byte b 3) (set_bit 2 (bit_of_byte b 2)
  (set_bit 1 (bit_of_byte b 1) (set_bit 0 (bit_of_byte b 0) 0))))))).

Definition input_len (data : list Z) : Z := 8 * Z.of_nat (length data).

(** [endBit] after the adjustment at the head of [applyEdits]. *)
Definition adjusted_end (data : list Z) (endBit : Z) : Z :=
  if (endBit <=? 0) || (input_len data <? endBit) then input_len data else endBit.

(** [rest] is empty or starts with a character that stops the scan. *)
Definition stops_at (stop : ascii -> bool) (rest : list ascii) : Prop :=
  match rest with
  | [] => True
  | c :: _ => stop c = true
  end.

(** Two computations that end the same way whatever the logs are. *)
Definition same_outcome {A} (m1 m2 : M A) : Prop :=
  forall log1 log2, fst (m1 log1) = fst (m2 log2).

(** The inputs of the worked examples. *)
Definition ABC3 : list Z := [0x41; 0x42; 0x43; 0x41; 0x42; 0x43; 0x41; 0x42; 0x43].

Definition bits16 : list Z := bytesToBits [0x01; 0x02].

(** ** Vocabulary of the further properties *)

(** The bit values. *)
Definition is_bit (b : Z) : Prop := b = 0 \/ b = 1.

(** [l] cut into consecutive pieces of [n] elements, the last one shorter
    when [n] does not divide the length; [fuel] bounds the number of pieces. *)
Fixpoint chunks_fuel (fuel n : nat) (l : list Z) : list (list Z) :=
  match fuel with
  | O => []
  | S fuel' =>
      match l with
      | [] => []
      | _ :: _ => firstn n l :: chunks_fuel fuel' n (skipn n l)
      end
  end.

Definition chunks (n : nat) (l : list Z) : list (list Z) :=
  chunks_fuel (length l) n l.

(** The bits of the range [startBit, endBit). *)
Definition window (inputBits : list Z) (startBit endBit : Z) : list Z :=
  firstn (Z.to_nat (endBit - startBit)) (skipn (Z.to_nat startBit) inputBits).

(** The byte that the iterations of [bitsToBytes] build from the bits of
    one piece, starting at bit index [j] of the byte. *)
Fixpoint pack_from (j : nat) (chunk : list Z) (x : Z) : Z :=
  match chunk with
  | [] => x
  | bit :: rest => pack_from (S j) rest (set_bit j bit x)
  end.

Definition pack_bits (chunk : list Z) : Z := pack_from 0 chunk 0.

(** How [bitsToBytes] reads an element: [bits[i] == 1] or not. *)
Definition as_bit (b : Z) : Z := if b =? 1 then 1 else 0.

(** The zero bits that fill the last byte. *)
Definition padding (len : nat) : list Z := repeat 0 ((8 - len mod 8) mod 8)%nat.

(** The top-level commands that read a chunk and append its image: the
    command character, its argument text, the count and the function
    applied to every chunk. *)
Inductive chunk_op : ascii -> list ascii -> Z -> (list Z -> list Z) -> Prop :=
| op_take arg n :
    Atoi arg = Some n -> chunk_op "t" arg n (fun chunk => chunk)
| op_invert arg n :
    Atoi arg = Some n -> chunk_op "n" arg n invert_chunk
| op_reverse arg n :
    Atoi arg = Some n -> chunk_op "v" arg n (@rev Z)
| op_byteswap arg n :
    Atoi arg = Some n -> Z.rem n 8 = 0 -> chunk_op "b" arg n byteswap_chunk
| op_logical command num pattern n :
    In command (prog "xao") -> Atoi num = Some n ->
    pattern <> [] -> forallb is_binary pattern = true ->
    chunk_op command (num ++ ":"%char :: pattern) n (logical_chunk command pattern).

(** A chunk function that keeps the length and the bit values and undoes
    itself. *)
Definition self_inverse (f : list Z -> list Z) : Prop :=
  forall l, Forall is_bit l ->
    length (f l) = length l /\ Forall is_bit (f l) /\ f (f l) = l.

(** What a chain made of [n], [v] and [b] computes. *)
Fixpoint plain_chain (sub : list ascii) (chunk : list Z) : list Z :=
  match sub with
  | [] => chunk
  | command :: tl =>
      plain_chain tl
        (if (command =? "n")%char then invert_chunk chunk
         else if (command =? "v")%char then rev chunk
         else byteswap_chunk chunk)
  end.

(** The output holds one bit for every bit the cursor has passed since
    [startBit], and the cursor is not beyond [endBit]. *)
Definition in_step_from (startBit endBit : Z) (st : state) : Prop :=
  Z.of_nat (length (outputBits st)) = inputPos st - startBit
  /\ inputPos st <= endBit.

(** * The Hamming coder ([hamming.go])

    Bits are [uint] values, here [Z]; positions, sizes and the syndrome are
    [int] values that stay far below the word size for every code a machine
    can hold ([m < 63]), here [nat]. *)

Module Hamming.

(** [block[k] = v]; the source only writes inside the block. *)
Fixpoint set_at (k : nat) (v : Z) (block : list Z) : list Z :=
  match block, k with
  | [], _ => []
  | _ :: tl, O => v :: tl
  | x :: tl, S k' => x :: set_at k' v tl
  end.

(** [(i > 0) && ((i & (i - 1)) == 0)]: a parity position. *)
Definition parity_position (i : nat) : bool :=
  (0 <? i)%nat && (Nat.land i (i - 1) =? 0)%nat.

(** [(i > 0) && ((i & (i - 1)) != 0)]: a data position. *)
Definition data_position (i : nat) : bool :=
  (0 <? i)%nat && negb (Nat.land i (i - 1) =? 0)%nat.

(** First loop of [encodeBlock], over the positions [i]; [dataBits] is
    [dataBits[dataBitIndex:]], and running out of it is the index panic. *)
Fixpoint place (positions : list nat) (dataBits block : list Z) : option (list Z) :=
  match positions with
  | [] => Some block
  | i :: rest =>
      if parity_position i then place rest dataBits block
      else match dataBits with
           | [] => None
           | bit :: dataBits' => place rest dataBits' (set_at (i - 1) bit block)
           end
  end.

(** Inner loop of [encodeBlock]: the parity of the positions [j != pPos]
    with [j & pPos != 0]. *)
Definition parity_without (n pPos : nat) (block : list Z) : Z :=
  fold_left
    (fun parity j =>
       if negb (j =? pPos)%nat && negb (Nat.land j pPos =? 0)%nat
       then Z.lxor parity (nth (j - 1) block 0) else parity)
    (seq 1 n) 0.

(** Second loop of [encodeBlock], over the parity indices [i]. *)
Fixpoint set_parities (indices : list nat) (n : nat) (block : list Z) : list Z :=
  match indices with
  | [] => block
  | i :: rest =>
      let pPos := Nat.shiftl 1 i in
      set_parities rest n (set_at (pPos - 1) (parity_without n pPos block) block)
  end.

(** [encodeBlock]; [None] is the index panic on too few data bits. *)
Definition encodeBlock (dataBits : list Z) (m : nat) : option (list Z) :=
  let n := (Nat.shiftl 1 m - 1)%nat in
  match place (seq 1 n) dataBits (repeat 0 n) with
  | None => None
  | Some block => Some (set_parities (seq 0 m) n block)
  end.

(** Inner loop of [calculateSyndrome]. *)
Definition parity_at (n pPos : nat) (block : list Z) : Z :=
  fold_left
    (fun parity j =>
       if negb (Nat.land j pPos =? 0)%nat
       then (if (j - 1 <? length block)%nat
             then Z.lxor parity (nth (j - 1) block 0) else parity)
       else parity)
    (seq 1 n) 0.

Definition calculateSyndrome (block : list Z) (m : nat) : nat :=
  let n := (Nat.shiftl 1 m - 1)%nat in
  fold_left
    (fun syndrome i =>
       let pPos := Nat.shiftl 1 i in
       if negb (parity_at n pPos block =? 0) then (syndrome + pPos)%nat else syndrome)
    (seq 0 m) 0%nat.

(** The lines [decodeBlock] writes to the diagnostic stream. *)
Inductive message : Type :=
| Corrected (blockNum syndrome : nat)
| Uncorrectable (blockNum : nat).

(** [for _, bit := range hammingBlock { overallParity ^= bit }] *)
Definition overall_parity (hammingBlock : list Z) : Z :=
  fold_left Z.lxor hammingBlock 0.

(** [hammingBlock[syndrome-1] ^= 1] under its guard
    [syndrome-1 < len(hammingBlock)], with the message it logs. *)
Definition correct (hammingBlock : list Z) (syndrome : nat) (verbose : bool)
    (blockNum : nat) : list Z * list message :=
  if (syndrome - 1 <? length hammingBlock)%nat
  then (set_at (syndrome - 1) (Z.lxor (nth (syndrome - 1) hammingBlock 0) 1) hammingBlock,
        if verbose then [Corrected blockNum syndrome] else [])
  else (hammingBlock, []).

(** Last loop of [decodeBlock]: the bits at the data positions. *)
Definition data_bits (hammingBlock : list Z) : list Z :=
  flat_map
    (fun i => if data_position i then [nth (i - 1) hammingBlock 0] else [])
    (seq 1 (length hammingBlock)).

(** [decodeBlock]: the data bits and the messages; [None] is the index
    panic of [block[0]] on an empty extended block. *)
Definition decodeBlock (block : list Z) (m : nat) (extended verbose : bool)
    (blockNum : nat) : option (list Z * list message) :=
  if extended then
    match block with
    | [] => None
    | overallParityBit :: hammingBlock =>
        let overallParity := overall_parity hammingBlock in
        let syndrome := calculateSyndrome hammingBlock m in
        let '(hammingBlock', log) :=
          if negb (overallParity =? overallParityBit) then
            if negb (syndrome =? 0)%nat
            then correct hammingBlock syndrome verbose blockNum
            else (hammingBlock, [])
          else if negb (syndrome =? 0)%nat
               then (hammingBlock, [Uncorrectable blockNum])
               else (hammingBlock, []) in
        Some (data_bits hammingBlock', log)
    end
  else
    let syndrome := calculateSyndrome block m in
    let '(hammingBlock', log) :=
      if negb (syndrome =? 0)%nat
      then correct block syndrome verbose blockNum
      else (block, []) in
    Some (data_bits hammingBlock', log).

(** [block[p-1] ^= 1]: the bit at position [p] received in error. *)
Definition flip_bit (p : nat) (block : list Z) : list Z :=
  set_at (p - 1) (Z.lxor (nth (p - 1) block 0) 1) block.

(** The bits [encode] writes for one block: the overall parity first when
    the code is extended, then the block. *)
Definition sent_block (extended : bool) (hammingBlock : list Z) : list Z :=
  if extended then overall_parity hammingBlock :: hammingBlock else hammingBlock.

End Hamming.

Module GoStrings.

(** [strings.Split(s, ",")] *)
Fixpoint Split (s : list ascii) : list (list ascii) :=
  match s with
  | [] => [[]]
  | c :: tl =>
      if (c =? ",")%char then [] :: Split tl
      else match Split tl with
           | part :: parts => (c :: part) :: parts
           | [] => [[c]]
           end
  end.

End GoStrings.
Import GoStrings.

(** * The interleaver, permute mode ([interleaver.go])

    [interleaver.go] has its own copies of [bytesToBits] and [bitsToBytes],
    word for word those of [bit-editor.go]; the definitions above stand for
    both. *)

Module Interleaver.

Inductive failure : Type :=
| ErrNonInteger (part : list ascii)
| ErrNotPermutation.

(** How a call ends: with a value, an error, a runtime panic, or with its
    loop cut by the fuel. *)
Inductive result (A : Type) : Type :=
| Done (a : A)
| Fails (e : failure)
| Panics
| Unfinished.
Arguments Done {A} a.
Arguments Fails {A} e.
Arguments Panics {A}.
Arguments Unfinished {A}.

(** [isPermutation]; [seen] holds the keys set to [true] in the map. *)
Fixpoint isPermutation_from (n : Z) (seen p : list Z) : bool :=
  match p with
  | [] => true
  | val :: rest =>
      if (val <? 0) || (n <=? val) || existsb (Z.eqb val) seen then false
      else isPermutation_from n (val :: seen) rest
  end.

Definition isPermutation (p : list Z) : bool :=
  isPermutation_from (Z.of_nat (length p)) [] p.

(** [s[k] = v]; [None] is the index panic. *)
Definition store (k v : Z) (s : list Z) : option (list Z) :=
  if (0 <=? k) && (k <? Z.of_nat (length s))
  then Some (firstn (Z.to_nat k) s ++ v :: skipn (S (Z.to_nat k)) s)
  else None.

(** [for i, p := range pattern { inverse[p] = i }], from index [i] on. *)
Fixpoint invert_from (i : Z) (pattern inverse : list Z) : option (list Z) :=
  match pattern with
  | [] => Some inverse
  | p :: rest =>
      match store p i inverse with
      | None => None
      | Some inverse' => invert_from (i + 1) rest inverse'
      end
  end.

Definition invertPattern (pattern : list Z) : option (list Z) :=
  invert_from 0 pattern (repeat 0 (length pattern)).

Section Parse.

(** [strings.TrimSpace], left abstract. *)
Variable TrimSpace : list ascii -> list ascii.

(** The loop of [parsePattern]. *)
Fixpoint parse_values (parts : list (list ascii)) : result (list Z) :=
  match parts with
  | [] => Done []
  | p :: rest =>
      match Atoi (TrimSpace p) with
      | None => Fails (ErrNonInteger p)
      | Some val =>
          match parse_values rest with
          | Done vals => Done (val :: vals)
          | r => r
          end
      end
  end.

Definition parsePattern (patternStr : list ascii) : result (list Z) :=
  match parse_values (Split patternStr) with
  | Done pattern => if isPermutation pattern then Done pattern else Fails ErrNotPermutation
  | r => r
  end.

End Parse.

(** [inputChunk[sourceIndex*elementSize:(sourceIndex+1)*elementSize]];
    [source] is the input from the start of the chunk to its end, which is
    what the capacity of [inputChunk] allows to reach. *)
Definition element (source : list Z) (elementSize sourceIndex : Z) : option (list Z) :=
  slice source (sourceIndex * elementSize) ((sourceIndex + 1) * elementSize).

(** The loop over [j]: the copies fill [permutedChunk] from left to right,
    one element of [elementSize] bits each. *)
Fixpoint permute (pattern source : list Z) (elementSize : Z) : option (list Z) :=
  match pattern with
  | [] => Some []
  | sourceIndex :: rest =>
      match element source elementSize sourceIndex with
      | None => None
      | Some bits =>
          match permute rest source elementSize with
          | None => None
          | Some chunk => Some (bits ++ chunk)
          end
      end
  end.

Section Loop.

Variables (inputBits pattern : list Z) (elementSize : Z).

Let blockSize : Z := Z.of_nat (length pattern).
Let blockSizeInBits : Z := wrap (blockSize * elementSize).
Let len : Z := Z.of_nat (length inputBits).

(** [for i := 0; i < len(inputBits); i += blockSizeInBits] *)
Fixpoint interleave_loop (fuel : nat) (i : Z) (outputBits : list Z)
    : result (list Z) :=
  if i <? len then
    match fuel with
    | O => Unfinished
    | S fuel' =>
        let end_ := wrap (i + blockSizeInBits) in
        let end_ := if len <? end_ then len else end_ in
        match slice inputBits i end_ with
        | None => Panics
        | Some inputChunk =>
            if elementSize =? 0 then Panics
            else
              let numElementsInChunk :=
                Z.quot (Z.of_nat (length inputChunk)) elementSize in
              if numElementsInChunk =? blockSize then
                match permute pattern (skipn (Z.to_nat i) inputBits) elementSize with
                | None => Panics
                | Some permutedChunk =>
                    interleave_loop fuel' (wrap (i + blockSizeInBits))
                                    (outputBits ++ permutedChunk)
                end
              else
                interleave_loop fuel' (wrap (i + blockSizeInBits))
                                (outputBits ++ inputChunk)
        end
    end
  else Done outputBits.

End Loop.

(** [processInterleave]; the loop runs at most once per input bit. *)
Definition processInterleave (TrimSpace : list ascii -> list ascii)
    (data : list Z) (patternStr : list ascii) (elementSize : Z) (inverse : bool)
    : result (list Z) :=
  match parsePattern TrimSpace patternStr with
  | Done parsed =>
      match (if inverse then invertPattern parsed else Some parsed) with
      | None => Panics
      | Some pattern =>
          let inputBits := bytesToBits data in
          match interleave_loop inputBits pattern elementSize
                  (length inputBits) 0 [] with
          | Done outputBits => Done (bitsToBytes outputBits)
          | r => r
          end
      end
  | Fails e => Fails e
  | Panics => Panics
  | Unfinished => Unfinished
  end.

End Interleaver.

(** Element [s] of a chunk cut into elements of [es] bits. *)
Definition chunk_element (es : nat) (chunk : list Z) (s : nat) : list Z :=
  firstn es (skipn (s * es) chunk).

(** What [processInterleave] writes for one chunk: a whole block has its
    elements permuted, anything shorter is copied. *)
Definition interleave_chunk (pattern : list Z) (es : nat) (chunk : list Z) : list Z :=
  if (length chunk =? length pattern * es)%nat
  then flat_map (fun s => chunk_element es chunk (Z.to_nat s)) pattern
  else chunk.


(** The bits [processInterleave] packs, for the pattern it ends up using. *)
Definition interleaved (used : list Z) (elementSize : Z) (data : list Z) : list Z :=
  flat_map (interleave_chunk used (Z.to_nat elementSize))
    (chunks (length used * Z.to_nat elementSize) (bytesToBits data)).

(** * lfsr.go *)

(** ** Bit streams over files

    [BitReader] and [BitWriter] of lfsr.go; interleaver.go declares the same
    two types with the same methods. A file is the list of its bytes: reading
    past the last byte is [io.EOF], and no other I/O error is modelled. *)

Module BitReader.

(** [reader] holds the bytes of the file that were not read yet. *)
Record t : Type := mk { reader : list Z; buffer : Z; offset : Z }.

Definition NewBitReader (r : list Z) : t := mk r 0 0.

(** The loop of [Read] with [k] rounds left; [bits] is [bits[:i]], and the
    boolean tells whether the call returns an error. *)
Fixpoint Read_loop (k : nat) (br : t) (bits : list Z) : list Z * bool * t :=
  match k with
  | O => (bits, false, br)
  | S k' =>
      let filled :=
        if (offset br =? 0) || (7 <? offset br) then
          match reader br with
          | [] => None
          | b :: rest => Some (mk rest b 0)
          end
        else Some br in
      match filled with
      | None => (bits, true, br)
      | Some br1 =>
          let bit := Z.land (Z.shiftr (buffer br1) (7 - offset br1)) 1 in
          Read_loop k' (mk (reader br1) (buffer br1) (offset br1 + 1))
                    (bits ++ [bit])
      end
  end.

(** [Read]; [None] is the panic of [make([]byte, n)] on a negative [n]. *)
Definition Read (br : t) (n : Z) : option (list Z * bool * t) :=
  if n <? 0 then None else Some (Read_loop (Z.to_nat n) br []).

End BitReader.

Module BitWriter.

(** [writer] holds the bytes handed to the buffered writer so far. *)
Record t : Type := mk { writer : list Z; buffer : Z; offset : Z }.

Definition NewBitWriter : t := mk [] 0 0.

Definition flushByte (bw : t) : t :=
  if offset bw =? 0 then bw else mk (writer bw ++ [buffer bw]) 0 0.

(** [Write]; [offset] is below 8 whenever a bit comes in, so the shift
    count [7 - offset] is never negative. *)
Fixpoint Write (bw : t) (bits : list Z) : t :=
  match bits with
  | [] => bw
  | bit :: rest =>
      let bw1 :=
        mk (writer bw)
           (if bit =? 1 then Z.lor (buffer bw) (Z.shiftl 1 (7 - offset bw))
            else buffer bw)
           (offset bw + 1) in
      Write (if offset bw1 =? 8 then flushByte bw1 else bw1) rest
  end.

(** [Close]: the bytes of the file once the writer is flushed. *)
Definition Close (bw : t) : list Z := writer (flushByte bw).

End BitWriter.

Module LFSR.

Inductive failure : Type :=
| ErrGenFlags
| ErrCipherFlags
| ErrScrambleFlags
| ErrDescrambleFlags
| ErrEmptyPolynomial
| ErrInvalidTap (p : list ascii)
| ErrTapNotPositive (tap : Z)
| ErrSeedCharacter (char : ascii)
| ErrSeedLength (len degree : Z).

(** How a call ends: with a value, an error, a runtime panic, or with its
    loop cut by the fuel. *)
Inductive result (A : Type) : Type :=
| Done (a : A)
| Fails (e : failure)
| Panics
| Unfinished.
Arguments Done {A} a.
Arguments Fails {A} e.
Arguments Panics {A}.
Arguments Unfinished {A}.

Section Parse.

(** [strings.TrimSpace], left abstract. *)
Variable TrimSpace : list ascii -> list ascii.

(** The first loop of [parsePoly]. *)
Fixpoint parse_taps (parts : list (list ascii)) (taps : list Z) : result (list Z) :=
  match parts with
  | [] => Done taps
  | p :: rest =>
      match Atoi (TrimSpace p) with
      | None => Fails (ErrInvalidTap p)
      | Some tap =>
          if tap <=? 0 then Fails (ErrTapNotPositive tap)
          else parse_taps rest (taps ++ [tap])
      end
  end.

(** The second loop of [parsePoly]. *)
Definition highest (taps : list Z) : Z :=
  fold_left (fun degree tap => if degree <? tap then tap else degree) taps 0.

Definition parsePoly (polyStr : list ascii) : result (list Z * Z) :=
  let parts := Split polyStr in
  if (length parts =? 0)%nat then Fails ErrEmptyPolynomial
  else match parse_taps parts [] with
       | Done taps => Done (taps, highest taps)
       | Fails e => Fails e
       | Panics => Panics
       | Unfinished => Unfinished
       end.

End Parse.

(** [parseSeed] on a string of one-byte characters; with a longer
    character the error names the character that starts at this byte. *)
Fixpoint parseSeed (seedStr : list ascii) : result (list Z) :=
  match seedStr with
  | [] => Done []
  | char :: rest =>
      if (char =? "1")%char then
        match parseSeed rest with
        | Done seed => Done (1 :: seed)
        | r => r
        end
      else if (char =? "0")%char then
        match parseSeed rest with
        | Done seed => Done (0 :: seed)
        | r => r
        end
      else Fails (ErrSeedCharacter char)
  end.

(** [state[k]]; [None] is the index panic. *)
Definition index (state : list Z) (k : Z) : option Z :=
  if (0 <=? k) && (k <? Z.of_nat (length state))
  then nth_error state (Z.to_nat k) else None.

(** [for _, tap := range poly { feedbackBit ^= state[tap-1] }] *)
Fixpoint feedback (poly state : list Z) (feedbackBit : Z) : option Z :=
  match poly with
  | [] => Some feedbackBit
  | tap :: rest =>
      match index state (wrap (tap - 1)) with
      | None => None
      | Some bit => feedback rest state (Z.lxor feedbackBit bit)
      end
  end.

(** [copy(state[1:], state[:degree-1]); state[0] = bit]; [None] is the
    panic of a slice expression out of range. *)
Definition shift (state : list Z) (degree bit : Z) : option (list Z) :=
  let high := wrap (degree - 1) in
  if (1 <=? Z.of_nat (length state)) && (0 <=? high)
     && (high <=? Z.of_nat (length state))
  then let n := Nat.min (length state - 1) (Z.to_nat high) in
       Some (bit :: firstn n state ++ skipn (1 + n) state)
  else None.

(** The loop of [runGenMode], with [count] rounds left. *)
Fixpoint gen_loop (count : nat) (poly : list Z) (degree : Z) (state : list Z)
    (bitWriter : BitWriter.t) : result BitWriter.t :=
  match count with
  | O => Done bitWriter
  | S count' =>
      match index state (wrap (degree - 1)) with
      | None => Panics
      | Some outputBit =>
          let bitWriter := BitWriter.Write bitWriter [outputBit] in
          match feedback poly state 0 with
          | None => Panics
          | Some feedbackBit =>
              match shift state degree feedbackBit with
              | None => Panics
              | Some state' => gen_loop count' poly degree state' bitWriter
              end
          end
      end
  end.

(** What the three reading loops do with the data bit they read. *)
Inductive mode : Type := Cipher | Scramble | Descramble.

(** One round of the loop of [runCipherMode], [runScrambleMode] or
    [runDescrambleMode] after the read: the bit written and the next state. *)
Definition round (md : mode) (poly : list Z) (degree : Z) (state : list Z)
    (dataBit : Z) : option (Z * list Z) :=
  match md with
  | Cipher =>
      match index state (wrap (degree - 1)) with
      | None => None
      | Some keystreamBit =>
          match feedback poly state 0 with
          | None => None
          | Some feedbackBit =>
              match shift state degree feedbackBit with
              | None => None
              | Some state' => Some (Z.lxor dataBit keystreamBit, state')
              end
          end
      end
  | Scramble =>
      match feedback poly state 0 with
      | None => None
      | Some feedbackBit =>
          let outputBit := Z.lxor dataBit feedbackBit in
          match shift state degree outputBit with
          | None => None
          | Some state' => Some (outputBit, state')
          end
      end
  | Descramble =>
      match feedback poly state 0 with
      | None => None
      | Some feedbackBit =>
          let outputBit := Z.lxor dataBit feedbackBit in
          match shift state degree dataBit with
          | None => None
          | Some state' => Some (outputBit, state')
          end
      end
  end.

(** The [for { ... }] loop of the three modes that read a file. *)
Fixpoint read_loop (fuel : nat) (md : mode) (poly : list Z) (degree : Z)
    (state : list Z) (bitReader : BitReader.t) (bitWriter : BitWriter.t)
    : result BitWriter.t :=
  match fuel with
  | O => Unfinished
  | S fuel' =>
      match BitReader.Read bitReader 1 with
      | None => Panics
      | Some (dataBitSlice, err, bitReader') =>
          if err : bool then Done bitWriter
          else match dataBitSlice with
               | [] => Done bitWriter
               | dataBit :: _ =>
                   match round md poly degree state dataBit with
                   | None => Panics
                   | Some (outputBit, state') =>
                       read_loop fuel' md poly degree state' bitReader'
                                 (BitWriter.Write bitWriter [outputBit])
                   end
               end
      end
  end.

(** [make([]byte, degree)], taken to succeed whenever [degree] is not
    negative. *)
Definition zero_state (degree : Z) : option (list Z) :=
  if degree <? 0 then None else Some (repeat 0 (Z.to_nat degree)).

Section Modes.

Variable TrimSpace : list ascii -> list ascii.

(** [runGenMode]: the bytes of the output file. *)
Definition runGenMode (polyStr seedStr : list ascii) (numBits : Z)
    : result (list Z) :=
  match polyStr, seedStr with
  | [], _ | _, [] => Fails ErrGenFlags
  | _, _ =>
      if numBits <=? 0 then Fails ErrGenFlags
      else
        match parsePoly TrimSpace polyStr with
        | Done (poly, degree) =>
            match parseSeed seedStr with
            | Done state =>
                if negb (Z.of_nat (length state) =? degree)
                then Fails (ErrSeedLength (Z.of_nat (length state)) degree)
                else
                  match gen_loop (Z.to_nat numBits) poly degree state
                          BitWriter.NewBitWriter with
                  | Done bitWriter => Done (BitWriter.Close bitWriter)
                  | Fails e => Fails e
                  | Panics => Panics
                  | Unfinished => Unfinished
                  end
            | Fails e => Fails e
            | Panics => Panics
            | Unfinished => Unfinished
            end
        | Fails e => Fails e
        | Panics => Panics
        | Unfinished => Unfinished
        end
  end.

(** The reading loop on the bytes [input] of the input file; one round per
    input bit and one for the end of the file. *)
Definition run_loop (md : mode) (poly : list Z) (degree : Z) (state input : list Z)
    : result (list Z) :=
  match read_loop (S (8 * length input)) md poly degree state
          (BitReader.NewBitReader input) BitWriter.NewBitWriter with
  | Done bitWriter => Done (BitWriter.Close bitWriter)
  | Fails e => Fails e
  | Panics => Panics
  | Unfinished => Unfinished
  end.

(** [runCipherMode] on the bytes of the input file. *)
Definition runCipherMode (polyStr seedStr : list ascii) (input : list Z)
    : result (list Z) :=
  match polyStr, seedStr with
  | [], _ | _, [] => Fails ErrCipherFlags
  | _, _ =>
      match parsePoly TrimSpace polyStr with
      | Done (poly, degree) =>
          match parseSeed seedStr with
          | Done state =>
              if negb (Z.of_nat (length state) =? degree)
              then Fails (ErrSeedLength (Z.of_nat (length state)) degree)
              else run_loop Cipher poly degree state input
          | Fails e => Fails e
          | Panics => Panics
          | Unfinished => Unfinished
          end
      | Fails e => Fails e
      | Panics => Panics
      | Unfinished => Unfinished
      end
  end.

(** The body shared by [runScrambleMode] and [runDescrambleMode]. *)
Definition feed_through (md : mode) (missing : failure) (polyStr : list ascii)
    (input : list Z) : result (list Z) :=
  match polyStr with
  | [] => Fails missing
  | _ =>
      match parsePoly TrimSpace polyStr with
      | Done (poly, degree) =>
          match zero_state degree with
          | None => Panics
          | Some state => run_loop md poly degree state input
          end
      | Fails e => Fails e
      | Panics => Panics
      | Unfinished => Unfinished
      end
  end.

Definition runScrambleMode : list ascii -> list Z -> result (list Z) :=
  feed_through Scramble ErrScrambleFlags.

Definition runDescrambleMode : list ascii -> list Z -> result (list Z) :=
  feed_through Descramble ErrDescrambleFlags.

End Modes.

End LFSR.

(** ** The register as a function *)

(** The feedback of a register: the sum modulo 2 of its tapped cells. *)
Definition taps_sum (poly state : list Z) : Z :=
  fold_left (fun sum tap => Z.lxor sum (nth (Z.to_nat (tap - 1)) state 0)) poly 0.

(** The register after one shift that brings [bit] in. *)
Definition shifted (bit : Z) (state : list Z) : list Z :=
  bit :: removelast state.

(** The first [n] bits an autonomous register puts out. *)
Fixpoint keystream (poly state : list Z) (n : nat) : list Z :=
  match n with
  | O => []
  | S n' => last state 0 :: keystream poly (shifted (taps_sum poly state) state) n'
  end.

(** Two sequences combined element by element with exclusive or. *)
Fixpoint xor_each (a b : list Z) : list Z :=
  match a, b with
  | x :: a', y :: b' => Z.lxor x y :: xor_each a' b'
  | _, _ => []
  end.

(** The self-synchronising scrambler: each output bit enters the register. *)
Fixpoint scrambled (poly state bits : list Z) : list Z :=
  match bits with
  | [] => []
  | dataBit :: rest =>
      let outputBit := Z.lxor dataBit (taps_sum poly state) in
      outputBit :: scrambled poly (shifted outputBit state) rest
  end.

(** The descrambler: each input bit enters the register. *)
Fixpoint descrambled (poly state bits : list Z) : list Z :=
  match bits with
  | [] => []
  | dataBit :: rest =>
      Z.lxor dataBit (taps_sum poly state)
      :: descrambled poly (shifted dataBit state) rest
  end.

(** The bits a reader has still to deliver: the rest of the byte in its
    buffer, then the bytes of the file not read yet. *)
Definition unread (br : BitReader.t) : list Z :=
  (if (BitReader.offset br =? 0) || (7 <? BitReader.offset br) then []
   else skipn (Z.to_nat (BitReader.offset br)) (bytesToBits [BitReader.buffer br]))
  ++ bytesToBits (BitReader.reader br).

(** The bits written by a reading loop whose round is [f]. *)
Fixpoint outputs (f : list Z -> Z -> Z * list Z) (state bits : list Z) : list Z :=
  match bits with
  | [] => []
  | dataBit :: rest =>
      let '(outputBit, state') := f state dataBit in
      outputBit :: outputs f state' rest
  end.

(** One round of a register in each mode, as a function: the bit put out
    and the next state. *)
Definition tick (md : LFSR.mode) (poly state : list Z) (dataBit : Z) : Z * list Z :=
  match md with
  | LFSR.Cipher =>
      (Z.lxor dataBit (last state 0), shifted (taps_sum poly state) state)
  | LFSR.Scramble =>
      (Z.lxor dataBit (taps_sum poly state),
       shifted (Z.lxor dataBit (taps_sum poly state)) state)
  | LFSR.Descramble =>
      (Z.lxor dataBit (taps_sum poly state), shifted dataBit state)
  end.

(** The parity loops, as one fold with a condition [c] on the position. *)
Definition xor_over (c : nat -> bool) (block : list Z) (positions : list nat)
    (parity : Z) : Z :=
  fold_left
    (fun parity j => if c j then Z.lxor parity (nth (j - 1) block 0) else parity)
    positions parity.

(** * hamming.go: whole files *)

Module HammingFile.

Import Hamming.

(** How a call ends: with a value, with [log.Fatal], with a runtime panic,
    or with its loop cut by the fuel. *)
Inductive result (A : Type) : Type :=
| Done (a : A)
| Fatal
| Panics
| Unfinished.
Arguments Done {A} a.
Arguments Fatal {A}.
Arguments Panics {A}.
Arguments Unfinished {A}.

Module bitReader.

Record t : Type := mk { data : list Z; byte : Z; bit : Z }.

Definition newBitReader (data : list Z) : t := mk data 0 0.

(** [Read]; the boolean tells whether the call returns an error. The
    argument [n] is not used by the source. *)
Definition Read (r : t) (n : Z) : Z * bool * t :=
  if Z.of_nat (length (data r)) <=? byte r then (0, true, r)
  else
    let val :=
      Z.land (Z.shiftr (nth (Z.to_nat (byte r)) (data r) 0) (7 - bit r)) 1 in
    (val, false,
     if bit r + 1 =? 8 then mk (data r) (byte r + 1) 0
     else mk (data r) (byte r) (bit r + 1)).

End bitReader.

Module bitWriter.

Record t : Type := mk { data : list Z; byte : Z; bit : Z }.

Definition newBitWriter : t := mk [] 0 0.

(** The loop of [Write] from [i] on, with [rounds] rounds left. *)
Fixpoint Write_from (rounds : nat) (i : Z) (val n : Z) (w : t) : t :=
  match rounds with
  | O => w
  | S rounds' =>
      let b := Z.land (Z.shiftr val (n - 1 - i)) 1 in
      let byte' := Z.lor (byte w) (Z.shiftl b (7 - bit w) mod 256) in
      Write_from rounds' (i + 1) val n
        (if bit w + 1 =? 8 then mk (data w ++ [byte']) 0 0
         else mk (data w) byte' (bit w + 1))
  end.

Definition Write (w : t) (val n : Z) : t := Write_from (Z.to_nat n) 0 val n w.

Definition Bytes (w : t) : list Z :=
  if 0 <? bit w then data w ++ [byte w] else data w.

End bitWriter.

(** [for _, bit := range bits { writer.Write(bit, 1) }] *)
Definition write_bits (writer : bitWriter.t) (bits : list Z) : bitWriter.t :=
  fold_left (fun w bit => bitWriter.Write w bit 1) bits writer.

(** The first loop of [encode]: the 64 bits of [size], highest first. *)
Definition write_size (size : Z) (writer : bitWriter.t) : bitWriter.t :=
  fold_left
    (fun w i => bitWriter.Write w (Z.land (Z.shiftr size (63 - Z.of_nat i)) 1) 1)
    (seq 0 64) writer.

(** [for i := 1; i < k; i++ { bit, _ := reader.Read(1); dataBits[i] = bit }];
    [dataBits] holds the elements set so far. *)
Fixpoint read_rest (count : nat) (reader : bitReader.t) (dataBits : list Z)
    : list Z * bitReader.t :=
  match count with
  | O => (dataBits, reader)
  | S count' =>
      let '(bit, _, reader') := bitReader.Read reader 1 in
      read_rest count' reader' (dataBits ++ [bit])
  end.

(** The [for { ... }] loop of [encode]. *)
Fixpoint encode_loop (fuel : nat) (m k : nat) (extended : bool)
    (reader : bitReader.t) (writer : bitWriter.t) : result bitWriter.t :=
  match fuel with
  | O => Unfinished
  | S fuel' =>
      let '(firstBit, err, reader1) := bitReader.Read reader 1 in
      if err : bool then Done writer
      else if (k =? 0)%nat then Panics
      else
        let '(dataBits, reader2) := read_rest (k - 1) reader1 [firstBit] in
        match encodeBlock dataBits m with
        | None => Panics
        | Some hammingBlock =>
            let writer1 :=
              if extended
              then bitWriter.Write writer (overall_parity hammingBlock) 1
              else writer in
            encode_loop fuel' m k extended reader2 (write_bits writer1 hammingBlock)
        end
  end.

(** [encode], for an [m] small enough for [1 << m] not to overflow; the
    loop runs at most once per data bit and once more. *)
Definition encode (data : list Z) (m : nat) (extended : bool) : result (list Z) :=
  let k := (Nat.shiftl 1 m - 1 - m)%nat in
  let reader := bitReader.newBitReader data in
  let writer := write_size (Z.of_nat (length data)) bitWriter.newBitWriter in
  match encode_loop (S (8 * length data)) m k extended reader writer with
  | Done writer' => Done (bitWriter.Bytes writer')
  | Fatal => Fatal
  | Panics => Panics
  | Unfinished => Unfinished
  end.

(** The first loop of [decode]; [None] is the fatal error of a missing
    size. *)
Fixpoint read_size (count : nat) (reader : bitReader.t) (size : Z)
    : option (Z * bitReader.t) :=
  match count with
  | O => Some (size, reader)
  | S count' =>
      let '(bit, err, reader') := bitReader.Read reader 1 in
      if err : bool then None
      else read_size count' reader' (Z.lor (Z.shiftl size 1 mod 2 ^ 64) bit)
  end.

(** The loop that fills [block]; [block] holds the [readCount] bits read. *)
Fixpoint read_block (count : nat) (reader : bitReader.t) (block : list Z)
    : list Z * bitReader.t :=
  match count with
  | O => (block, reader)
  | S count' =>
      let '(bit, err, reader') := bitReader.Read reader 1 in
      if err : bool then (block, reader')
      else read_block count' reader' (block ++ [bit])
  end.

(** The [for { ... }] loop of [decode], with the messages logged so far. *)
Fixpoint decode_loop (fuel : nat) (m n : nat) (extended verbose : bool)
    (reader : bitReader.t) (writer : bitWriter.t) (blockNum : nat)
    (log : list message) : result (bitWriter.t * list message) :=
  match fuel with
  | O => Unfinished
  | S fuel' =>
      let '(block, reader') := read_block n reader [] in
      if (length block <? n)%nat then Done (writer, log)
      else match decodeBlock block m extended verbose blockNum with
           | None => Panics
           | Some (dataBits, messages) =>
               decode_loop fuel' m n extended verbose reader'
                           (write_bits writer dataBits) (S blockNum)
                           (log ++ messages)
           end
  end.

(** [decode] with its loop cut after [fuel] rounds: the bytes returned and
    the messages logged. *)
Definition decode_within (fuel : nat) (data : list Z) (m : nat)
    (extended verbose : bool) : result (list Z * list message) :=
  let n_orig := (Nat.shiftl 1 m - 1)%nat in
  let n := if extended then S n_orig else n_orig in
  match read_size 64 (bitReader.newBitReader data) 0 with
  | None => Fatal
  | Some (size, reader) =>
      match decode_loop fuel m n extended verbose reader
              bitWriter.newBitWriter 0 [] with
      | Done (writer, log) =>
          let decodedData := bitWriter.Bytes writer in
          Done (if size <? Z.of_nat (length decodedData)
                then firstn (Z.to_nat size) decodedData
                else decodedData,
                log)
      | Fatal => Fatal
      | Panics => Panics
      | Unfinished => Unfinished
      end
  end.

(** [decode]; when blocks are not empty the loop runs at most once per
    input bit and once more. *)
Definition decode (data : list Z) (m : nat) (extended verbose : bool)
    : result (list Z * list message) :=
  decode_within (S (8 * length data)) data m extended verbose.

End HammingFile.

(** The bits a reader of hamming.go has still to deliver. *)
Definition to_read (r : HammingFile.bitReader.t) : list Z :=
  skipn (Z.to_nat (8 * HammingFile.bitReader.byte r + HammingFile.bitReader.bit r))
        (bytesToBits (HammingFile.bitReader.data r)).

(** A chunk of data bits filled up with zero bits to [k] bits. *)
Definition filled (k : nat) (chunk : list Z) : list Z :=
  chunk ++ repeat 0 (k - length chunk).

(** The 64 bits of a size, highest first. *)
Definition size_bits (size : Z) : list Z :=
  map (fun i => Z.land (Z.shiftr size (63 - Z.of_nat i)) 1) (seq 0 64).

(** What [encode] writes for one block of data bits. *)
Definition encoded (m : nat) (extended : bool) (dataBits : list Z) : list Z :=
  match Hamming.encodeBlock dataBits m with
  | Some hammingBlock => Hamming.sent_block extended hammingBlock
  | None => []
  end.

(** [decodeBlock] along the blocks of a file, numbered from [blockNum]: the
    data bits and the messages. *)
Fixpoint decode_blocks (m : nat) (extended verbose : bool) (blockNum : nat)
    (blocks : list (list Z)) : list Z * list Hamming.message :=
  match blocks with
  | [] => ([], [])
  | block :: rest =>
      match Hamming.decodeBlock block m extended verbose blockNum with
      | None => ([], [])
      | Some (dataBits, messages) =>
          let '(bits, log) := decode_blocks m extended verbose (S blockNum) rest in
          (dataBits ++ bits, messages ++ log)
      end
  end.

(** The state of a reader of hamming.go between two calls. *)
Definition reading (r : HammingFile.bitReader.t) : Prop :=
  0 <= HammingFile.bitReader.byte r /\ 0 <= HammingFile.bitReader.bit r < 8.

(** The file received with one bit in error: bit [q], counted from the
    highest bit of the first byte, is flipped. *)
Definition bit_flipped (q : nat) (file : list Z) : list Z :=
  bitsToBytes (Hamming.flip_bit (S q) (bytesToBits file)).

(** * crc.go: table-driven cyclic redundancy checks

    A register of width 8, 16 or 32 is a [Z] in [0, 2^width). The source
    writes its three widths out one by one; the loops, which differ in the
    width only, are modelled once and instantiated. *)

Module CRC.

(** The loop of [reflect8], [reflect16] and [reflect32] for the width
    [width]: [if data&(1<<i) != 0 { r |= 1 << (width-1-i) }] for [i] from
    0 to [width-1]. No shift leaves the width. *)
Definition reflect_bits (width : nat) (data : Z) : Z :=
  fold_left
    (fun r i =>
       if negb (Z.land data (Z.shiftl 1 (Z.of_nat i)) =? 0)
       then Z.lor r (Z.shiftl 1 (Z.of_nat width - 1 - Z.of_nat i))
       else r)
    (seq 0 width) 0.

Definition reflect8 (data : Z) : Z := reflect_bits 8 data.
Definition reflect16 (data : Z) : Z := reflect_bits 16 data.
Definition reflect32 (data : Z) : Z := reflect_bits 32 data.

(** One round of the inner loop of [makeTable8] and [makeTable16]:
    [if (crc&1) == 1 { crc = (crc >> 1) ^ poly } else { crc >>= 1 }]. *)
Definition table_round (poly crc : Z) : Z :=
  if Z.land crc 1 =? 1 then Z.lxor (Z.shiftr crc 1) poly else Z.shiftr crc 1.

(** The table: entry [i] is [i] after eight rounds. *)
Definition make_table (poly : Z) : list Z :=
  map (fun i => Nat.iter 8 (table_round poly) (Z.of_nat i)) (seq 0 256).

Definition makeTable8 (poly : Z) : list Z := make_table poly.
Definition makeTable16 (poly : Z) : list Z := make_table poly.

(** [crc32.MakeTable] of the Go library fills its table by the same two
    loops, on 32 bits. *)
Definition MakeTable (poly : Z) : list Z := make_table poly.

(** [table[byte(crc)^b] ^ (crc >> 8)] *)
Definition update (table : list Z) (crc b : Z) : Z :=
  Z.lxor (nth (Z.to_nat (Z.lxor (crc mod 256) b)) table 0) (Z.shiftr crc 8).

Definition calculateCRC32 (data : list Z) (poly initVal xorOut : Z) : Z :=
  let reflectedPoly := reflect32 poly in
  let table := MakeTable reflectedPoly in
  Z.lxor (fold_left (update table) data initVal) xorOut.

Definition calculateCRC16 (data : list Z) (poly initVal xorOut : Z) : Z :=
  let reflectedPoly := reflect16 poly in
  let table := makeTable16 reflectedPoly in
  Z.lxor (fold_left (update table) data initVal) xorOut.

(** Here the register is a byte: [crc = table[crc^b]]. *)
Definition calculateCRC8 (data : list Z) (poly initVal xorOut : Z) : Z :=
  let reflectedPoly := reflect8 poly in
  let table := makeTable8 reflectedPoly in
  Z.lxor (fold_left (fun crc b => nth (Z.to_nat (Z.lxor crc b)) table 0) data initVal)
         xorOut.

End CRC.

(** The register after the eight bits of the byte [b] went through the
    shift register, lowest bit first, one bit per round. *)
Definition shifted_in (poly crc b : Z) : Z :=
  Nat.iter 8 (CRC.table_round poly) (Z.lxor crc b).

(** The check computed bit by bit, without a table. *)
Definition bitwise_crc (poly : Z) (data : list Z) (initVal xorOut : Z) : Z :=
  Z.lxor (fold_left (shifted_in poly) data initVal) xorOut.

(** The bytes of the text [123456789], the usual check input. *)
Definition check_input : list Z := [49; 50; 51; 52; 53; 54; 55; 56; 57].

(** The [count] bytes of [c] from the lowest on, as one appends a check to
    the message it protects. *)
Fixpoint low_bytes (count : nat) (c : Z) : list Z :=
  match count with
  | O => []
  | S count' => c mod 256 :: low_bytes count' (Z.shiftr c 8)
  end.

(** What the check of a message followed by its own check comes to. *)
Definition residue (width : nat) (poly xorOut : Z) : Z :=
  Z.lxor (Nat.iter width (CRC.table_round poly) xorOut) xorOut.

(** ** The packing loop *)

Lemma bytesToBits_length (data : list Z) :
  length (bytesToBits data) = (8 * length data)%nat.
Proof.
  induction data as [|b data IH]; [reflexivity|].
  unfold bytesToBits in *. cbn [flat_map]. rewrite length_app, IH.
  rewrite length_map, length_seq. cbn [length]. lia.
Qed.

Lemma or_at_middle (done : list Z) (x v : Z) (zs : list Z) :
  or_at (length done) v (done ++ x :: zs) = done ++ Z.lor x v :: zs.
Proof.
  induction done as [|d done IH]; cbn; [reflexivity|]. now rewrite IH.
Qed.

Lemma loop_one_bit (k j : nat) (bit : Z) (rest done : list Z) (x : Z) (zs : list Z) :
  (j < 8)%nat -> length done = k ->
  bitsToBytes_loop (8 * k + j) (bit :: rest) (done ++ x :: zs)
  = bitsToBytes_loop (8 * k + S j) rest (done ++ set_bit j bit x :: zs).
Proof.
  intros Hj Hk. cbn [bitsToBytes_loop].
  replace ((8 * k + j) / 8)%nat with k.
  2:{ rewrite Nat.mul_comm, Nat.div_add_l by lia.
      rewrite (Nat.div_small j 8) by lia. lia. }
  replace ((8 * k + j) mod 8)%nat with j.
  2:{ rewrite Nat.add_comm, Nat.mul_comm, Nat.Div0.mod_add.
      now rewrite Nat.mod_small. }
  replace (S (8 * k + j)) with (8 * k + S j)%nat by lia.
  f_equal. unfold set_bit. destruct (bit =? 1); [|reflexivity].
  subst k. apply or_at_middle.
Qed.

Lemma pack8_id (b : Z) : is_byte b -> pack8 b = b.
Proof.
  intros Hb.
  assert (Hall : forallb (fun n => pack8 (Z.of_nat n) =? Z.of_nat n) (seq 0 256) = true)
    by (vm_compute; reflexivity).
  rewrite forallb_forall in Hall.
  specialize (Hall (Z.to_nat b)).
  rewrite Z2Nat.id in Hall by (unfold is_byte in Hb; lia).
  apply Z.eqb_eq, Hall, in_seq. unfold is_byte in Hb. lia.
Qed.

Lemma loop_one_byte (b : Z) (rest done zs : list Z) :
  is_byte b ->
  bitsToBytes_loop (8 * length done) (map (bit_of_byte b) (seq 0 8) ++ rest)
                   (done ++ 0 :: zs)
  = bitsToBytes_loop (8 * length (done ++ [b])) rest ((done ++ [b]) ++ zs).
Proof.
  intros Hb. cbn [seq map app].
  replace (8 * length done)%nat with (8 * length done + 0)%nat at 1 by lia.
  do 8 (rewrite loop_one_bit by (reflexivity || lia)).
  fold (pack8 b). rewrite (pack8_id b Hb).
  rewrite length_app, <- app_assoc. cbn [length app].
  f_equal. lia.
Qed.

Lemma loop_bytes (B done : list Z) :
  Forall is_byte B ->
  bitsToBytes_loop (8 * length done) (bytesToBits B) (done ++ repeat 0 (length B))
  = done ++ B.
Proof.
  intros HB. revert done.
  induction HB as [|b B Hb HB IH]; intros done.
  - cbn. reflexivity.
  - unfold bytesToBits. cbn [flat_map length repeat].
    fold (bytesToBits B).
    rewrite loop_one_byte by assumption.
    rewrite IH, <- app_assoc. reflexivity.
Qed.

(** ** Fuel *)

Section Fuel.

Variables (inputBits : list Z) (endBit : Z) (commands : list ascii).
Variables verbose verboseOnce : bool.

Let loop := run inputBits endBit commands verbose verboseOnce.

Lemma run_more_fuel (fuel k : nat) :
  forall logPrinted st log,
    fst (loop fuel logPrinted st log) <> OutOfFuel ->
    loop (fuel + k) logPrinted st log = loop fuel logPrinted st log.
Proof.
  subst loop.
  induction fuel as [|fuel IH]; intros logPrinted st log Hrun.
  - destruct k as [|k]; [reflexivity|].
    cbn in *. destruct (inputPos st <? endBit); [|reflexivity].
    destruct commands; [reflexivity|]. now contradiction Hrun.
  - cbn [Nat.add run] in *.
    destruct (inputPos st <? endBit); [|reflexivity].
    destruct commands as [|c cs]; [reflexivity|].
    unfold bind in *.
    destruct (run_pass _ _ _ _ _ _ _) as [[st'| | |] log']; try reflexivity.
    now apply IH.
Qed.

End Fuel.

Lemma applyEdits_more_fuel (fuel k : nat) data commands startBit endBit verbose verboseOnce :
  result (applyEdits fuel data commands startBit endBit verbose verboseOnce) <> OutOfFuel ->
  applyEdits (fuel + k) data commands startBit endBit verbose verboseOnce []
  = applyEdits fuel data commands startBit endBit verbose verboseOnce [].
Proof.
  unfold result, applyEdits.
  destruct (_ || _); [reflexivity|].
  match goal with |- context [if ?e <? startBit then _ else _] =>
    destruct (e <? startBit); [reflexivity|] end.
  unfold bind. intros Hrun.
  destruct (when verbose _ []) as [[[]| | |] log] eqn:Hlog; try reflexivity.
  rewrite run_more_fuel; [reflexivity|].
  intros Hcut. apply Hrun.
  destruct (run _ _ _ _ _ fuel _ _ _) as [[st| | |] log']; cbn in *; congruence.
Qed.

(** Runs that the fuel did not cut agree: [transform] is a partial function. *)
Lemma transform_functional data commands startBit endBit verbose verboseOnce r1 r2 :
  transform data commands startBit endBit verbose verboseOnce r1 ->
  transform data commands startBit endBit verbose verboseOnce r2 ->
  r1 = r2.
Proof.
  intros [f1 [H1 N1]] [f2 [H2 N2]]. subst r1 r2. unfold result in *.
  rewrite <- (applyEdits_more_fuel f1 f2) by exact N1.
  rewrite <- (applyEdits_more_fuel f2 f1) by exact N2.
  now rewrite Nat.add_comm.
Qed.

(** ** Bit packing round trip *)

Lemma bit_of_byte_testbit (b : Z) (j : nat) :
  (j < 8)%nat ->
  bit_of_byte b j = Z.b2z (Z.testbit b (7 - Z.of_nat j)).
Proof.
  intros Hj. unfold bit_of_byte.
  change 1 with (Z.ones 1) at 1. rewrite Z.land_ones by lia.
  change (2 ^ 1) with 2. rewrite <- Z.bit0_mod.
  rewrite Z.shiftr_spec by lia. rewrite Z.add_0_l.
  now destruct (Z.testbit b (7 - Z.of_nat j)).
Qed.

Lemma bytesToBits_nth (B : list Z) :
  forall i j, (i < length B)%nat -> (j < 8)%nat ->
    nth (i * 8 + j) (bytesToBits B) 0
    = bit_of_byte (nth i B 0) j.
Proof.
  induction B as [|b B IH]; intros i j Hi Hj; [cbn in Hi; lia|].
  unfold bytesToBits. cbn [flat_map].
  fold (bytesToBits B).
  destruct i as [|i].
  - rewrite app_nth1 by (rewrite length_map, length_seq; lia).
    cbn [Nat.mul Nat.add nth].
    do 8 (destruct j as [|j]; [reflexivity|]). lia.
  - rewrite app_nth2 by (rewrite length_map, length_seq; lia).
    rewrite length_map, length_seq.
    replace (S i * 8 + j - 8)%nat with (i * 8 + j)%nat by lia.
    cbn [nth]. apply IH; [cbn in Hi; lia | exact Hj].
Qed.

(** C7. For every byte sequence [B], unpacking it to one bit per element
    (most significant bit first, [8 * len B] bits) and packing those bits
    again gives back exactly [B]. *)
Theorem bitsToBytes_bytesToBits (B : list Z) :
  Forall is_byte B ->
  length (bytesToBits B) = (8 * length B)%nat
  /\ (forall i j, (i < length B)%nat -> (j < 8)%nat ->
        nth (i * 8 + j) (bytesToBits B) 0
        = Z.b2z (Z.testbit (nth i B 0) (7 - Z.of_nat j)))
  /\ bitsToBytes (bytesToBits B) = B.
Proof.
  intros HB. split; [apply bytesToBits_length|]. split.
  - intros i j Hi Hj. rewrite bytesToBits_nth by assumption.
    now apply bit_of_byte_testbit.
  - unfold bitsToBytes.
    rewrite bytesToBits_length.
    replace ((8 * length B + 7) / 8)%nat with (length B).
    2:{ apply Nat.div_unique with (r := 7%nat); lia. }
    apply (loop_bytes B [] HB).
Qed.

Lemma bitsToBytes_bytesToBits_witness :
  bitsToBytes (bytesToBits [0x41; 0xB0; 0xFF; 0]) = [0x41; 0xB0; 0xFF; 0].
Proof.
  apply (bitsToBytes_bytesToBits [0x41; 0xB0; 0xFF; 0]).
  repeat constructor; unfold is_byte; lia.
Defined.

(** ** Concrete programs *)

Ltac run_with fuel :=
  exists fuel; split; [vm_compute; reflexivity | discriminate].

Ltac refute_by H :=
  let Hr := fresh in
  intros Hr; pose proof (transform_functional _ _ _ _ _ _ _ _ Hr H); discriminate.

Lemma invert_rev_commute (chunk : list Z) :
  invert_chunk (rev chunk) = rev (invert_chunk chunk).
Proof. unfold invert_chunk. apply map_rev. Qed.

(** C1, as the code has it. Over the full range of the input byte 0xB0 the
    block program "[vn]8" produces 0xF2, and "[nv]8" produces 0xF2 too:
    inverting and reversing a chunk commute, so on every chunk the chains
    "vn" and "nv" return the same bits. *)
Theorem block_vn_nv_same_output :
  transform [0xB0] (prog "[vn]8") 0 0 false false (Ok [0xF2])
  /\ transform [0xB0] (prog "[nv]8") 0 0 false false (Ok [0xF2])
  /\ forall chunk verbose,
       result (applyBlockOps chunk (prog "vn") verbose)
       = result (applyBlockOps chunk (prog "nv") verbose).
Proof.
  split; [run_with 1%nat|]. split; [run_with 1%nat|].
  intros chunk verbose. unfold result.
  destruct verbose; cbn; now rewrite invert_rev_commute.
Qed.

(** C1 as stated fails: "[nv]8" on 0xB0 does not produce 0x4F. *)
Lemma block_nv_not_0x4F :
  ~ (transform [0xB0] (prog "[vn]8") 0 0 false false (Ok [0xF2])
     /\ transform [0xB0] (prog "[nv]8") 0 0 false false (Ok [0x4F])).
Proof.
  intros [_ H4F].
  assert (HF2 : transform [0xB0] (prog "[nv]8") 0 0 false false (Ok [0xF2]))
    by run_with 1%nat.
  revert H4F. refute_by HF2.
Qed.

(** C2, as the code has it. "s16t8" over the full range of the nine bytes
    "ABCABCABC" skips two bytes and takes the third of every group: the
    output is [0x43, 0x43, 0x43]. *)
Theorem skip16_take8_every_third_byte :
  transform ABC3 (prog "s16t8") 0 0 false false (Ok [0x43; 0x43; 0x43]).
Proof. run_with 3%nat. Qed.

(** C2 as stated fails: the output is not [0x42, 0x42, 0x42]. *)
Lemma skip16_take8_not_0x42 :
  ~ transform ABC3 (prog "s16t8") 0 0 false false (Ok [0x42; 0x42; 0x42]).
Proof.
  assert (H43 : transform ABC3 (prog "s16t8") 0 0 false false (Ok [0x43; 0x43; 0x43]))
    by run_with 3%nat.
  refute_by H43.
Qed.

(** ** Range handling *)

Lemma bits_len (data : list Z) :
  Z.of_nat (length (bytesToBits data)) = input_len data.
Proof. rewrite bytesToBits_length. unfold input_len. lia. Qed.

Lemma adjusted_end_le (data : list Z) (endBit : Z) :
  adjusted_end data endBit <= input_len data.
Proof.
  unfold adjusted_end. destruct (_ || _) eqn:Hb; [lia|].
  apply orb_false_iff in Hb. lia.
Qed.

(** C5. An end that is [<= 0] or beyond the input is replaced by the input
    length in bits; a start outside [0, 8 * len] is a range error; a start
    beyond the adjusted end is a range error; start 4 with end 2 is a range
    error on every input. *)
Theorem range_handling (fuel : nat) (data : list Z) (commands : list ascii)
    (startBit endBit : Z) (verbose verboseOnce : bool) :
  (endBit <= 0 \/ input_len data < endBit ->
     applyEdits fuel data commands startBit endBit verbose verboseOnce
     = applyEdits fuel data commands startBit (input_len data) verbose verboseOnce)
  /\ (startBit < 0 \/ input_len data < startBit ->
        result (applyEdits fuel data commands startBit endBit verbose verboseOnce)
        = Failed (ErrStartOutOfBounds startBit))
  /\ (0 <= startBit <= input_len data -> adjusted_end data endBit < startBit ->
        result (applyEdits fuel data commands startBit endBit verbose verboseOnce)
        = Failed (ErrStartAfterEnd startBit (adjusted_end data endBit)))
  /\ (exists e,
        result (applyEdits fuel data commands 4 2 verbose verboseOnce) = Failed e
        /\ class_of e = RangeError).
Proof.
  unfold applyEdits, adjusted_end. rewrite bits_len.
  repeat split.
  - intros Hend.
    assert (Hn : (endBit <=? 0) || (input_len data <? endBit) = true)
      by (apply orb_true_iff; lia).
    assert (Hl : (input_len data <=? 0) || (input_len data <? input_len data)
                 = (input_len data <=? 0)) by (rewrite Z.ltb_irrefl; apply orb_false_r).
    rewrite Hn, Hl. now destruct (input_len data <=? 0).
  - intros Hstart.
    assert (Hs : (startBit <? 0) || (input_len data <? startBit) = true)
      by (apply orb_true_iff; lia).
    now rewrite Hs.
  - intros Hstart Hend.
    assert (Hs : (startBit <? 0) || (input_len data <? startBit) = false)
      by (apply orb_false_iff; lia).
    rewrite Hs. apply Z.ltb_lt in Hend. now rewrite Hend.
  - destruct ((4 <? 0) || (input_len data <? 4)) eqn:Hs.
    + now exists (ErrStartOutOfBounds 4).
    + apply orb_false_iff in Hs. destruct Hs as [_ Hs]. apply Z.ltb_ge in Hs.
      assert (Hn : (2 <=? 0) || (input_len data <? 2) = false)
        by (apply orb_false_iff; split; [reflexivity | apply Z.ltb_ge; lia]).
      rewrite Hn. now exists (ErrStartAfterEnd 4 2).
Qed.

Lemma range_handling_witness :
  result (applyEdits 1 [0x41] (prog "t8") 9 0 false false) = Failed (ErrStartOutOfBounds 9)
  /\ result (applyEdits 1 [0x41] (prog "t8") 5 3 false false) = Failed (ErrStartAfterEnd 5 3)
  /\ applyEdits 1 [0x41] (prog "t8") 0 (-1) true false
     = applyEdits 1 [0x41] (prog "t8") 0 8 true false.
Proof.
  pose proof (range_handling 1 [0x41] (prog "t8") 9 0 false false) as [_ [H1 _]].
  pose proof (range_handling 1 [0x41] (prog "t8") 5 3 false false) as [_ [_ [H2 _]]].
  pose proof (range_handling 1 [0x41] (prog "t8") 0 (-1) true false) as [H3 _].
  split; [apply H1; right; reflexivity|].
  split; [apply H2; [split; discriminate | reflexivity]|].
  apply H3. left. discriminate.
Defined.

(** ** Reading chunks *)

Lemma wrap_in_range (z : Z) : min_int <= z <= max_int -> wrap z = z.
Proof.
  unfold wrap, min_int, max_int. intros Hz.
  rewrite Z.mod_small by lia. lia.
Qed.

Lemma read_end_le (endBit pos count : Z) : read_end endBit pos count <= endBit.
Proof. unfold read_end. destruct (endBit <? wrap (pos + count)) eqn:H; lia. Qed.

Lemma read_end_min (endBit pos count : Z) :
  min_int <= pos + count <= max_int ->
  read_end endBit pos count = Z.min (pos + count) endBit.
Proof.
  intros H. unfold read_end. rewrite wrap_in_range by exact H.
  destruct (endBit <? pos + count) eqn:Hlt; lia.
Qed.

Lemma slice_Some (s : list Z) (lo hi : Z) (chunk : list Z) :
  slice s lo hi = Some chunk ->
  0 <= lo <= hi /\ hi <= Z.of_nat (length s)
  /\ chunk = firstn (Z.to_nat (hi - lo)) (skipn (Z.to_nat lo) s)
  /\ Z.of_nat (length chunk) = hi - lo.
Proof.
  unfold slice. destruct (_ && _) eqn:Hb; [|discriminate].
  intros [= <-]. apply andb_true_iff in Hb. destruct Hb as [Hb H3].
  apply andb_true_iff in Hb. destruct Hb as [H1 H2].
  rewrite length_firstn, length_skipn. repeat split; lia.
Qed.

Lemma slice_in_range (s : list Z) (lo hi : Z) :
  0 <= lo <= hi -> hi <= Z.of_nat (length s) ->
  exists chunk, slice s lo hi = Some chunk.
Proof.
  intros H1 H2. unfold slice.
  assert (Hb : (0 <=? lo) && (lo <=? hi) && (hi <=? Z.of_nat (length s)) = true)
    by (rewrite !andb_true_iff; lia).
  rewrite Hb. eauto.
Qed.

(** A successful [consume] reads inside the window and stops at its end. *)
Lemma consume_Ok inputBits endBit f count st st' log log' :
  consume inputBits endBit f count st log = (Ok st', log') ->
  exists chunk,
    slice inputBits (inputPos st) (read_end endBit (inputPos st) count) = Some chunk
    /\ st' = mkState (read_end endBit (inputPos st) count) (outputBits st ++ f chunk)
    /\ log' = log.
Proof.
  unfold consume, read_chunk, bind.
  destruct (slice _ _ _) as [chunk|]; cbn; [|discriminate].
  intros [= <- <-]. eauto.
Qed.

Lemma Atoi_range (s : list ascii) (v : Z) :
  Atoi s = Some v -> min_int <= v <= max_int.
Proof.
  unfold Atoi.
  destruct (match s with
            | [] => (false, [])
            | c :: tl => if (c =? "-")%char then (true, tl)
                         else if (c =? "+")%char then (false, tl) else (false, s)
            end) as [neg ds].
  destruct ds; [discriminate|].
  destruct (digits_value 0 (a :: ds)) as [u|]; [|discriminate].
  destruct ((min_int <=? (if neg then - u else u))
            && ((if neg then - u else u) <=? max_int)) eqn:Hb; [|discriminate].
  intros [= <-]. apply andb_true_iff in Hb. lia.
Qed.

(** Beyond the largest [int] the sum of the cursor and a count wraps to a
    negative number. *)
Lemma wrap_overflow (z : Z) :
  max_int < z <= 2 * max_int -> wrap z = z - 2 ^ 64 /\ wrap z < 0.
Proof.
  unfold wrap, max_int. intros Hz.
  replace (z + 2 ^ 63) with (z - 2 ^ 64 + 2 ^ 63 + 1 * 2 ^ 64) by lia.
  rewrite Z.mod_add by lia. rewrite Z.mod_small by lia. lia.
Qed.

(** A read whose count is negative, or whose end [inputPos + count] does
    not fit an [int], is a slice expression out of range: the clamp does not
    apply and the call panics. *)
Lemma consume_panics inputBits endBit f count st log :
  0 <= inputPos st <= endBit -> endBit <= max_int ->
  min_int <= count <= max_int ->
  count < 0 \/ max_int < inputPos st + count ->
  consume inputBits endBit f count st log = (Panic, log).
Proof.
  intros Hpos Hend Hcount Hbad.
  assert (Hread : read_end endBit (inputPos st) count < inputPos st).
  { unfold read_end. destruct Hbad as [Hneg|Hover].
    - rewrite wrap_in_range by (unfold min_int, max_int in *; lia).
      destruct (endBit <? inputPos st + count) eqn:Hlt; lia.
    - destruct (wrap_overflow (inputPos st + count)) as [_ Hw];
        [unfold max_int in *; lia|].
      destruct (endBit <? wrap (inputPos st + count)) eqn:Hlt; lia. }
  unfold consume, read_chunk, bind, slice.
  destruct (Z.leb_spec (inputPos st) (read_end endBit (inputPos st) count)); [lia|].
  now rewrite andb_false_r.
Qed.

(** A read whose count is not negative and whose end fits an [int] is
    clamped to the end of the window and succeeds. *)
Lemma consume_clamped inputBits endBit f count st log :
  0 <= inputPos st <= endBit -> endBit <= Z.of_nat (length inputBits) ->
  0 <= count -> inputPos st + count <= max_int ->
  exists chunk,
    slice inputBits (inputPos st) (Z.min (inputPos st + count) endBit) = Some chunk
    /\ consume inputBits endBit f count st log
       = (Ok (mkState (Z.min (inputPos st + count) endBit) (outputBits st ++ f chunk)),
          log).
Proof.
  intros Hpos Hend Hcount Hfit.
  destruct (slice_in_range inputBits (inputPos st) (Z.min (inputPos st + count) endBit))
    as [chunk Hchunk]; [lia | lia |].
  exists chunk. split; [exact Hchunk|].
  unfold consume, read_chunk, bind.
  rewrite read_end_min by (unfold min_int; lia). now rewrite Hchunk.
Qed.

(** ** Byte swapping *)

Lemma flat_map_blocks_length (f : nat -> list Z) (l : list nat) :
  (forall i, In i l -> length (f i) = 8%nat) ->
  length (flat_map f l) = (length l * 8)%nat.
Proof.
  induction l as [|a l IH]; intros Hf; [reflexivity|].
  cbn [flat_map length]. rewrite length_app, Hf by now left.
  rewrite IH by (intros; apply Hf; now right). lia.
Qed.

Lemma flat_map_blocks_nth (f : nat -> list Z) (l : list nat) :
  (forall i, In i l -> length (f i) = 8%nat) ->
  forall k j d, (k < length l)%nat -> (j < 8)%nat ->
    nth (k * 8 + j) (flat_map f l) d = nth j (f (nth k l O)) d.
Proof.
  induction l as [|a l IH]; intros Hf k j d Hk Hj; [cbn in Hk; lia|].
  cbn [flat_map]. destruct k as [|k].
  - rewrite app_nth1 by (rewrite Hf by (now left); lia). reflexivity.
  - rewrite app_nth2 by (rewrite Hf by (now left); lia).
    rewrite Hf by now left.
    replace (S k * 8 + j - 8)%nat with (k * 8 + j)%nat by lia.
    cbn [nth]. apply IH; [intros; apply Hf; now right | cbn in Hk; lia | exact Hj].
Qed.

Lemma byte_at_length (chunk : list Z) (i : nat) :
  (i * 8 + 8 <= length chunk)%nat -> length (byte_at chunk (i * 8)) = 8%nat.
Proof. intros H. unfold byte_at. rewrite length_firstn, length_skipn. lia. Qed.

Lemma byte_at_nth (chunk : list Z) (k j : nat) (d : Z) :
  (j < 8)%nat -> nth j (byte_at chunk k) d = nth (k + j) chunk d.
Proof.
  intros Hj. unfold byte_at. rewrite nth_firstn.
  destruct (Nat.ltb_spec j 8); [|lia]. apply nth_skipn.
Qed.

Lemma whole_bytes_fit (chunk : list Z) (i : nat) :
  (i < length chunk / 8)%nat -> (i * 8 + 8 <= length chunk)%nat.
Proof.
  intros Hi. pose proof (Nat.div_mod_eq (length chunk) 8).
  pose proof (Nat.mod_upper_bound (length chunk) 8). lia.
Qed.

Lemma byteswap_chunk_app (chunk : list Z) :
  byteswap_chunk chunk
  = flat_map (fun i => byte_at chunk (i * 8)) (rev (seq 0 (length chunk / 8)))
    ++ skipn (length chunk / 8 * 8) chunk.
Proof.
  unfold byteswap_chunk. f_equal.
  destruct (Nat.eqb_spec (length chunk mod 8) 0) as [H0|]; [|reflexivity].
  symmetry. apply skipn_all2.
  pose proof (Nat.div_mod_eq (length chunk) 8). lia.
Qed.

Lemma byteswap_blocks (chunk : list Z) (i : nat) :
  In i (rev (seq 0 (length chunk / 8))) -> length (byte_at chunk (i * 8)) = 8%nat.
Proof.
  intros Hi. apply in_rev, in_seq in Hi.
  apply byte_at_length, whole_bytes_fit. lia.
Qed.

Lemma byteswap_chunk_length (chunk : list Z) :
  length (byteswap_chunk chunk) = length chunk.
Proof.
  rewrite byteswap_chunk_app, length_app.
  rewrite flat_map_blocks_length by apply byteswap_blocks.
  rewrite length_rev, length_seq, length_skipn.
  pose proof (Nat.div_mod_eq (length chunk) 8). lia.
Qed.

Lemma byteswap_chunk_whole (chunk : list Z) (k j : nat) (d : Z) :
  (k < length chunk / 8)%nat -> (j < 8)%nat ->
  nth (k * 8 + j) (byteswap_chunk chunk) d
  = nth ((length chunk / 8 - 1 - k) * 8 + j) chunk d.
Proof.
  intros Hk Hj. rewrite byteswap_chunk_app.
  rewrite app_nth1.
  2:{ rewrite flat_map_blocks_length by apply byteswap_blocks.
      rewrite length_rev, length_seq. lia. }
  rewrite flat_map_blocks_nth;
    [| apply byteswap_blocks | rewrite length_rev, length_seq; lia | exact Hj].
  rewrite rev_nth by (rewrite length_seq; lia).
  rewrite length_seq, seq_nth by lia.
  rewrite byte_at_nth by exact Hj.
  f_equal. lia.
Qed.

Lemma byteswap_chunk_tail (chunk : list Z) (i : nat) (d : Z) :
  (length chunk / 8 * 8 <= i)%nat ->
  nth i (byteswap_chunk chunk) d = nth i chunk d.
Proof.
  intros Hi. rewrite byteswap_chunk_app.
  rewrite app_nth2;
    rewrite flat_map_blocks_length by apply byteswap_blocks;
    rewrite length_rev, length_seq; [|lia].
  rewrite nth_skipn. f_equal. lia.
Qed.

Lemma simple_op_b inputBits endBit argStr st :
  simple_op inputBits endBit "b" argStr st
  = match Atoi argStr with
    | None => throw (ErrBadNumericArg "b" argStr)
    | Some count =>
        if negb (Z.rem count 8 =? 0) then throw (ErrByteSwapMultiple count)
        else consume inputBits endBit byteswap_chunk count st
    end.
Proof. reflexivity. Qed.

(** C6. Top-level byte swap [b<n>]. A count that is not a multiple of 8 is
    an invalid-argument error whatever the cursor and the window are. A
    multiple of 8 that is not negative, with the cursor plus the count
    within an [int], reads the chunk clamped to the end of the window and
    appends its whole bytes in reversed order, followed by the bits after
    the last whole byte, in place; "b32" over the four bytes 01 02 03 04
    produces 04 03 02 01. A multiple of 8 that is negative, or that makes
    the cursor plus the count overflow, escapes the clamp and panics on the
    slice expression: "b9223372036854775800" from bit 8 of a two-byte input
    returns neither bytes nor an error. *)
Theorem top_level_byteswap (inputBits : list Z) (endBit : Z) (argStr : list ascii)
    (n : Z) (st : state) :
  Atoi argStr = Some n ->
  (Z.rem n 8 <> 0 ->
     result (simple_op inputBits endBit "b" argStr st) = Failed (ErrByteSwapMultiple n)
     /\ class_of (ErrByteSwapMultiple n) = InvalidArgument)
  /\ (Z.rem n 8 = 0 -> 0 <= n -> inputPos st + n <= max_int ->
      0 <= inputPos st <= endBit -> endBit <= Z.of_nat (length inputBits) ->
      exists chunk out,
        slice inputBits (inputPos st) (Z.min (inputPos st + n) endBit) = Some chunk
        /\ result (simple_op inputBits endBit "b" argStr st)
           = Ok (mkState (Z.min (inputPos st + n) endBit) (outputBits st ++ out))
        /\ length out = length chunk
        /\ (forall k j, (k < length chunk / 8)%nat -> (j < 8)%nat ->
              nth (k * 8 + j) out 0
              = nth ((length chunk / 8 - 1 - k) * 8 + j) chunk 0)
        /\ (forall i, (length chunk / 8 * 8 <= i)%nat -> nth i out 0 = nth i chunk 0))
  /\ (Z.rem n 8 = 0 -> n < 0 \/ max_int < inputPos st + n ->
      0 <= inputPos st <= endBit -> endBit <= max_int ->
      result (simple_op inputBits endBit "b" argStr st) = Panic)
  /\ transform [0x01; 0x02; 0x03; 0x04] (prog "b32") 0 0 false false
       (Ok [0x04; 0x03; 0x02; 0x01])
  /\ transform [0x01; 0x02] (prog "b9223372036854775800") 8 0 false false Panic.
Proof.
  intros Hn. unfold result. rewrite simple_op_b, Hn.
  split; [|split; [|split; [|split]]].
  - intros Hrem. apply Z.eqb_neq in Hrem. rewrite Hrem. now split.
  - intros Hrem Hnn Hfit Hpos Hend. apply Z.eqb_eq in Hrem. rewrite Hrem.
    cbn [negb]. unfold consume, read_chunk, bind.
    rewrite read_end_min by (unfold min_int; lia).
    destruct (slice_in_range inputBits (inputPos st) (Z.min (inputPos st + n) endBit))
      as [chunk Hchunk]; [lia | lia |].
    rewrite Hchunk. exists chunk, (byteswap_chunk chunk).
    split; [reflexivity|]. split; [reflexivity|].
    split; [apply byteswap_chunk_length|].
    split; [intros; now apply byteswap_chunk_whole | intros; now apply byteswap_chunk_tail].
  - intros Hrem Hbad Hpos Hend. apply Z.eqb_eq in Hrem. rewrite Hrem.
    cbn [negb]. rewrite consume_panics; try assumption; [reflexivity|].
    now apply Atoi_range in Hn.
  - run_with 1%nat.
  - run_with 1%nat.
Qed.

Lemma top_level_byteswap_witness :
  result (simple_op (bytesToBits [1; 2; 3]) 20 "b" (prog "12") (mkState 0 []))
  = Failed (ErrByteSwapMultiple 12)
  /\ (exists out,
        result (simple_op (bytesToBits [1; 2; 3]) 20 "b" (prog "32") (mkState 0 []))
        = Ok (mkState 20 out)
        /\ length out = 20%nat)
  /\ result (simple_op (bytesToBits [1; 2; 3]) 20 "b" (prog "-8") (mkState 4 []))
     = Panic.
Proof.
  split; [|split].
  - apply (top_level_byteswap (bytesToBits [1; 2; 3]) 20 (prog "12") 12
             (mkState 0 []) eq_refl).
    discriminate.
  - destruct (top_level_byteswap (bytesToBits [1; 2; 3]) 20 (prog "32") 32
                (mkState 0 []) eq_refl) as [_ [H _]].
    destruct H as [chunk [out [Hc [Hr [Hlen _]]]]];
      [reflexivity | discriminate | discriminate | split; discriminate
      | cbn; discriminate |].
    exists out. split; [exact Hr|].
    rewrite Hlen. apply slice_Some in Hc. cbn in Hc. lia.
  - destruct (top_level_byteswap (bytesToBits [1; 2; 3]) 20 (prog "-8") (-8)
                (mkState 4 []) eq_refl) as [_ [_ [H _]]].
    apply H; [reflexivity | left; reflexivity | split; discriminate | discriminate].
Defined.

(** ** Argument scanning *)

Lemma ContainsRune_In (set : list ascii) (c : ascii) :
  ContainsRune set c = true <-> In c set.
Proof.
  unfold ContainsRune. rewrite existsb_exists. split.
  - intros [d [Hd Heq]]. apply Ascii.eqb_eq in Heq. now subst d.
  - intros Hc. exists c. split; [exact Hc | apply Ascii.eqb_refl].
Qed.

Lemma take_until_split (stop : ascii -> bool) (text : list ascii) :
  exists rest,
    text = take_until stop text ++ rest
    /\ Forall (fun c => stop c = false) (take_until stop text)
    /\ stops_at stop rest.
Proof.
  induction text as [|c text [rest [Heq [Hall Hstop]]]].
  - exists []. cbn. auto.
  - cbn [take_until]. destruct (stop c) eqn:Hc.
    + exists (c :: text). cbn. auto.
    + exists rest. cbn [app]. rewrite <- Heq. auto.
Qed.

Lemma take_until_app (stop : ascii -> bool) (arg rest : list ascii) :
  Forall (fun c => stop c = false) arg -> stops_at stop rest ->
  take_until stop (arg ++ rest) = arg.
Proof.
  intros Harg Hrest. induction Harg as [|c arg Hc Harg IH].
  - destruct rest as [|d rest]; [reflexivity|]. cbn in *. now rewrite Hrest.
  - cbn. now rewrite Hc, IH.
Qed.

Lemma block_loop_skip (verbose : bool) (used rest : list ascii) (chunk : list Z) :
  block_loop verbose (used ++ rest) (length used) chunk
  = block_loop verbose rest 0 chunk.
Proof. induction used as [|c used IH]; [reflexivity | exact IH]. Qed.

(** One logical command of a chain, with its argument run up to [rest]. *)
Lemma block_loop_logical (verbose : bool) (command : ascii) (arg rest : list ascii)
    (chunk : list Z) (log : list event) :
  ContainsRune (prog "xao") command = true ->
  Forall (fun c => block_stop c = false) arg -> stops_at block_stop rest ->
  block_loop verbose (command :: arg ++ rest) 0 chunk log
  = (when verbose (emit (LogBlockOp (commandNames command) arg)) ;;
     chunk' <- block_op command arg chunk ;;
     block_loop verbose rest 0 chunk') log.
Proof.
  intros Hc Harg Hrest. cbn [block_loop]. rewrite Hc.
  rewrite take_until_app by assumption.
  unfold bind.
  destruct (when verbose _ log) as [[[]| | |] log1]; try reflexivity.
  destruct (block_op command arg chunk log1) as [[chunk'| | |] log2]; try reflexivity.
  apply (f_equal (fun m => m log2)), block_loop_skip.
Qed.

Lemma IndexRune_first (pre post : list ascii) (c : ascii) :
  ~ In c pre -> IndexRune (pre ++ c :: post) c = Some (length pre).
Proof.
  induction pre as [|d pre IH]; intros Hpre; cbn.
  - now rewrite Ascii.eqb_refl.
  - destruct (Ascii.eqb_spec d c) as [->|_]; [contradiction Hpre; now left|].
    rewrite IH by (intros H; apply Hpre; now right). reflexivity.
Qed.

Lemma SplitN2_first (pre post : list ascii) :
  ~ In ":"%char pre -> SplitN2 (pre ++ ":"%char :: post) = [pre; post].
Proof.
  intros Hpre. unfold SplitN2. rewrite IndexRune_first by exact Hpre.
  rewrite firstn_app, Nat.sub_diag, firstn_all, app_nil_r. cbn [firstn].
  replace (S (length pre)) with (length (pre ++ [":"%char]))
    by (rewrite length_app; cbn; lia).
  replace (pre ++ ":"%char :: post) with ((pre ++ [":"%char]) ++ post)
    by (now rewrite <- app_assoc).
  rewrite skipn_app, Nat.sub_diag, skipn_all. reflexivity.
Qed.

Lemma Contains_colon_first (pre post : list ascii) :
  ~ In ":"%char pre -> Contains_colon (pre ++ ":"%char :: post) = true.
Proof.
  intros Hpre. unfold Contains_colon. now rewrite IndexRune_first.
Qed.

(** Inside a chain a logical command with a separator and a nonempty
    pattern always succeeds. *)
Lemma block_op_logical (command : ascii) (pre pattern : list ascii) (chunk : list Z) :
  ContainsRune (prog "xao") command = true ->
  ~ In ":"%char pre -> pattern <> [] ->
  block_op command (pre ++ ":"%char :: pattern) chunk
  = ret (logical_chunk command pattern chunk).
Proof.
  intros Hc Hpre Hpat. unfold block_op.
  apply ContainsRune_In in Hc. cbn in Hc.
  rewrite Contains_colon_first, SplitN2_first by exact Hpre. cbn [negb nth].
  destruct pattern as [|p pattern]; [contradiction|].
  destruct Hc as [<-|[<-|[<-|[]]]]; reflexivity.
Qed.

Lemma logical_chunk_length (command : ascii) (pattern : list ascii) (chunk : list Z) :
  length (logical_chunk command pattern chunk) = length chunk.
Proof.
  unfold logical_chunk. rewrite length_map, length_combine, length_seq. lia.
Qed.

Lemma logical_chunk_nth (command : ascii) (pattern : list ascii) (chunk : list Z) (i : nat) :
  (i < length chunk)%nat ->
  nth i (logical_chunk command pattern chunk) 0
  = logical_op command (nth i chunk 0) (patternBit pattern i).
Proof.
  intros Hi. unfold logical_chunk.
  rewrite nth_indep with (d' := logical_op command (snd (O, 0)) (patternBit pattern (fst (O, 0))))
    by (rewrite length_map, length_combine, length_seq; lia).
  rewrite (map_nth (fun ib => logical_op command (snd ib) (patternBit pattern (fst ib)))).
  rewrite combine_nth by apply length_seq.
  rewrite seq_nth by exact Hi. reflexivity.
Qed.

(** ** Diagnostics do not influence outcomes *)

Lemma same_ret {A} (a : A) : same_outcome (ret a) (ret a).
Proof. intros l1 l2. reflexivity. Qed.

Lemma same_throw {A} (e : error) : same_outcome (@throw A e) (throw e).
Proof. intros l1 l2. reflexivity. Qed.

Lemma same_panic {A} : same_outcome (@panic A) panic.
Proof. intros l1 l2. reflexivity. Qed.

Lemma same_out_of_fuel {A} : same_outcome (@out_of_fuel A) out_of_fuel.
Proof. intros l1 l2. reflexivity. Qed.

Lemma same_bind {A B} (m1 m2 : M A) (f1 f2 : A -> M B) :
  same_outcome m1 m2 -> (forall a, same_outcome (f1 a) (f2 a)) ->
  same_outcome (bind m1 f1) (bind m2 f2).
Proof.
  intros Hm Hf l1 l2. unfold bind. specialize (Hm l1 l2).
  destruct (m1 l1) as [[a1| | |] l1'], (m2 l2) as [[a2| | |] l2'];
    cbn in Hm; try discriminate; try reflexivity; injection Hm as ->.
  - apply Hf.
  - reflexivity.
Qed.

Lemma same_log_l {A} (b : bool) (ev : event) (m1 m2 : M A) :
  same_outcome m1 m2 -> same_outcome (when b (emit ev) ;; m1) m2.
Proof. intros Hm l1 l2. destruct b; apply Hm. Qed.

Lemma same_log_r {A} (b : bool) (ev : event) (m1 m2 : M A) :
  same_outcome m1 m2 -> same_outcome m1 (when b (emit ev) ;; m2).
Proof. intros Hm l1 l2. destruct b; apply Hm. Qed.

Create HintDb quiet.
#[local] Hint Resolve same_ret same_throw same_panic same_out_of_fuel : quiet.

(** Splits on every test a log-free computation makes. *)
Ltac quiet :=
  repeat match goal with
         | |- same_outcome (if ?b then _ else _) _ => destruct b
         | |- same_outcome (match ?x with _ => _ end) _ => destruct x
         | |- same_outcome (bind _ _) (bind _ _) => apply same_bind; [|intros ?]
         end;
  auto with quiet.

Lemma block_op_quiet command argStr chunk :
  same_outcome (block_op command argStr chunk) (block_op command argStr chunk).
Proof. unfold block_op. quiet. Qed.

Lemma block_loop_same (v1 v2 : bool) (text : list ascii) :
  forall skip chunk,
    same_outcome (block_loop v1 text skip chunk) (block_loop v2 text skip chunk).
Proof.
  induction text as [|command tl IH]; intros skip chunk; cbn [block_loop].
  - apply same_ret.
  - destruct skip as [|k]; [|apply IH].
    apply same_log_l, same_log_r, same_bind; [apply block_op_quiet|].
    intros chunk'. apply IH.
Qed.

Section SameEngine.

Variables (inputBits : list Z) (endBit : Z).

Lemma read_chunk_quiet pos count :
  same_outcome (read_chunk inputBits endBit pos count)
               (read_chunk inputBits endBit pos count).
Proof. unfold read_chunk. quiet. Qed.

Lemma consume_quiet f count st :
  same_outcome (consume inputBits endBit f count st)
               (consume inputBits endBit f count st).
Proof. unfold consume. apply same_bind; [apply read_chunk_quiet | intros; apply same_ret]. Qed.

#[local] Hint Resolve consume_quiet : quiet.

Lemma simple_op_quiet command argStr st :
  same_outcome (simple_op inputBits endBit command argStr st)
               (simple_op inputBits endBit command argStr st).
Proof. unfold simple_op. quiet. Qed.

Lemma block_command_same (l1 l2 : bool) tl st :
  same_outcome (block_command inputBits endBit l1 tl st)
               (block_command inputBits endBit l2 tl st).
Proof.
  unfold block_command.
  destruct (IndexRune tl "]") as [k|]; [|apply same_throw].
  destruct (take_until _ _) as [|d num]; [apply same_throw|].
  destruct (Atoi (d :: num)) as [count|]; [|apply same_throw].
  apply same_log_l, same_log_r, same_bind; [apply read_chunk_quiet|].
  intros chunk. apply same_bind; [apply block_loop_same|].
  intros processed. apply same_log_l, same_log_r, same_ret.
Qed.

Lemma simple_command_same (l1 l2 : bool) command tl st :
  same_outcome (simple_command inputBits endBit l1 command tl st)
               (simple_command inputBits endBit l2 command tl st).
Proof.
  unfold simple_command.
  apply same_log_l, same_log_r, same_bind; [apply simple_op_quiet|].
  intros st'. apply same_log_l, same_log_r, same_ret.
Qed.

Lemma exec_command_same (l1 l2 : bool) command tl st :
  same_outcome (exec_command inputBits endBit l1 command tl st)
               (exec_command inputBits endBit l2 command tl st).
Proof.
  unfold exec_command.
  destruct (command =? "[")%char;
    [apply block_command_same | apply simple_command_same].
Qed.

Lemma run_pass_same (l1 l2 : bool) (text : list ascii) :
  forall skip st,
    same_outcome (run_pass inputBits endBit l1 text skip st)
                 (run_pass inputBits endBit l2 text skip st).
Proof.
  induction text as [|command tl IH]; intros skip st; cbn [run_pass].
  - apply same_ret.
  - destruct skip as [|k]; [|apply IH].
    destruct (endBit <=? inputPos st); [apply same_ret|].
    apply same_bind; [apply exec_command_same|].
    intros r. apply IH.
Qed.

Lemma run_same (commands : list ascii) (v1 o1 v2 o2 : bool) (fuel : nat) :
  forall p1 p2 st,
    same_outcome (run inputBits endBit commands v1 o1 fuel p1 st)
                 (run inputBits endBit commands v2 o2 fuel p2 st).
Proof.
  induction fuel as [|fuel IH]; intros p1 p2 st; cbn [run];
    destruct (inputPos st <? endBit); try apply same_ret;
    destruct commands as [|c cs]; try apply same_ret.
  - apply same_out_of_fuel.
  - apply same_bind; [apply run_pass_same|].
    intros st'. apply IH.
Qed.

End SameEngine.

Lemma applyEdits_same (fuel : nat) data commands startBit endBit (v1 o1 v2 o2 : bool) :
  result (applyEdits fuel data commands startBit endBit v1 o1)
  = result (applyEdits fuel data commands startBit endBit v2 o2).
Proof.
  unfold result.
  enough (H : same_outcome (applyEdits fuel data commands startBit endBit v1 o1)
                           (applyEdits fuel data commands startBit endBit v2 o2))
    by apply H.
  unfold applyEdits.
  destruct (_ || _); [apply same_throw|].
  match goal with |- context [if ?e <? startBit then _ else _] =>
    destruct (e <? startBit); [apply same_throw|] end.
  apply same_log_l, same_log_r, same_bind; [apply run_same|].
  intros st. apply same_ret.
Qed.

(** C8. The two verbosity flags never influence what the transform
    returns: with any combination of flags every run returns the output
    bytes, or the error, of the run with both flags off (whatever the
    number of passes allowed), and the returned value is a function of the
    arguments. *)
Theorem verbosity_does_not_change_result
    (data : list Z) (commands : list ascii) (startBit endBit : Z)
    (verbose verboseOnce : bool) :
  (forall fuel,
     result (applyEdits fuel data commands startBit endBit verbose verboseOnce)
     = result (applyEdits fuel data commands startBit endBit false false))
  /\ (forall r,
        transform data commands startBit endBit verbose verboseOnce r
        <-> transform data commands startBit endBit false false r)
  /\ (forall r1 r2,
        transform data commands startBit endBit verbose verboseOnce r1 ->
        transform data commands startBit endBit verbose verboseOnce r2 ->
        r1 = r2).
Proof.
  split; [intros fuel; apply applyEdits_same|]. split.
  - intros r. unfold transform. split; intros [fuel [Hr Hcut]]; exists fuel;
      (split; [|exact Hcut]); rewrite <- Hr; apply applyEdits_same.
  - intros r1 r2. apply transform_functional.
Qed.

(** ** Logical commands inside a block chain *)

Lemma simple_op_logical inputBits endBit command argStr st :
  ContainsRune (prog "xao") command = true ->
  simple_op inputBits endBit command argStr st
  = match SplitN2 argStr with
    | [num; pattern] =>
        match Atoi num with
        | None => throw (ErrLogicalCount command num)
        | Some count =>
            match pattern with
            | [] => throw (ErrEmptyPattern command)
            | _ =>
                if forallb is_binary pattern
                then consume inputBits endBit (logical_chunk command pattern) count st
                else throw (ErrBadPattern command pattern)
            end
        end
    | _ => throw (ErrLogicalFormat command argStr)
    end.
Proof.
  intros Hc. apply ContainsRune_In in Hc. cbn in Hc.
  destruct Hc as [<-|[<-|[<-|[]]]]; reflexivity.
Qed.

(** A well-formed logical command at the head of a chain masks the chunk
    and hands it to the rest of the chain. *)
Lemma block_logical_then (command : ascii) (pre pattern : list ascii)
    (chunk : list Z) (verbose : bool) :
  ContainsRune (prog "xao") command = true ->
  ~ In ":"%char pre -> pattern <> [] ->
  Forall (fun c => block_stop c = false) (pre ++ ":"%char :: pattern) ->
  forall tail, stops_at block_stop tail ->
    same_outcome
      (applyBlockOps chunk (command :: (pre ++ ":"%char :: pattern) ++ tail) verbose)
      (applyBlockOps (logical_chunk command pattern chunk) tail verbose).
Proof.
  intros Hc Hpre Hpat Harg tail Htail l1 l2. unfold applyBlockOps.
  rewrite block_loop_logical by assumption.
  rewrite block_op_logical by assumption.
  unfold bind, ret. destruct verbose; cbn; apply block_loop_same.
Qed.

Lemma IndexRune_absent (text : list ascii) (c : ascii) :
  ~ In c text -> IndexRune text c = None.
Proof.
  induction text as [|d text IH]; intros Hc; [reflexivity|].
  cbn. destruct (Ascii.eqb_spec d c) as [->|_]; [contradiction Hc; now left|].
  rewrite IH by (intros H; apply Hc; now right). reflexivity.
Qed.

(** Inside a chain a logical command without a separator is refused. *)
Lemma block_op_needs_pattern (command : ascii) (arg : list ascii) (chunk : list Z) :
  ContainsRune (prog "xao") command = true ->
  ~ In ":"%char arg ->
  block_op command arg chunk = throw (ErrBlockNeedsPattern command).
Proof.
  intros Hc Harg. unfold block_op, Contains_colon.
  rewrite IndexRune_absent by exact Harg.
  apply ContainsRune_In in Hc. cbn in Hc.
  destruct Hc as [<-|[<-|[<-|[]]]]; reflexivity.
Qed.

(** Inside a chain a logical command with nothing after its first
    separator is refused. *)
Lemma block_op_empty_pattern (command : ascii) (pre : list ascii) (chunk : list Z) :
  ContainsRune (prog "xao") command = true ->
  ~ In ":"%char pre ->
  block_op command (pre ++ [":"%char]) chunk = throw (ErrBlockEmptyPattern command).
Proof.
  intros Hc Hpre. unfold block_op.
  rewrite Contains_colon_first, SplitN2_first by exact Hpre. cbn [negb nth].
  apply ContainsRune_In in Hc. cbn in Hc.
  destruct Hc as [<-|[<-|[<-|[]]]]; reflexivity.
Qed.

Lemma block_logical_refused (command : ascii) (arg rest : list ascii)
    (chunk : list Z) (verbose : bool) (e : error) :
  ContainsRune (prog "xao") command = true ->
  Forall (fun c => block_stop c = false) arg -> stops_at block_stop rest ->
  block_op command arg chunk = throw e ->
  result (applyBlockOps chunk (command :: arg ++ rest) verbose) = Failed e.
Proof.
  intros Hc Harg Hrest Hop. unfold result, applyBlockOps.
  rewrite block_loop_logical by assumption.
  unfold bind. rewrite Hop. now destruct verbose.
Qed.

(** C9. Inside a block chain the argument of a logical command [x], [a] or
    [o] is checked for two things only. Without a [:] the command is
    refused with the requires-a-pattern error, and with nothing after the
    first [:] with the cannot-be-empty error. Otherwise, whatever bytes the
    pattern holds, the command succeeds on every chunk and the chain goes
    on with the masked chunk. The mask applied to element [i] is the byte
    [pattern[i mod len] - '0'], computed on bytes: the byte minus 48 from
    ['0'] upward, the byte plus 208 below ['0'], and one mask element per
    byte of the text, not per character. The same pattern at top level is
    rejected as soon as one of its bytes is not ['0'] or ['1']. *)
Theorem block_pattern_not_validated (command : ascii) (rest : list ascii)
    (chunk : list Z) (verbose : bool) :
  ContainsRune (prog "xao") command = true ->
  stops_at block_stop rest ->
  (forall arg,
     Forall (fun c => block_stop c = false) arg -> ~ In ":"%char arg ->
     result (applyBlockOps chunk (command :: arg ++ rest) verbose)
     = Failed (ErrBlockNeedsPattern command))
  /\ (forall pre,
        Forall (fun c => block_stop c = false) pre -> ~ In ":"%char pre ->
        result (applyBlockOps chunk (command :: (pre ++ [":"%char]) ++ rest) verbose)
        = Failed (ErrBlockEmptyPattern command))
  /\ (forall pre pattern,
        ~ In ":"%char pre -> pattern <> [] ->
        Forall (fun c => block_stop c = false) (pre ++ ":"%char :: pattern) ->
        result (applyBlockOps chunk (command :: pre ++ ":"%char :: pattern) verbose)
        = Ok (logical_chunk command pattern chunk)
        /\ result (applyBlockOps chunk
                     (command :: (pre ++ ":"%char :: pattern) ++ rest) verbose)
           = result (applyBlockOps (logical_chunk command pattern chunk) rest verbose)
        /\ length (logical_chunk command pattern chunk) = length chunk
        /\ (forall i, (i < length chunk)%nat ->
              nth i (logical_chunk command pattern chunk) 0
              = logical_op command (nth i chunk 0)
                  ((code (nth (i mod length pattern) pattern "000"%char) - 48)
                   mod 256))
        /\ (forall inputBits endBit num count st,
              Atoi num = Some count -> ~ In ":"%char num ->
              forallb is_binary pattern = false ->
              result (simple_op inputBits endBit command
                        (num ++ ":"%char :: pattern) st)
              = Failed (ErrBadPattern command pattern)))
  /\ (forall c, 0 <= code c < 256
                /\ (48 <= code c -> (code c - 48) mod 256 = code c - 48)
                /\ (code c < 48 -> (code c - 48) mod 256 = code c + 208))
  /\ class_of (ErrBlockNeedsPattern command) = InvalidArgument
  /\ class_of (ErrBlockEmptyPattern command) = InvalidPattern.
Proof.
  intros Hc Hrest.
  split; [|split; [|split; [|split; [|split]]]]; try reflexivity.
  - intros arg Harg Hcolon.
    apply block_logical_refused; try assumption.
    now apply block_op_needs_pattern.
  - intros pre Hpre Hcolon.
    apply block_logical_refused; try assumption.
    + apply Forall_app. split; [exact Hpre|]. now constructor.
    + now apply block_op_empty_pattern.
  - intros pre pattern Hpre Hpat Harg.
    pose proof (block_logical_then command pre pattern chunk verbose Hc Hpre Hpat Harg)
      as Hone.
    split; [|split; [|split; [|split]]].
    + unfold result. rewrite <- (app_nil_r (pre ++ ":"%char :: pattern)).
      rewrite (Hone [] I [] []). reflexivity.
    + apply Hone, Hrest.
    + apply logical_chunk_length.
    + intros i Hi. apply logical_chunk_nth, Hi.
    + intros inputBits endBit num count st Hnum Hcolon Hbin. unfold result.
      rewrite simple_op_logical by exact Hc.
      rewrite SplitN2_first by exact Hcolon. rewrite Hnum, Hbin.
      destruct pattern; [contradiction | reflexivity].
  - intros c.
    assert (Hcode : 0 <= code c < 256).
    { unfold code. pose proof (N_ascii_bounded c). lia. }
    split; [exact Hcode|]. split; intros H.
    + apply Z.mod_small. lia.
    + replace (code c - 48) with (code c + 208 + (-1) * 256) by lia.
      rewrite Z.mod_add by lia. apply Z.mod_small. lia.
Qed.

Lemma block_pattern_not_validated_witness :
  result (applyBlockOps [0; 1; 1; 0] (prog "x:2z") false) = Ok [2; 75; 3; 74]
  /\ result (simple_op [0; 1; 1; 0] 4 "x" (prog "4:2z") (mkState 0 []))
     = Failed (ErrBadPattern "x" (prog "2z"))
  /\ result (applyBlockOps [0; 1; 1; 0] (prog "x101" ++ prog "n") false)
     = Failed (ErrBlockNeedsPattern "x")
  /\ result (applyBlockOps [0; 1; 1; 0] ("x"%char :: (prog "4" ++ [":"%char]) ++ prog "n")
               false)
     = Failed (ErrBlockEmptyPattern "x").
Proof.
  destruct (block_pattern_not_validated "x" (prog "n") [0; 1; 1; 0] false eq_refl eq_refl)
    as [Hneeds [Hempty [Hany _]]].
  destruct (Hany [] (prog "2z")) as [Hblock [_ [_ [_ Htop]]]].
  - intros [].
  - discriminate.
  - repeat constructor.
  - split; [exact Hblock|]. split.
    + apply (Htop [0; 1; 1; 0] 4 (prog "4") 4 (mkState 0 [])).
      * reflexivity.
      * cbn. intros [H|[]]. discriminate.
      * reflexivity.
    + split.
      * apply (Hneeds (prog "101")); [repeat constructor|].
        cbn. intros [H|[H|[H|[]]]]; discriminate.
      * apply (Hempty (prog "4")); [repeat constructor|].
        cbn. intros [H|[]]. discriminate.
Defined.

(** C9 as stated fails where a pattern byte is below ['0'] or belongs to
    a longer character: the mask for [/] is 255 and not the difference of
    the code points, -1, and the two bytes of a two-byte character (here
    C3 A9, code point 233) give the two masks 147 and 121. *)
Lemma block_mask_is_byte_arithmetic :
  result (applyBlockOps [0] (prog "x:/") false) = Ok [255]
  /\ Z.lxor 0 (code "/" - code "0") = -1
  /\ result (applyBlockOps [0; 0]
               ("x"%char :: ":"%char :: [ascii_of_nat 195; ascii_of_nat 169]) false)
     = Ok [147; 121]
  /\ ~ (forall chunk pattern i,
          pattern <> [] -> (i < length chunk)%nat ->
          nth i (logical_chunk "x" pattern chunk) 0
          = Z.lxor (nth i chunk 0)
              (code (nth (i mod length pattern) pattern "000"%char) - code "0")).
Proof.
  split; [reflexivity|]. split; [reflexivity|]. split; [reflexivity|].
  intros H. specialize (H [0] (prog "/") O ltac:(discriminate) ltac:(cbn; lia)).
  vm_compute in H. discriminate.
Qed.

(** ** Where an argument ends *)

(** C10. Inside a block chain the argument of [x], [a] or [o] runs up to
    the next character among [n v x a o], or to the end of the chain; the
    characters [b t s i] and the bracket, which end an argument at top
    level, do not end it there. In the chain "x:101b" the [b] is part of the
    pattern and no byte swap takes place, while the top-level scanner ends
    the argument of "x4:101b8" before the [b]. *)
Theorem block_argument_terminators :
  (forall c, block_stop c = true <-> In c (prog "nvxao"))
  /\ (forall c, command_stop c = true <-> In c (prog "tsnivxaob["))
  /\ (forall c, In c (prog "btsi[") -> block_stop c = false /\ command_stop c = true)
  /\ (forall command text chunk verbose log,
        ContainsRune (prog "xao") command = true ->
        exists rest,
          text = take_until block_stop text ++ rest
          /\ Forall (fun c => block_stop c = false) (take_until block_stop text)
          /\ stops_at block_stop rest
          /\ block_loop verbose (command :: text) 0 chunk log
             = (when verbose
                  (emit (LogBlockOp (commandNames command) (take_until block_stop text))) ;;
                chunk' <- block_op command (take_until block_stop text) chunk ;;
                block_loop verbose rest 0 chunk') log)
  /\ (forall chunk verbose,
        result (applyBlockOps chunk (prog "x:101b") verbose)
        = Ok (logical_chunk "x" (prog "101b") chunk))
  /\ result (applyBlockOps bits16 (prog "x:101b") false)
     <> result (chunk' <- applyBlockOps bits16 (prog "x:101") false ;;
                applyBlockOps chunk' (prog "b") false)
  /\ take_until command_stop (prog "4:101b8") = prog "4:101".
Proof.
  split; [intros c; apply ContainsRune_In|].
  split; [intros c; apply ContainsRune_In|].
  split.
  { intros c Hc. cbn in Hc.
    destruct Hc as [<-|[<-|[<-|[<-|[<-|[]]]]]]; split; reflexivity. }
  split.
  { intros command text chunk verbose log Hc.
    destruct (take_until_split block_stop text) as [rest [Heq [Hall Hstop]]].
    exists rest. repeat split; try assumption.
    rewrite Heq at 1. now apply block_loop_logical. }
  split.
  { intros chunk verbose. unfold result.
    change (prog "x:101b") with ("x"%char :: ([] ++ ":"%char :: prog "101b") ++ []).
    rewrite (block_logical_then "x" [] (prog "101b") chunk verbose) with (log2 := []).
    - reflexivity.
    - reflexivity.
    - intros [].
    - discriminate.
    - repeat constructor.
    - exact I. }
  split; [vm_compute; discriminate | reflexivity].
Qed.

(** ** The cursor *)

Lemma bind_Ok {A B} (m : M A) (f : A -> M B) log b log' :
  bind m f log = (Ok b, log') ->
  exists a log1, m log = (Ok a, log1) /\ f a log1 = (Ok b, log').
Proof.
  unfold bind. destruct (m log) as [[a| | |] log1]; try discriminate.
  intros H. eauto.
Qed.

Lemma logged_Ok {A} (b : bool) (ev : event) (m : M A) log a log' :
  (when b (emit ev) ;; m) log = (Ok a, log') ->
  exists log1, m log1 = (Ok a, log').
Proof. destruct b; cbn; eauto. Qed.

Lemma ret_Ok {A} (a b : A) log log' : ret a log = (Ok b, log') -> a = b.
Proof. now intros [= -> _]. Qed.

Section Cursor.

Variables (inputBits : list Z) (endBit : Z).





Lemma run_pass_done shouldLog text st :
  endBit <= inputPos st -> run_pass inputBits endBit shouldLog text 0 st = ret st.
Proof.
  intros H. apply Z.leb_le in H. destruct text; cbn; [reflexivity | now rewrite H].
Qed.

Lemma run_done commands verbose verboseOnce fuel logPrinted st :
  endBit <= inputPos st ->
  run inputBits endBit commands verbose verboseOnce fuel logPrinted st = ret st.
Proof.
  intros H. apply Z.ltb_ge in H. destruct fuel; cbn; now rewrite H.
Qed.





End Cursor.




(** ** Termination *)

(** A pass that leaves the cursor in place, before the end of the range,
    is repeated for ever. *)
Lemma run_stuck inputBits endBit commands verbose verboseOnce pos :
  pos < endBit -> commands <> [] ->
  (forall shouldLog out log, exists out' log',
     run_pass inputBits endBit shouldLog commands 0 (mkState pos out) log
     = (Ok (mkState pos out'), log')) ->
  forall fuel logPrinted out log,
    fst (run inputBits endBit commands verbose verboseOnce fuel logPrinted
             (mkState pos out) log) = OutOfFuel.
Proof.
  intros Hpos Hne Hpass. apply Z.ltb_lt in Hpos.
  induction fuel as [|fuel IH]; intros logPrinted out log; cbn [run inputPos];
    rewrite Hpos; destruct commands as [|c cs]; try contradiction; [reflexivity|].
  unfold bind.
  destruct (Hpass (verbose && (negb verboseOnce || negb logPrinted)) out log)
    as [out' [log' Hp]].
  rewrite Hp. apply IH.
Qed.

(** C4 on the code: over the full range of one byte, the Insert-only
    program "i1" and the zero-count program "t0" are still running after
    any number of passes; the call returns neither bytes nor an error. *)
Theorem non_advancing_program_never_returns :
  (forall fuel, result (applyEdits fuel [0x00] (prog "i1") 0 0 false false) = OutOfFuel)
  /\ (forall fuel, result (applyEdits fuel [0x00] (prog "t0") 0 0 false false) = OutOfFuel)
  /\ (forall r, ~ transform [0x00] (prog "i1") 0 0 false false r)
  /\ (forall r, ~ transform [0x00] (prog "t0") 0 0 false false r).
Proof.
  assert (Hi : forall fuel,
             result (applyEdits fuel [0x00] (prog "i1") 0 0 false false) = OutOfFuel).
  { intros fuel. unfold result, applyEdits. cbn -[run]. unfold bind.
    match goal with |- context [run ?b ?e ?c ?v ?o fuel ?p ?s ?l] =>
      pose proof (run_stuck b e c v o 0 eq_refl ltac:(discriminate)) as Hstuck end.
    match goal with |- context [run ?b ?e ?c ?v ?o fuel ?p (mkState 0 ?out) ?l] =>
      specialize (Hstuck ltac:(intros [] out' l'; eexists; eexists; reflexivity)
                         fuel p out l);
      destruct (run b e c v o fuel p (mkState 0 out) l) as [[st| | |] log'] end;
      cbn in Hstuck; try discriminate.
    reflexivity. }
  assert (Ht : forall fuel,
             result (applyEdits fuel [0x00] (prog "t0") 0 0 false false) = OutOfFuel).
  { intros fuel. unfold result, applyEdits. cbn -[run]. unfold bind.
    match goal with |- context [run ?b ?e ?c ?v ?o fuel ?p ?s ?l] =>
      pose proof (run_stuck b e c v o 0 eq_refl ltac:(discriminate)) as Hstuck end.
    match goal with |- context [run ?b ?e ?c ?v ?o fuel ?p (mkState 0 ?out) ?l] =>
      specialize (Hstuck ltac:(intros [] out' l'; eexists; eexists; reflexivity)
                         fuel p out l);
      destruct (run b e c v o fuel p (mkState 0 out) l) as [[st| | |] log'] end;
      cbn in Hstuck; try discriminate.
    reflexivity. }
  repeat split; try assumption.
  - intros r [fuel [Hr Hcut]]. rewrite Hi in Hr. congruence.
  - intros r [fuel [Hr Hcut]]. rewrite Ht in Hr. congruence.
Qed.

(** ** Cutting a bit sequence into pieces *)

Lemma chunks_fuel_enough (n : nat) :
  (1 <= n)%nat ->
  forall fuel1 fuel2 l,
    (length l <= fuel1)%nat -> (length l <= fuel2)%nat ->
    chunks_fuel fuel1 n l = chunks_fuel fuel2 n l.
Proof.
  intros Hn. induction fuel1 as [|fuel1 IH]; intros fuel2 l H1 H2.
  - destruct l; [|cbn in H1; lia]. now destruct fuel2.
  - destruct l as [|a l]; [now destruct fuel2|].
    destruct fuel2 as [|fuel2]; [cbn in H2; lia|].
    cbn [chunks_fuel]. f_equal.
    apply IH; rewrite length_skipn; cbn [length] in *; lia.
Qed.

Lemma chunks_nil (n : nat) : chunks n [] = [].
Proof. reflexivity. Qed.

Lemma chunks_cons (n : nat) (l : list Z) :
  (1 <= n)%nat -> l <> [] ->
  chunks n l = firstn n l :: chunks n (skipn n l).
Proof.
  intros Hn Hl. unfold chunks. destruct l as [|a l]; [contradiction|].
  cbn [length chunks_fuel]. f_equal.
  apply chunks_fuel_enough; [exact Hn | | lia].
  rewrite length_skipn. cbn [length]. lia.
Qed.

(** Induction along the pieces. *)
Lemma chunks_ind (n : nat) (P : list Z -> Prop) :
  (1 <= n)%nat ->
  P [] -> (forall l, l <> [] -> P (skipn n l) -> P l) ->
  forall l, P l.
Proof.
  intros Hn Hnil Hstep l.
  remember (length l) as k eqn:Hk.
  assert (Hle : (length l <= k)%nat) by lia. clear Hk. revert l Hle.
  induction k as [|k IH]; intros l Hle.
  - destruct l; [exact Hnil | cbn in Hle; lia].
  - destruct l as [|a l]; [exact Hnil|].
    apply Hstep; [discriminate|].
    apply IH. rewrite length_skipn. cbn [length] in *. lia.
Qed.

Lemma concat_chunks (n : nat) (l : list Z) :
  (1 <= n)%nat -> concat (chunks n l) = l.
Proof.
  intros Hn. revert l. apply (chunks_ind n _ Hn); [reflexivity|]. intros l Hl IH.
  rewrite chunks_cons by assumption. cbn [concat].
  rewrite IH. apply firstn_skipn.
Qed.

Lemma chunks_app (n : nat) (c l : list Z) :
  (1 <= n)%nat -> length c = n -> chunks n (c ++ l) = c :: chunks n l.
Proof.
  intros Hn Hc. subst n.
  rewrite chunks_cons; [|exact Hn | destruct c; [cbn in Hn; lia | discriminate]].
  rewrite firstn_app, skipn_app, Nat.sub_diag, firstn_all, skipn_all.
  cbn. now rewrite app_nil_r.
Qed.

Lemma chunks_short (n : nat) (l : list Z) :
  (1 <= n)%nat -> l <> [] -> (length l <= n)%nat -> chunks n l = [l].
Proof.
  intros Hn Hl Hlen. rewrite chunks_cons by assumption.
  rewrite firstn_all2, skipn_all2 by exact Hlen. reflexivity.
Qed.

(** ** Packing bits that are not whole bytes *)

Lemma loop_chunk (chunk : list Z) :
  forall j done x zs rest,
    (j + length chunk <= 8)%nat ->
    bitsToBytes_loop (8 * length done + j) (chunk ++ rest) (done ++ x :: zs)
    = bitsToBytes_loop (8 * length done + (j + length chunk)) rest
        (done ++ pack_from j chunk x :: zs).
Proof.
  induction chunk as [|bit chunk IH]; intros j done x zs rest Hj.
  - cbn [length app pack_from]. now rewrite Nat.add_0_r.
  - cbn [length app pack_from] in *.
    rewrite loop_one_bit by (reflexivity || lia).
    rewrite IH by lia. f_equal. lia.
Qed.

Lemma bytes_needed_step (l : list Z) :
  l <> [] ->
  ((length l + 7) / 8 = S ((length (skipn 8 l) + 7) / 8))%nat.
Proof.
  intros Hl. rewrite length_skipn.
  destruct (Nat.le_gt_cases 8 (length l)) as [Hge|Hlt].
  - replace (length l + 7)%nat with (length l - 8 + 7 + 1 * 8)%nat by lia.
    rewrite Nat.div_add by lia. lia.
  - replace (length l - 8)%nat with 0%nat by lia.
    rewrite (Nat.div_small (0 + 7) 8) by lia.
    destruct l as [|a l]; [contradiction|]. cbn [length] in *.
    symmetry. apply Nat.div_unique with (r := length l); lia.
Qed.

Lemma bitsToBytes_loop_chunks :
  forall bits done,
    bitsToBytes_loop (8 * length done) bits
                     (done ++ repeat 0 ((length bits + 7) / 8)%nat)
    = done ++ map pack_bits (chunks 8 bits).
Proof.
  apply (chunks_ind 8 (fun bits => forall done, _ = _)); [lia | |].
  - intros done. reflexivity.
  - intros bits Hne IH done.
    rewrite chunks_cons by (assumption || lia).
    rewrite bytes_needed_step by exact Hne. cbn [repeat map].
    rewrite <- (firstn_skipn 8 bits) at 1.
    replace (8 * length done)%nat with (8 * length done + 0)%nat by lia.
    rewrite loop_chunk by (rewrite length_firstn; lia).
    fold (pack_bits (firstn 8 bits)).
    destruct (Nat.le_gt_cases 8 (length bits)) as [Hge|Hlt].
    + rewrite length_firstn, Nat.min_l by exact Hge.
      replace (done ++ pack_bits (firstn 8 bits) :: repeat 0 ((length (skipn 8 bits) + 7) / 8)%nat)
        with ((done ++ [pack_bits (firstn 8 bits)])
                ++ repeat 0 ((length (skipn 8 bits) + 7) / 8)%nat)
        by (now rewrite <- app_assoc).
      replace (8 * length done + (0 + 8))%nat
        with (8 * length (done ++ [pack_bits (firstn 8 bits)]))%nat
        by (rewrite length_app; cbn [length]; lia).
      rewrite IH, <- app_assoc. reflexivity.
    + rewrite (skipn_all2 bits) by lia. cbn. reflexivity.
Qed.

Lemma bitsToBytes_chunks (bits : list Z) :
  bitsToBytes bits = map pack_bits (chunks 8 bits).
Proof. apply (bitsToBytes_loop_chunks bits []). Qed.

Lemma chunks_length (n : nat) :
  (1 <= n)%nat -> forall l, length (chunks n l) = ((length l + (n - 1)) / n)%nat.
Proof.
  intros Hn. apply (chunks_ind n _ Hn).
  - cbn. symmetry. apply Nat.div_small. lia.
  - intros l Hl IH. rewrite chunks_cons by assumption. cbn [length]. rewrite IH.
    rewrite length_skipn.
    destruct (Nat.le_gt_cases n (length l)) as [Hge|Hlt].
    + replace (length l + (n - 1))%nat with (length l - n + (n - 1) + 1 * n)%nat by lia.
      rewrite Nat.div_add by lia. lia.
    + replace (length l - n)%nat with 0%nat by lia.
      rewrite (Nat.div_small (0 + (n - 1)) n) by lia.
      destruct l as [|a l]; [contradiction|]. cbn [length] in *.
      apply Nat.div_unique with (r := length l); lia.
Qed.

Lemma as_bit_is_bit (b : Z) : is_bit (as_bit b).
Proof. unfold as_bit, is_bit. destruct (b =? 1); auto. Qed.

Lemma as_bit_of_bit (b : Z) : is_bit b -> as_bit b = b.
Proof. now intros [->| ->]. Qed.

Lemma map_as_bit_bits (l : list Z) : Forall is_bit l -> map as_bit l = l.
Proof.
  induction 1 as [|b l Hb _ IH]; [reflexivity|].
  cbn. now rewrite IH, as_bit_of_bit.
Qed.

Lemma pack_from_as_bit (chunk : list Z) :
  forall j x, pack_from j (map as_bit chunk) x = pack_from j chunk x.
Proof.
  induction chunk as [|bit chunk IH]; intros j x; [reflexivity|].
  cbn [map pack_from]. rewrite IH. f_equal.
  unfold set_bit, as_bit. now destruct (bit =? 1).
Qed.

Lemma bits_of_bools (l : list Z) :
  Forall is_bit l -> exists bs, l = map Z.b2z bs.
Proof.
  induction 1 as [|b l Hb _ [bs ->]]; [now exists []|].
  destruct Hb as [->| ->]; [now exists (false :: bs) | now exists (true :: bs)].
Qed.

(** Unpacking the byte built from at most eight bits gives the bits back,
    followed by zeros. *)
Lemma unpack_pack_bits (c : list Z) :
  Forall is_bit c -> (length c <= 8)%nat ->
  map (bit_of_byte (pack_bits c)) (seq 0 8) = c ++ repeat 0 (8 - length c)
  /\ is_byte (pack_bits c).
Proof.
  intros Hc Hlen. destruct (bits_of_bools c Hc) as [bs ->]. clear Hc.
  rewrite length_map in *.
  do 9 (destruct bs as [|[] bs];
        [split; [reflexivity | unfold is_byte; cbn; lia] | |]);
    cbn in Hlen; lia.
Qed.

Lemma unpack_pack_chunk (c : list Z) :
  (length c <= 8)%nat ->
  map (bit_of_byte (pack_bits c)) (seq 0 8) = map as_bit c ++ repeat 0 (8 - length c)
  /\ is_byte (pack_bits c).
Proof.
  intros Hlen. unfold pack_bits. rewrite <- pack_from_as_bit.
  rewrite <- (length_map as_bit c). apply unpack_pack_bits.
  - apply Forall_map, Forall_forall. intros b _. apply as_bit_is_bit.
  - now rewrite length_map.
Qed.

Lemma padding_whole (len : nat) : (len mod 8 = 0)%nat -> padding len = [].
Proof. intros H. unfold padding. now rewrite H. Qed.

Lemma bytesToBits_packed :
  forall bits,
    bytesToBits (map pack_bits (chunks 8 bits)) = map as_bit bits ++ padding (length bits)
    /\ Forall is_byte (map pack_bits (chunks 8 bits)).
Proof.
  apply (chunks_ind 8); [lia | now split |].
  intros bits Hne [IH IHb].
  rewrite chunks_cons by (assumption || lia). cbn [map].
  destruct (unpack_pack_chunk (firstn 8 bits)) as [Hunpack Hbyte];
    [rewrite length_firstn; lia|].
  split; [|now constructor].
  unfold bytesToBits in *. cbn [flat_map]. rewrite IH, Hunpack.
  rewrite length_firstn, length_skipn.
  destruct (Nat.le_gt_cases 8 (length bits)) as [Hge|Hlt].
  - rewrite Nat.min_l by exact Hge. cbn [repeat Nat.sub app]. rewrite app_nil_r.
    rewrite app_assoc, <- map_app, firstn_skipn. f_equal.
    unfold padding. do 2 f_equal.
    replace (length bits) with (length bits - 8 + 1 * 8)%nat at 2 by lia.
    now rewrite Nat.Div0.mod_add.
  - rewrite Nat.min_r by lia. rewrite firstn_all2, skipn_all2 by lia.
    replace (length bits - 8)%nat with 0%nat by lia.
    cbn [map]. rewrite (padding_whole 0) by reflexivity. rewrite app_nil_r.
    f_equal. unfold padding. f_equal.
    rewrite (Nat.mod_small (length bits)) by lia.
    rewrite Nat.mod_small; [reflexivity|].
    destruct bits; [contradiction | cbn [length]; lia].
Qed.

(** X1. [bitsToBytes] returns one byte for every eight bits, rounded up;
    unpacking its result gives the sequence back with every element other
    than 1 read as 0 and zero bits filling the last byte: a sequence of
    0/1 bits whose length is a multiple of 8 survives the round trip
    unchanged. *)
Theorem bytesToBits_bitsToBytes (bits : list Z) :
  length (bitsToBytes bits) = ((length bits + 7) / 8)%nat
  /\ Forall is_byte (bitsToBytes bits)
  /\ bytesToBits (bitsToBytes bits) = map as_bit bits ++ padding (length bits)
  /\ (Forall is_bit bits -> (length bits mod 8 = 0)%nat ->
      bytesToBits (bitsToBytes bits) = bits).
Proof.
  rewrite bitsToBytes_chunks.
  destruct (bytesToBits_packed bits) as [Hbits Hbytes].
  split; [now rewrite length_map, chunks_length by lia|].
  split; [exact Hbytes|]. split; [exact Hbits|].
  intros Hb Hlen.
  now rewrite Hbits, padding_whole, app_nil_r, map_as_bit_bits.
Qed.

Lemma bytesToBits_bitsToBytes_witness :
  bytesToBits (bitsToBytes [1; 0; 1; 1; 0; 0; 0; 0]) = [1; 0; 1; 1; 0; 0; 0; 0].
Proof.
  destruct (bytesToBits_bitsToBytes [1; 0; 1; 1; 0; 0; 0; 0]) as [_ [_ [_ H]]].
  apply H; [|reflexivity].
  repeat (apply Forall_cons; [unfold is_bit; auto|]). apply Forall_nil.
Defined.

(** ** Programs of one chunk command *)

Lemma digit_not_stop (c : ascii) :
  is_digit c = true -> command_stop c = false /\ c <> ":"%char.
Proof.
  destruct c as [[] [] [] [] [] [] [] []]; intros H;
    try discriminate H; split; (reflexivity || discriminate).
Qed.

Lemma digits_value_digits (s : list ascii) :
  forall acc v, digits_value acc s = Some v -> Forall (fun c => is_digit c = true) s.
Proof.
  induction s as [|c s IH]; intros acc v H; [constructor|].
  cbn in H. destruct (is_digit c) eqn:Hc; [|discriminate].
  constructor; [exact Hc | eapply IH, H].
Qed.

(** A text that [strconv.Atoi] accepts holds no command character and no
    separator. *)
Lemma Atoi_plain (s : list ascii) (n : Z) :
  Atoi s = Some n ->
  Forall (fun c => command_stop c = false) s /\ ~ In ":"%char s.
Proof.
  unfold Atoi. intros H.
  assert (Hd : forall ds acc v, digits_value acc ds = Some v ->
             Forall (fun c => command_stop c = false) ds /\ ~ In ":"%char ds).
  { intros ds acc v Hv. apply digits_value_digits in Hv.
    induction Hv as [|c ds Hc _ [IH1 IH2]]; [split; [constructor | intros []]|].
    apply digit_not_stop in Hc. destruct Hc as [Hc1 Hc2].
    split; [now constructor | intros [Heq|Hin]; [exact (Hc2 Heq) | auto]]. }
  destruct s as [|c s]; [discriminate|].
  destruct (Ascii.eqb_spec c "-") as [->|Hm].
  - destruct s as [|d s]; [discriminate|].
    destruct (digits_value 0 (d :: s)) as [u|] eqn:Hu; [|discriminate].
    destruct (Hd _ _ _ Hu) as [H1 H2].
    split; [now constructor | intros [Heq|Hin]; [discriminate | auto]].
  - destruct (Ascii.eqb_spec c "+") as [->|Hp].
    + destruct s as [|d s]; [discriminate|].
      destruct (digits_value 0 (d :: s)) as [u|] eqn:Hu; [|discriminate].
      destruct (Hd _ _ _ Hu) as [H1 H2].
      split; [now constructor | intros [Heq|Hin]; [discriminate | auto]].
    + destruct (digits_value 0 (c :: s)) as [u|] eqn:Hu; [|discriminate].
      exact (Hd _ _ _ Hu).
Qed.

Lemma binary_not_stop (pattern : list ascii) :
  forallb is_binary pattern = true ->
  Forall (fun c => command_stop c = false) pattern.
Proof.
  intros H. rewrite forallb_forall in H. apply Forall_forall. intros c Hc.
  specialize (H c Hc). unfold is_binary in H. apply orb_true_iff in H.
  destruct H as [H|H]; apply Ascii.eqb_eq in H; now subst c.
Qed.

(** What a chunk command is to the scanner and to the [switch]. *)
Lemma chunk_op_spec command arg n f :
  chunk_op command arg n f ->
  command <> "["%char
  /\ take_until command_stop arg = arg
  /\ forall inputBits endBit st,
       simple_op inputBits endBit command arg st = consume inputBits endBit f n st.
Proof.
  assert (Hwhole : forall a, Forall (fun c => command_stop c = false) a ->
                     take_until command_stop a = a).
  { intros a Ha. rewrite <- (app_nil_r a) at 1. now apply take_until_app. }
  intros Hop. destruct Hop as [arg n Hn|arg n Hn|arg n Hn|arg n Hn Hrem
                               |command num pattern n Hc Hn Hne Hbin].
  1-4: (split; [discriminate|]; split; [apply Hwhole; eapply Atoi_plain, Hn|];
        intros inputBits endBit st; unfold simple_op; cbn -[Atoi];
        rewrite Hn; try reflexivity).
  - apply Z.eqb_eq in Hrem. now rewrite Hrem.
  - destruct (Atoi_plain num n Hn) as [Hplain Hcolon].
    split; [cbn in Hc; destruct Hc as [<-|[<-|[<-|[]]]]; discriminate|].
    split.
    { apply Hwhole, Forall_app. split; [exact Hplain|].
      constructor; [reflexivity | now apply binary_not_stop]. }
    intros inputBits endBit st.
    rewrite simple_op_logical by (now apply ContainsRune_In).
    rewrite SplitN2_first by exact Hcolon. rewrite Hn, Hbin.
    destruct pattern; [contradiction | reflexivity].
Qed.

Lemma run_pass_skip inputBits endBit shouldLog (used rest : list ascii) st :
  run_pass inputBits endBit shouldLog (used ++ rest) (length used) st
  = run_pass inputBits endBit shouldLog rest 0 st.
Proof. induction used as [|c used IH]; [reflexivity | exact IH]. Qed.

Lemma window_empty inputBits pos : window inputBits pos pos = [].
Proof. unfold window. now rewrite Z.sub_diag. Qed.

Lemma window_length inputBits pos endBit :
  0 <= pos <= endBit -> endBit <= Z.of_nat (length inputBits) ->
  Z.of_nat (length (window inputBits pos endBit)) = endBit - pos.
Proof.
  intros Hpos Hend. unfold window. rewrite length_firstn, length_skipn. lia.
Qed.

Lemma window_first inputBits pos endBit n :
  0 <= pos <= endBit -> 0 <= n ->
  firstn (Z.to_nat n) (window inputBits pos endBit)
  = firstn (Z.to_nat (Z.min (pos + n) endBit - pos)) (skipn (Z.to_nat pos) inputBits).
Proof.
  intros Hpos Hn. unfold window. rewrite firstn_firstn. f_equal. lia.
Qed.

Lemma window_rest inputBits pos endBit n :
  0 <= pos <= endBit -> 0 <= n ->
  skipn (Z.to_nat n) (window inputBits pos endBit)
  = window inputBits (Z.min (pos + n) endBit) endBit.
Proof.
  intros Hpos Hn. unfold window. rewrite skipn_firstn_comm, skipn_skipn.
  destruct (Z.le_gt_cases (pos + n) endBit) as [Hle|Hgt].
  - rewrite Z.min_l by exact Hle. f_equal; [lia | f_equal; lia].
  - rewrite Z.min_r by lia.
    replace (Z.to_nat (endBit - pos) - Z.to_nat n)%nat with 0%nat by lia.
    now rewrite Z.sub_diag.
Qed.

(** One pass of a one-command program, without diagnostics. *)
Lemma run_pass_one_command inputBits endBit command arg n f st log :
  chunk_op command arg n f ->
  inputPos st < endBit ->
  run_pass inputBits endBit false (command :: arg) 0 st log
  = consume inputBits endBit f n st log.
Proof.
  intros Hop Hpos. destruct (chunk_op_spec _ _ _ _ Hop) as [Hb [Harg Hsw]].
  cbn [run_pass]. apply Z.leb_gt in Hpos. rewrite Hpos.
  unfold exec_command. apply Ascii.eqb_neq in Hb. rewrite Hb.
  unfold simple_command. rewrite Harg. cbn [when andb].
  unfold bind, ret. rewrite Hsw.
  destruct (consume inputBits endBit f n st log) as [[st'| | |] log'] eqn:Hc;
    try reflexivity.
  cbn [fst snd].
  rewrite <- (app_nil_r arg) at 1. rewrite run_pass_skip. reflexivity.
Qed.

(** The replay of a one-command program cuts the rest of the window into
    pieces of [n] bits and appends the image of each. *)
Lemma run_one_command inputBits endBit command arg n f :
  chunk_op command arg n f ->
  0 < n -> endBit + n <= max_int -> endBit <= Z.of_nat (length inputBits) ->
  forall fuel logPrinted pos out log,
    0 <= pos <= endBit -> endBit - pos <= Z.of_nat fuel ->
    run inputBits endBit (command :: arg) false false fuel logPrinted
        (mkState pos out) log
    = (Ok (mkState endBit
             (out ++ flat_map f (chunks (Z.to_nat n) (window inputBits pos endBit)))),
       log).
Proof.
  intros Hop Hn Hfit Hlen.
  induction fuel as [|fuel IH]; intros logPrinted pos out log Hpos Hfuel.
  - assert (pos = endBit) as -> by lia.
    rewrite run_done by (cbn; lia).
    now rewrite window_empty, chunks_nil, app_nil_r.
  - destruct (Z.eq_dec pos endBit) as [->|Hne].
    { rewrite run_done by (cbn; lia).
      now rewrite window_empty, chunks_nil, app_nil_r. }
    cbn [run inputPos]. destruct (Z.ltb_spec pos endBit) as [Hlt|]; [|lia].
    cbn [andb]. unfold bind.
    rewrite (run_pass_one_command _ _ _ _ _ _ _ _ Hop) by exact Hlt.
    unfold consume, read_chunk, bind. cbn [inputPos outputBits].
    rewrite read_end_min by (unfold min_int; lia).
    destruct (slice_in_range inputBits pos (Z.min (pos + n) endBit))
      as [chunk Hchunk]; [lia | lia |].
    rewrite Hchunk. cbn [ret].
    rewrite IH by lia.
    apply slice_Some in Hchunk. destruct Hchunk as [_ [_ [Hchunk _]]].
    rewrite (chunks_cons (Z.to_nat n) (window inputBits pos endBit)).
    + cbn [flat_map]. rewrite window_first, window_rest by lia.
      rewrite <- Hchunk, <- !app_assoc. reflexivity.
    + lia.
    + intros Hnil. apply (f_equal (@length Z)) in Hnil.
      pose proof (window_length inputBits pos endBit ltac:(lia) Hlen) as Hw.
      rewrite Hnil in Hw. cbn in Hw. lia.
Qed.

Lemma chunk_program_runs (data : list Z) (command : ascii) (arg : list ascii)
    (n : Z) (f : list Z -> list Z) (startBit endBit : Z) (verbose verboseOnce : bool) :
  chunk_op command arg n f ->
  0 < n -> input_len data + n <= max_int ->
  0 <= startBit <= adjusted_end data endBit ->
  transform data (command :: arg) startBit endBit verbose verboseOnce
    (Ok (bitsToBytes
           (flat_map f (chunks (Z.to_nat n)
                          (window (bytesToBits data) startBit (adjusted_end data endBit)))))).
Proof.
  intros Hop Hn Hfit Hstart.
  assert (Hend : adjusted_end data endBit <= input_len data).
  { unfold adjusted_end. destruct (_ || _) eqn:Hb; [lia|].
    apply orb_false_iff in Hb. lia. }
  exists (Z.to_nat (adjusted_end data endBit - startBit)). split; [|discriminate].
  rewrite (applyEdits_same _ _ _ _ _ verbose verboseOnce false false).
  unfold result, applyEdits. rewrite bits_len.
  fold (adjusted_end data endBit).
  assert (Hs : (startBit <? 0) || (input_len data <? startBit) = false)
    by (apply orb_false_iff; lia).
  assert (He : (adjusted_end data endBit <? startBit) = false) by (apply Z.ltb_ge; lia).
  rewrite Hs, He. cbn [when]. unfold bind. cbn [ret].
  rewrite (run_one_command _ _ _ _ _ _ Hop) by (rewrite ?bits_len; lia).
  reflexivity.
Qed.

(** X2. A program made of one chunk command ([t], [n], [v], [b] with a
    multiple of 8, or [x]/[a]/[o] with a binary pattern) whose count [n] is
    positive and small enough for the input length in bits plus [n] to fit
    an [int] (so that the cursor plus the count never overflows) cuts the
    range into consecutive pieces of [n] bits, the last one shorter when
    [n] does not divide the range, and outputs the image of each piece in
    order. *)
Theorem one_command_program (data : list Z) (command : ascii) (arg : list ascii)
    (n : Z) (f : list Z -> list Z) (startBit endBit : Z) (verbose verboseOnce : bool) :
  chunk_op command arg n f ->
  0 < n -> input_len data + n <= max_int ->
  0 <= startBit <= adjusted_end data endBit ->
  transform data (command :: arg) startBit endBit verbose verboseOnce
    (Ok (bitsToBytes
           (flat_map f (chunks (Z.to_nat n)
                          (window (bytesToBits data) startBit (adjusted_end data endBit)))))).
Proof. apply chunk_program_runs. Qed.

Lemma one_command_program_witness :
  transform [0xB0; 0x0F] (prog "v12") 0 0 true false (Ok [0x00; 0xDF]).
Proof.
  change (transform [0xB0; 0x0F] ("v"%char :: prog "12") 0 0 true false
            (Ok (bitsToBytes
                   (flat_map (@rev Z)
                      (chunks (Z.to_nat 12)
                         (window (bytesToBits [0xB0; 0x0F]) 0
                                 (adjusted_end [0xB0; 0x0F] 0))))))).
  apply (one_command_program [0xB0; 0x0F] "v" (prog "12") 12 (@rev Z) 0 0 true false).
  - now apply op_reverse.
  - reflexivity.
  - discriminate.
  - split; discriminate.
Defined.

(** ** Chunk functions on bit sequences *)

Lemma Forall_firstn {A} (P : A -> Prop) (n : nat) (l : list A) :
  Forall P l -> Forall P (firstn n l).
Proof.
  intros H. revert n. induction H as [|a l Ha _ IH]; intros [|n]; cbn; auto.
Qed.

Lemma Forall_skipn {A} (P : A -> Prop) (n : nat) (l : list A) :
  Forall P l -> Forall P (skipn n l).
Proof.
  intros H. revert n. induction H as [|a l Ha Hl IH]; intros [|n]; cbn; auto.
Qed.

Lemma bytesToBits_bits (data : list Z) : Forall is_bit (bytesToBits data).
Proof.
  unfold bytesToBits. apply Forall_flat_map, Forall_forall. intros b _.
  apply Forall_map, Forall_forall. intros j _.
  unfold bit_of_byte, is_bit. destruct (_ =? 1); auto.
Qed.

Lemma bytes_roundtrip (B : list Z) :
  Forall is_byte B -> bitsToBytes (bytesToBits B) = B.
Proof.
  intros HB. unfold bitsToBytes. rewrite bytesToBits_length.
  replace ((8 * length B + 7) / 8)%nat with (length B)
    by (apply Nat.div_unique with (r := 7%nat); lia).
  apply (loop_bytes B [] HB).
Qed.

Lemma bits_roundtrip (bits : list Z) :
  Forall is_bit bits -> (length bits mod 8 = 0)%nat ->
  bytesToBits (bitsToBytes bits) = bits.
Proof.
  intros Hb Hlen. rewrite bitsToBytes_chunks.
  destruct (bytesToBits_packed bits) as [-> _].
  now rewrite padding_whole, app_nil_r, map_as_bit_bits.
Qed.

Lemma invert_self_inverse : self_inverse invert_chunk.
Proof.
  intros l Hl. unfold invert_chunk. split; [apply length_map|]. split.
  - apply Forall_map. eapply Forall_impl; [|exact Hl].
    intros b [->| ->]; [right | left]; reflexivity.
  - rewrite map_map. rewrite <- (map_id l) at 2.
    apply map_ext_in. intros b Hb. rewrite Forall_forall in Hl.
    destruct (Hl b Hb) as [->| ->]; reflexivity.
Qed.

Lemma rev_self_inverse : self_inverse (@rev Z).
Proof.
  intros l Hl. split; [apply length_rev|].
  split; [now apply Forall_rev | apply rev_involutive].
Qed.

Lemma byteswap_chunk_Forall (P : Z -> Prop) (l : list Z) :
  Forall P l -> Forall P (byteswap_chunk l).
Proof.
  intros Hl. rewrite byteswap_chunk_app. apply Forall_app. split.
  - apply Forall_flat_map, Forall_forall. intros i _.
    unfold byte_at. now apply Forall_firstn, Forall_skipn.
  - now apply Forall_skipn.
Qed.

Lemma byteswap_chunk_involutive (l : list Z) :
  byteswap_chunk (byteswap_chunk l) = l.
Proof.
  apply nth_ext with (d := 0) (d' := 0); [now rewrite !byteswap_chunk_length|].
  intros i Hi. rewrite !byteswap_chunk_length in Hi.
  destruct (Nat.lt_ge_cases i (length l / 8 * 8)) as [Hwhole|Htail].
  - pose proof (Nat.div_mod_eq i 8) as Hdiv.
    pose proof (Nat.mod_upper_bound i 8 ltac:(lia)) as Hmod.
    assert (Hk : (i / 8 < length l / 8)%nat)
      by (apply Nat.Div0.div_lt_upper_bound; lia).
    replace i with (i / 8 * 8 + i mod 8)%nat at 1 by lia.
    rewrite byteswap_chunk_whole by (rewrite ?byteswap_chunk_length; assumption).
    rewrite byteswap_chunk_length.
    rewrite byteswap_chunk_whole by (lia || assumption).
    f_equal. lia.
  - rewrite byteswap_chunk_tail by (now rewrite byteswap_chunk_length).
    now apply byteswap_chunk_tail.
Qed.

Lemma byteswap_self_inverse : self_inverse byteswap_chunk.
Proof.
  intros l Hl. split; [apply byteswap_chunk_length|].
  split; [now apply byteswap_chunk_Forall | apply byteswap_chunk_involutive].
Qed.

Lemma patternBit_binary (pattern : list ascii) (i : nat) :
  pattern <> [] -> forallb is_binary pattern = true ->
  is_bit (patternBit pattern i).
Proof.
  intros Hne Hbin. unfold patternBit.
  assert (Hin : In (nth (i mod length pattern) pattern "000"%char) pattern).
  { apply nth_In. apply Nat.mod_upper_bound.
    destruct pattern; [contradiction | discriminate]. }
  rewrite forallb_forall in Hbin. specialize (Hbin _ Hin).
  unfold is_binary in Hbin. apply orb_true_iff in Hbin.
  destruct Hbin as [H|H]; apply Ascii.eqb_eq in H; rewrite H;
    [left | right]; reflexivity.
Qed.

Lemma xor_self_inverse (pattern : list ascii) :
  pattern <> [] -> forallb is_binary pattern = true ->
  self_inverse (logical_chunk "x" pattern).
Proof.
  intros Hne Hbin l Hl. split; [apply logical_chunk_length|]. split.
  - apply Forall_nth. intros i d Hi. rewrite logical_chunk_length in Hi.
    rewrite nth_indep with (d' := 0) by (now rewrite logical_chunk_length).
    rewrite logical_chunk_nth by exact Hi.
    rewrite Forall_nth in Hl. specialize (Hl i 0 Hi).
    destruct (patternBit_binary pattern i Hne Hbin) as [->| ->];
      destruct Hl as [->| ->]; [left | right | right | left]; reflexivity.
  - apply nth_ext with (d := 0) (d' := 0); [now rewrite !logical_chunk_length|].
    intros i Hi. rewrite !logical_chunk_length in Hi.
    rewrite logical_chunk_nth by (now rewrite logical_chunk_length).
    rewrite logical_chunk_nth by exact Hi.
    change (logical_op "x") with Z.lxor.
    now rewrite Z.lxor_assoc, Z.lxor_nilpotent, Z.lxor_0_r.
Qed.

Lemma chunk_op_self_inverse command arg n f :
  chunk_op command arg n f -> In command (prog "tnvbx") -> self_inverse f.
Proof.
  intros Hop Hc. destruct Hop as [| | | |command num pattern n Hx Hn Hne Hbin].
  - intros l Hl. auto.
  - apply invert_self_inverse.
  - apply rev_self_inverse.
  - apply byteswap_self_inverse.
  - cbn in Hc, Hx.
    destruct Hc as [<-|[<-|[<-|[<-|[<-|[]]]]]];
      try (destruct Hx as [Hx|[Hx|[Hx|[]]]]; discriminate Hx).
    now apply xor_self_inverse.
Qed.

Lemma chunks_Forall (P : Z -> Prop) (n : nat) :
  (1 <= n)%nat -> forall l, Forall P l -> Forall (Forall P) (chunks n l).
Proof.
  intros Hn.
  apply (chunks_ind n (fun l => Forall P l -> Forall (Forall P) (chunks n l)) Hn);
    [constructor|].
  intros l Hne IH Hl. rewrite chunks_cons by assumption.
  constructor; [now apply Forall_firstn | now apply IH, Forall_skipn].
Qed.

(** Cutting the images of the pieces again gives the same pieces. *)
Lemma chunks_flat_map (n : nat) (f : list Z -> list Z) :
  (1 <= n)%nat -> self_inverse f ->
  forall l, Forall is_bit l ->
    chunks n (flat_map f (chunks n l)) = map f (chunks n l)
    /\ length (flat_map f (chunks n l)) = length l
    /\ Forall is_bit (flat_map f (chunks n l))
    /\ flat_map f (map f (chunks n l)) = l.
Proof.
  intros Hn Hf.
  apply (chunks_ind n (fun l => Forall is_bit l -> _ /\ _ /\ _ /\ _) Hn);
    [intros _; cbn; auto|].
  intros l Hne IH Hl.
  destruct (IH (Forall_skipn _ n l Hl)) as [IH1 [IH2 [IH3 IH4]]].
  destruct (Hf (firstn n l) (Forall_firstn _ n l Hl)) as [Hlen [Hbits Hinv]].
  rewrite (chunks_cons n l) by assumption. cbn [flat_map map].
  split; [|split; [|split]].
  - destruct (Nat.le_gt_cases n (length l)) as [Hge|Hlt].
    + rewrite chunks_app by (rewrite ?Hlen, ?length_firstn; lia).
      now rewrite IH1.
    + rewrite (skipn_all2 l) by lia. cbn. rewrite app_nil_r.
      apply chunks_short; [exact Hn | | rewrite Hlen, length_firstn; lia].
      intros Hnil. apply (f_equal (@length Z)) in Hnil.
      rewrite Hlen, firstn_all2 in Hnil by lia.
      destruct l; [contradiction | discriminate].
  - rewrite length_app, Hlen, IH2, <- length_app, firstn_skipn. reflexivity.
  - apply Forall_app. now split.
  - rewrite Hinv, IH4. apply firstn_skipn.
Qed.

(** ** Copying, complementing and undoing *)

Lemma adjusted_end_full (data : list Z) : adjusted_end data 0 = input_len data.
Proof. reflexivity. Qed.

Lemma window_full (data : list Z) :
  window (bytesToBits data) 0 (adjusted_end data 0) = bytesToBits data.
Proof.
  unfold window. rewrite adjusted_end_full, <- bits_len.
  rewrite Z.sub_0_r, Nat2Z.id. cbn [Z.to_nat skipn]. apply firstn_all.
Qed.

Lemma flat_map_id_chunks (n : nat) (l : list Z) :
  (1 <= n)%nat -> flat_map (fun chunk => chunk) (chunks n l) = l.
Proof.
  intros Hn. rewrite flat_map_concat_map, map_id. now apply concat_chunks.
Qed.

Lemma flat_map_invert_chunks (n : nat) (l : list Z) :
  (1 <= n)%nat -> flat_map invert_chunk (chunks n l) = invert_chunk l.
Proof.
  intros Hn. rewrite flat_map_concat_map. unfold invert_chunk.
  rewrite <- concat_map. now rewrite concat_chunks.
Qed.

(** X3. For every positive count [n] such that the input length in bits
    plus [n] fits an [int], [t<n>] copies the bits of the range and [n<n>]
    complements each of them; over the full range [t<n>] returns the input
    bytes unchanged. *)
Theorem take_copies_invert_complements (data : list Z) (arg : list ascii) (n : Z)
    (startBit endBit : Z) (verbose verboseOnce : bool) :
  Atoi arg = Some n -> 0 < n -> input_len data + n <= max_int ->
  0 <= startBit <= adjusted_end data endBit ->
  transform data ("t"%char :: arg) startBit endBit verbose verboseOnce
    (Ok (bitsToBytes (window (bytesToBits data) startBit (adjusted_end data endBit))))
  /\ transform data ("n"%char :: arg) startBit endBit verbose verboseOnce
       (Ok (bitsToBytes
              (invert_chunk
                 (window (bytesToBits data) startBit (adjusted_end data endBit)))))
  /\ (Forall is_byte data ->
      transform data ("t"%char :: arg) 0 0 verbose verboseOnce (Ok data)).
Proof.
  intros Harg Hn Hfit Hstart.
  assert (H1 : (1 <= Z.to_nat n)%nat) by lia.
  split; [|split].
  - rewrite <- (flat_map_id_chunks (Z.to_nat n) (window _ _ _)) by exact H1.
    apply chunk_program_runs; try assumption. now apply op_take.
  - rewrite <- (flat_map_invert_chunks (Z.to_nat n) (window _ _ _)) by exact H1.
    apply chunk_program_runs; try assumption. now apply op_invert.
  - intros Hbytes.
    pose proof (chunk_program_runs data "t" arg n (fun chunk => chunk) 0 0
                  verbose verboseOnce (op_take arg n Harg) Hn Hfit) as Hrun.
    rewrite flat_map_id_chunks, window_full, bytes_roundtrip in Hrun by assumption.
    apply Hrun. rewrite adjusted_end_full. unfold input_len. lia.
Qed.

Lemma take_copies_invert_complements_witness :
  transform [0xB0; 0x0F] (prog "t3") 0 0 false false (Ok [0xB0; 0x0F])
  /\ transform [0xB0; 0x0F] (prog "n5") 4 12 false false (Ok [0xFF]).
Proof.
  destruct (take_copies_invert_complements [0xB0; 0x0F] (prog "3") 3 0 0 false false)
    as [_ [_ Hcopy]]; [reflexivity | reflexivity | discriminate | split; discriminate|].
  destruct (take_copies_invert_complements [0xB0; 0x0F] (prog "5") 5 4 12 false false)
    as [_ [Hinv _]]; [reflexivity | reflexivity | discriminate | split; discriminate|].
  split; [|exact Hinv].
  apply Hcopy. repeat (apply Forall_cons; [unfold is_byte; lia|]). apply Forall_nil.
Defined.

(** X4. The commands [t], [n], [v], [b] and [x] undo themselves when
    their count [n] is positive and the input length in bits plus [n] fits
    an [int]: running such a one-command program over the full range of its
    own output gives the original bytes back, and the intermediate output
    has the length of the input. *)
Theorem self_inverse_commands (data : list Z) (command : ascii) (arg : list ascii)
    (n : Z) (f : list Z -> list Z) (verbose verboseOnce verbose' verboseOnce' : bool) :
  chunk_op command arg n f -> In command (prog "tnvbx") ->
  0 < n -> input_len data + n <= max_int -> Forall is_byte data ->
  exists encoded,
    transform data (command :: arg) 0 0 verbose verboseOnce (Ok encoded)
    /\ length encoded = length data
    /\ transform encoded (command :: arg) 0 0 verbose' verboseOnce' (Ok data).
Proof.
  intros Hop Hc Hn Hfit Hbytes.
  assert (H1 : (1 <= Z.to_nat n)%nat) by lia.
  pose proof (chunk_op_self_inverse _ _ _ _ Hop Hc) as Hf.
  destruct (chunks_flat_map (Z.to_nat n) f H1 Hf (bytesToBits data)
              (bytesToBits_bits data)) as [Hcut [Hlen [Hbits Hback]]].
  set (out := flat_map f (chunks (Z.to_nat n) (bytesToBits data))) in *.
  assert (Hlen8 : (length out mod 8 = 0)%nat).
  { rewrite Hlen, bytesToBits_length, Nat.mul_comm. apply Nat.Div0.mod_mul. }
  assert (Hsize : length (bitsToBytes out) = length data).
  { rewrite bitsToBytes_chunks, length_map, chunks_length by lia.
    rewrite Hlen, bytesToBits_length.
    symmetry. apply Nat.div_unique with (r := 7%nat); lia. }
  exists (bitsToBytes out). split; [|split; [exact Hsize|]].
  - pose proof (chunk_program_runs data command arg n f 0 0 verbose verboseOnce
                  Hop Hn Hfit) as Hrun.
    rewrite window_full in Hrun. apply Hrun.
    rewrite adjusted_end_full. unfold input_len. lia.
  - assert (Hfit' : input_len (bitsToBytes out) + n <= max_int)
      by (unfold input_len in *; now rewrite Hsize).
    pose proof (chunk_program_runs (bitsToBytes out) command arg n f 0 0
                  verbose' verboseOnce' Hop Hn Hfit') as Hrun.
    rewrite window_full, (bits_roundtrip out Hbits Hlen8) in Hrun.
    unfold out in Hrun at 2. rewrite Hcut, Hback in Hrun.
    rewrite (bytes_roundtrip data Hbytes) in Hrun.
    apply Hrun. rewrite adjusted_end_full. unfold input_len. lia.
Qed.

Lemma self_inverse_commands_witness :
  exists encoded,
    transform [0x41; 0x42; 0x43] (prog "x8:10110101") 0 0 false false (Ok encoded)
    /\ length encoded = 3%nat
    /\ transform encoded (prog "x8:10110101") 0 0 true true (Ok [0x41; 0x42; 0x43]).
Proof.
  apply (self_inverse_commands [0x41; 0x42; 0x43] "x" (prog "8:10110101") 8
           (logical_chunk "x" (prog "10110101")) false false true true).
  - apply (op_logical "x" (prog "8") (prog "10110101") 8);
      [cbn; auto | reflexivity | discriminate | reflexivity].
  - cbn. auto 10.
  - reflexivity.
  - discriminate.
  - repeat (apply Forall_cons; [unfold is_byte; lia|]). apply Forall_nil.
Defined.

(** ** Block chains *)

Lemma rev_seq (n : nat) :
  rev (seq 0 n) = map (fun i => (n - 1 - i)%nat) (seq 0 n).
Proof.
  induction n as [|n IH]; [reflexivity|].
  transitivity (n :: rev (seq 0 n)).
  - rewrite seq_S, rev_app_distr. reflexivity.
  - rewrite IH. cbn [seq map]. rewrite <- seq_shift, map_map.
    f_equal; [lia|]. apply map_ext_in. intros i Hi. apply in_seq in Hi. lia.
Qed.

(** The byte swap of a block chain computes the same bits as the top-level
    one. *)
Lemma block_byteswap_same (chunk : list Z) :
  block_byteswap chunk = byteswap_chunk chunk.
Proof.
  rewrite byteswap_chunk_app. unfold block_byteswap.
  destruct (Nat.ltb_spec 1 (length chunk / 8)) as [Hmany|Hfew].
  - f_equal. rewrite rev_seq, flat_map_concat_map, flat_map_concat_map, map_map.
    reflexivity.
  - destruct (length chunk / 8)%nat as [|[|k]]; [reflexivity | | lia].
    cbn [seq rev app flat_map Nat.mul Nat.add]. rewrite app_nil_r.
    unfold byte_at. cbn [skipn]. symmetry. apply (firstn_skipn 8).
Qed.

Lemma block_op_length command argStr chunk log out log' :
  block_op command argStr chunk log = (Ok out, log') ->
  length out = length chunk.
Proof.
  unfold block_op.
  destruct (command =? "n")%char;
    [intros [= <- _]; apply length_map|].
  destruct (command =? "v")%char;
    [intros [= <- _]; apply length_rev|].
  destruct (command =? "b")%char;
    [intros [= <- _]; rewrite block_byteswap_same; apply byteswap_chunk_length|].
  destruct (ContainsRune (prog "xao") command).
  - destruct (negb _); [discriminate|].
    destruct (nth 1 (SplitN2 argStr) []); [discriminate|].
    intros [= <- _]. apply logical_chunk_length.
  - destruct (ContainsRune (prog "tsi") command); discriminate.
Qed.

Lemma block_loop_length verbose (text : list ascii) :
  forall skip chunk log out log',
    block_loop verbose text skip chunk log = (Ok out, log') ->
    length out = length chunk.
Proof.
  induction text as [|command tl IH]; intros skip chunk log out log' H.
  - now injection H as <- _.
  - cbn [block_loop] in H. destruct skip as [|k]; [|eapply IH, H].
    apply logged_Ok in H. destruct H as [log1 H].
    apply bind_Ok in H. destruct H as [chunk' [log2 [Hop H]]].
    apply block_op_length in Hop. apply IH in H. congruence.
Qed.

(** The commands of a chain that take no argument. *)
Lemma block_loop_plain verbose command tl chunk log :
  In command (prog "nvb") ->
  block_loop verbose (command :: tl) 0 chunk log
  = (when verbose (emit (LogBlockOp (commandNames command) [])) ;;
     block_loop verbose tl 0
       (if (command =? "n")%char then invert_chunk chunk
        else if (command =? "v")%char then rev chunk
        else byteswap_chunk chunk)) log.
Proof.
  intros Hc. cbn in Hc.
  destruct Hc as [<-|[<-|[<-|[]]]]; cbn; unfold bind;
    destruct verbose; cbn; rewrite ?block_byteswap_same; reflexivity.
Qed.

Lemma plain_chain_then (pre rest : list ascii) (verbose : bool) :
  Forall (fun c => In c (prog "nvb")) pre ->
  forall chunk,
    same_outcome (applyBlockOps chunk (pre ++ rest) verbose)
                 (applyBlockOps (plain_chain pre chunk) rest verbose).
Proof.
  unfold applyBlockOps.
  induction 1 as [|command pre Hc _ IH]; intros chunk l1 l2.
  - apply block_loop_same.
  - cbn [app plain_chain]. rewrite block_loop_plain by exact Hc.
    destruct verbose; cbn; apply IH.
Qed.

(** X5. A block chain returns as many bits as it was given, whatever its
    commands are. *)
Theorem block_chain_keeps_length (chunk : list Z) (subProgram : list ascii)
    (verbose : bool) (out : list Z) :
  result (applyBlockOps chunk subProgram verbose) = Ok out ->
  length out = length chunk.
Proof.
  unfold result, applyBlockOps. intros H.
  destruct (block_loop verbose subProgram 0 chunk []) as [r log'] eqn:Hrun.
  cbn in H. subst r. eapply block_loop_length, Hrun.
Qed.

Lemma block_chain_keeps_length_witness :
  length [2; 3; 2; 3; 2; 3; 2; 3; 2; 3] = length [1; 0; 1; 0; 1; 0; 1; 0; 1; 0].
Proof.
  apply (block_chain_keeps_length [1; 0; 1; 0; 1; 0; 1; 0; 1; 0] (prog "vbx:2") false).
  reflexivity.
Defined.

(** X6. A chain of [n], [v] and [b] never fails and is the composition of
    its commands, applied from left to right to the whole chunk; [b] swaps
    the bytes exactly as the top-level command does, with no condition on
    the chunk length; whatever follows such a prefix runs on its result,
    and [t], [s] or [i] there is refused. *)
Theorem plain_block_chain (pre rest : list ascii) (chunk : list Z) (verbose : bool) :
  Forall (fun c => In c (prog "nvb")) pre ->
  result (applyBlockOps chunk pre verbose) = Ok (plain_chain pre chunk)
  /\ result (applyBlockOps chunk (pre ++ rest) verbose)
     = result (applyBlockOps (plain_chain pre chunk) rest verbose)
  /\ (forall c, In c (prog "tsi") ->
        result (applyBlockOps chunk (pre ++ c :: rest) verbose)
        = Failed (ErrNotAllowedInBlock c)).
Proof.
  intros Hpre. split; [|split].
  - unfold result. rewrite <- (app_nil_r pre) at 1.
    rewrite (plain_chain_then pre [] verbose Hpre chunk [] []). reflexivity.
  - apply (plain_chain_then pre rest verbose Hpre chunk).
  - intros c Hc. unfold result.
    rewrite (plain_chain_then pre (c :: rest) verbose Hpre chunk [] []).
    cbn in Hc. destruct Hc as [<-|[<-|[<-|[]]]]; destruct verbose; reflexivity.
Qed.

Lemma plain_block_chain_witness :
  result (applyBlockOps [1; 0; 0] (prog "bvn") false)
  = Ok (plain_chain (prog "bvn") [1; 0; 0])
  /\ result (applyBlockOps [1; 0; 0] (prog "bv" ++ "t"%char :: prog "8") false)
     = Failed (ErrNotAllowedInBlock "t").
Proof.
  split.
  - destruct (plain_block_chain (prog "bvn") [] [1; 0; 0] false) as [H _];
      [|exact H].
    repeat (apply Forall_cons; [cbn; auto|]). apply Forall_nil.
  - destruct (plain_block_chain (prog "bv") (prog "8") [1; 0; 0] false) as [_ [_ H]];
      [|apply H; cbn; auto].
    repeat (apply Forall_cons; [cbn; auto|]). apply Forall_nil.
Defined.

(** ** How many bits a run outputs *)

Section OutputSize.

Variables (inputBits : list Z) (startBit endBit : Z).

Local Abbreviation in_step := (in_step_from startBit endBit).

Lemma consume_in_step f count st st' log log' :
  (forall l, length (f l) = length l) ->
  consume inputBits endBit f count st log = (Ok st', log') ->
  in_step st -> in_step st'.
Proof.
  intros Hf H [Hout Hpos]. apply consume_Ok in H. destruct H as [chunk [Hs [-> _]]].
  apply slice_Some in Hs. destruct Hs as [_ [_ [_ Hlen]]].
  unfold in_step_from. cbn [inputPos outputBits].
  rewrite length_app, Hf. split; [lia | apply read_end_le].
Qed.

Lemma simple_op_in_step command argStr st st' log log' :
  command <> "s"%char -> command <> "i"%char ->
  simple_op inputBits endBit command argStr st log = (Ok st', log') ->
  in_step st -> in_step st'.
Proof.
  intros Hs Hi. unfold simple_op.
  apply Ascii.eqb_neq in Hs. apply Ascii.eqb_neq in Hi. rewrite Hs, Hi.
  destruct (ContainsRune (prog "tsnvb") command).
  - destruct (Atoi argStr) as [count|]; [|discriminate].
    destruct (command =? "t")%char; [now apply consume_in_step|].
    destruct (command =? "n")%char;
      [apply consume_in_step; intros; apply length_map|].
    destruct (command =? "v")%char;
      [apply consume_in_step; intros; apply length_rev|].
    destruct (negb _); [discriminate|].
    apply consume_in_step, byteswap_chunk_length.
  - destruct (ContainsRune (prog "xao") command); [|discriminate].
    destruct (SplitN2 argStr) as [|num [|pattern [|]]]; try discriminate.
    destruct (Atoi num); [|discriminate].
    destruct pattern; [discriminate|].
    destruct (forallb _ _); [|discriminate].
    apply consume_in_step. intros. apply logical_chunk_length.
Qed.

Lemma block_command_in_step shouldLog tl st st' used log log' :
  block_command inputBits endBit shouldLog tl st log = (Ok (st', used), log') ->
  in_step st -> in_step st'.
Proof.
  unfold block_command.
  destruct (IndexRune tl "]") as [k|]; [|discriminate].
  destruct (take_until _ _) as [|d num]; [discriminate|].
  destruct (Atoi (d :: num)) as [count|]; [|discriminate].
  intros H [Hout Hpos]. apply logged_Ok in H. destruct H as [log1 H].
  apply bind_Ok in H. destruct H as [chunk [log2 [Hread H]]].
  apply bind_Ok in H. destruct H as [processed [log3 [Hblock H]]].
  apply logged_Ok in H. destruct H as [log4 H].
  apply ret_Ok in H. injection H as <- _.
  apply block_loop_length in Hblock.
  unfold read_chunk in Hread.
  destruct (slice _ _ _) as [c|] eqn:Hs; [|discriminate].
  injection Hread as -> _.
  apply slice_Some in Hs. destruct Hs as [_ [_ [_ Hlen]]].
  unfold in_step_from. cbn [inputPos outputBits].
  rewrite length_app, Hblock. split; [lia | apply read_end_le].
Qed.

Lemma exec_command_in_step shouldLog command tl st st' used log log' :
  command <> "s"%char -> command <> "i"%char ->
  exec_command inputBits endBit shouldLog command tl st log = (Ok (st', used), log') ->
  in_step st -> in_step st'.
Proof.
  intros Hs Hi. unfold exec_command.
  destruct (command =? "[")%char; [apply block_command_in_step|].
  unfold simple_command. intros H.
  apply logged_Ok in H. destruct H as [log1 H].
  apply bind_Ok in H. destruct H as [st1 [log2 [Hop H]]].
  apply logged_Ok in H. destruct H as [log3 H].
  apply ret_Ok in H. injection H as <- _.
  eapply simple_op_in_step; eassumption.
Qed.

Lemma run_pass_in_step shouldLog (text : list ascii) :
  Forall (fun c => c <> "s"%char /\ c <> "i"%char) text ->
  forall skip st log st' log',
    run_pass inputBits endBit shouldLog text skip st log = (Ok st', log') ->
    in_step st -> in_step st'.
Proof.
  induction 1 as [|command tl [Hs Hi] _ IH]; intros skip st log st' log' H Hst.
  - apply ret_Ok in H. now subst st'.
  - cbn [run_pass] in H. destruct skip as [|k]; [|eapply IH; eassumption].
    destruct (endBit <=? inputPos st); [apply ret_Ok in H; now subst st'|].
    apply bind_Ok in H. destruct H as [[st1 used] [log1 [Hexec H]]].
    eapply IH; [exact H|].
    eapply exec_command_in_step; eassumption.
Qed.

Lemma run_in_step commands verbose verboseOnce :
  Forall (fun c => c <> "s"%char /\ c <> "i"%char) commands -> commands <> [] ->
  forall fuel logPrinted st log st' log',
    run inputBits endBit commands verbose verboseOnce fuel logPrinted st log
    = (Ok st', log') ->
    in_step st -> in_step st' /\ endBit <= inputPos st'.
Proof.
  intros Hok Hne.
  induction fuel as [|fuel IH]; intros logPrinted st log st' log' H Hst;
    cbn [run] in H;
    (destruct (Z.ltb_spec (inputPos st) endBit) as [Hlt|Hge];
     [|apply ret_Ok in H; now subst st']);
    destruct commands as [|c cs] eqn:Hcmd; try contradiction; [discriminate|].
  apply bind_Ok in H. destruct H as [st1 [log1 [Hpass H]]].
  eapply IH; [exact H|]. eapply run_pass_in_step; eassumption.
Qed.

End OutputSize.

(** What a successful call of [applyEdits] with a valid range went through. *)
Lemma applyEdits_Ok fuel data commands startBit endBit verbose verboseOnce bytes :
  0 <= startBit <= adjusted_end data endBit ->
  result (applyEdits fuel data commands startBit endBit verbose verboseOnce) = Ok bytes ->
  exists st log log',
    run (bytesToBits data) (adjusted_end data endBit) commands verbose verboseOnce
        fuel false (mkState startBit []) log = (Ok st, log')
    /\ bytes = bitsToBytes (outputBits st).
Proof.
  intros Hstart. unfold result, applyEdits. rewrite bits_len.
  fold (adjusted_end data endBit).
  assert (Hend : adjusted_end data endBit <= input_len data).
  { unfold adjusted_end. destruct (_ || _) eqn:Hb; [lia|].
    apply orb_false_iff in Hb. lia. }
  assert (Hs : (startBit <? 0) || (input_len data <? startBit) = false)
    by (apply orb_false_iff; lia).
  assert (He : (adjusted_end data endBit <? startBit) = false) by (apply Z.ltb_ge; lia).
  rewrite Hs, He. intros H.
  destruct ((when verbose _ ;; _) []) as [r log'] eqn:Hrun. cbn in H. subst r.
  apply logged_Ok in Hrun. destruct Hrun as [log1 Hrun].
  apply bind_Ok in Hrun. destruct Hrun as [st [log2 [Hrun Hret]]].
  apply ret_Ok in Hret. eauto.
Qed.

Lemma bitsToBytes_length (bits : list Z) :
  Z.of_nat (length (bitsToBytes bits)) = (Z.of_nat (length bits) + 7) / 8.
Proof.
  rewrite bitsToBytes_chunks, length_map, chunks_length by lia.
  rewrite Nat2Z.inj_div, Nat2Z.inj_add. reflexivity.
Qed.

(** X7. A nonempty program without the characters [s] and [i] outputs
    one bit for every bit of the range: when the call succeeds, the result
    has as many bytes as the range has bits, divided by 8 and rounded up. *)
Theorem output_size_without_skip_insert (data : list Z) (commands : list ascii)
    (startBit endBit : Z) (verbose verboseOnce : bool) (bytes : list Z) :
  commands <> [] ->
  Forall (fun c => c <> "s"%char /\ c <> "i"%char) commands ->
  0 <= startBit <= adjusted_end data endBit ->
  transform data commands startBit endBit verbose verboseOnce (Ok bytes) ->
  Z.of_nat (length bytes) = (adjusted_end data endBit - startBit + 7) / 8.
Proof.
  intros Hne Hok Hstart [fuel [Hrun _]].
  apply applyEdits_Ok in Hrun; [|exact Hstart].
  destruct Hrun as [st [log [log' [Hrun ->]]]].
  apply (run_in_step _ startBit _ _ _ _ Hok Hne) in Hrun.
  - destruct Hrun as [[Hout Hle] Hge]. rewrite bitsToBytes_length, Hout.
    do 2 f_equal. lia.
  - split; cbn; lia.
Qed.

Lemma output_size_without_skip_insert_witness :
  Z.of_nat (length [0x4F; 0xB0; 0x10]) = (20 - 0 + 7) / 8.
Proof.
  apply (output_size_without_skip_insert [0xB0; 0xF2; 0x0F] (prog "n8[vn]8t3") 0 20
           true false [0x4F; 0xB0; 0x10]).
  - discriminate.
  - repeat (apply Forall_cons; [split; discriminate|]). apply Forall_nil.
  - split; discriminate.
  - exists 3%nat. split; [vm_compute; reflexivity | discriminate].
Defined.

(** ** When the program text is read *)

(** [applyEdits] with a valid range and without diagnostics. *)
Lemma applyEdits_quiet fuel data commands startBit endBit log :
  0 <= startBit <= adjusted_end data endBit ->
  applyEdits fuel data commands startBit endBit false false log
  = (st <- run (bytesToBits data) (adjusted_end data endBit) commands false false
               fuel false (mkState startBit []) ;;
     ret (bitsToBytes (outputBits st))) log.
Proof.
  intros Hstart. pose proof (adjusted_end_le data endBit) as Hend.
  unfold applyEdits. rewrite bits_len. fold (adjusted_end data endBit).
  assert (Hs : (startBit <? 0) || (input_len data <? startBit) = false)
    by (apply orb_false_iff; lia).
  assert (He : (adjusted_end data endBit <? startBit) = false) by (apply Z.ltb_ge; lia).
  now rewrite Hs, He.
Qed.

(** X8. With an empty range or an empty program nothing is read and
    nothing is written: the call returns no bytes, without looking at the
    program text, so that even a malformed program is accepted on an empty
    range (in particular on an empty input). *)
Theorem nothing_to_do (fuel : nat) (data : list Z) (commands : list ascii)
    (startBit endBit : Z) (verbose verboseOnce : bool) :
  0 <= startBit <= adjusted_end data endBit ->
  startBit = adjusted_end data endBit \/ commands = [] ->
  result (applyEdits fuel data commands startBit endBit verbose verboseOnce) = Ok [].
Proof.
  intros Hstart Hcase.
  rewrite (applyEdits_same _ _ _ _ _ verbose verboseOnce false false).
  unfold result. rewrite applyEdits_quiet by exact Hstart. unfold bind.
  destruct Hcase as [Heq| ->].
  - rewrite run_done by (cbn; lia). reflexivity.
  - destruct fuel; cbn; destruct (startBit <? _); reflexivity.
Qed.

Lemma nothing_to_do_witness :
  result (applyEdits 0 [] (prog "z[[") 0 0 true false) = Ok []
  /\ result (applyEdits 0 [0x41] [] 3 0 true false) = Ok [].
Proof.
  split.
  - apply (nothing_to_do 0 [] (prog "z[[") 0 0 true false);
      [split; discriminate | left; reflexivity].
  - apply (nothing_to_do 0 [0x41] [] 3 0 true false);
      [split; discriminate | right; reflexivity].
Defined.

Lemma first_pass_fails data command tl startBit endBit verbose verboseOnce e :
  0 <= startBit < adjusted_end data endBit ->
  (forall st log,
     fst (exec_command (bytesToBits data) (adjusted_end data endBit) false
            command tl st log) = Failed e) ->
  transform data (command :: tl) startBit endBit verbose verboseOnce (Failed e).
Proof.
  intros Hstart Hexec. exists 1%nat. split; [|discriminate].
  rewrite (applyEdits_same _ _ _ _ _ verbose verboseOnce false false).
  unfold result. rewrite applyEdits_quiet by lia.
  unfold bind. cbn [run run_pass inputPos andb].
  destruct (Z.ltb_spec startBit (adjusted_end data endBit)) as [_|]; [|lia].
  destruct (Z.leb_spec (adjusted_end data endBit) startBit) as [|_]; [lia|].
  unfold bind.
  specialize (Hexec (mkState startBit []) []).
  destruct (exec_command _ _ _ _ _ _ _) as [[r| | |] log']; cbn in Hexec;
    try discriminate.
  now injection Hexec as ->.
Qed.

(** X9. On a nonempty range the first command is checked at once: a
    character that is no command is an unknown-command error, a bracket
    without a closing bracket is a mismatched-brackets error, a block without
    digits after its closing bracket lacks its count, and [t], [s], [n],
    [v] or [b] followed by something [strconv.Atoi] refuses is an
    invalid-argument error. *)
Theorem first_command_errors (data : list Z) (tl : list ascii)
    (startBit endBit : Z) (verbose verboseOnce : bool) :
  0 <= startBit < adjusted_end data endBit ->
  (forall c, ~ In c (prog "tsnvbixao[") ->
     transform data (c :: tl) startBit endBit verbose verboseOnce
       (Failed (ErrUnknownCommand c)))
  /\ (IndexRune tl "]"%char = None ->
      transform data ("["%char :: tl) startBit endBit verbose verboseOnce
        (Failed ErrMismatchedBrackets))
  /\ (forall k, IndexRune tl "]"%char = Some k ->
      take_until (fun c => negb (is_digit c)) (skipn (S k) tl) = [] ->
      transform data ("["%char :: tl) startBit endBit verbose verboseOnce
        (Failed ErrBlockNeedsNumber))
  /\ (forall c, In c (prog "tsnvb") ->
      Atoi (take_until command_stop tl) = None ->
      transform data (c :: tl) startBit endBit verbose verboseOnce
        (Failed (ErrBadNumericArg c (take_until command_stop tl)))).
Proof.
  intros Hstart. split; [|split; [|split]].
  - intros c Hc. apply first_pass_fails; [exact Hstart|]. intros st log.
    assert (Hno : forall set, (forall x, In x set -> In x (prog "tsnvbixao[")) ->
                    ContainsRune set c = false).
    { intros set Hset. destruct (ContainsRune set c) eqn:Hin; [|reflexivity].
      apply ContainsRune_In in Hin. contradiction Hc. auto. }
    assert (Hne : forall x, In x (prog "tsnvbixao[") -> (c =? x)%char = false).
    { intros x Hx. apply Ascii.eqb_neq. intros ->. contradiction. }
    unfold exec_command, simple_command, simple_op, bind. cbn [when andb ret].
    rewrite (Hne "["%char) by (cbn; auto 12).
    rewrite (Hno (prog "tsnvb")) by (cbn; intuition auto 12).
    rewrite (Hne "i"%char) by (cbn; auto 12).
    rewrite (Hno (prog "xao")) by (cbn; intuition auto 12).
    reflexivity.
  - intros Hnone. apply first_pass_fails; [exact Hstart|]. intros st log.
    unfold exec_command, block_command. rewrite Ascii.eqb_refl. now rewrite Hnone.
  - intros k Hk Hnum. apply first_pass_fails; [exact Hstart|]. intros st log.
    unfold exec_command, block_command. rewrite Ascii.eqb_refl. now rewrite Hk, Hnum.
  - intros c Hc Harg. apply first_pass_fails; [exact Hstart|]. intros st log.
    unfold exec_command, simple_command, simple_op, bind. cbn [when andb ret].
    cbn in Hc. destruct Hc as [<-|[<-|[<-|[<-|[<-|[]]]]]]; cbn -[Atoi take_until];
      now rewrite Harg.
Qed.

Lemma first_command_errors_witness :
  transform [0x41] (prog "z5") 0 0 false false (Failed (ErrUnknownCommand "z"))
  /\ transform [0x41] (prog "[n8") 0 0 false false (Failed ErrMismatchedBrackets)
  /\ transform [0x41] (prog "[n]t8") 0 0 false false (Failed ErrBlockNeedsNumber)
  /\ transform [0x41] (prog "t") 0 0 false false (Failed (ErrBadNumericArg "t" [])).
Proof.
  destruct (first_command_errors [0x41] (prog "5") 0 0 false false) as [H1 _];
    [split; [discriminate | reflexivity]|].
  destruct (first_command_errors [0x41] (prog "n8") 0 0 false false) as [_ [H2 _]];
    [split; [discriminate | reflexivity]|].
  destruct (first_command_errors [0x41] (prog "n]t8") 0 0 false false) as [_ [_ [H3 _]]];
    [split; [discriminate | reflexivity]|].
  destruct (first_command_errors [0x41] [] 0 0 false false) as [_ [_ [_ H4]]];
    [split; [discriminate | reflexivity]|].
  split; [|split; [|split]].
  - apply H1. cbn. intros H. repeat (destruct H as [H|H]; [discriminate H|]). exact H.
  - apply H2. reflexivity.
  - apply (H3 1%nat); reflexivity.
  - apply (H4 "t"%char); [cbn; auto | reflexivity].
Defined.

(** One chunk command followed by more program text. *)
Lemma run_pass_chunk_command inputBits endBit command arg n f rest st log :
  chunk_op command arg n f -> stops_at command_stop rest ->
  inputPos st < endBit ->
  run_pass inputBits endBit false (command :: arg ++ rest) 0 st log
  = (st' <- consume inputBits endBit f n st ;;
     run_pass inputBits endBit false rest 0 st') log.
Proof.
  intros Hop Hrest Hpos. destruct (chunk_op_spec _ _ _ _ Hop) as [Hb [Harg Hsw]].
  assert (Hplain : Forall (fun c => command_stop c = false) arg).
  { destruct (take_until_split command_stop arg) as [r [Heq [Hall _]]].
    now rewrite Harg in Hall. }
  cbn [run_pass]. apply Z.leb_gt in Hpos. rewrite Hpos.
  unfold exec_command. apply Ascii.eqb_neq in Hb. rewrite Hb.
  unfold simple_command. rewrite take_until_app by assumption. cbn [when andb].
  unfold bind, ret. rewrite Hsw.
  destruct (consume inputBits endBit f n st log) as [[st'| | |] log'] eqn:Hc;
    try reflexivity.
  cbn [fst snd]. now rewrite run_pass_skip.
Qed.

(** X10. The program text is read only as far as the run gets: on a
    nonempty range, when the first command is a chunk command whose count is
    at least the length of the range, the start of the range plus the count
    fitting an [int], the call returns the image of the range whatever text
    follows the argument of the command (nothing, or text from the next
    command letter or bracket on), malformed or not. *)
Theorem text_after_the_end_is_not_read (data : list Z) (command : ascii)
    (arg rest : list ascii) (n : Z) (f : list Z -> list Z)
    (startBit endBit : Z) (verbose verboseOnce : bool) :
  chunk_op command arg n f -> stops_at command_stop rest ->
  0 <= startBit < adjusted_end data endBit ->
  adjusted_end data endBit - startBit <= n -> startBit + n <= max_int ->
  transform data (command :: arg ++ rest) startBit endBit verbose verboseOnce
    (Ok (bitsToBytes (f (window (bytesToBits data) startBit (adjusted_end data endBit))))).
Proof.
  intros Hop Hrest Hstart Hreach Hfit.
  pose proof (adjusted_end_le data endBit) as Hend.
  exists 1%nat. split; [|discriminate].
  rewrite (applyEdits_same _ _ _ _ _ verbose verboseOnce false false).
  unfold result. rewrite applyEdits_quiet by lia.
  unfold bind. cbn [run inputPos andb].
  destruct (Z.ltb_spec startBit (adjusted_end data endBit)) as [_|]; [|lia].
  unfold bind.
  rewrite (run_pass_chunk_command _ _ _ _ _ _ _ _ _ Hop Hrest) by (cbn; lia).
  unfold bind, consume, read_chunk, bind. cbn [inputPos outputBits].
  rewrite read_end_min by (unfold min_int; lia).
  rewrite Z.min_r by lia.
  destruct (slice_in_range (bytesToBits data) startBit (adjusted_end data endBit))
    as [chunk Hchunk]; [lia | rewrite bits_len; lia |].
  rewrite Hchunk. cbn [ret].
  rewrite run_pass_done by (cbn; lia). cbn [ret].
  cbn [inputPos]. rewrite Z.ltb_irrefl. cbn [ret fst outputBits app].
  apply slice_Some in Hchunk. destruct Hchunk as [_ [_ [-> _]]]. reflexivity.
Qed.

Lemma text_after_the_end_is_not_read_witness :
  transform [0xB0] (prog "n8" ++ prog "[[t") 0 0 false false
    (Ok (bitsToBytes (invert_chunk (window (bytesToBits [0xB0]) 0 (adjusted_end [0xB0] 0))))).
Proof.
  apply (text_after_the_end_is_not_read [0xB0] "n" (prog "8") (prog "[[t") 8
           invert_chunk 0 0 false false).
  - now apply op_invert.
  - reflexivity.
  - split; [discriminate | reflexivity].
  - discriminate.
  - discriminate.
Defined.

(** X25. The clamp of a read does not cover every count: when the first
    command of a program is a chunk command whose count is negative, or so
    large that the start of the range plus the count does not fit an [int],
    on a nonempty range of an input whose length in bits fits an [int], the
    end of the read lies before the cursor, the slice expression is out of
    range and the call panics: it returns neither bytes nor an error,
    whatever text follows the argument of the command (nothing, or text from
    the next command letter or bracket on). *)
Theorem count_out_of_range_panics (data : list Z) (command : ascii)
    (arg rest : list ascii) (n : Z) (f : list Z -> list Z)
    (startBit endBit : Z) (verbose verboseOnce : bool) :
  chunk_op command arg n f -> stops_at command_stop rest ->
  0 <= startBit < adjusted_end data endBit -> input_len data <= max_int ->
  n < 0 \/ max_int < startBit + n ->
  transform data (command :: arg ++ rest) startBit endBit verbose verboseOnce Panic.
Proof.
  intros Hop Hrest Hstart Hlen Hbad.
  pose proof (adjusted_end_le data endBit) as Hend.
  assert (Hn : min_int <= n <= max_int).
  { destruct Hop as [a k Hk|a k Hk|a k Hk|a k Hk _|c num pattern k _ Hk _ _];
      eapply Atoi_range, Hk. }
  exists 1%nat. split; [|discriminate].
  rewrite (applyEdits_same _ _ _ _ _ verbose verboseOnce false false).
  unfold result. rewrite applyEdits_quiet by lia.
  unfold bind. cbn [run inputPos andb].
  destruct (Z.ltb_spec startBit (adjusted_end data endBit)) as [_|]; [|lia].
  unfold bind.
  rewrite (run_pass_chunk_command _ _ _ _ _ _ _ _ _ Hop Hrest) by (cbn; lia).
  unfold bind. rewrite consume_panics; cbn [inputPos]; try assumption; try lia.
  reflexivity.
Qed.

Lemma count_out_of_range_panics_witness :
  transform [0x01; 0x02] (prog "t9223372036854775807" ++ prog "t8") 8 0 false false
    Panic.
Proof.
  apply (count_out_of_range_panics [0x01; 0x02] "t" (prog "9223372036854775807")
           (prog "t8") 9223372036854775807 (fun chunk => chunk) 8 0 false false).
  - now apply op_take.
  - reflexivity.
  - split; [discriminate | reflexivity].
  - discriminate.
  - right. reflexivity.
Defined.

(** * The Hamming coder *)

Section HammingBlocks.

Import Hamming.

Lemma set_at_length (k : nat) (v : Z) (block : list Z) :
  length (set_at k v block) = length block.
Proof.
  revert k. induction block as [|x block IH]; intros [|k]; cbn; auto.
Qed.

Lemma nth_set_at (k i : nat) (v : Z) (block : list Z) :
  (k < length block)%nat ->
  nth i (set_at k v block) 0 = if (i =? k)%nat then v else nth i block 0.
Proof.
  revert k i. induction block as [|x block IH]; intros k i Hk; [cbn in Hk; lia|].
  destruct k as [|k], i as [|i]; cbn; try reflexivity.
  apply IH. cbn in Hk. lia.
Qed.

Lemma set_at_set_at (k : nat) (v w : Z) (block : list Z) :
  set_at k v (set_at k w block) = set_at k v block.
Proof.
  revert k. induction block as [|x block IH]; intros [|k]; cbn; auto.
  now rewrite IH.
Qed.

Lemma set_at_same (k : nat) (block : list Z) :
  set_at k (nth k block 0) block = block.
Proof.
  revert k. induction block as [|x block IH]; intros [|k]; cbn; auto.
  now rewrite IH.
Qed.

Lemma xor_over_acc c block positions :
  forall parity,
    xor_over c block positions parity
    = Z.lxor parity (xor_over c block positions 0).
Proof.
  unfold xor_over.
  induction positions as [|j positions IH]; intros parity; cbn [fold_left].
  - now rewrite Z.lxor_0_r.
  - rewrite IH. rewrite (IH (if c j then _ else _)).
    destruct (c j); [|reflexivity].
    now rewrite Z.lxor_0_l, Z.lxor_assoc.
Qed.

Lemma xor_over_app c block l1 l2 parity :
  xor_over c block (l1 ++ l2) parity
  = xor_over c block l2 (xor_over c block l1 parity).
Proof. unfold xor_over. apply fold_left_app. Qed.

Lemma xor_over_ext c c' block block' positions parity :
  (forall j, In j positions ->
     c j = c' j /\ (c j = true -> nth (j - 1) block 0 = nth (j - 1) block' 0)) ->
  xor_over c block positions parity = xor_over c' block' positions parity.
Proof.
  unfold xor_over. revert parity.
  induction positions as [|j positions IH]; intros parity H; [reflexivity|].
  cbn [fold_left]. destruct (H j (or_introl eq_refl)) as [Hc Hv].
  rewrite <- Hc. destruct (c j) eqn:Hcj.
  - rewrite <- Hv by reflexivity. apply IH. intros; apply H; now right.
  - apply IH. intros; apply H; now right.
Qed.

(** The effect of one written position on a parity. *)
Lemma xor_over_set_at c (block : list Z) (p : nat) (v : Z) :
  (1 <= p <= length block)%nat ->
  xor_over c (set_at (p - 1) v block) (seq 1 (length block)) 0
  = Z.lxor (xor_over (fun j => c j && negb (j =? p)%nat) block (seq 1 (length block)) 0)
           (if c p then v else 0).
Proof.
  intros Hp. remember (length block) as n eqn:Hn.
  assert (Hseq : seq 1 n = seq 1 (p - 1) ++ [p] ++ seq (S p) (n - p)).
  { replace n with ((p - 1) + S (n - p))%nat at 1 by lia.
    rewrite seq_app. cbn [seq app]. now replace (1 + (p - 1))%nat with p by lia. }
  rewrite Hseq, !xor_over_app.
  assert (Hout : forall L acc, ~ In p L -> (forall j, In j L -> (1 <= j)%nat) ->
            xor_over c (set_at (p - 1) v block) L acc
            = xor_over (fun j => c j && negb (j =? p)%nat) block L acc).
  { intros L acc Hnp Hge. apply xor_over_ext. intros j Hj.
    assert (Hjp : j <> p) by (intros ->; contradiction).
    destruct (Nat.eqb_spec j p) as [|_]; [contradiction|].
    rewrite andb_true_r. split; [reflexivity|]. intros _.
    rewrite nth_set_at by lia.
    destruct (Nat.eqb_spec (j - 1) (p - 1)) as [Heq|]; [|reflexivity].
    specialize (Hge j Hj). lia. }
  rewrite (Hout (seq 1 (p - 1)))
    by (unfold not; intros;
        match goal with H : In _ (seq _ _) |- _ => apply in_seq in H end; lia).
  rewrite (Hout (seq (S p) (n - p)))
    by (unfold not; intros;
        match goal with H : In _ (seq _ _) |- _ => apply in_seq in H end; lia).
  set (c' := fun j => c j && negb (j =? p)%nat).
  set (A := xor_over c' block (seq 1 (p - 1)) 0).
  assert (H1 : xor_over c (set_at (p - 1) v block) [p] A
               = if c p then Z.lxor A v else A).
  { unfold xor_over. cbn [fold_left].
    now rewrite nth_set_at, Nat.eqb_refl by lia. }
  assert (H2 : xor_over c' block [p] A = A).
  { unfold xor_over, c'. cbn [fold_left].
    now rewrite Nat.eqb_refl, andb_false_r. }
  rewrite H1, H2.
  rewrite (xor_over_acc c' block (seq (S p) (n - p)) A).
  rewrite (xor_over_acc c' block (seq (S p) (n - p)) (if c p then _ else _)).
  destruct (c p).
  - rewrite !Z.lxor_assoc. f_equal. apply Z.lxor_comm.
  - now rewrite Z.lxor_0_r.
Qed.

Lemma fold_left_agree {A B} (f g : A -> B -> A) (l : list B) :
  (forall x a, In x l -> f a x = g a x) ->
  forall a, fold_left f l a = fold_left g l a.
Proof.
  induction l as [|x l IH]; intros H a; [reflexivity|].
  cbn. rewrite H by now left. apply IH. intros; apply H; now right.
Qed.

Lemma parity_at_xor_over (n pPos : nat) (block : list Z) :
  n = length block ->
  parity_at n pPos block
  = xor_over (fun j => negb (Nat.land j pPos =? 0)%nat) block (seq 1 n) 0.
Proof.
  intros ->. unfold parity_at, xor_over.
  apply fold_left_agree. intros j acc Hj. apply in_seq in Hj.
  destruct (negb _); [|reflexivity].
  destruct (Nat.ltb_spec (j - 1) (length block)); [reflexivity | lia].
Qed.

Lemma parity_without_xor_over (n pPos : nat) (block : list Z) :
  parity_without n pPos block
  = xor_over (fun j => negb (Nat.land j pPos =? 0)%nat && negb (j =? pPos)%nat)
             block (seq 1 n) 0.
Proof.
  unfold parity_without, xor_over.
  apply fold_left_agree. intros j acc _. now rewrite andb_comm.
Qed.

Lemma land_pow2 (j i : nat) :
  (Nat.land j (2 ^ i) =? 0)%nat = negb (Nat.testbit j i).
Proof.
  destruct (Nat.testbit j i) eqn:Hb; cbn [negb].
  - apply Nat.eqb_neq. intros H0.
    assert (Hbit : Nat.testbit (Nat.land j (2 ^ i)) i = true)
      by (now rewrite Nat.land_spec, Hb, Nat.pow2_bits_true).
    now rewrite H0, Nat.bits_0 in Hbit.
  - apply Nat.eqb_eq, Nat.bits_inj. intros k.
    rewrite Nat.land_spec, Nat.bits_0, Nat.pow2_bits_eqb.
    destruct (Nat.eqb_spec i k) as [<-|_]; [now rewrite Hb | apply andb_false_r].
Qed.

Lemma pow2_in_block (i m : nat) :
  (i < m)%nat -> (1 <= 2 ^ i <= 2 ^ m - 1)%nat.
Proof.
  intros Hi. assert (2 ^ i <> 0)%nat by (apply Nat.pow_nonzero; lia).
  assert (2 ^ i < 2 ^ m)%nat by (apply Nat.pow_lt_mono_r; lia). lia.
Qed.

(** The sum that [calculateSyndrome] builds is the number whose bits are the
    parities that are set. *)
Lemma sum_of_bits (t : nat -> bool) (x m : nat) :
  (forall i, (i < m)%nat -> t i = Nat.testbit x i) ->
  fold_left (fun s i => if t i then (s + Nat.shiftl 1 i)%nat else s) (seq 0 m) 0%nat
  = (x mod 2 ^ m)%nat.
Proof.
  induction m as [|m IH]; intros Ht; [cbn; lia|].
  rewrite seq_S, fold_left_app. cbn [fold_left Nat.add].
  rewrite IH by (intros; apply Ht; lia).
  rewrite Ht by lia. rewrite Nat.shiftl_1_l.
  rewrite Nat.pow_succ_r', (Nat.mul_comm 2), Nat.Div0.mod_mul_r.
  rewrite <- Nat.testbit_spec'. destruct (Nat.testbit x m); cbn [Nat.b2n]; lia.
Qed.

Lemma calculateSyndrome_bits (block : list Z) (m x : nat) :
  length block = (2 ^ m - 1)%nat ->
  (forall i, (i < m)%nat ->
     (parity_at (2 ^ m - 1) (2 ^ i) block =? 0) = negb (Nat.testbit x i)) ->
  calculateSyndrome block m = (x mod 2 ^ m)%nat.
Proof.
  intros Hlen Hpar. unfold calculateSyndrome. rewrite Nat.shiftl_1_l.
  rewrite <- (sum_of_bits (fun i => negb (parity_at (2 ^ m - 1) (2 ^ i) block =? 0)) x m).
  - apply fold_left_agree. intros i s Hi. now rewrite Nat.shiftl_1_l.
  - intros i Hi. rewrite Hpar by exact Hi. apply negb_involutive.
Qed.

(** Writing a value at position [p] changes the parity [i] by that value
    and the old one, when [p] has bit [i], and leaves it alone otherwise. *)
Lemma parity_at_set_at (block : list Z) (m p i : nat) (v : Z) :
  length block = (2 ^ m - 1)%nat -> (1 <= p <= 2 ^ m - 1)%nat ->
  parity_at (2 ^ m - 1) (2 ^ i) (set_at (p - 1) v block)
  = Z.lxor (parity_at (2 ^ m - 1) (2 ^ i) block)
           (if Nat.testbit p i then Z.lxor (nth (p - 1) block 0) v else 0).
Proof.
  intros Hlen Hp.
  rewrite !parity_at_xor_over by (now rewrite ?set_at_length).
  rewrite <- Hlen at 1. rewrite <- (set_at_length (p - 1) v block) at 1.
  rewrite set_at_length. rewrite <- Hlen.
  rewrite xor_over_set_at by lia.
  rewrite <- (set_at_same (p - 1) block) at 3.
  rewrite xor_over_set_at by lia.
  rewrite land_pow2, negb_involutive.
  destruct (Nat.testbit p i).
  - rewrite !Z.lxor_assoc. f_equal.
    now rewrite <- Z.lxor_assoc, Z.lxor_nilpotent, Z.lxor_0_l.
  - now rewrite !Z.lxor_0_r.
Qed.

Lemma pow2_parity_position (i : nat) : parity_position (2 ^ i) = true.
Proof.
  unfold parity_position. apply andb_true_iff.
  assert (2 ^ i <> 0)%nat by (apply Nat.pow_nonzero; lia).
  split; [apply Nat.ltb_lt; lia|]. apply Nat.eqb_eq.
  replace (2 ^ i - 1)%nat with (Nat.ones i) by (rewrite Nat.ones_equiv; lia).
  rewrite Nat.land_ones. apply Nat.Div0.mod_same.
Qed.

Lemma data_not_parity (j : nat) :
  (1 <= j)%nat -> data_position j = negb (parity_position j).
Proof.
  intros Hj. unfold data_position, parity_position.
  destruct (Nat.ltb_spec 0 j); [reflexivity | lia].
Qed.

Lemma data_position_pos (j : nat) : data_position j = true -> (1 <= j)%nat.
Proof.
  unfold data_position. intros H. apply andb_true_iff in H.
  destruct H as [H _]. apply Nat.ltb_lt in H. lia.
Qed.

Lemma high_bit (a m : nat) :
  (2 ^ m <= a < 2 ^ S m)%nat -> Nat.testbit a m = true.
Proof.
  intros Ha. assert (Hlog : Nat.log2 a = m) by (apply Nat.log2_unique; lia).
  rewrite <- Hlog. apply Nat.bit_log2.
  assert (2 ^ m <> 0)%nat by (apply Nat.pow_nonzero; lia). lia.
Qed.

(** Between two powers of two every position is a data position. *)
Lemma data_position_between (j m : nat) :
  (2 ^ m < j < 2 ^ S m)%nat -> data_position j = true.
Proof.
  intros Hj. unfold data_position. apply andb_true_iff.
  split; [apply Nat.ltb_lt; lia|]. apply negb_true_iff, Nat.eqb_neq. intros H0.
  assert (Hbit : Nat.testbit (Nat.land j (j - 1)) m = true)
    by (rewrite Nat.land_spec, !high_bit by lia; reflexivity).
  now rewrite H0, Nat.bits_0 in Hbit.
Qed.

Lemma filter_all {A} (f : A -> bool) (l : list A) :
  (forall x, In x l -> f x = true) -> filter f l = l.
Proof.
  induction l as [|x l IH]; intros H; [reflexivity|].
  cbn. rewrite H by now left. f_equal. apply IH. intros; apply H; now right.
Qed.

(** A block of [2^m - 1] positions has [2^m - 1 - m] data positions. *)
Lemma data_positions_count (m : nat) :
  length (filter data_position (seq 1 (2 ^ m - 1))) = (2 ^ m - 1 - m)%nat.
Proof.
  induction m as [|m IH]; [reflexivity|].
  assert (Hpow : (2 ^ S m = 2 ^ m + 2 ^ m)%nat) by (rewrite Nat.pow_succ_r'; lia).
  assert (Hm : (m < 2 ^ m)%nat) by (apply Nat.pow_gt_lin_r; lia).
  replace (2 ^ S m - 1)%nat with ((2 ^ m - 1) + (1 + (2 ^ m - 1)))%nat by lia.
  rewrite !seq_app, !filter_app, !length_app, IH.
  replace (1 + (2 ^ m - 1))%nat with (2 ^ m)%nat by lia.
  cbn [seq filter].
  rewrite (data_not_parity (2 ^ m)) by lia.
  rewrite pow2_parity_position. cbn [negb length].
  rewrite filter_all.
  - rewrite length_seq. lia.
  - intros j Hj. apply in_seq in Hj. apply (data_position_between j m). lia.
Qed.

(** What the first loop of [encodeBlock] leaves in the block. *)
Lemma place_spec (positions : list nat) :
  NoDup positions ->
  forall dataBits block,
    (forall j, In j positions -> (1 <= j <= length block)%nat) ->
    length dataBits = length (filter data_position positions) ->
    exists block',
      place positions dataBits block = Some block'
      /\ length block' = length block
      /\ flat_map (fun i => if data_position i then [nth (i - 1) block' 0] else [])
                  positions = dataBits
      /\ (forall j, (1 <= j)%nat -> ~ In j positions ->
            nth (j - 1) block' 0 = nth (j - 1) block 0).
Proof.
  induction 1 as [|j positions Hj Hnd IH]; intros dataBits block Hin Hlen.
  - destruct dataBits; [|discriminate]. exists block. cbn. auto.
  - assert (Hj1 : (1 <= j <= length block)%nat) by (apply Hin; now left).
    cbn [place filter flat_map] in *.
    rewrite (data_not_parity j) in * by lia.
    destruct (parity_position j) eqn:Hpar; cbn [negb] in *.
    + destruct (IH dataBits block) as [block' [Hp [Hl [Hd Hout]]]];
        [intros; apply Hin; now right | exact Hlen |].
      exists block'. repeat split; try assumption.
      intros i Hi Hni. apply Hout; [exact Hi | intros H; apply Hni; now right].
    + destruct dataBits as [|bit dataBits]; [discriminate|].
      destruct (IH dataBits (set_at (j - 1) bit block)) as [block' [Hp [Hl [Hd Hout]]]].
      * intros i Hi. rewrite set_at_length. apply Hin. now right.
      * cbn in Hlen. lia.
      * exists block'. rewrite set_at_length in Hl.
        split; [exact Hp|]. split; [exact Hl|]. split.
        -- cbn [app]. rewrite Hd. f_equal.
           rewrite Hout by (lia || exact Hj).
           rewrite nth_set_at by lia. now rewrite Nat.eqb_refl.
        -- intros i Hi Hni. rewrite Hout by (try lia; intros H; apply Hni; now right).
           rewrite nth_set_at by lia.
           destruct (Nat.eqb_spec (i - 1) (j - 1)) as [Heq|]; [|reflexivity].
           contradiction Hni. left. lia.
Qed.

Lemma parity_with_and_without (block : list Z) (m i : nat) :
  length block = (2 ^ m - 1)%nat -> (i < m)%nat ->
  parity_at (2 ^ m - 1) (2 ^ i) block
  = Z.lxor (parity_without (2 ^ m - 1) (2 ^ i) block) (nth (2 ^ i - 1) block 0).
Proof.
  intros Hlen Hi. pose proof (pow2_in_block i m Hi) as Hp.
  rewrite parity_at_xor_over, parity_without_xor_over by (now rewrite Hlen).
  rewrite <- Hlen.
  rewrite <- (set_at_same (2 ^ i - 1) block) at 1.
  rewrite xor_over_set_at by lia.
  now rewrite land_pow2, Nat.pow2_bits_true.
Qed.

(** What the second loop of [encodeBlock] leaves in the block. *)
Lemma set_parities_spec (m : nat) (indices : list nat) :
  NoDup indices -> (forall i, In i indices -> (i < m)%nat) ->
  forall block,
    length block = (2 ^ m - 1)%nat ->
    length (set_parities indices (2 ^ m - 1) block) = (2 ^ m - 1)%nat
    /\ (forall i, In i indices ->
          parity_at (2 ^ m - 1) (2 ^ i) (set_parities indices (2 ^ m - 1) block) = 0)
    /\ (forall i, ~ In i indices ->
          parity_at (2 ^ m - 1) (2 ^ i) (set_parities indices (2 ^ m - 1) block)
          = parity_at (2 ^ m - 1) (2 ^ i) block)
    /\ (forall j, data_position j = true ->
          nth (j - 1) (set_parities indices (2 ^ m - 1) block) 0 = nth (j - 1) block 0).
Proof.
  induction 1 as [|i indices Hi Hnd IH]; intros Hlt block Hlen.
  - cbn. repeat split; auto. intros i [].
  - cbn [set_parities]. rewrite Nat.shiftl_1_l.
    assert (Him : (i < m)%nat) by (apply Hlt; now left).
    pose proof (pow2_in_block i m Him) as Hp.
    set (block1 := set_at (2 ^ i - 1) (parity_without (2 ^ m - 1) (2 ^ i) block) block).
    assert (Hlen1 : length block1 = (2 ^ m - 1)%nat)
      by (unfold block1; now rewrite set_at_length).
    destruct (IH (fun k Hk => Hlt k (or_intror Hk)) block1 Hlen1)
      as [Hl [Hzero [Hsame Hdata]]].
    assert (Hpar : forall k,
              parity_at (2 ^ m - 1) (2 ^ k) block1
              = if (k =? i)%nat then 0 else parity_at (2 ^ m - 1) (2 ^ k) block).
    { intros k. unfold block1. rewrite parity_at_set_at by assumption.
      rewrite Nat.pow2_bits_eqb, Nat.eqb_sym.
      destruct (Nat.eqb_spec k i) as [->|_]; [|apply Z.lxor_0_r].
      rewrite parity_with_and_without by assumption.
      rewrite (Z.lxor_comm (nth _ _ _)). apply Z.lxor_nilpotent. }
    split; [exact Hl|]. split; [|split].
    + intros k [<-|Hk]; [|now apply Hzero].
      rewrite Hsame by exact Hi. rewrite Hpar. now rewrite Nat.eqb_refl.
    + intros k Hk. rewrite Hsame by (intros H; apply Hk; now right).
      rewrite Hpar. destruct (Nat.eqb_spec k i) as [->|_]; [|reflexivity].
      contradiction Hk. now left.
    + intros j Hj. rewrite Hdata by exact Hj. unfold block1.
      rewrite nth_set_at by lia.
      destruct (Nat.eqb_spec (j - 1) (2 ^ i - 1)) as [Heq|]; [|reflexivity].
      pose proof (data_position_pos j Hj).
      replace j with (2 ^ i)%nat in Hj by lia.
      rewrite data_not_parity, pow2_parity_position in Hj by lia. discriminate.
Qed.

Lemma data_bits_same (block block' : list Z) :
  length block' = length block ->
  (forall j, data_position j = true -> nth (j - 1) block' 0 = nth (j - 1) block 0) ->
  data_bits block' = data_bits block.
Proof.
  intros Hlen Hnth. unfold data_bits. rewrite Hlen.
  rewrite !flat_map_concat_map. f_equal. apply map_ext. intros j.
  destruct (data_position j) eqn:Hj; [|reflexivity]. now rewrite Hnth.
Qed.

(** [encodeBlock] on a full block of data bits: a block whose parities are
    all even and whose data positions hold the data bits. *)
Lemma encodeBlock_spec (dataBits : list Z) (m : nat) :
  length dataBits = (2 ^ m - 1 - m)%nat ->
  exists block,
    encodeBlock dataBits m = Some block
    /\ length block = (2 ^ m - 1)%nat
    /\ (forall i, (i < m)%nat -> parity_at (2 ^ m - 1) (2 ^ i) block = 0)
    /\ data_bits block = dataBits.
Proof.
  intros Hlen. unfold encodeBlock. rewrite Nat.shiftl_1_l.
  destruct (place_spec (seq 1 (2 ^ m - 1)) (seq_NoDup _ _) dataBits
              (repeat 0 (2 ^ m - 1))) as [block0 [Hplace [Hl0 [Hd0 _]]]].
  - intros j Hj. apply in_seq in Hj. rewrite repeat_length. lia.
  - now rewrite data_positions_count.
  - rewrite Hplace. rewrite repeat_length in Hl0.
    destruct (set_parities_spec m (seq 0 m) (seq_NoDup _ _)
                (fun i Hi => proj2 (proj1 (in_seq _ _ _) Hi)) block0 Hl0)
      as [Hl [Hzero [_ Hdata]]].
    eexists. split; [reflexivity|]. split; [exact Hl|]. split.
    + intros i Hi. apply Hzero, in_seq. lia.
    + rewrite (data_bits_same block0) by (rewrite ?Hl, ?Hl0; auto).
      unfold data_bits. now rewrite Hl0.
Qed.

Lemma lxor_flip_twice (x : Z) : Z.lxor (Z.lxor x 1) 1 = x.
Proof. now rewrite Z.lxor_assoc, Z.lxor_nilpotent, Z.lxor_0_r. Qed.

Lemma lxor_flip_differs (x : Z) : (Z.lxor x 1 =? x) = false.
Proof.
  apply Z.eqb_neq. intros H.
  assert (H1 : Z.lxor x (Z.lxor x 1) = 1)
    by (now rewrite <- Z.lxor_assoc, Z.lxor_nilpotent).
  rewrite H, Z.lxor_nilpotent in H1. discriminate.
Qed.

Lemma flip_bit_length (p : nat) (block : list Z) :
  length (flip_bit p block) = length block.
Proof. apply set_at_length. Qed.

Lemma flip_bit_twice (p : nat) (block : list Z) :
  (1 <= p <= length block)%nat -> flip_bit p (flip_bit p block) = block.
Proof.
  intros Hp. unfold flip_bit. rewrite nth_set_at, Nat.eqb_refl by lia.
  rewrite set_at_set_at, lxor_flip_twice. apply set_at_same.
Qed.

(** A flipped bit changes exactly the parities that cover its position. *)
Lemma parity_at_flip_bit (block : list Z) (m p i : nat) :
  length block = (2 ^ m - 1)%nat -> (1 <= p <= 2 ^ m - 1)%nat ->
  parity_at (2 ^ m - 1) (2 ^ i) (flip_bit p block)
  = Z.lxor (parity_at (2 ^ m - 1) (2 ^ i) block) (Z.b2z (Nat.testbit p i)).
Proof.
  intros Hlen Hp. unfold flip_bit. rewrite parity_at_set_at by assumption.
  destruct (Nat.testbit p i); [|reflexivity].
  cbn [Z.b2z]. f_equal. now rewrite <- Z.lxor_assoc, Z.lxor_nilpotent.
Qed.

Lemma below_pow2_mod (x m : nat) : (x < 2 ^ m)%nat -> (x mod 2 ^ m = x)%nat.
Proof. apply Nat.mod_small. Qed.

(** The syndrome of a block with even parities and the bits at the
    positions [ps] flipped is the exclusive or of these positions. *)
Lemma syndrome_of_flips (block : list Z) (m : nat) (ps : list nat) :
  length block = (2 ^ m - 1)%nat ->
  (forall i, (i < m)%nat -> parity_at (2 ^ m - 1) (2 ^ i) block = 0) ->
  (forall p, In p ps -> (1 <= p <= 2 ^ m - 1)%nat) ->
  length (fold_right flip_bit block ps) = (2 ^ m - 1)%nat
  /\ calculateSyndrome (fold_right flip_bit block ps) m
     = (fold_right Nat.lxor 0%nat ps mod 2 ^ m)%nat.
Proof.
  intros Hlen Hzero Hps.
  assert (Hpar : forall i, (i < m)%nat ->
            length (fold_right flip_bit block ps) = (2 ^ m - 1)%nat
            /\ parity_at (2 ^ m - 1) (2 ^ i) (fold_right flip_bit block ps)
               = Z.b2z (Nat.testbit (fold_right Nat.lxor 0%nat ps) i)).
  { intros i Hi. induction ps as [|p ps IH]; cbn [fold_right].
    - split; [exact Hlen|]. now rewrite Hzero, Nat.bits_0.
    - destruct IH as [IHl IHp]; [intros; apply Hps; now right|].
      split; [now rewrite flip_bit_length|].
      rewrite parity_at_flip_bit by (try apply Hps; auto; now left).
      rewrite IHp, Nat.lxor_spec.
      now destruct (Nat.testbit p i), (Nat.testbit _ i). }
  assert (Hl : length (fold_right flip_bit block ps) = (2 ^ m - 1)%nat).
  { clear Hpar. induction ps as [|p ps IH]; cbn [fold_right]; [exact Hlen|].
    now rewrite flip_bit_length, IH by (intros; apply Hps; now right). }
  split; [exact Hl|].
  apply calculateSyndrome_bits; [exact Hl|].
  intros i Hi. destruct (Hpar i Hi) as [_ ->].
  now destruct (Nat.testbit _ i).
Qed.

Lemma decode_plain (block : list Z) (m : nat) (verbose : bool) (blockNum : nat) :
  calculateSyndrome block m = 0%nat ->
  decodeBlock block m false verbose blockNum = Some (data_bits block, []).
Proof. intros H. unfold decodeBlock. now rewrite H. Qed.

(** X11. A full block of data bits is encoded into a block of
    [2^m - 1] bits whose syndrome is zero and from which [decodeBlock]
    reads the data bits back, without any message. *)
Theorem hamming_block_round_trip (dataBits : list Z) (m : nat)
    (verbose : bool) (blockNum : nat) :
  length dataBits = (2 ^ m - 1 - m)%nat ->
  exists block,
    encodeBlock dataBits m = Some block
    /\ length block = (2 ^ m - 1)%nat
    /\ calculateSyndrome block m = 0%nat
    /\ decodeBlock block m false verbose blockNum = Some (dataBits, []).
Proof.
  intros Hlen. destruct (encodeBlock_spec dataBits m Hlen) as [block [He [Hl [Hz Hd]]]].
  destruct (syndrome_of_flips block m [] Hl Hz) as [_ Hs]; [intros p []|].
  cbn [fold_right] in Hs. rewrite Nat.Div0.mod_0_l in Hs.
  exists block. repeat split; try assumption.
  now rewrite decode_plain, Hd.
Qed.

Lemma hamming_block_round_trip_witness :
  exists block,
    encodeBlock [1; 0; 1; 1] 3 = Some block
    /\ length block = 7%nat
    /\ calculateSyndrome block 3 = 0%nat
    /\ decodeBlock block 3 false true 0 = Some ([1; 0; 1; 1], []).
Proof. apply (hamming_block_round_trip [1; 0; 1; 1] 3 true 0). reflexivity. Defined.

(** X12. Whatever single bit of an encoded block is received flipped, the
    syndrome is the position of that bit, and [decodeBlock] flips it back
    and returns the data bits that were encoded (reporting the position when
    verbose). *)
Theorem hamming_corrects_one_error (dataBits : list Z) (m p : nat)
    (verbose : bool) (blockNum : nat) :
  length dataBits = (2 ^ m - 1 - m)%nat -> (1 <= p <= 2 ^ m - 1)%nat ->
  exists block,
    encodeBlock dataBits m = Some block
    /\ calculateSyndrome (flip_bit p block) m = p
    /\ decodeBlock (flip_bit p block) m false verbose blockNum
       = Some (dataBits, if verbose then [Corrected blockNum p] else []).
Proof.
  intros Hlen Hp. destruct (encodeBlock_spec dataBits m Hlen) as [block [He [Hl [Hz Hd]]]].
  destruct (syndrome_of_flips block m [p] Hl Hz) as [Hl' Hs];
    [intros q [<-|[]]; exact Hp|].
  cbn [fold_right] in Hs, Hl'. rewrite Nat.lxor_0_r, below_pow2_mod in Hs by lia.
  exists block. split; [exact He|]. split; [exact Hs|].
  unfold decodeBlock. rewrite Hs.
  destruct (Nat.eqb_spec p 0) as [|_]; [lia|]. cbn [negb].
  unfold correct. rewrite Hl'.
  destruct (Nat.ltb_spec (p - 1) (2 ^ m - 1)) as [_|]; [|lia].
  change (set_at (p - 1) (Z.lxor (nth (p - 1) (flip_bit p block) 0) 1) (flip_bit p block))
    with (flip_bit p (flip_bit p block)).
  now rewrite flip_bit_twice, Hd by lia.
Qed.

Lemma hamming_corrects_one_error_witness :
  exists block,
    encodeBlock [1; 0; 1; 1] 3 = Some block
    /\ calculateSyndrome (flip_bit 6 block) 3 = 6%nat
    /\ decodeBlock (flip_bit 6 block) 3 false true 4
       = Some ([1; 0; 1; 1], [Corrected 4 6]).
Proof.
  apply (hamming_corrects_one_error [1; 0; 1; 1] 3 6 true 4); [reflexivity | cbn; lia].
Defined.

Lemma overall_parity_cons (x : Z) (block : list Z) :
  overall_parity (x :: block) = Z.lxor x (overall_parity block).
Proof.
  unfold overall_parity. cbn [fold_left]. rewrite Z.lxor_0_l.
  generalize x. clear x. induction block as [|y block IH]; intros x; cbn [fold_left].
  - now rewrite Z.lxor_0_r.
  - rewrite IH, Z.lxor_0_l, (IH y). apply Z.lxor_assoc.
Qed.

Lemma overall_parity_flip (p : nat) (block : list Z) :
  (1 <= p <= length block)%nat ->
  overall_parity (flip_bit p block) = Z.lxor (overall_parity block) 1.
Proof.
  unfold flip_bit. revert p.
  induction block as [|x block IH]; intros p Hp; [cbn in Hp; lia|].
  destruct (Nat.eq_dec p 1) as [->|Hne].
  - cbn [Nat.sub set_at nth]. rewrite !overall_parity_cons.
    rewrite !Z.lxor_assoc. f_equal. apply Z.lxor_comm.
  - replace (p - 1)%nat with (S (p - 1 - 1)) by lia. cbn [set_at nth].
    rewrite !overall_parity_cons, IH by (cbn in Hp; lia).
    now rewrite Z.lxor_assoc.
Qed.

Lemma lxor_below_pow2 (p q m : nat) :
  (p < 2 ^ m)%nat -> (q < 2 ^ m)%nat -> p <> q ->
  (Nat.lxor p q mod 2 ^ m <> 0)%nat.
Proof.
  intros Hp Hq Hne H0. apply Hne, Nat.lxor_eq, Nat.bits_inj. intros k.
  rewrite Nat.bits_0. destruct (Nat.lt_ge_cases k m) as [Hlow|Hhigh].
  - rewrite <- (Nat.mod_pow2_bits_low _ m k Hlow), H0. apply Nat.bits_0.
  - rewrite Nat.lxor_spec.
    rewrite <- (Nat.mod_small p (2 ^ m) Hp), <- (Nat.mod_small q (2 ^ m) Hq).
    now rewrite !Nat.mod_pow2_bits_high.
Qed.

(** X13. The extended code: [decodeBlock] returns the encoded data bits
    when the block arrives intact, when only its overall parity bit is
    flipped, and when any one bit of the Hamming block is flipped, which it
    corrects; when two bits are flipped (two of the block, or one of the
    block and the overall parity bit) it corrects nothing and reports an
    uncorrectable error. *)
Theorem hamming_extended_code (dataBits : list Z) (m : nat)
    (verbose : bool) (blockNum : nat) :
  length dataBits = (2 ^ m - 1 - m)%nat ->
  exists block,
    encodeBlock dataBits m = Some block
    /\ decodeBlock (sent_block true block) m true verbose blockNum = Some (dataBits, [])
    /\ decodeBlock (Z.lxor (overall_parity block) 1 :: block) m true verbose blockNum
       = Some (dataBits, [])
    /\ (forall p, (1 <= p <= 2 ^ m - 1)%nat ->
          decodeBlock (overall_parity block :: flip_bit p block) m true verbose blockNum
          = Some (dataBits, if verbose then [Corrected blockNum p] else []))
    /\ (forall p q, (1 <= p <= 2 ^ m - 1)%nat -> (1 <= q <= 2 ^ m - 1)%nat -> p <> q ->
          decodeBlock (overall_parity block :: flip_bit p (flip_bit q block))
                      m true verbose blockNum
          = Some (data_bits (flip_bit p (flip_bit q block)), [Uncorrectable blockNum]))
    /\ (forall p, (1 <= p <= 2 ^ m - 1)%nat ->
          decodeBlock (Z.lxor (overall_parity block) 1 :: flip_bit p block)
                      m true verbose blockNum
          = Some (data_bits (flip_bit p block), [Uncorrectable blockNum])).
Proof.
  intros Hlen. destruct (encodeBlock_spec dataBits m Hlen) as [block [He [Hl [Hz Hd]]]].
  assert (Hsyn : forall ps, (forall p, In p ps -> (1 <= p <= 2 ^ m - 1)%nat) ->
            calculateSyndrome (fold_right flip_bit block ps) m
            = (fold_right Nat.lxor 0%nat ps mod 2 ^ m)%nat)
    by (intros ps Hps; now apply syndrome_of_flips).
  pose proof (Hsyn [] ltac:(intros p [])) as H0.
  cbn [fold_right] in H0. rewrite Nat.Div0.mod_0_l in H0.
  assert (H1 : forall p, (1 <= p <= 2 ^ m - 1)%nat ->
            calculateSyndrome (flip_bit p block) m = p).
  { intros p Hp. pose proof (Hsyn [p] ltac:(intros q [<-|[]]; exact Hp)) as H.
    cbn [fold_right] in H. rewrite H, Nat.lxor_0_r. apply below_pow2_mod. lia. }
  exists block. split; [exact He|].
  unfold sent_block, decodeBlock.
  split; [|split; [|split; [|split]]].
  - rewrite H0, Z.eqb_refl. cbn -[data_bits]. now rewrite Hd.
  - rewrite H0, Z.eqb_sym, lxor_flip_differs. cbn -[data_bits]. now rewrite Hd.
  - intros p Hp. rewrite H1 by exact Hp.
    rewrite overall_parity_flip, lxor_flip_differs by lia. cbn [negb].
    destruct (Nat.eqb_spec p 0) as [|_]; [lia|]. cbn [negb].
    unfold correct. rewrite flip_bit_length, Hl.
    destruct (Nat.ltb_spec (p - 1) (2 ^ m - 1)) as [_|]; [|lia].
    change (set_at (p - 1) (Z.lxor (nth (p - 1) (flip_bit p block) 0) 1)
                   (flip_bit p block))
      with (flip_bit p (flip_bit p block)).
    now rewrite flip_bit_twice, Hd by lia.
  - intros p q Hp Hq Hne.
    pose proof (Hsyn [p; q] ltac:(intros r [<-|[<-|[]]]; assumption)) as H2.
    cbn [fold_right] in H2. rewrite H2, Nat.lxor_0_r.
    rewrite !overall_parity_flip by (rewrite ?flip_bit_length; lia).
    rewrite lxor_flip_twice, Z.eqb_refl. cbn [negb].
    destruct (Nat.eqb_spec (Nat.lxor p q mod 2 ^ m) 0) as [H|_]; [|reflexivity].
    apply lxor_below_pow2 in H; [contradiction | lia | lia | exact Hne].
  - intros p Hp. rewrite H1 by exact Hp.
    rewrite overall_parity_flip, Z.eqb_refl by lia. cbn [negb].
    destruct (Nat.eqb_spec p 0) as [|_]; [lia | reflexivity].
Qed.

Lemma hamming_extended_code_witness :
  exists block,
    encodeBlock [1; 0; 1; 1] 3 = Some block
    /\ decodeBlock (overall_parity block :: flip_bit 2 (flip_bit 5 block)) 3 true false 1
       = Some (data_bits (flip_bit 2 (flip_bit 5 block)), [Uncorrectable 1])
    /\ decodeBlock (overall_parity block :: flip_bit 5 block) 3 true false 1
       = Some ([1; 0; 1; 1], []).
Proof.
  destruct (hamming_extended_code [1; 0; 1; 1] 3 false 1 eq_refl)
    as [block [He [_ [_ [H1 [H2 _]]]]]].
  exists block. split; [exact He|]. split.
  - apply H2; cbn; lia.
  - apply H1. cbn. lia.
Defined.

End HammingBlocks.

(** * The interleaver *)

Section InterleaverPatterns.

Import Interleaver.

Lemma isPermutation_from_spec (n : Z) (p : list Z) :
  forall seen,
    isPermutation_from n seen p = true
    <-> (forall x, In x p -> 0 <= x < n /\ ~ In x seen) /\ NoDup p.
Proof.
  induction p as [|val rest IH]; intros seen; cbn [isPermutation_from].
  - split; [intros _; split; [intros x [] | constructor] | reflexivity].
  - destruct ((val <? 0) || (n <=? val) || existsb (Z.eqb val) seen) eqn:Hbad.
    + split; [discriminate|]. intros [Hin Hnd].
      destruct (Hin val (or_introl eq_refl)) as [Hr Hs].
      apply orb_true_iff in Hbad. destruct Hbad as [Hbad|Hbad].
      * apply orb_true_iff in Hbad. destruct Hbad as [H|H]; lia.
      * apply existsb_exists in Hbad. destruct Hbad as [y [Hy Heq]].
        apply Z.eqb_eq in Heq. subst y. contradiction.
    + apply orb_false_iff in Hbad. destruct Hbad as [Hbad Hseen].
      apply orb_false_iff in Hbad. destruct Hbad as [H0 Hn].
      assert (Hns : ~ In val seen).
      { intros Hin. assert (existsb (Z.eqb val) seen = true); [|congruence].
        apply existsb_exists. exists val. split; [exact Hin | apply Z.eqb_refl]. }
      rewrite IH. split.
      * intros [Hin Hnd]. split.
        -- intros x [<-|Hx]; [split; [lia | exact Hns]|].
           destruct (Hin x Hx) as [Hr Hs]. split; [exact Hr|].
           intros H. apply Hs. now right.
        -- constructor; [|exact Hnd]. intros Hv.
           destruct (Hin val Hv) as [_ Hs]. apply Hs. now left.
      * intros [Hin Hnd]. apply NoDup_cons_iff in Hnd. destruct Hnd as [Hv Hnd].
        split; [|exact Hnd]. intros x Hx.
        destruct (Hin x (or_intror Hx)) as [Hr Hs]. split; [exact Hr|].
        intros [<-|H]; [contradiction | contradiction].
Qed.

(** X14. [isPermutation] accepts exactly the sequences that hold every
    number from 0 to their length minus one, once. *)
Theorem isPermutation_iff (p : list Z) :
  isPermutation p = true
  <-> NoDup p /\ (forall x, In x p <-> 0 <= x < Z.of_nat (length p)).
Proof.
  unfold isPermutation. rewrite isPermutation_from_spec. split.
  - intros [Hin Hnd]. split; [exact Hnd|]. intros x. split; [apply Hin|].
    intros Hx.
    assert (Hincl : incl (map Z.of_nat (seq 0 (length p))) p).
    { apply NoDup_length_incl; [exact Hnd | now rewrite length_map, length_seq|].
      intros y Hy. apply Hin in Hy. apply in_map_iff.
      exists (Z.to_nat y). split; [lia | apply in_seq; lia]. }
    apply Hincl, in_map_iff. exists (Z.to_nat x). split; [lia | apply in_seq; lia].
  - intros [Hnd Hin]. split; [|exact Hnd].
    intros x Hx. split; [now apply Hin | intros []].
Qed.

Lemma splice_spec (a : nat) (v : Z) (s : list Z) :
  (a < length s)%nat ->
  length (firstn a s ++ v :: skipn (1 + a) s) = length s
  /\ forall j, nth j (firstn a s ++ v :: skipn (1 + a) s) 0
               = if (j =? a)%nat then v else nth j s 0.
Proof.
  intros Hlen. split.
  - rewrite length_app, length_firstn, length_cons, length_skipn. lia.
  - intros j. destruct (Nat.eqb_spec j a) as [->|Hne].
    + rewrite app_nth2; rewrite length_firstn, Nat.min_l by lia; [|lia].
      now rewrite Nat.sub_diag.
    + destruct (Nat.lt_ge_cases j a) as [Hlt|Hge].
      * rewrite app_nth1 by (rewrite length_firstn; lia).
        rewrite nth_firstn. destruct (Nat.ltb_spec j a); [reflexivity | lia].
      * rewrite app_nth2; rewrite length_firstn, Nat.min_l by lia; [|lia].
        replace (j - a)%nat with (S (j - a - 1)) by lia.
        change (nth (S (j - a - 1)) (v :: skipn (1 + a) s) 0)
          with (nth (j - a - 1) (skipn (1 + a) s) 0).
        rewrite nth_skipn. f_equal. lia.
Qed.

Lemma store_eq (k v : Z) (s : list Z) :
  store k v s
  = if (0 <=? k) && (k <? Z.of_nat (length s))
    then Some (firstn (Z.to_nat k) s ++ v :: skipn (1 + Z.to_nat k) s)
    else None.
Proof. reflexivity. Qed.

Lemma store_spec (k v : Z) (s s' : list Z) :
  store k v s = Some s' ->
  length s' = length s
  /\ forall j, nth j s' 0 = if (j =? Z.to_nat k)%nat then v else nth j s 0.
Proof.
  rewrite store_eq. destruct (_ && _) eqn:Hk; [|discriminate]. intros H.
  apply andb_true_iff in Hk. destruct Hk as [H0 Hn].
  assert (Hlen : (Z.to_nat k < length s)%nat) by lia.
  pose proof (splice_spec (Z.to_nat k) v s Hlen) as Hs.
  assert (Heq : s' = firstn (Z.to_nat k) s ++ v :: skipn (1 + Z.to_nat k) s)
    by congruence.
  now rewrite Heq.
Qed.

Lemma invert_from_spec (pattern : list Z) :
  NoDup pattern ->
  forall i inverse,
    (forall x, In x pattern -> 0 <= x < Z.of_nat (length inverse)) ->
    exists inverse',
      invert_from i pattern inverse = Some inverse'
      /\ length inverse' = length inverse
      /\ (forall k, (k < length pattern)%nat ->
            nth (Z.to_nat (nth k pattern 0)) inverse' 0 = i + Z.of_nat k)
      /\ (forall j, ~ In (Z.of_nat j) pattern -> nth j inverse' 0 = nth j inverse 0).
Proof.
  induction 1 as [|x rest Hx Hnd IH]; intros i inverse Hin.
  - exists inverse. cbn. repeat split; auto. intros k Hk. lia.
  - cbn [invert_from]. destruct (Hin x (or_introl eq_refl)) as [Hx0 Hxn].
    destruct (store x i inverse) as [inverse1|] eqn:Hstore.
    2:{ unfold store in Hstore.
        destruct (Z.leb_spec 0 x), (Z.ltb_spec x (Z.of_nat (length inverse)));
          cbn in Hstore; (discriminate || lia). }
    apply store_spec in Hstore. destruct Hstore as [Hl1 Hn1].
    destruct (IH (i + 1) inverse1) as [inverse' [Hinv [Hl [Hk Hout]]]].
    { intros y Hy. rewrite Hl1. apply Hin. now right. }
    exists inverse'. split; [exact Hinv|]. split; [congruence|]. split.
    + intros [|k] Hlt; cbn [nth].
      * rewrite Hout by (now rewrite Z2Nat.id by lia).
        rewrite Hn1, Nat.eqb_refl. lia.
      * rewrite Hk by (cbn in Hlt; lia). lia.
    + intros j Hj. rewrite Hout by (intros H; apply Hj; now right).
      rewrite Hn1. destruct (Nat.eqb_spec j (Z.to_nat x)) as [->|]; [|reflexivity].
      contradiction Hj. left. lia.
Qed.

(** [invertPattern] on a permutation. *)
Lemma invertPattern_spec (p : list Z) :
  isPermutation p = true ->
  exists q,
    invertPattern p = Some q
    /\ length q = length p
    /\ isPermutation q = true
    /\ (forall k, (k < length p)%nat ->
          nth (Z.to_nat (nth k p 0)) q 0 = Z.of_nat k)
    /\ (forall k, (k < length p)%nat ->
          nth (Z.to_nat (nth k q 0)) p 0 = Z.of_nat k)
    /\ invertPattern q = Some p.
Proof.
  intros Hp. apply isPermutation_iff in Hp. destruct Hp as [Hnd Hin].
  unfold invertPattern.
  destruct (invert_from_spec p Hnd 0 (repeat 0 (length p)))
    as [q [Hq [Hl [Hqp _]]]].
  { intros x Hx. rewrite repeat_length. now apply Hin. }
  rewrite repeat_length in Hl.
  assert (Hpq : forall k, (k < length p)%nat ->
            0 <= nth k q 0 < Z.of_nat (length p)
            /\ nth (Z.to_nat (nth k q 0)) p 0 = Z.of_nat k).
  { intros k Hk.
    assert (Hk' : In (Z.of_nat k) p) by (apply Hin; lia).
    destruct (In_nth p (Z.of_nat k) 0 Hk') as [i [Hi Hnth]].
    pose proof (Hqp i Hi) as Hq1. rewrite Hnth, Nat2Z.id in Hq1.
    rewrite Hq1. cbn. rewrite Nat2Z.id. split; [lia | exact Hnth]. }
  assert (Hndq : NoDup q).
  { apply (NoDup_nth q 0). intros i j Hi Hj Heq. rewrite Hl in Hi, Hj.
    destruct (Hpq i Hi) as [_ H1]. destruct (Hpq j Hj) as [_ H2].
    rewrite Heq in H1. lia. }
  assert (Hinq : forall x, In x q -> 0 <= x < Z.of_nat (length q)).
  { intros x Hx. destruct (In_nth q x 0 Hx) as [i [Hi <-]].
    rewrite Hl in *. now apply Hpq. }
  exists q. split; [exact Hq|]. split; [exact Hl|]. split.
  { apply isPermutation_from_spec. split; [|exact Hndq].
    intros x Hx. split; [now apply Hinq | intros []]. }
  split; [intros k Hk; rewrite Hqp by exact Hk; lia|].
  split; [intros k Hk; now apply Hpq|].
  destruct (invert_from_spec q Hndq 0 (repeat 0 (length q)))
    as [p' [Hp' [Hl' [Hp'q _]]]].
  { intros x Hx. rewrite repeat_length. now apply Hinq. }
  rewrite Hp'. f_equal. rewrite repeat_length in Hl'.
  apply nth_ext with (d := 0) (d' := 0); [congruence|].
  intros i Hi. rewrite Hl', Hl in Hi.
  assert (Hpi : 0 <= nth i p 0 < Z.of_nat (length p)) by (apply Hin, nth_In; exact Hi).
  pose proof (Hp'q (Z.to_nat (nth i p 0)) ltac:(lia)) as H.
  rewrite Hqp in H by exact Hi. cbn in H. rewrite Nat2Z.id in H. lia.
Qed.

(** X15. On a permutation [invertPattern] returns the inverse
    permutation: it sends [p[k]] back to [k], [p] sends each of its entries
    back to the index of that entry, and inverting it again gives [p]. *)
Theorem invertPattern_inverse (p : list Z) :
  isPermutation p = true ->
  exists q,
    invertPattern p = Some q
    /\ length q = length p
    /\ isPermutation q = true
    /\ (forall k, (k < length p)%nat ->
          nth (Z.to_nat (nth k p 0)) q 0 = Z.of_nat k)
    /\ (forall k, (k < length p)%nat ->
          nth (Z.to_nat (nth k q 0)) p 0 = Z.of_nat k)
    /\ invertPattern q = Some p.
Proof. exact (invertPattern_spec p). Qed.

Lemma invertPattern_inverse_witness :
  exists q,
    invertPattern [2; 0; 3; 1] = Some q
    /\ length q = 4%nat
    /\ isPermutation q = true
    /\ invertPattern q = Some [2; 0; 3; 1].
Proof.
  destruct (invertPattern_inverse [2; 0; 3; 1] eq_refl) as [q [H1 [H2 [H3 [_ [_ H4]]]]]].
  exists q. auto.
Defined.

End InterleaverPatterns.

Section InterleaverBlocks.

Import Interleaver.

Lemma segments_length {A} (g : A -> list Z) (es : nat) (l : list A) :
  (forall x, In x l -> length (g x) = es) ->
  length (flat_map g l) = (length l * es)%nat.
Proof.
  induction l as [|a l IH]; intros Hg; [reflexivity|].
  cbn [flat_map length]. rewrite length_app, Hg by now left.
  rewrite IH by (intros; apply Hg; now right). lia.
Qed.

Lemma segments_element {A} (g : A -> list Z) (es : nat) (l : list A) (d : A) :
  (forall x, In x l -> length (g x) = es) ->
  forall j, (j < length l)%nat ->
    chunk_element es (flat_map g l) j = g (nth j l d).
Proof.
  unfold chunk_element.
  induction l as [|a l IH]; intros Hg j Hj; [cbn in Hj; lia|].
  cbn [flat_map]. destruct j as [|j]; cbn [nth].
  - cbn [Nat.mul skipn]. rewrite firstn_app, Hg by now left.
    rewrite Nat.sub_diag, firstn_O, app_nil_r.
    apply firstn_all2. rewrite Hg by now left. lia.
  - rewrite skipn_app, Hg by now left.
    rewrite skipn_all2 by (rewrite Hg by (now left); cbn; lia).
    replace (S j * es - es)%nat with (j * es)%nat by (cbn; lia).
    cbn [app]. apply IH; [intros; apply Hg; now right | cbn in Hj; lia].
Qed.

Lemma chunk_element_length (es : nat) (chunk : list Z) (s : nat) :
  (s * es + es <= length chunk)%nat -> length (chunk_element es chunk s) = es.
Proof. intros H. unfold chunk_element. rewrite length_firstn, length_skipn. lia. Qed.

(** The elements of a block, in order, make up the block. *)
Lemma elements_in_order (es bs : nat) :
  forall chunk, length chunk = (bs * es)%nat ->
    flat_map (chunk_element es chunk) (seq 0 bs) = chunk.
Proof.
  induction bs as [|bs IH]; intros chunk Hlen.
  - destruct chunk; [reflexivity | discriminate].
  - cbn [seq flat_map].
    transitivity (firstn es chunk ++ skipn es chunk); [|apply firstn_skipn].
    f_equal.
    rewrite <- seq_shift, flat_map_concat_map, map_map, <- flat_map_concat_map.
    transitivity (flat_map (chunk_element es (skipn es chunk)) (seq 0 bs)).
    + apply flat_map_ext. intros j. unfold chunk_element.
      rewrite skipn_skipn. do 2 f_equal. cbn. lia.
    + apply IH. rewrite length_skipn, Hlen. cbn. lia.
Qed.

Lemma map_nth_seq (l : list Z) :
  map (fun i => nth i l 0) (seq 0 (length l)) = l.
Proof.
  induction l as [|x l IH]; [reflexivity|].
  cbn [length seq map nth]. f_equal.
  rewrite <- seq_shift, map_map. exact IH.
Qed.

Lemma interleave_chunk_length (pattern : list Z) (es : nat) (chunk : list Z) :
  (forall s, In s pattern -> 0 <= s < Z.of_nat (length pattern)) ->
  length (interleave_chunk pattern es chunk) = length chunk.
Proof.
  intros Hin. unfold interleave_chunk.
  destruct (Nat.eqb_spec (length chunk) (length pattern * es)) as [Hlen|]; [|reflexivity].
  rewrite segments_length with (es := es); [now rewrite Hlen|].
  intros s Hs. apply chunk_element_length. specialize (Hin s Hs). rewrite Hlen. nia.
Qed.

Lemma interleave_chunk_Forall (P : Z -> Prop) (pattern : list Z) (es : nat)
    (chunk : list Z) :
  Forall P chunk -> Forall P (interleave_chunk pattern es chunk).
Proof.
  intros Hc. unfold interleave_chunk. destruct (_ =? _)%nat; [|exact Hc].
  apply Forall_flat_map, Forall_forall. intros s _.
  unfold chunk_element. now apply Forall_firstn, Forall_skipn.
Qed.

(** Permuting the elements of a chunk by [q] after [p] gives the chunk
    back when [p] sends every entry of [q] to its index. *)
Lemma interleave_chunk_undo (p q : list Z) (es : nat) (chunk : list Z) :
  length q = length p ->
  (forall s, In s p -> 0 <= s < Z.of_nat (length p)) ->
  (forall s, In s q -> 0 <= s < Z.of_nat (length p)) ->
  (forall k, (k < length p)%nat -> nth (Z.to_nat (nth k q 0)) p 0 = Z.of_nat k) ->
  interleave_chunk q es (interleave_chunk p es chunk) = chunk.
Proof.
  intros Hl Hp Hq Hpq.
  pose proof (interleave_chunk_length p es chunk Hp) as Hlen.
  unfold interleave_chunk at 1. rewrite Hlen, Hl.
  unfold interleave_chunk.
  destruct (Nat.eqb_spec (length chunk) (length p * es)) as [Hc|]; [|reflexivity].
  assert (Hseg : forall s, In s p -> length (chunk_element es chunk (Z.to_nat s)) = es).
  { intros s Hs. apply chunk_element_length. specialize (Hp s Hs). rewrite Hc. nia. }
  transitivity (flat_map (chunk_element es chunk) (seq 0 (length p)));
    [|now apply elements_in_order].
  transitivity
    (flat_map (fun s => chunk_element es
                 (flat_map (fun s => chunk_element es chunk (Z.to_nat s)) p)
                 (Z.to_nat s))
              (map (fun i => nth i q 0) (seq 0 (length q))));
    [now rewrite map_nth_seq|].
  set (c' := flat_map (fun s => chunk_element es chunk (Z.to_nat s)) p).
  rewrite Hl, !flat_map_concat_map, map_map. f_equal. apply map_ext_in.
  intros k Hk. apply in_seq in Hk.
  assert (Hqk : 0 <= nth k q 0 < Z.of_nat (length p))
    by (apply Hq, nth_In; lia).
  subst c'. rewrite (segments_element _ es p 0 Hseg) by lia.
  rewrite Hpq by lia. now rewrite Nat2Z.id.
Qed.

End InterleaverBlocks.

Section InterleaverLoop.

Import Interleaver.

Lemma chunk_element_firstn (es B : nat) (l : list Z) (s : nat) :
  (s * es + es <= B)%nat ->
  chunk_element es (firstn B l) s = chunk_element es l s.
Proof.
  intros H. unfold chunk_element.
  rewrite skipn_firstn_comm, firstn_firstn. f_equal. lia.
Qed.

(** The inner loop of [processInterleave] on a pattern whose entries are
    element numbers of the block. *)
Lemma permute_spec (source : list Z) (es bs : nat) :
  (bs * es <= length source)%nat ->
  forall pattern,
    (forall s, In s pattern -> 0 <= s < Z.of_nat bs) ->
    permute pattern source (Z.of_nat es)
    = Some (flat_map (fun s => chunk_element es source (Z.to_nat s)) pattern).
Proof.
  intros Hlen. induction pattern as [|s rest IH]; intros Hin; [reflexivity|].
  cbn [permute flat_map].
  rewrite IH by (intros; apply Hin; now right).
  destruct (Hin s (or_introl eq_refl)) as [H0 Hbs].
  unfold element, slice.
  assert (Hb : (0 <=? s * Z.of_nat es)
               && (s * Z.of_nat es <=? (s + 1) * Z.of_nat es)
               && ((s + 1) * Z.of_nat es <=? Z.of_nat (length source)) = true).
  { rewrite !andb_true_iff, !Z.leb_le. nia. }
  rewrite Hb. unfold chunk_element.
  replace (Z.to_nat ((s + 1) * Z.of_nat es - s * Z.of_nat es)) with es by lia.
  replace (Z.to_nat (s * Z.of_nat es)) with (Z.to_nat s * es)%nat by nia.
  reflexivity.
Qed.

(** Cutting the images of the pieces under a map that keeps lengths gives
    the images of the pieces. *)
Lemma chunks_images (n : nat) (f : list Z -> list Z) :
  (1 <= n)%nat -> (forall c, length (f c) = length c) ->
  forall l, chunks n (flat_map f (chunks n l)) = map f (chunks n l)
            /\ length (flat_map f (chunks n l)) = length l.
Proof.
  intros Hn Hf.
  apply (chunks_ind n (fun l => _ /\ _) Hn); [cbn; auto|].
  intros l Hne [IH1 IH2].
  rewrite (chunks_cons n l) by assumption. cbn [flat_map map]. split.
  - destruct (Nat.le_gt_cases n (length l)) as [Hge|Hlt].
    + rewrite chunks_app by (rewrite ?Hf, ?length_firstn; lia).
      now rewrite IH1.
    + rewrite (skipn_all2 l) by lia. cbn. rewrite app_nil_r.
      apply chunks_short; [exact Hn | | rewrite Hf, length_firstn; lia].
      intros Hnil. apply (f_equal (@length Z)) in Hnil.
      rewrite Hf, firstn_all2 in Hnil by lia.
      destruct l; [contradiction | discriminate].
  - rewrite length_app, Hf, IH2, <- length_app, firstn_skipn. reflexivity.
Qed.

Lemma flat_map_undo (f g : list Z -> list Z) (n : nat) (l : list Z) :
  (1 <= n)%nat -> (forall c, g (f c) = c) ->
  flat_map g (map f (chunks n l)) = l.
Proof.
  intros Hn Hgf. rewrite flat_map_concat_map, map_map.
  rewrite (map_ext _ (fun c => c)) by exact Hgf.
  rewrite map_id. now apply concat_chunks.
Qed.

Section Blocks.

Variables (inputBits pattern : list Z) (es : nat).

Hypothesis element_bits : (0 < es)%nat.
Hypothesis pattern_not_empty : pattern <> [].
Hypothesis pattern_in_range :
  forall s, In s pattern -> 0 <= s < Z.of_nat (length pattern).
Hypothesis no_overflow :
  Z.of_nat (length pattern * es) + Z.of_nat (length inputBits) <= max_int.

(** The loop of [processInterleave] writes the image of each piece of
    [length pattern * es] bits, and the fuel of one step per bit is enough. *)
Lemma interleave_loop_spec :
  forall fuel i outputBits,
    (length inputBits <= fuel + i)%nat ->
    interleave_loop inputBits pattern (Z.of_nat es) fuel (Z.of_nat i) outputBits
    = Done (outputBits
            ++ flat_map (interleave_chunk pattern es)
                 (chunks (length pattern * es) (skipn i inputBits))).
Proof.
  assert (Hbs : (0 < length pattern)%nat)
    by (destruct pattern; [contradiction | cbn; lia]).
  assert (HB : (1 <= length pattern * es)%nat) by nia.
  assert (Hw : wrap (Z.of_nat (length pattern) * Z.of_nat es)
               = Z.of_nat (length pattern * es)).
  { rewrite <- Nat2Z.inj_mul. apply wrap_in_range. unfold min_int. lia. }
  induction fuel as [|fuel IH]; intros i out Hfuel.
  - cbn [interleave_loop].
    destruct (Z.ltb_spec (Z.of_nat i) (Z.of_nat (length inputBits))); [lia|].
    rewrite skipn_all2 by lia. cbn. now rewrite app_nil_r.
  - cbn [interleave_loop].
    destruct (Z.ltb_spec (Z.of_nat i) (Z.of_nat (length inputBits))) as [Hi|Hi].
    2:{ rewrite skipn_all2 by lia. cbn. now rewrite app_nil_r. }
    rewrite Hw.
    assert (Hw2 : wrap (Z.of_nat i + Z.of_nat (length pattern * es))
                  = Z.of_nat (i + length pattern * es)).
    { rewrite <- Nat2Z.inj_add. apply wrap_in_range. unfold min_int. lia. }
    rewrite Hw2.
    set (B := (length pattern * es)%nat) in *.
    set (chunk := firstn B (skipn i inputBits)).
    assert (Hne : skipn i inputBits <> []).
    { intros Hnil. apply (f_equal (@length Z)) in Hnil.
      rewrite length_skipn in Hnil. cbn in Hnil. lia. }
    assert (Hslice :
      slice inputBits (Z.of_nat i)
        (if Z.of_nat (length inputBits) <? Z.of_nat (i + B)
         then Z.of_nat (length inputBits) else Z.of_nat (i + B))
      = Some chunk).
    { unfold slice, chunk.
      destruct (Z.ltb_spec (Z.of_nat (length inputBits)) (Z.of_nat (i + B))) as [Hend|Hend].
      - assert (Hb : (0 <=? Z.of_nat i)
                     && (Z.of_nat i <=? Z.of_nat (length inputBits))
                     && (Z.of_nat (length inputBits) <=? Z.of_nat (length inputBits))
                     = true) by (rewrite !andb_true_iff, !Z.leb_le; lia).
        rewrite Hb, Nat2Z.id. f_equal.
        rewrite !firstn_all2 by (rewrite length_skipn; lia). reflexivity.
      - assert (Hb : (0 <=? Z.of_nat i)
                     && (Z.of_nat i <=? Z.of_nat (i + B))
                     && (Z.of_nat (i + B) <=? Z.of_nat (length inputBits))
                     = true) by (rewrite !andb_true_iff, !Z.leb_le; lia).
        rewrite Hb, Nat2Z.id. do 2 f_equal. lia. }
    rewrite Hslice.
    destruct (Z.eqb_spec (Z.of_nat es) 0) as [|_]; [lia|].
    rewrite (chunks_cons B (skipn i inputBits)) by assumption.
    fold chunk. cbn [flat_map].
    rewrite skipn_skipn, (Nat.add_comm B i), app_assoc.
    assert (Hcl : length chunk = Nat.min B (length inputBits - i)).
    { unfold chunk. now rewrite length_firstn, length_skipn. }
    unfold interleave_chunk at 1. fold B.
    destruct (Nat.eqb_spec (length chunk) B) as [Hfull|Hpart].
    + assert (Hq : Z.quot (Z.of_nat (length chunk)) (Z.of_nat es)
                   = Z.of_nat (length pattern)).
      { rewrite Hfull. unfold B. rewrite Nat2Z.inj_mul.
        rewrite Z.quot_mul by lia. reflexivity. }
      rewrite Hq, Z.eqb_refl, Nat2Z.id.
      rewrite (permute_spec (skipn i inputBits) es (length pattern))
        by (try exact pattern_in_range; rewrite length_skipn; fold B; lia).
      assert (Hsame :
        flat_map (fun s => chunk_element es chunk (Z.to_nat s)) pattern
        = flat_map (fun s => chunk_element es (skipn i inputBits) (Z.to_nat s))
            pattern).
      { rewrite !flat_map_concat_map. f_equal. apply map_ext_in.
        intros s Hs. apply chunk_element_firstn.
        specialize (pattern_in_range s Hs). unfold B. nia. }
      rewrite Hsame. apply IH. lia.
    + assert (Hq : Z.quot (Z.of_nat (length chunk)) (Z.of_nat es)
                   <> Z.of_nat (length pattern)).
      { rewrite Z.quot_div_nonneg by lia. intros Hq.
        assert (Z.of_nat (length chunk) < Z.of_nat B) by lia.
        assert (Z.of_nat (length chunk) / Z.of_nat es < Z.of_nat (length pattern)).
        { apply Z.div_lt_upper_bound; [lia|]. unfold B in *. nia. }
        lia. }
      apply Z.eqb_neq in Hq. rewrite Hq.
      apply IH. lia.
Qed.

End Blocks.

End InterleaverLoop.

Section InterleaverRuns.

Import Interleaver.

Variable TrimSpace : list ascii -> list ascii.

Lemma Split_not_empty (s : list ascii) : Split s <> [].
Proof.
  induction s as [|c tl IH]; cbn [Split]; [discriminate|].
  destruct (c =? ",")%char; [discriminate|].
  destruct (Split tl); [contradiction | discriminate].
Qed.

Lemma parse_values_length (parts : list (list ascii)) :
  forall vals, parse_values TrimSpace parts = Done vals ->
               length vals = length parts.
Proof.
  induction parts as [|p rest IH]; intros vals; cbn [parse_values].
  - now intros [= <-].
  - destruct (Atoi (TrimSpace p)); [|discriminate].
    destruct (parse_values TrimSpace rest) as [vs| | |]; try discriminate.
    intros [= <-]. cbn [length]. now rewrite (IH vs eq_refl).
Qed.

(** What [parsePattern] returns is a permutation with one entry per
    comma-separated part, so at least one. *)
Lemma parsePattern_Done (patternStr : list ascii) (pattern : list Z) :
  parsePattern TrimSpace patternStr = Done pattern ->
  isPermutation pattern = true
  /\ length pattern = length (Split patternStr)
  /\ pattern <> [].
Proof.
  unfold parsePattern.
  destruct (parse_values TrimSpace (Split patternStr)) as [vals| | |] eqn:Hv;
    try discriminate.
  destruct (isPermutation vals) eqn:Hp; [|discriminate].
  intros [= <-]. apply parse_values_length in Hv.
  split; [exact Hp|]. split; [exact Hv|].
  intros ->. apply (Split_not_empty patternStr).
  destruct (Split patternStr); [reflexivity | discriminate].
Qed.

Lemma permutation_in_range (p : list Z) :
  isPermutation p = true ->
  forall s, In s p -> 0 <= s < Z.of_nat (length p).
Proof.
  intros Hp s Hs. unfold isPermutation in Hp.
  apply isPermutation_from_spec in Hp. now apply Hp.
Qed.

Lemma processInterleave_run (data : list Z) (patternStr : list ascii)
    (pattern used : list Z) (elementSize : Z) (inverse : bool) :
  parsePattern TrimSpace patternStr = Done pattern ->
  (if inverse then invertPattern pattern else Some pattern) = Some used ->
  isPermutation used = true -> length used = length pattern ->
  0 < elementSize ->
  Z.of_nat (length pattern) * elementSize + 8 * Z.of_nat (length data) <= max_int ->
  processInterleave TrimSpace data patternStr elementSize inverse
  = Done (bitsToBytes (interleaved used elementSize data)).
Proof.
  intros Hparse Hused Hperm Hlen Hes Hmax.
  destruct (parsePattern_Done _ _ Hparse) as [_ [_ Hne]].
  unfold processInterleave. rewrite Hparse, Hused.
  assert (Hloop := interleave_loop_spec (bytesToBits data) used
                     (Z.to_nat elementSize)).
  rewrite Z2Nat.id in Hloop by lia.
  specialize (Hloop ltac:(lia)
                ltac:(intros ->; apply Hne; now destruct pattern)
                (permutation_in_range used Hperm)
                ltac:(rewrite bytesToBits_length, Hlen; nia)
                (length (bytesToBits data)) O [] ltac:(lia)).
  change (Z.of_nat 0) with 0 in Hloop. rewrite Hloop. reflexivity.
Qed.

Lemma interleaved_undo (p q : list Z) (elementSize : Z) (data : list Z) :
  isPermutation p = true -> isPermutation q = true ->
  length q = length p -> p <> [] -> 0 < elementSize ->
  (forall k, (k < length p)%nat -> nth (Z.to_nat (nth k q 0)) p 0 = Z.of_nat k) ->
  let out := bitsToBytes (interleaved p elementSize data) in
  length out = length data
  /\ interleaved q elementSize out = bytesToBits data.
Proof.
  intros Hp Hq Hl Hne Hes Hpq out.
  pose proof (permutation_in_range p Hp) as Hpr.
  pose proof (permutation_in_range q Hq) as Hqr.
  set (es := Z.to_nat elementSize).
  assert (HB : (1 <= length p * es)%nat).
  { destruct p; [contradiction|]. cbn [length]. unfold es. nia. }
  destruct (chunks_images (length p * es) (interleave_chunk p es) HB
              (fun c => interleave_chunk_length p es c Hpr) (bytesToBits data))
    as [Hcut Hsize].
  assert (Hbits : bytesToBits out = interleaved p elementSize data).
  { apply bits_roundtrip.
    - apply Forall_flat_map, Forall_forall. intros c Hc.
      apply interleave_chunk_Forall.
      pose proof (chunks_Forall is_bit _ HB _ (bytesToBits_bits data)) as Hall.
      rewrite Forall_forall in Hall. now apply Hall.
    - unfold interleaved. fold es. rewrite Hsize, bytesToBits_length.
      rewrite Nat.mul_comm. apply Nat.Div0.mod_mul. }
  split.
  - assert (H8 : (8 * length out = 8 * length data)%nat).
    { rewrite <- !bytesToBits_length, Hbits. unfold interleaved. fold es.
      exact Hsize. }
    lia.
  - unfold interleaved at 1. rewrite Hbits. unfold interleaved. fold es.
    rewrite Hl, Hcut.
    apply flat_map_undo; [exact HB|].
    intros c. apply interleave_chunk_undo; try assumption.
    rewrite <- Hl. exact Hqr.
Qed.

(** X16. With a pattern that [parsePattern] accepts and a positive element
    size, [processInterleave] returns: it cuts the bits of the data into
    blocks of [len(pattern) * elementSize] bits, writes element
    [pattern[j]] of each whole block as element [j], copies a shorter last
    block unchanged, and packs the bits. *)
Theorem processInterleave_blocks (data : list Z) (patternStr : list ascii)
    (pattern : list Z) (elementSize : Z) :
  parsePattern TrimSpace patternStr = Done pattern ->
  0 < elementSize ->
  Z.of_nat (length pattern) * elementSize + 8 * Z.of_nat (length data) <= max_int ->
  processInterleave TrimSpace data patternStr elementSize false
  = Done (bitsToBytes
            (flat_map (interleave_chunk pattern (Z.to_nat elementSize))
               (chunks (length pattern * Z.to_nat elementSize)
                  (bytesToBits data)))).
Proof.
  intros Hparse Hes Hmax.
  destruct (parsePattern_Done _ _ Hparse) as [Hperm _].
  now apply (processInterleave_run data patternStr pattern pattern elementSize false).
Qed.

(** X17. Round trip: under the same conditions the output has as many
    bytes as the data, and running [processInterleave] on it with the same
    pattern and the opposite [inverse] flag gives the data back. *)
Theorem processInterleave_round_trip (data : list Z) (patternStr : list ascii)
    (pattern : list Z) (elementSize : Z) (inverse : bool) :
  parsePattern TrimSpace patternStr = Done pattern ->
  0 < elementSize ->
  Z.of_nat (length pattern) * elementSize + 8 * Z.of_nat (length data) <= max_int ->
  Forall is_byte data ->
  exists out,
    processInterleave TrimSpace data patternStr elementSize inverse = Done out
    /\ length out = length data
    /\ processInterleave TrimSpace out patternStr elementSize (negb inverse)
       = Done data.
Proof.
  intros Hparse Hes Hmax Hdata.
  destruct (parsePattern_Done _ _ Hparse) as [Hperm [_ Hne]].
  destruct (invertPattern_spec pattern Hperm)
    as [q [Hq [Hl [Hqperm [Hqp [Hpq _]]]]]].
  assert (Hqne : q <> []) by (intros ->; apply Hne; now destruct pattern).
  assert (Hstep : forall used back (inv : bool),
    (if inv then invertPattern pattern else Some pattern) = Some used ->
    (if negb inv then invertPattern pattern else Some pattern) = Some back ->
    isPermutation used = true -> isPermutation back = true ->
    length used = length pattern -> length back = length pattern ->
    used <> [] ->
    (forall k, (k < length used)%nat ->
       nth (Z.to_nat (nth k back 0)) used 0 = Z.of_nat k) ->
    exists out,
      processInterleave TrimSpace data patternStr elementSize inv = Done out
      /\ length out = length data
      /\ processInterleave TrimSpace out patternStr elementSize (negb inv)
         = Done data).
  { intros used back inv Hu Hb Hup Hbp Hul Hbl Hune Hinv.
    destruct (interleaved_undo used back elementSize data Hup Hbp
                ltac:(congruence) Hune Hes Hinv) as [Hsize Hundo].
    exists (bitsToBytes (interleaved used elementSize data)).
    split; [now apply (processInterleave_run data patternStr pattern used)|].
    split; [exact Hsize|].
    rewrite (processInterleave_run _ patternStr pattern back elementSize (negb inv))
      by (try assumption; rewrite Hsize; exact Hmax).
    rewrite Hundo. now rewrite bytes_roundtrip. }
  destruct inverse.
  - apply (Hstep q pattern true); auto.
    intros k Hk. rewrite Hl in Hk. now apply Hqp.
  - apply (Hstep pattern q false); auto.
Qed.

End InterleaverRuns.

Lemma processInterleave_blocks_witness :
  Interleaver.processInterleave (fun s => s) [0xA5; 0x3C; 0xF0; 0x0F]
    (prog "2,0,1") 4 false
  = Interleaver.Done
      (bitsToBytes
         (flat_map (interleave_chunk [2; 0; 1] (Z.to_nat 4))
            (chunks (length [2; 0; 1] * Z.to_nat 4)
               (bytesToBits [0xA5; 0x3C; 0xF0; 0x0F])))).
Proof.
  apply (processInterleave_blocks (fun s => s) [0xA5; 0x3C; 0xF0; 0x0F]
           (prog "2,0,1") [2; 0; 1] 4).
  - reflexivity.
  - lia.
  - vm_compute. discriminate.
Defined.

Lemma processInterleave_round_trip_witness :
  exists out,
    Interleaver.processInterleave (fun s => s) [0xA5; 0x3C; 0xF0; 0x0F]
      (prog "2,0,1") 4 true = Interleaver.Done out
    /\ length out = length [0xA5; 0x3C; 0xF0; 0x0F]
    /\ Interleaver.processInterleave (fun s => s) out (prog "2,0,1") 4 (negb true)
       = Interleaver.Done [0xA5; 0x3C; 0xF0; 0x0F].
Proof.
  apply (processInterleave_round_trip (fun s => s) [0xA5; 0x3C; 0xF0; 0x0F]
           (prog "2,0,1") [2; 0; 1] 4 true).
  - reflexivity.
  - lia.
  - vm_compute. discriminate.
  - repeat constructor; unfold is_byte; lia.
Defined.

(** * Bit streams over files *)

Section BitStreams.

Lemma Write_app (a b : list Z) :
  forall bw, BitWriter.Write bw (a ++ b) = BitWriter.Write (BitWriter.Write bw a) b.
Proof. induction a as [|x a IH]; intros bw; [reflexivity | apply IH]. Qed.

Lemma Write_pieces (pieces : list (list Z)) :
  forall bw, fold_left BitWriter.Write pieces bw = BitWriter.Write bw (concat pieces).
Proof.
  induction pieces as [|p pieces IH]; intros bw; [reflexivity|].
  cbn [fold_left concat]. now rewrite IH, Write_app.
Qed.

(** Bits that go into the byte under construction. *)
Lemma Write_chunk (done : list Z) :
  forall chunk j x, (j + length chunk <= 8)%nat ->
    BitWriter.Write (BitWriter.mk done x (Z.of_nat j)) chunk
    = if (j + length chunk =? 8)%nat && negb (length chunk =? 0)%nat
      then BitWriter.mk (done ++ [pack_from j chunk x]) 0 0
      else BitWriter.mk done (pack_from j chunk x) (Z.of_nat (j + length chunk)).
Proof.
  induction chunk as [|bit rest IH]; intros j x Hj.
  - cbn. rewrite andb_false_r, Nat.add_0_r. reflexivity.
  - cbn [length] in Hj. cbn [BitWriter.Write pack_from length].
    cbn [BitWriter.writer BitWriter.buffer BitWriter.offset].
    change (if bit =? 1 then Z.lor x (Z.shiftl 1 (7 - Z.of_nat j)) else x)
      with (set_bit j bit x).
    destruct (Z.eqb_spec (Z.of_nat j + 1) 8) as [H8|H8].
    + destruct rest; [|cbn [length] in Hj; lia].
      cbn. unfold BitWriter.flushByte. cbn.
      replace (j + 1 =? 8)%nat with true by (symmetry; apply Nat.eqb_eq; lia).
      destruct (Z.eqb_spec (Z.of_nat j + 1) 0); [lia | reflexivity].
    + replace (Z.of_nat j + 1) with (Z.of_nat (S j)) by lia.
      rewrite IH by lia.
      replace (S j + length rest)%nat with (j + S (length rest))%nat by lia.
      destruct (Nat.eqb_spec (j + S (length rest)) 8) as [He|He]; cbn [andb negb].
      * destruct rest; [cbn [length] in He; lia | reflexivity].
      * reflexivity.
Qed.

Lemma Write_chunks :
  forall bits done,
    BitWriter.Close (BitWriter.Write (BitWriter.mk done 0 0) bits)
    = done ++ map pack_bits (chunks 8 bits).
Proof.
  apply (chunks_ind 8 (fun bits => forall done, _ = _)); [lia | |].
  - intros done. cbn. now rewrite app_nil_r.
  - intros bits Hne IH done.
    rewrite (chunks_cons 8 bits) by (assumption || lia). cbn [map].
    assert (Hsplit : bits = firstn 8 bits ++ skipn 8 bits)
      by (symmetry; apply firstn_skipn).
    assert (Hlen : (length (firstn 8 bits) <= 8)%nat)
      by (rewrite length_firstn; lia).
    assert (Hpos : (length (firstn 8 bits) =? 0)%nat = false).
    { apply Nat.eqb_neq. rewrite length_firstn.
      destruct bits; [contradiction | cbn [length]; lia]. }
    set (c := firstn 8 bits) in *.
    pose proof (Write_chunk done c 0 0 Hlen) as Hw.
    change (Z.of_nat 0) with 0 in Hw.
    change (0 + length c)%nat with (length c) in Hw.
    fold (pack_bits c) in Hw. rewrite Hpos in Hw. cbn [negb] in Hw.
    rewrite andb_true_r in Hw.
    rewrite Hsplit at 1. rewrite Write_app, Hw.
    destruct (Nat.eqb_spec (length c) 8) as [H8|H8].
    + rewrite IH, <- app_assoc. reflexivity.
    + rewrite skipn_all2 by (unfold c in H8; rewrite length_firstn in H8; lia).
      cbn [BitWriter.Write chunks map].
      unfold BitWriter.Close, BitWriter.flushByte.
      cbn [BitWriter.offset BitWriter.writer BitWriter.buffer].
      destruct (Z.eqb_spec (Z.of_nat (length c)) 0) as [H0|H0]; [|reflexivity].
      apply Nat.eqb_neq in Hpos. lia.
Qed.

(** X18. However the bits are cut into calls of [Write], [Close] leaves
    in the file the bits packed eight to a byte, first bit highest, the last
    byte filled with zero bits: what [bitsToBytes] returns for all the
    bits. *)
Theorem BitWriter_packs (pieces : list (list Z)) :
  BitWriter.Close (fold_left BitWriter.Write pieces BitWriter.NewBitWriter)
  = bitsToBytes (concat pieces).
Proof.
  rewrite Write_pieces, bitsToBytes_chunks.
  apply (Write_chunks (concat pieces) []).
Qed.

Lemma land_1 (x : Z) : Z.land x 1 = if Z.land x 1 =? 1 then 1 else 0.
Proof.
  change 1 with (Z.ones 1) at 1 2. rewrite Z.land_ones by lia.
  change (2 ^ 1) with 2.
  pose proof (Z.mod_pos_bound x 2 ltac:(lia)) as H.
  destruct (Z.eqb_spec (x mod 2) 1); lia.
Qed.

(** One round of the loop of [Read] takes the first unread bit. *)
Lemma unread_step (br : BitReader.t) :
  0 <= BitReader.offset br ->
  match (if (BitReader.offset br =? 0) || (7 <? BitReader.offset br) then
           match BitReader.reader br with
           | [] => None
           | b :: rest => Some (BitReader.mk rest b 0)
           end
         else Some br) with
  | None => unread br = []
  | Some br1 =>
      let br2 := BitReader.mk (BitReader.reader br1) (BitReader.buffer br1)
                   (BitReader.offset br1 + 1) in
      unread br
      = Z.land (Z.shiftr (BitReader.buffer br1) (7 - BitReader.offset br1)) 1
        :: unread br2
      /\ 0 <= BitReader.offset br2
  end.
Proof.
  destruct br as [r b o]. cbn [BitReader.offset BitReader.reader BitReader.buffer].
  intros Ho. unfold unread. cbn [BitReader.offset BitReader.reader BitReader.buffer].
  destruct ((o =? 0) || (7 <? o)) eqn:Hfill.
  - destruct r as [|b' rest]; [reflexivity|].
    cbn [BitReader.offset BitReader.reader BitReader.buffer]. split; [|lia].
    rewrite land_1. reflexivity.
  - apply orb_false_iff in Hfill. destruct Hfill as [H0 H7].
    cbn [BitReader.offset BitReader.reader BitReader.buffer]. split; [|lia].
    rewrite land_1.
    assert (Hcases : o = 1 \/ o = 2 \/ o = 3 \/ o = 4 \/ o = 5 \/ o = 6 \/ o = 7) by lia.
    destruct Hcases as [->|[->|[->|[->|[->|[->| ->]]]]]]; reflexivity.
Qed.

Lemma Read_loop_spec :
  forall k br bits,
    0 <= BitReader.offset br ->
    exists br',
      BitReader.Read_loop k br bits
      = (bits ++ firstn k (unread br), (length (unread br) <? k)%nat, br')
      /\ unread br' = skipn k (unread br)
      /\ 0 <= BitReader.offset br'.
Proof.
  induction k as [|k IH]; intros br bits Ho.
  - exists br. cbn. now rewrite app_nil_r.
  - cbn [BitReader.Read_loop]. pose proof (unread_step br Ho) as Hstep.
    destruct (if (BitReader.offset br =? 0) || (7 <? BitReader.offset br)
              then _ else _) as [br1|].
    + cbn zeta in Hstep. destruct Hstep as [Hu Ho2].
      destruct (IH _ (bits ++ [Z.land (Z.shiftr (BitReader.buffer br1)
                                         (7 - BitReader.offset br1)) 1]) Ho2)
        as [br' [Hread [Hrest Ho']]].
      exists br'. rewrite Hread, Hu. cbn [firstn skipn length].
      rewrite <- app_assoc. cbn [app]. auto.
    + exists br. rewrite Hstep. cbn. now rewrite app_nil_r.
Qed.

(** X19. [Read(n)] on a reader whose offset is not negative returns the
    next [n] unread bits, most significant bit of each byte first, with no
    error; when fewer than [n] are left it returns those with an error. The
    bits it returned are no longer unread. *)
Theorem BitReader_reads (br : BitReader.t) (n : Z) :
  0 <= BitReader.offset br -> 0 <= n ->
  exists br',
    BitReader.Read br n
    = Some (firstn (Z.to_nat n) (unread br),
            Z.of_nat (length (unread br)) <? n, br')
    /\ unread br' = skipn (Z.to_nat n) (unread br)
    /\ 0 <= BitReader.offset br'.
Proof.
  intros Ho Hn. unfold BitReader.Read.
  destruct (Z.ltb_spec n 0); [lia|].
  destruct (Read_loop_spec (Z.to_nat n) br [] Ho) as [br' [Hread [Hrest Ho']]].
  exists br'. rewrite Hread. cbn [app]. repeat split; auto.
  do 3 f_equal.
  destruct (Nat.ltb_spec (length (unread br)) (Z.to_nat n)),
           (Z.ltb_spec (Z.of_nat (length (unread br))) n); (reflexivity || lia).
Qed.

Lemma BitReader_reads_witness :
  exists br',
    BitReader.Read (BitReader.NewBitReader [0xA5; 0x3C]) 12
    = Some (firstn (Z.to_nat 12) (unread (BitReader.NewBitReader [0xA5; 0x3C])),
            Z.of_nat (length (unread (BitReader.NewBitReader [0xA5; 0x3C]))) <? 12,
            br')
    /\ unread br' = skipn (Z.to_nat 12) (unread (BitReader.NewBitReader [0xA5; 0x3C]))
    /\ 0 <= BitReader.offset br'.
Proof.
  apply (BitReader_reads (BitReader.NewBitReader [0xA5; 0x3C]) 12).
  - cbn. lia.
  - lia.
Defined.

Lemma unread_new (data : list Z) :
  unread (BitReader.NewBitReader data) = bytesToBits data.
Proof. reflexivity. Qed.

End BitStreams.

(** * The shift register of lfsr.go *)

Section LFSRRounds.

Import LFSR.

Lemma index_in_range (state : list Z) (k : Z) :
  0 <= k < Z.of_nat (length state) ->
  index state k = Some (nth (Z.to_nat k) state 0).
Proof.
  intros Hk. unfold index.
  destruct (Z.leb_spec 0 k), (Z.ltb_spec k (Z.of_nat (length state))); try lia.
  cbn [andb]. apply nth_error_nth'. lia.
Qed.

Lemma last_cell (state : list Z) :
  nth (length state - 1) state 0 = last state 0.
Proof.
  induction state as [|x [|y state] IH]; [reflexivity | reflexivity |].
  change (last (x :: y :: state) 0) with (last (y :: state) 0).
  rewrite <- IH.
  replace (length (x :: y :: state) - 1)%nat with (S (length (y :: state) - 1))
    by (cbn [length]; lia).
  reflexivity.
Qed.

Lemma shifted_length (bit : Z) (state : list Z) :
  state <> [] -> length (shifted bit state) = length state.
Proof.
  intros Hne. unfold shifted. cbn [length].
  rewrite removelast_firstn_len, length_firstn.
  destruct state; [contradiction | cbn [length]; lia].
Qed.

Section Register.

Variables (poly : list Z) (degree : Z).

Hypothesis taps_in_range : Forall (fun tap => 1 <= tap <= degree) poly.
Hypothesis degree_fits : 1 <= degree <= max_int.

Lemma feedback_spec (state : list Z) :
  Z.of_nat (length state) = degree ->
  forall feedbackBit,
    feedback poly state feedbackBit
    = Some (fold_left
              (fun sum tap => Z.lxor sum (nth (Z.to_nat (tap - 1)) state 0))
              poly feedbackBit).
Proof.
  intros Hlen. pose proof taps_in_range as Htaps.
  induction poly as [|tap rest IH]; intros feedbackBit; [reflexivity|].
  apply Forall_cons_iff in Htaps. destruct Htaps as [Htap Hrest].
  cbn [feedback fold_left].
  rewrite wrap_in_range by (unfold min_int; lia).
  rewrite index_in_range by lia. now apply IH.
Qed.

Lemma shift_spec (state : list Z) (bit : Z) :
  Z.of_nat (length state) = degree ->
  shift state degree bit = Some (shifted bit state).
Proof.
  intros Hlen. unfold shift.
  rewrite wrap_in_range by (unfold min_int; lia).
  destruct (Z.leb_spec 1 (Z.of_nat (length state))); [|lia].
  destruct (Z.leb_spec 0 (degree - 1)); [|lia].
  destruct (Z.leb_spec (degree - 1) (Z.of_nat (length state))); [|lia].
  cbn [andb]. unfold shifted. do 2 f_equal.
  replace (Nat.min (length state - 1) (Z.to_nat (degree - 1)))
    with (length state - 1)%nat by lia.
  rewrite skipn_all2 by lia. rewrite app_nil_r.
  rewrite removelast_firstn_len. f_equal. lia.
Qed.

Lemma round_spec (md : mode) (state : list Z) (dataBit : Z) :
  Z.of_nat (length state) = degree ->
  round md poly degree state dataBit = Some (tick md poly state dataBit)
  /\ Z.of_nat (length (snd (tick md poly state dataBit))) = degree.
Proof.
  intros Hlen.
  assert (Hne : state <> []) by (intros ->; cbn in Hlen; lia).
  split.
  - unfold round, tick.
    destruct md; rewrite ?wrap_in_range by (unfold min_int; lia);
      rewrite ?index_in_range by lia;
      rewrite (feedback_spec state Hlen 0); fold (taps_sum poly state);
      rewrite shift_spec by exact Hlen; try reflexivity.
    replace (Z.to_nat (degree - 1)) with (length state - 1)%nat by lia.
    now rewrite last_cell.
  - destruct md; cbn [tick snd]; now rewrite shifted_length.
Qed.

Lemma read_loop_spec (md : mode) :
  forall bits fuel state bitReader bitWriter,
    unread bitReader = bits -> 0 <= BitReader.offset bitReader ->
    Z.of_nat (length state) = degree ->
    (length bits < fuel)%nat ->
    read_loop fuel md poly degree state bitReader bitWriter
    = Done (BitWriter.Write bitWriter (outputs (tick md poly) state bits)).
Proof.
  induction bits as [|dataBit rest IH];
    intros fuel state br bw Hbits Ho Hlen Hfuel;
    (destruct fuel as [|fuel]; [cbn in Hfuel; lia|]);
    cbn [read_loop]; unfold BitReader.Read;
    change (1 <? 0) with false; cbv iota;
    change (Z.to_nat 1) with 1%nat;
    destruct (Read_loop_spec 1 br [] Ho) as [br' [Hread [Hrest Ho']]];
    rewrite Hread, Hbits in *.
  - reflexivity.
  - cbn [app firstn length Nat.ltb Nat.leb skipn] in *.
    destruct (round_spec md state dataBit Hlen) as [Hround Hlen'].
    rewrite Hround. cbn [outputs].
    destruct (tick md poly state dataBit) as [outputBit state'] eqn:Htick.
    cbn [snd] in Hlen'.
    rewrite (IH fuel state' br' _ Hrest Ho' Hlen') by (cbn [length] in Hfuel; lia).
    reflexivity.
Qed.

Lemma run_loop_spec (md : mode) (state input : list Z) :
  Z.of_nat (length state) = degree ->
  run_loop md poly degree state input
  = Done (bitsToBytes (outputs (tick md poly) state (bytesToBits input))).
Proof.
  intros Hlen. unfold run_loop.
  rewrite (read_loop_spec md (bytesToBits input));
    [| reflexivity | cbn; lia | exact Hlen | rewrite bytesToBits_length; lia].
  rewrite bitsToBytes_chunks. f_equal.
  apply (Write_chunks _ []).
Qed.

Lemma gen_loop_spec :
  forall count state bitWriter,
    Z.of_nat (length state) = degree ->
    gen_loop count poly degree state bitWriter
    = Done (BitWriter.Write bitWriter (keystream poly state count)).
Proof.
  induction count as [|count IH]; intros state bw Hlen; [reflexivity|].
  cbn [gen_loop keystream].
  destruct (round_spec Cipher state 0 Hlen) as [Hround Hlen'].
  unfold round in Hround. cbn [tick snd] in Hround, Hlen'.
  destruct (index state (wrap (degree - 1))) as [outputBit|]; [|discriminate].
  destruct (feedback poly state 0) as [feedbackBit|]; [|discriminate].
  destruct (shift state degree feedbackBit) as [state'|]; [|discriminate].
  injection Hround as Hout Hstate. rewrite ?Z.lxor_0_l in Hout.
  rewrite IH by (rewrite Hstate; exact Hlen').
  rewrite Hstate, Hout. reflexivity.
Qed.

End Register.

End LFSRRounds.

Section LFSRStreams.

Import LFSR.

Lemma outputs_length (f : list Z -> Z -> Z * list Z) :
  forall bits state, length (outputs f state bits) = length bits.
Proof.
  induction bits as [|b bits IH]; intros state; [reflexivity|].
  cbn [outputs]. destruct (f state b) as [o state']. cbn [length]. now rewrite IH.
Qed.

Lemma outputs_cipher (poly : list Z) :
  forall bits state,
    outputs (tick Cipher poly) state bits
    = xor_each bits (keystream poly state (length bits)).
Proof.
  induction bits as [|b bits IH]; intros state; [reflexivity|].
  cbn [outputs tick length keystream xor_each]. now rewrite IH.
Qed.

Lemma outputs_scramble (poly : list Z) :
  forall bits state,
    outputs (tick Scramble poly) state bits = scrambled poly state bits.
Proof.
  induction bits as [|b bits IH]; intros state; [reflexivity|].
  cbn [outputs tick scrambled]. now rewrite IH.
Qed.

Lemma outputs_descramble (poly : list Z) :
  forall bits state,
    outputs (tick Descramble poly) state bits = descrambled poly state bits.
Proof.
  induction bits as [|b bits IH]; intros state; [reflexivity|].
  cbn [outputs tick descrambled]. now rewrite IH.
Qed.

Lemma lxor_twice (a b : Z) : Z.lxor (Z.lxor a b) b = a.
Proof. now rewrite Z.lxor_assoc, Z.lxor_nilpotent, Z.lxor_0_r. Qed.

Lemma descrambled_scrambled (poly : list Z) :
  forall bits state, descrambled poly state (scrambled poly state bits) = bits.
Proof.
  induction bits as [|b bits IH]; intros state; [reflexivity|].
  cbn [scrambled descrambled]. now rewrite lxor_twice, IH.
Qed.

Lemma scrambled_descrambled (poly : list Z) :
  forall bits state, scrambled poly state (descrambled poly state bits) = bits.
Proof.
  induction bits as [|b bits IH]; intros state; [reflexivity|].
  cbn [scrambled descrambled]. now rewrite !lxor_twice, IH.
Qed.

Lemma xor_each_twice :
  forall a k, (length a <= length k)%nat -> xor_each (xor_each a k) k = a.
Proof.
  induction a as [|x a IH]; intros [|y k] Hlen; try reflexivity.
  - cbn in Hlen. lia.
  - cbn [xor_each]. rewrite lxor_twice, IH by (cbn in Hlen; lia). reflexivity.
Qed.

Lemma xor_each_length :
  forall a k, (length a <= length k)%nat -> length (xor_each a k) = length a.
Proof.
  induction a as [|x a IH]; intros [|y k] Hlen; try reflexivity.
  - cbn in Hlen. lia.
  - cbn [xor_each length]. rewrite IH by (cbn in Hlen; lia). reflexivity.
Qed.

Lemma keystream_length (poly : list Z) :
  forall n state, length (keystream poly state n) = n.
Proof.
  induction n as [|n IH]; intros state; [reflexivity|].
  cbn [keystream length]. now rewrite IH.
Qed.

Lemma lxor_bit (a b : Z) : is_bit a -> is_bit b -> is_bit (Z.lxor a b).
Proof. unfold is_bit. intros [-> | ->] [-> | ->]; cbn; auto. Qed.

Lemma nth_bit (state : list Z) (k : nat) :
  Forall is_bit state -> is_bit (nth k state 0).
Proof.
  intros H. destruct (Nat.lt_ge_cases k (length state)) as [Hk|Hk].
  - rewrite Forall_forall in H. apply H, nth_In, Hk.
  - rewrite nth_overflow by exact Hk. now left.
Qed.

Lemma taps_sum_bit (poly state : list Z) :
  Forall is_bit state -> is_bit (taps_sum poly state).
Proof.
  intros Hs. unfold taps_sum.
  assert (H : forall sum, is_bit sum ->
            is_bit (fold_left
                      (fun sum tap => Z.lxor sum (nth (Z.to_nat (tap - 1)) state 0))
                      poly sum)).
  { induction poly as [|tap rest IH]; intros sum Hsum; [exact Hsum|].
    cbn [fold_left]. apply IH, lxor_bit; [exact Hsum | now apply nth_bit]. }
  apply H. now left.
Qed.

Lemma shifted_bits (bit : Z) (state : list Z) :
  is_bit bit -> Forall is_bit state -> Forall is_bit (shifted bit state).
Proof.
  intros Hb Hs. unfold shifted. constructor; [exact Hb|].
  rewrite removelast_firstn_len. now apply Forall_firstn.
Qed.

Lemma last_bit (state : list Z) : Forall is_bit state -> is_bit (last state 0).
Proof. intros H. rewrite <- last_cell. now apply nth_bit. Qed.

Lemma outputs_bits (md : mode) (poly : list Z) :
  forall bits state,
    Forall is_bit bits -> Forall is_bit state ->
    Forall is_bit (outputs (tick md poly) state bits).
Proof.
  induction bits as [|b bits IH]; intros state Hbits Hs; [constructor|].
  apply Forall_cons_iff in Hbits. destruct Hbits as [Hb Hbits].
  pose proof (taps_sum_bit poly state Hs) as Hsum.
  pose proof (last_bit state Hs) as Hlast.
  destruct md; cbn [outputs tick]; constructor;
    try (apply IH; [exact Hbits|]); try apply shifted_bits;
    try apply lxor_bit; assumption.
Qed.

(** Packing the image of the bits of a file and unpacking it again. *)
Lemma repacked (bits : list Z) (input : list Z) :
  Forall is_bit bits -> length bits = length (bytesToBits input) ->
  bytesToBits (bitsToBytes bits) = bits
  /\ length (bitsToBytes bits) = length input.
Proof.
  intros Hbits Hlen. rewrite bytesToBits_length in Hlen.
  assert (Hback : bytesToBits (bitsToBytes bits) = bits).
  { apply bits_roundtrip; [exact Hbits|].
    rewrite Hlen, Nat.mul_comm. apply Nat.Div0.mod_mul. }
  split; [exact Hback|].
  apply (f_equal (@length Z)) in Hback. rewrite bytesToBits_length in Hback. lia.
Qed.

Lemma highest_spec (taps : list Z) :
  forall degree,
    let top := fold_left (fun degree tap => if degree <? tap then tap else degree)
                 taps degree in
    degree <= top /\ Forall (fun tap => tap <= top) taps
    /\ (top = degree \/ In top taps).
Proof.
  induction taps as [|tap rest IH]; intros degree; cbn [fold_left].
  - cbn. split; [lia|]. split; [constructor | now left].
  - cbn zeta in *.
    destruct (IH (if degree <? tap then tap else degree)) as [Hge [Hall Hin]].
    destruct (Z.ltb_spec degree tap) as [Hlt|Hle].
    + split; [lia|]. split; [constructor; [lia | exact Hall]|].
      right. destruct Hin as [-> | Hin]; [now left | now right].
    + split; [lia|]. split; [constructor; [lia | exact Hall]|].
      destruct Hin as [-> | Hin]; [now left | right; now right].
Qed.

Section Parsing.

Variable TrimSpace : list ascii -> list ascii.

Lemma parse_taps_spec (parts : list (list ascii)) :
  forall taps,
    match parse_taps TrimSpace parts taps with
    | Done all =>
        exists new,
          all = taps ++ new
          /\ map Some new = map (fun p => Atoi (TrimSpace p)) parts
          /\ Forall (fun tap => 1 <= tap <= max_int) new
    | Fails (ErrInvalidTap p) => In p parts /\ Atoi (TrimSpace p) = None
    | Fails (ErrTapNotPositive tap) =>
        tap <= 0 /\ exists p, In p parts /\ Atoi (TrimSpace p) = Some tap
    | _ => False
    end.
Proof.
  induction parts as [|p rest IH]; intros taps; cbn [parse_taps].
  - exists []. rewrite app_nil_r. repeat split; constructor.
  - destruct (Atoi (TrimSpace p)) as [tap|] eqn:Hp.
    2:{ split; [now left | exact Hp]. }
    destruct (Z.leb_spec tap 0) as [Hle|Hgt].
    { split; [exact Hle|]. exists p. split; [now left | exact Hp]. }
    specialize (IH (taps ++ [tap])).
    destruct (parse_taps TrimSpace rest (taps ++ [tap])) as [all|e| |];
      try contradiction.
    + destruct IH as [new [Hall [Hmap Hrange]]].
      exists (tap :: new). rewrite Hall, <- app_assoc. split; [reflexivity|].
      split; [cbn [map]; now rewrite Hmap, Hp|].
      constructor; [|exact Hrange]. apply Atoi_range in Hp. lia.
    + destruct e; try contradiction.
      * destruct IH as [Hin Hnone]. split; [now right | exact Hnone].
      * destruct IH as [Hle [q [Hin Hq]]]. split; [exact Hle|].
        exists q. split; [now right | exact Hq].
Qed.

(** What [parsePoly] returns. *)
Lemma parsePoly_cases (polyStr : list ascii) :
  match parsePoly TrimSpace polyStr with
  | Done (taps, degree) =>
      map Some taps = map (fun p => Atoi (TrimSpace p)) (Split polyStr)
      /\ taps <> []
      /\ Forall (fun tap => 1 <= tap <= degree) taps
      /\ In degree taps
      /\ degree <= max_int
  | Fails (ErrInvalidTap p) => In p (Split polyStr) /\ Atoi (TrimSpace p) = None
  | Fails (ErrTapNotPositive tap) =>
      tap <= 0 /\ exists p, In p (Split polyStr) /\ Atoi (TrimSpace p) = Some tap
  | _ => False
  end.
Proof.
  unfold parsePoly.
  pose proof (Split_not_empty polyStr) as Hne.
  destruct (Split polyStr) as [|part parts] eqn:Hsplit; [contradiction|].
  cbn [length Nat.eqb].
  pose proof (parse_taps_spec (part :: parts) []) as Hspec.
  destruct (parse_taps TrimSpace (part :: parts) []) as [taps|e| |];
    try contradiction; [|exact Hspec].
  destruct Hspec as [new [Hall [Hmap Hrange]]]. cbn [app] in Hall. subst new.
  split; [exact Hmap|].
  assert (Htaps : taps <> []).
  { intros ->. discriminate Hmap. }
  destruct (highest_spec taps 0) as [Hge [Hall Hin]]. cbn zeta in *.
  fold (highest taps) in *.
  assert (Hin' : In (highest taps) taps).
  { destruct Hin as [H0|Hin]; [|exact Hin].
    destruct taps as [|tap rest]; [contradiction|].
    apply Forall_cons_iff in Hrange, Hall. lia. }
  split; [exact Htaps|]. split.
  - rewrite Forall_forall in *. intros tap Htap.
    specialize (Hrange tap Htap). specialize (Hall tap Htap). lia.
  - split; [exact Hin'|].
    rewrite Forall_forall in Hrange. apply (Hrange _ Hin').
Qed.

Lemma parsePoly_Done (polyStr : list ascii) (poly : list Z) (degree : Z) :
  parsePoly TrimSpace polyStr = Done (poly, degree) ->
  Forall (fun tap => 1 <= tap <= degree) poly /\ 1 <= degree <= max_int.
Proof.
  intros H. pose proof (parsePoly_cases polyStr) as Hc. rewrite H in Hc.
  destruct Hc as [_ [_ [Hall [Hin Hmax]]]]. split; [exact Hall|].
  rewrite Forall_forall in Hall. specialize (Hall _ Hin). lia.
Qed.

End Parsing.

Lemma parseSeed_Done (seedStr : list ascii) :
  forall state,
    parseSeed seedStr = Done state ->
    length state = length seedStr /\ Forall is_bit state.
Proof.
  induction seedStr as [|char rest IH]; intros state; cbn [parseSeed].
  - intros [= <-]. split; [reflexivity | constructor].
  - destruct (char =? "1")%char.
    + destruct (parseSeed rest) as [seed| | |]; try discriminate.
      intros [= <-]. destruct (IH seed eq_refl) as [Hl Hb].
      split; [cbn; now rewrite Hl | constructor; [now right | exact Hb]].
    + destruct (char =? "0")%char; [|discriminate].
      destruct (parseSeed rest) as [seed| | |]; try discriminate.
      intros [= <-]. destruct (IH seed eq_refl) as [Hl Hb].
      split; [cbn; now rewrite Hl | constructor; [now left | exact Hb]].
Qed.

End LFSRStreams.

Section LFSRModes.

Import LFSR.

Variable TrimSpace : list ascii -> list ascii.

Lemma written_bits (bits : list Z) :
  BitWriter.Close (BitWriter.Write BitWriter.NewBitWriter bits) = bitsToBytes bits.
Proof. rewrite bitsToBytes_chunks. apply (Write_chunks bits []). Qed.

Lemma runGenMode_run (polyStr seedStr : list ascii) (numBits : Z)
    (poly : list Z) (degree : Z) (state : list Z) :
  polyStr <> [] ->
  parsePoly TrimSpace polyStr = Done (poly, degree) ->
  parseSeed seedStr = Done state ->
  Z.of_nat (length state) = degree ->
  0 < numBits ->
  runGenMode TrimSpace polyStr seedStr numBits
  = Done (bitsToBytes (keystream poly state (Z.to_nat numBits))).
Proof.
  intros Hpoly Hparse Hseed Hlen Hn.
  destruct (parsePoly_Done TrimSpace _ _ _ Hparse) as [Htaps Hdeg].
  unfold runGenMode.
  destruct polyStr as [|c polyStr']; [contradiction|].
  destruct seedStr as [|c' seedStr'].
  { cbn in Hseed. injection Hseed as <-. cbn in Hlen. lia. }
  destruct (Z.leb_spec numBits 0); [lia|].
  rewrite Hparse, Hseed.
  destruct (Z.eqb_spec (Z.of_nat (length state)) degree); [|contradiction].
  cbn [negb].
  rewrite (gen_loop_spec poly degree Htaps Hdeg) by exact Hlen.
  now rewrite written_bits.
Qed.

Lemma runCipherMode_run (polyStr seedStr : list ascii) (input : list Z)
    (poly : list Z) (degree : Z) (state : list Z) :
  polyStr <> [] ->
  parsePoly TrimSpace polyStr = Done (poly, degree) ->
  parseSeed seedStr = Done state ->
  Z.of_nat (length state) = degree ->
  runCipherMode TrimSpace polyStr seedStr input
  = Done (bitsToBytes
            (xor_each (bytesToBits input)
               (keystream poly state (length (bytesToBits input))))).
Proof.
  intros Hpoly Hparse Hseed Hlen.
  destruct (parsePoly_Done TrimSpace _ _ _ Hparse) as [Htaps Hdeg].
  unfold runCipherMode.
  destruct polyStr as [|c polyStr']; [contradiction|].
  destruct seedStr as [|c' seedStr'].
  { cbn in Hseed. injection Hseed as <-. cbn in Hlen. lia. }
  rewrite Hparse, Hseed.
  destruct (Z.eqb_spec (Z.of_nat (length state)) degree); [|contradiction].
  cbn [negb].
  rewrite (run_loop_spec poly degree Htaps Hdeg) by exact Hlen.
  now rewrite outputs_cipher.
Qed.

Lemma feed_through_run (md : mode) (missing : failure) (polyStr : list ascii)
    (input : list Z) (poly : list Z) (degree : Z) :
  polyStr <> [] ->
  parsePoly TrimSpace polyStr = Done (poly, degree) ->
  feed_through TrimSpace md missing polyStr input
  = Done (bitsToBytes
            (outputs (tick md poly) (repeat 0 (Z.to_nat degree))
               (bytesToBits input))).
Proof.
  intros Hpoly Hparse.
  destruct (parsePoly_Done TrimSpace _ _ _ Hparse) as [Htaps Hdeg].
  unfold feed_through.
  destruct polyStr as [|c polyStr']; [contradiction|].
  rewrite Hparse. unfold zero_state.
  destruct (Z.ltb_spec degree 0); [lia|].
  apply (run_loop_spec poly degree Htaps Hdeg).
  rewrite repeat_length. lia.
Qed.

Lemma zeros_bits (n : nat) : Forall is_bit (repeat 0 n).
Proof. apply Forall_forall. intros x Hx. apply repeat_spec in Hx. now left. Qed.

(** X20. [parsePoly] returns either the values of all the comma-separated
    parts, in order, with their maximum as the degree: at least one tap,
    every tap between 1 and the degree, the degree itself a tap; or the
    error of a part that is no integer; or the error of a part whose value
    is not positive. It never returns its empty-polynomial error. *)
Theorem parsePoly_spec (polyStr : list ascii) :
  match parsePoly TrimSpace polyStr with
  | Done (taps, degree) =>
      map Some taps = map (fun p => Atoi (TrimSpace p)) (Split polyStr)
      /\ taps <> []
      /\ Forall (fun tap => 1 <= tap <= degree) taps
      /\ In degree taps
      /\ degree <= max_int
  | Fails (ErrInvalidTap p) => In p (Split polyStr) /\ Atoi (TrimSpace p) = None
  | Fails (ErrTapNotPositive tap) =>
      tap <= 0 /\ exists p, In p (Split polyStr) /\ Atoi (TrimSpace p) = Some tap
  | _ => False
  end.
Proof. exact (parsePoly_cases TrimSpace polyStr). Qed.

(** X21. With a polynomial [parsePoly] accepts, a seed of 0 and 1
    characters as long as the degree, and a positive bit count,
    [runGenMode] never indexes the state out of range: it writes the first
    [numBits] bits the register puts out (the last cell, then a shift that
    brings in the sum of the tapped cells), packed into
    [ceil(numBits / 8)] bytes. *)
Theorem runGenMode_keystream (polyStr seedStr : list ascii) (numBits : Z)
    (poly : list Z) (degree : Z) (state : list Z) :
  polyStr <> [] ->
  parsePoly TrimSpace polyStr = Done (poly, degree) ->
  parseSeed seedStr = Done state ->
  Z.of_nat (length state) = degree ->
  0 < numBits ->
  exists output,
    runGenMode TrimSpace polyStr seedStr numBits = Done output
    /\ output = bitsToBytes (keystream poly state (Z.to_nat numBits))
    /\ Z.of_nat (length output) = (numBits + 7) / 8.
Proof.
  intros Hpoly Hparse Hseed Hlen Hn.
  exists (bitsToBytes (keystream poly state (Z.to_nat numBits))).
  split; [now apply (runGenMode_run polyStr seedStr numBits poly degree state)|].
  split; [reflexivity|].
  rewrite bitsToBytes_length, keystream_length. f_equal. lia.
Qed.

(** X22. [runCipherMode] undoes itself: with the same polynomial and
    seed, the output has as many bytes as the input, its bits are the input
    bits each added to the register output of that round, and ciphering the
    output returns the input. *)
Theorem runCipherMode_round_trip (polyStr seedStr : list ascii) (input : list Z)
    (poly : list Z) (degree : Z) (state : list Z) :
  polyStr <> [] ->
  parsePoly TrimSpace polyStr = Done (poly, degree) ->
  parseSeed seedStr = Done state ->
  Z.of_nat (length state) = degree ->
  Forall is_byte input ->
  exists output,
    runCipherMode TrimSpace polyStr seedStr input = Done output
    /\ length output = length input
    /\ bytesToBits output
       = xor_each (bytesToBits input)
           (keystream poly state (8 * length input))
    /\ runCipherMode TrimSpace polyStr seedStr output = Done input.
Proof.
  intros Hpoly Hparse Hseed Hlen Hbytes.
  destruct (parseSeed_Done _ _ Hseed) as [_ Hstate].
  set (bits := bytesToBits input).
  set (ks := keystream poly state (length bits)).
  assert (Hks : length ks = length bits) by apply keystream_length.
  assert (Hout : Forall is_bit (xor_each bits ks)).
  { unfold ks. rewrite <- outputs_cipher.
    apply outputs_bits; [apply bytesToBits_bits | exact Hstate]. }
  destruct (repacked (xor_each bits ks) input Hout) as [Hback Hsize].
  { fold bits. apply xor_each_length. lia. }
  exists (bitsToBytes (xor_each bits ks)).
  split; [now apply (runCipherMode_run polyStr seedStr input poly degree state)|].
  split; [exact Hsize|]. split.
  { rewrite Hback. unfold ks, bits. now rewrite bytesToBits_length. }
  rewrite (runCipherMode_run polyStr seedStr _ poly degree state) by assumption.
  rewrite Hback, xor_each_length by lia. fold ks.
  rewrite xor_each_twice by lia. unfold bits. now rewrite bytes_roundtrip.
Qed.

(** X24. [runDescrambleMode] undoes [runScrambleMode] and the other way
    round: with a polynomial [parsePoly] accepts, either mode returns as
    many bytes as it read, and the other mode turns them back into the
    input. *)
Theorem scramble_descramble_round_trip (polyStr : list ascii) (input : list Z)
    (poly : list Z) (degree : Z) :
  polyStr <> [] ->
  parsePoly TrimSpace polyStr = Done (poly, degree) ->
  Forall is_byte input ->
  (exists output,
     runScrambleMode TrimSpace polyStr input = Done output
     /\ length output = length input
     /\ runDescrambleMode TrimSpace polyStr output = Done input)
  /\ (exists output,
        runDescrambleMode TrimSpace polyStr input = Done output
        /\ length output = length input
        /\ runScrambleMode TrimSpace polyStr output = Done input).
Proof.
  intros Hpoly Hparse Hbytes.
  unfold runScrambleMode, runDescrambleMode.
  set (zero := repeat 0 (Z.to_nat degree)).
  set (bits := bytesToBits input).
  assert (Hrun : forall md missing data,
    feed_through TrimSpace md missing polyStr data
    = Done (bitsToBytes (outputs (tick md poly) zero (bytesToBits data))))
    by (intros; now apply feed_through_run).
  assert (Hpack : forall md,
    bytesToBits (bitsToBytes (outputs (tick md poly) zero bits))
    = outputs (tick md poly) zero bits
    /\ length (bitsToBytes (outputs (tick md poly) zero bits)) = length input).
  { intros md. apply repacked; [|apply outputs_length].
    apply outputs_bits; [apply bytesToBits_bits | apply zeros_bits]. }
  split.
  - destruct (Hpack Scramble) as [Hback Hsize].
    exists (bitsToBytes (outputs (tick Scramble poly) zero bits)).
    split; [apply Hrun|]. split; [exact Hsize|].
    rewrite Hrun, Hback, outputs_scramble, outputs_descramble.
    rewrite descrambled_scrambled. unfold bits. now rewrite bytes_roundtrip.
  - destruct (Hpack Descramble) as [Hback Hsize].
    exists (bitsToBytes (outputs (tick Descramble poly) zero bits)).
    split; [apply Hrun|]. split; [exact Hsize|].
    rewrite Hrun, Hback, outputs_scramble, outputs_descramble.
    rewrite scrambled_descrambled. unfold bits. now rewrite bytes_roundtrip.
Qed.

End LFSRModes.

Section LFSRBytes.

Import LFSR.

Lemma bit_of_byte_lxor (a b : Z) (j : nat) :
  (j < 8)%nat ->
  bit_of_byte (Z.lxor a b) j = Z.lxor (bit_of_byte a j) (bit_of_byte b j).
Proof.
  intros Hj. rewrite !bit_of_byte_testbit by exact Hj. rewrite Z.lxor_spec.
  destruct (Z.testbit a _), (Z.testbit b _); reflexivity.
Qed.

Lemma lxor_byte (a b : Z) : is_byte a -> is_byte b -> is_byte (Z.lxor a b).
Proof.
  unfold is_byte. intros Ha Hb.
  assert (H : Z.lxor a b = Z.lxor a b mod 2 ^ 8).
  { apply Z.bits_inj'. intros n Hn. destruct (Z.ltb_spec n 8).
    - now rewrite Z.mod_pow2_bits_low.
    - rewrite Z.mod_pow2_bits_high by lia. rewrite Z.lxor_spec.
      rewrite <- (Z.mod_small a (2 ^ 8)), <- (Z.mod_small b (2 ^ 8)) by lia.
      now rewrite !Z.mod_pow2_bits_high by lia. }
  rewrite H. apply Z.mod_pos_bound. lia.
Qed.

Lemma xor_each_bytes :
  forall a b, Forall is_byte a -> Forall is_byte b -> Forall is_byte (xor_each a b).
Proof.
  induction a as [|x a IH]; intros [|y b] Ha Hb; cbn [xor_each]; try constructor.
  - apply lxor_byte; [now inversion Ha | now inversion Hb].
  - apply IH; [now inversion Ha | now inversion Hb].
Qed.

Lemma xor_each_app :
  forall l1 l2 r1 r2, length l1 = length l2 ->
    xor_each (l1 ++ r1) (l2 ++ r2) = xor_each l1 l2 ++ xor_each r1 r2.
Proof.
  induction l1 as [|x l1 IH]; intros [|y l2] r1 r2 Hlen;
    try discriminate; [reflexivity|].
  cbn [app xor_each]. f_equal. apply IH. now injection Hlen.
Qed.

Lemma bytesToBits_cons (b : Z) (data : list Z) :
  bytesToBits (b :: data) = map (bit_of_byte b) (seq 0 8) ++ bytesToBits data.
Proof. reflexivity. Qed.

(** The bits of two byte sequences combined are their bits combined. *)
Lemma bytesToBits_xor :
  forall a b,
    bytesToBits (xor_each a b) = xor_each (bytesToBits a) (bytesToBits b).
Proof.
  induction a as [|x a IH]; intros [|y b]; cbn [xor_each]; try reflexivity.
  rewrite !bytesToBits_cons, xor_each_app by (now rewrite !length_map).
  rewrite IH. f_equal. cbn [seq map xor_each].
  now rewrite !bit_of_byte_lxor by lia.
Qed.

Lemma bitsToBytes_bytes (bits : list Z) : Forall is_byte (bitsToBytes bits).
Proof. rewrite bitsToBytes_chunks. apply bytesToBits_packed. Qed.

Variable TrimSpace : list ascii -> list ascii.

(** X23. [runCipherMode] adds to the file what [runGenMode] generates:
    with the same polynomial and seed, its output is the input combined
    byte by byte, with exclusive or, with the bytes [runGenMode] writes for
    eight bits per input byte. *)
Theorem cipher_adds_generated_bits (polyStr seedStr : list ascii) (input : list Z)
    (poly : list Z) (degree : Z) (state : list Z) :
  polyStr <> [] ->
  parsePoly TrimSpace polyStr = Done (poly, degree) ->
  parseSeed seedStr = Done state ->
  Z.of_nat (length state) = degree ->
  Forall is_byte input -> input <> [] ->
  exists generated,
    runGenMode TrimSpace polyStr seedStr (8 * Z.of_nat (length input))
    = Done generated
    /\ length generated = length input
    /\ runCipherMode TrimSpace polyStr seedStr input
       = Done (xor_each input generated).
Proof.
  intros Hpoly Hparse Hseed Hlen Hbytes Hne.
  destruct (parseSeed_Done _ _ Hseed) as [_ Hstate].
  set (n := (8 * length input)%nat).
  set (ks := keystream poly state n).
  assert (Hksb : Forall is_bit ks).
  { assert (H : xor_each (repeat 0 n) ks = ks).
    { assert (Hl : length ks = n) by apply keystream_length.
      clearbody ks. clear -Hl. revert ks Hl.
      induction n as [|n IH]; intros [|k ks] Hl; try discriminate; [reflexivity|].
      cbn [repeat xor_each]. rewrite Z.lxor_0_l, IH; [reflexivity|].
      now injection Hl. }
    rewrite <- H. unfold ks. rewrite <- (repeat_length 0 n) at 2.
    rewrite <- outputs_cipher.
    apply outputs_bits; [apply zeros_bits | exact Hstate]. }
  destruct (repacked ks input Hksb) as [Hback Hsize].
  { unfold ks. now rewrite keystream_length, bytesToBits_length. }
  exists (bitsToBytes ks). split.
  { rewrite (runGenMode_run TrimSpace polyStr seedStr _ poly degree state);
      try assumption.
    - unfold ks, n. do 3 f_equal. lia.
    - destruct input; [contradiction | cbn [length]; lia]. }
  split; [exact Hsize|].
  rewrite (runCipherMode_run TrimSpace polyStr seedStr input poly degree state)
    by assumption.
  rewrite bytesToBits_length. fold n. fold ks. f_equal.
  rewrite <- (bytes_roundtrip (xor_each input (bitsToBytes ks)))
    by (apply xor_each_bytes; [exact Hbytes | apply bitsToBytes_bytes]).
  now rewrite bytesToBits_xor, Hback.
Qed.

End LFSRBytes.

Lemma runGenMode_keystream_witness :
  exists output,
    LFSR.runGenMode (fun s => s) (prog "4,3") (prog "1001") 20 = LFSR.Done output
    /\ output = bitsToBytes (keystream [4; 3] [1; 0; 0; 1] (Z.to_nat 20))
    /\ Z.of_nat (length output) = (20 + 7) / 8.
Proof.
  apply (runGenMode_keystream (fun s => s) (prog "4,3") (prog "1001") 20
           [4; 3] 4 [1; 0; 0; 1]).
  - discriminate.
  - reflexivity.
  - reflexivity.
  - reflexivity.
  - lia.
Defined.

Lemma runCipherMode_round_trip_witness :
  exists output,
    LFSR.runCipherMode (fun s => s) (prog "4,3") (prog "1001") [0xA5; 0x3C; 0x00]
    = LFSR.Done output
    /\ length output = length [0xA5; 0x3C; 0x00]
    /\ bytesToBits output
       = xor_each (bytesToBits [0xA5; 0x3C; 0x00])
           (keystream [4; 3] [1; 0; 0; 1] (8 * length [0xA5; 0x3C; 0x00]))
    /\ LFSR.runCipherMode (fun s => s) (prog "4,3") (prog "1001") output
       = LFSR.Done [0xA5; 0x3C; 0x00].
Proof.
  apply (runCipherMode_round_trip (fun s => s) (prog "4,3") (prog "1001")
           [0xA5; 0x3C; 0x00] [4; 3] 4 [1; 0; 0; 1]).
  - discriminate.
  - reflexivity.
  - reflexivity.
  - reflexivity.
  - repeat constructor; unfold is_byte; lia.
Defined.

Lemma cipher_adds_generated_bits_witness :
  exists generated,
    LFSR.runGenMode (fun s => s) (prog "4,3") (prog "1001")
      (8 * Z.of_nat (length [0xA5; 0x3C; 0x00]))
    = LFSR.Done generated
    /\ length generated = length [0xA5; 0x3C; 0x00]
    /\ LFSR.runCipherMode (fun s => s) (prog "4,3") (prog "1001") [0xA5; 0x3C; 0x00]
       = LFSR.Done (xor_each [0xA5; 0x3C; 0x00] generated).
Proof.
  apply (cipher_adds_generated_bits (fun s => s) (prog "4,3") (prog "1001")
           [0xA5; 0x3C; 0x00] [4; 3] 4 [1; 0; 0; 1]).
  - discriminate.
  - reflexivity.
  - reflexivity.
  - reflexivity.
  - repeat constructor; unfold is_byte; lia.
  - discriminate.
Defined.

Lemma scramble_descramble_round_trip_witness :
  (exists output,
     LFSR.runScrambleMode (fun s => s) (prog "7,4") [0xA5; 0x3C; 0x00] = LFSR.Done output
     /\ length output = length [0xA5; 0x3C; 0x00]
     /\ LFSR.runDescrambleMode (fun s => s) (prog "7,4") output
        = LFSR.Done [0xA5; 0x3C; 0x00])
  /\ (exists output,
        LFSR.runDescrambleMode (fun s => s) (prog "7,4") [0xA5; 0x3C; 0x00]
        = LFSR.Done output
        /\ length output = length [0xA5; 0x3C; 0x00]
        /\ LFSR.runScrambleMode (fun s => s) (prog "7,4") output
           = LFSR.Done [0xA5; 0x3C; 0x00]).
Proof.
  apply (scramble_descramble_round_trip (fun s => s) (prog "7,4")
           [0xA5; 0x3C; 0x00] [7; 4] 7).
  - discriminate.
  - reflexivity.
  - repeat constructor; unfold is_byte; lia.
Defined.

(** * hamming.go: whole files *)

Section HammingFiles.

Import Hamming HammingFile.

Lemma skipn_nth (l : list Z) :
  forall i, (i < length l)%nat -> skipn i l = nth i l 0 :: skipn (S i) l.
Proof.
  induction l as [|x l IH]; intros [|i] Hi; cbn [length] in Hi; try lia.
  - reflexivity.
  - cbn [skipn nth]. rewrite IH by lia. reflexivity.
Qed.

Lemma Read_spec (r : bitReader.t) (n : Z) :
  reading r ->
  match to_read r with
  | [] => bitReader.Read r n = (0, true, r)
  | b :: rest =>
      exists r',
        bitReader.Read r n = (b, false, r') /\ to_read r' = rest /\ reading r'
  end.
Proof.
  destruct r as [data byte bit]. unfold reading, to_read, bitReader.Read.
  cbn [bitReader.data bitReader.byte bitReader.bit]. intros [Hbyte Hbit].
  destruct (Z.leb_spec (Z.of_nat (length data)) byte) as [Hend|Hin].
  - rewrite skipn_all2 by (rewrite bytesToBits_length; lia). reflexivity.
  - set (i := Z.to_nat (8 * byte + bit)).
    assert (Hi : (i < length (bytesToBits data))%nat)
      by (rewrite bytesToBits_length; lia).
    rewrite (skipn_nth _ i Hi).
    assert (Hnth : nth i (bytesToBits data) 0
                   = Z.land (Z.shiftr (nth (Z.to_nat byte) data 0) (7 - bit)) 1).
    { replace i with (Z.to_nat byte * 8 + Z.to_nat bit)%nat by lia.
      rewrite bytesToBits_nth by lia. unfold bit_of_byte.
      rewrite Z2Nat.id by lia. symmetry. apply land_1. }
    rewrite Hnth.
    destruct (Z.eqb_spec (bit + 1) 8) as [H8|H8]; eexists; (split; [reflexivity|]);
      cbn [bitReader.data bitReader.byte bitReader.bit];
      (split; [f_equal; lia | lia]).
Qed.

Lemma read_rest_spec :
  forall count r dataBits,
    reading r ->
    exists r',
      read_rest count r dataBits
      = (dataBits ++ firstn count (to_read r)
                  ++ repeat 0 (count - length (to_read r)), r')
      /\ to_read r' = skipn count (to_read r) /\ reading r'.
Proof.
  induction count as [|count IH]; intros r dataBits Hr.
  - exists r. cbn. rewrite app_nil_r. auto.
  - cbn [read_rest]. pose proof (Read_spec r 1 Hr) as Hread.
    destruct (to_read r) as [|b rest] eqn:Hbits.
    + rewrite Hread. destruct (IH r (dataBits ++ [0]) Hr) as [r' [Hrest [Hto Hr']]].
      exists r'. rewrite Hrest, Hbits. rewrite Hbits in Hto.
      rewrite firstn_nil, skipn_nil in *. cbn [app length Nat.sub repeat].
      rewrite Nat.sub_0_r, <- app_assoc. auto.
    + destruct Hread as [r1 [Hread [Hto1 Hr1]]]. rewrite Hread.
      destruct (IH r1 (dataBits ++ [b]) Hr1) as [r' [Hrest [Hto Hr']]].
      exists r'. rewrite Hrest, Hto1. rewrite Hto1 in Hto.
      cbn [firstn skipn length Nat.sub app]. rewrite <- app_assoc. auto.
Qed.

Lemma read_block_spec :
  forall count r block,
    reading r ->
    exists r',
      read_block count r block = (block ++ firstn count (to_read r), r')
      /\ to_read r' = skipn count (to_read r) /\ reading r'.
Proof.
  induction count as [|count IH]; intros r block Hr.
  - exists r. cbn. rewrite app_nil_r. auto.
  - cbn [read_block]. pose proof (Read_spec r 1 Hr) as Hread.
    destruct (to_read r) as [|b rest] eqn:Hbits.
    + rewrite Hread. exists r. rewrite Hbits. cbn. rewrite app_nil_r. auto.
    + destruct Hread as [r1 [Hread [Hto1 Hr1]]]. rewrite Hread.
      destruct (IH r1 (block ++ [b]) Hr1) as [r' [Hrest [Hto Hr']]].
      exists r'. rewrite Hrest, Hto1. rewrite Hto1 in Hto.
      cbn [firstn skipn]. rewrite <- app_assoc. auto.
Qed.

(** The writer of hamming.go as the writer of lfsr.go. *)
Local Abbreviation as_BitWriter w :=
  (BitWriter.mk (bitWriter.data w) (bitWriter.byte w) (bitWriter.bit w)).

Lemma Write_bit (w : bitWriter.t) (b : Z) :
  is_bit b -> 0 <= bitWriter.bit w <= 7 ->
  as_BitWriter (bitWriter.Write w b 1) = BitWriter.Write (as_BitWriter w) [b]
  /\ 0 <= bitWriter.bit (bitWriter.Write w b 1) <= 7.
Proof.
  destruct w as [data byte bit]. cbn [bitWriter.data bitWriter.byte bitWriter.bit].
  intros Hb Hbit. unfold bitWriter.Write. change (Z.to_nat 1) with 1%nat.
  cbn [bitWriter.Write_from BitWriter.Write].
  cbn [bitWriter.data bitWriter.byte bitWriter.bit
       BitWriter.writer BitWriter.buffer BitWriter.offset].
  change (1 - 1 - 0) with 0. rewrite Z.shiftr_0_r.
  assert (Hbyte : Z.lor byte (Z.shiftl (Z.land b 1) (7 - bit) mod 256)
                  = if b =? 1 then Z.lor byte (Z.shiftl 1 (7 - bit)) else byte).
  { destruct Hb as [-> | ->].
    - cbn [Z.land Z.eqb]. rewrite Z.shiftl_0_l. cbn. apply Z.lor_0_r.
    - change (Z.land 1 1) with 1. cbn [Z.eqb Pos.eqb]. f_equal.
      assert (Hc : bit = 0 \/ bit = 1 \/ bit = 2 \/ bit = 3 \/ bit = 4
                   \/ bit = 5 \/ bit = 6 \/ bit = 7) by lia.
      destruct Hc as [->|[->|[->|[->|[->|[->|[->| ->]]]]]]]; reflexivity. }
  rewrite Hbyte. unfold BitWriter.flushByte.
  cbn [BitWriter.writer BitWriter.buffer BitWriter.offset].
  destruct (Z.eqb_spec (bit + 1) 8) as [H8|H8];
    cbn [bitWriter.data bitWriter.byte bitWriter.bit].
  - destruct (Z.eqb_spec (bit + 1) 0); [lia|]. split; [reflexivity | lia].
  - split; [reflexivity | lia].
Qed.

Lemma write_bits_spec :
  forall bits w,
    Forall is_bit bits -> 0 <= bitWriter.bit w <= 7 ->
    as_BitWriter (write_bits w bits) = BitWriter.Write (as_BitWriter w) bits
    /\ 0 <= bitWriter.bit (write_bits w bits) <= 7.
Proof.
  induction bits as [|b bits IH]; intros w Hbits Hw; [split; [reflexivity | exact Hw]|].
  apply Forall_cons_iff in Hbits. destruct Hbits as [Hb Hbits].
  destruct (Write_bit w b Hb Hw) as [Hone Hw1].
  change (write_bits w (b :: bits)) with (write_bits (bitWriter.Write w b 1) bits).
  destruct (IH _ Hbits Hw1) as [Hall Hw'].
  split; [|exact Hw']. rewrite Hall, Hone.
  symmetry. apply (Write_app [b] bits).
Qed.

Lemma Bytes_Close (w : bitWriter.t) :
  0 <= bitWriter.bit w ->
  bitWriter.Bytes w = BitWriter.Close (as_BitWriter w).
Proof.
  destruct w as [data byte bit]. cbn [bitWriter.bit]. intros Hbit.
  unfold bitWriter.Bytes, BitWriter.Close, BitWriter.flushByte.
  cbn [bitWriter.data bitWriter.byte bitWriter.bit
       BitWriter.writer BitWriter.buffer BitWriter.offset].
  destruct (Z.ltb_spec 0 bit), (Z.eqb_spec bit 0); (reflexivity || lia).
Qed.

(** The bytes of a writer that was given [bits], one at a time. *)
Lemma written_file (bits : list Z) :
  Forall is_bit bits ->
  bitWriter.Bytes (write_bits bitWriter.newBitWriter bits) = bitsToBytes bits.
Proof.
  intros Hbits.
  destruct (write_bits_spec bits bitWriter.newBitWriter Hbits) as [Has Hw];
    [cbn; lia|].
  rewrite Bytes_Close by lia. rewrite Has, bitsToBytes_chunks.
  apply (Write_chunks bits []).
Qed.

(** ** Blocks of bits *)

Lemma set_at_bits (k : nat) (v : Z) (block : list Z) :
  is_bit v -> Forall is_bit block -> Forall is_bit (set_at k v block).
Proof.
  intros Hv Hb. revert k.
  induction Hb as [|x block Hx Hb IH]; intros [|k]; cbn [set_at]; auto.
Qed.

Lemma place_bits (positions : list nat) :
  forall dataBits block block',
    Forall is_bit dataBits -> Forall is_bit block ->
    place positions dataBits block = Some block' -> Forall is_bit block'.
Proof.
  induction positions as [|i rest IH]; intros dataBits block block' Hd Hb;
    cbn [place].
  - now intros [= <-].
  - destruct (parity_position i); [now apply IH|].
    destruct dataBits as [|bit dataBits']; [discriminate|].
    apply Forall_cons_iff in Hd. destruct Hd as [Hbit Hd].
    apply IH; [exact Hd | now apply set_at_bits].
Qed.

Lemma xor_over_bit (c : nat -> bool) (block : list Z) (positions : list nat) :
  Forall is_bit block ->
  forall parity, is_bit parity -> is_bit (xor_over c block positions parity).
Proof.
  intros Hb. unfold xor_over.
  induction positions as [|j rest IH]; intros parity Hp; [exact Hp|].
  cbn [fold_left]. apply IH. destruct (c j); [|exact Hp].
  apply lxor_bit; [exact Hp | now apply nth_bit].
Qed.

Lemma set_parities_bits (indices : list nat) (n : nat) :
  forall block, Forall is_bit block -> Forall is_bit (set_parities indices n block).
Proof.
  induction indices as [|i rest IH]; intros block Hb; [exact Hb|].
  cbn [set_parities]. apply IH, set_at_bits; [|exact Hb].
  rewrite parity_without_xor_over. apply xor_over_bit; [exact Hb | now left].
Qed.

Lemma encodeBlock_bits (dataBits : list Z) (m : nat) (block : list Z) :
  Forall is_bit dataBits -> encodeBlock dataBits m = Some block ->
  Forall is_bit block.
Proof.
  intros Hd. unfold encodeBlock.
  destruct (place _ dataBits _) as [block0|] eqn:Hplace; [|discriminate].
  intros [= <-]. apply set_parities_bits.
  eapply place_bits; [exact Hd | apply zeros_bits | exact Hplace].
Qed.

Lemma overall_parity_bit (block : list Z) :
  Forall is_bit block -> is_bit (overall_parity block).
Proof.
  intros Hb. unfold overall_parity.
  assert (H : forall acc, is_bit acc -> is_bit (fold_left Z.lxor block acc)).
  { induction Hb as [|x block Hx Hb IH]; intros acc Hacc; [exact Hacc|].
    cbn [fold_left]. apply IH. now apply lxor_bit. }
  apply H. now left.
Qed.

(** The block [encode] writes for [k] data bits: its length, and its bits
    are bits. *)
Lemma encoded_spec (m : nat) (extended : bool) (dataBits : list Z) :
  length dataBits = (2 ^ m - 1 - m)%nat -> Forall is_bit dataBits ->
  exists hammingBlock,
    encodeBlock dataBits m = Some hammingBlock
    /\ encoded m extended dataBits = sent_block extended hammingBlock
    /\ length (encoded m extended dataBits)
       = (if extended then S (2 ^ m - 1) else 2 ^ m - 1)%nat
    /\ Forall is_bit (encoded m extended dataBits).
Proof.
  intros Hlen Hbits.
  destruct (encodeBlock_spec dataBits m Hlen) as [block [He [Hl _]]].
  pose proof (encodeBlock_bits dataBits m block Hbits He) as Hb.
  exists block. unfold encoded. rewrite He. split; [reflexivity|].
  split; [reflexivity|]. unfold sent_block. destruct extended.
  - split; [cbn [length]; now rewrite Hl|].
    constructor; [now apply overall_parity_bit | exact Hb].
  - split; [exact Hl | exact Hb].
Qed.

Lemma filled_length (k : nat) (chunk : list Z) :
  (length chunk <= k)%nat -> length (filled k chunk) = k.
Proof. intros H. unfold filled. rewrite length_app, repeat_length. lia. Qed.

Lemma filled_bits (k : nat) (chunk : list Z) :
  Forall is_bit chunk -> Forall is_bit (filled k chunk).
Proof.
  intros H. unfold filled. apply Forall_app. split; [exact H | apply zeros_bits].
Qed.

Lemma write_bits_app (w : bitWriter.t) (a b : list Z) :
  write_bits w (a ++ b) = write_bits (write_bits w a) b.
Proof. apply fold_left_app. Qed.

(** ** The loop of [encode] *)

Lemma filled_first (k : nat) (b : Z) (rest : list Z) :
  [b] ++ firstn k rest ++ repeat 0 (k - length rest)
  = filled (S k) (firstn (S k) (b :: rest)).
Proof.
  unfold filled. cbn [firstn app length]. do 2 f_equal.
  rewrite length_firstn. f_equal. lia.
Qed.

Lemma encode_loop_spec (m k : nat) (extended : bool) :
  (1 <= k)%nat -> k = (2 ^ m - 1 - m)%nat ->
  forall bits,
    Forall is_bit bits ->
    forall fuel r w,
      to_read r = bits -> reading r -> (length bits < fuel)%nat ->
      encode_loop fuel m k extended r w
      = Done (write_bits w
                (flat_map (fun chunk => encoded m extended (filled k chunk))
                          (chunks k bits))).
Proof.
  intros Hk Hkm. destruct k as [|k1]; [lia|].
  apply (chunks_ind (S k1)
           (fun bits => Forall is_bit bits -> forall fuel r w, _ -> _ -> _ -> _ = _) Hk).
  - intros _ fuel r w Hbits Hr Hfuel.
    destruct fuel as [|fuel]; [cbn in Hfuel; lia|].
    cbn [encode_loop]. pose proof (Read_spec r 1 Hr) as Hread.
    rewrite Hbits in Hread. rewrite Hread. reflexivity.
  - intros bits Hne IH Hall fuel r w Hbits Hr Hfuel.
    destruct fuel as [|fuel]; [lia|].
    cbn [encode_loop]. pose proof (Read_spec r 1 Hr) as Hread.
    rewrite Hbits in Hread.
    destruct bits as [|b rest]; [contradiction|].
    destruct Hread as [r1 [Hread [Hto1 Hr1]]]. rewrite Hread.
    cbn [Nat.eqb]. replace (S k1 - 1)%nat with k1 by lia.
    destruct (read_rest_spec k1 r1 [b] Hr1) as [r2 [Hrest [Hto2 Hr2]]].
    rewrite Hrest, Hto1, filled_first.
    assert (Hchunk : Forall is_bit (filled (S k1) (firstn (S k1) (b :: rest))))
      by now apply filled_bits, Forall_firstn.
    destruct (encoded_spec m extended (filled (S k1) (firstn (S k1) (b :: rest))))
      as [block [He [Henc _]]];
      [rewrite filled_length by (rewrite length_firstn; lia); exact Hkm
      | exact Hchunk |].
    rewrite He.
    rewrite (chunks_cons (S k1) (b :: rest)) by (assumption || discriminate).
    cbn [flat_map]. rewrite write_bits_app, Henc.
    assert (Hw : write_bits
                   (if extended then bitWriter.Write w (overall_parity block) 1 else w)
                   block
                 = write_bits w (sent_block extended block))
      by (unfold sent_block; now destruct extended).
    rewrite Hw.
    apply IH.
    + now apply Forall_skipn.
    + rewrite Hto2, Hto1. reflexivity.
    + exact Hr2.
    + rewrite length_skipn. cbn [length] in *. lia.
Qed.

Lemma pow2_data_bits (m : nat) : (2 <= m)%nat -> (1 <= 2 ^ m - 1 - m)%nat.
Proof.
  intros Hm. assert (H : (m + 2 <= 2 ^ m)%nat); [|lia].
  induction Hm as [|m Hm IH]; [cbn; lia|].
  rewrite Nat.pow_succ_r'. lia.
Qed.

Lemma chunks_pieces (k : nat) :
  (1 <= k)%nat ->
  forall l, Forall is_bit l ->
    Forall (fun c => (length c <= k)%nat /\ Forall is_bit c) (chunks k l).
Proof.
  intros Hk.
  apply (chunks_ind k (fun l => Forall is_bit l -> Forall _ (chunks k l)) Hk);
    [constructor|].
  intros l Hne IH Hl. rewrite chunks_cons by assumption.
  constructor; [|now apply IH, Forall_skipn].
  split; [rewrite length_firstn; lia | now apply Forall_firstn].
Qed.

Lemma size_bits_bits (size : Z) : Forall is_bit (size_bits size).
Proof.
  unfold size_bits. apply Forall_map, Forall_forall. intros i _.
  rewrite land_1. unfold is_bit. destruct (_ =? 1); auto.
Qed.

Lemma write_size_bits (size : Z) (w : bitWriter.t) :
  write_size size w = write_bits w (size_bits size).
Proof.
  unfold write_size, write_bits, size_bits. generalize (seq 0 64). intros l.
  revert w. induction l as [|i l IH]; intros w; [reflexivity|].
  cbn [fold_left map]. apply IH.
Qed.

(** The bits [encode] packs: the size, then the blocks. *)
Lemma payload_bits (m k : nat) (extended : bool) (bits : list Z) :
  (1 <= k)%nat -> k = (2 ^ m - 1 - m)%nat -> Forall is_bit bits ->
  Forall is_bit
    (flat_map (fun chunk => encoded m extended (filled k chunk)) (chunks k bits)).
Proof.
  intros Hk Hkm Hbits. apply Forall_flat_map.
  pose proof (chunks_pieces k Hk bits Hbits) as Hpieces.
  eapply Forall_impl; [|exact Hpieces].
  intros c [Hlen Hc].
  destruct (encoded_spec m extended (filled k c)) as [_ [_ [_ [_ H]]]];
    [rewrite filled_length by exact Hlen; exact Hkm | now apply filled_bits | exact H].
Qed.

Lemma encode_run (data : list Z) (m : nat) (extended : bool) :
  (2 <= m)%nat ->
  encode data m extended
  = Done (bitsToBytes
            (size_bits (Z.of_nat (length data))
             ++ flat_map (fun chunk => encoded m extended (filled (2 ^ m - 1 - m) chunk))
                         (chunks (2 ^ m - 1 - m) (bytesToBits data)))).
Proof.
  intros Hm. pose proof (pow2_data_bits m Hm) as Hk.
  unfold encode. rewrite Nat.shiftl_1_l, write_size_bits.
  rewrite (encode_loop_spec m (2 ^ m - 1 - m) extended Hk eq_refl (bytesToBits data));
    [| apply bytesToBits_bits | reflexivity | unfold reading; cbn; lia
     | rewrite bytesToBits_length; lia].
  rewrite <- write_bits_app. rewrite written_file; [reflexivity|].
  apply Forall_app. split; [apply size_bits_bits|].
  apply payload_bits; [exact Hk | reflexivity | apply bytesToBits_bits].
Qed.

(** ** The size at the head of the file *)

Lemma size_step (size : Z) (c : nat) :
  0 <= size < 2 ^ 64 ->
  Z.lor (Z.shiftl (Z.shiftr size (Z.of_nat (S c))) 1 mod 2 ^ 64)
        (Z.land (Z.shiftr size (Z.of_nat c)) 1)
  = Z.shiftr size (Z.of_nat c).
Proof.
  intros Hsize.
  assert (Hsmall : Z.shiftl (Z.shiftr size (Z.of_nat (S c))) 1 mod 2 ^ 64
                   = Z.shiftl (Z.shiftr size (Z.of_nat (S c))) 1).
  { apply Z.mod_small. rewrite Z.shiftl_mul_pow2, Z.shiftr_div_pow2 by lia.
    assert (H2 : 0 < 2 ^ Z.of_nat (S c)) by (apply Z.pow_pos_nonneg; lia).
    assert (Hq : 0 <= size / 2 ^ Z.of_nat (S c))
      by (apply Z.div_pos; lia).
    assert (Hle : size / 2 ^ Z.of_nat (S c) <= size / 2).
    { rewrite Nat2Z.inj_succ, Z.pow_succ_r by lia.
      rewrite <- Z.div_div by lia.
      apply Z.div_le_upper_bound; [apply Z.pow_pos_nonneg; lia|].
      assert (0 <= size / 2) by (apply Z.div_pos; lia).
      assert (1 <= 2 ^ Z.of_nat c) by (apply Z.pow_le_mono_r with (b := 0); lia ||
                                        (change 1 with (2 ^ 0); apply Z.pow_le_mono_r; lia)).
      nia. }
    assert (size / 2 < 2 ^ 63) by (apply Z.div_lt_upper_bound; lia).
    change (2 ^ 1) with 2. lia. }
  rewrite Hsmall. apply Z.bits_inj'. intros n Hn.
  rewrite Z.lor_spec, Z.land_spec.
  destruct (Z.eq_dec n 0) as [->|Hn0].
  - rewrite Z.shiftl_spec_low by lia. cbn [orb].
    change (Z.testbit 1 0) with true. apply andb_true_r.
  - rewrite Z.shiftl_spec, !Z.shiftr_spec by lia.
    replace (Z.testbit 1 n) with false.
    + rewrite andb_false_r, orb_false_r. f_equal. lia.
    + symmetry. change 1 with (2 ^ 0). rewrite Z.pow2_bits_eqb by lia.
      apply Z.eqb_neq. lia.
Qed.

Lemma read_size_spec (size : Z) :
  0 <= size < 2 ^ 64 ->
  forall count r rest,
    (count <= 64)%nat -> reading r ->
    to_read r
    = map (fun i => Z.land (Z.shiftr size (63 - Z.of_nat i)) 1) (seq (64 - count) count)
      ++ rest ->
    exists r',
      read_size count r (Z.shiftr size (Z.of_nat count)) = Some (size, r')
      /\ to_read r' = rest /\ reading r'.
Proof.
  intros Hsize. induction count as [|count IH]; intros r rest Hc Hr Hbits.
  - exists r. cbn in *. rewrite ?Z.shiftr_0_r. auto.
  - cbn [read_size]. pose proof (Read_spec r 1 Hr) as Hread.
    replace (64 - S count)%nat with (63 - count)%nat in Hbits by lia.
    cbn [seq map app] in Hbits. rewrite Hbits in Hread.
    destruct Hread as [r1 [Hread [Hto1 Hr1]]]. rewrite Hread.
    replace (63 - Z.of_nat (63 - count)) with (Z.of_nat count) by lia.
    rewrite size_step by exact Hsize.
    apply IH; [lia | exact Hr1|].
    rewrite Hto1. do 3 f_equal. lia.
Qed.

(** ** The loop of [decode] *)

Lemma decodeBlock_returns (block : list Z) (m : nat) (extended verbose : bool)
    (blockNum : nat) :
  block <> [] ->
  exists dataBits messages,
    decodeBlock block m extended verbose blockNum = Some (dataBits, messages).
Proof.
  intros Hne. unfold decodeBlock. destruct extended.
  - destruct block as [|parity hammingBlock]; [contradiction|].
    destruct (if negb (overall_parity hammingBlock =? parity) then _ else _)
      as [hammingBlock' log]. eauto.
  - destruct (if negb (calculateSyndrome block m =? 0)%nat then _ else _)
      as [hammingBlock' log]. eauto.
Qed.

Lemma decode_loop_spec (m n : nat) (extended verbose : bool) :
  (1 <= n)%nat ->
  forall blocks fuel r w blockNum log tail,
    reading r -> to_read r = concat blocks ++ tail ->
    Forall (fun block => length block = n) blocks ->
    (length tail < n)%nat -> (length blocks < fuel)%nat ->
    decode_loop fuel m n extended verbose r w blockNum log
    = Done (write_bits w (fst (decode_blocks m extended verbose blockNum blocks)),
            log ++ snd (decode_blocks m extended verbose blockNum blocks)).
Proof.
  intros Hn.
  induction blocks as [|block blocks IH];
    intros fuel r w blockNum log tail Hr Hbits Hall Htail Hfuel;
    (destruct fuel as [|fuel]; [cbn in Hfuel; lia|]);
    cbn [decode_loop];
    destruct (read_block_spec n r [] Hr) as [r' [Hread [Hto Hr']]];
    rewrite Hread, Hbits in *; cbn [app concat] in *.
  - rewrite firstn_all2 by lia.
    destruct (Nat.ltb_spec (length tail) n); [|lia].
    cbn. now rewrite app_nil_r.
  - apply Forall_cons_iff in Hall. destruct Hall as [Hlen Hall].
    rewrite <- app_assoc in *.
    rewrite firstn_app, Hlen, Nat.sub_diag, firstn_O, app_nil_r in *.
    rewrite <- Hlen, firstn_all, Hlen.
    rewrite skipn_app, Hlen, Nat.sub_diag in Hto. cbn [skipn] in Hto.
    rewrite <- Hlen, skipn_all in Hto. cbn [app] in Hto.
    destruct (Nat.ltb_spec n n); [lia|].
    destruct (decodeBlock_returns block m extended verbose blockNum)
      as [dataBits [messages Hdec]];
      [intros ->; cbn in Hlen; lia|].
    cbn [decode_blocks]. rewrite Hdec.
    rewrite (IH fuel r' (write_bits w dataBits) (S blockNum) (log ++ messages) tail)
      by (try assumption; cbn [length] in Hfuel; lia).
    destruct (decode_blocks m extended verbose (S blockNum) blocks) as [bits log'].
    cbn [fst snd]. now rewrite write_bits_app, app_assoc.
Qed.

(** ** Clean blocks and blocks of zeros *)

Lemma clean_block_decodes (m : nat) (extended verbose : bool) (blockNum : nat)
    (dataBits : list Z) :
  length dataBits = (2 ^ m - 1 - m)%nat ->
  decodeBlock (encoded m extended dataBits) m extended verbose blockNum
  = Some (dataBits, []).
Proof.
  intros Hlen.
  destruct (encodeBlock_spec dataBits m Hlen) as [block [He [Hl [Hz Hd]]]].
  destruct (syndrome_of_flips block m [] Hl Hz) as [_ Hs]; [intros p []|].
  cbn [fold_right] in Hs. rewrite Nat.Div0.mod_0_l in Hs.
  unfold encoded. rewrite He. unfold sent_block. destruct extended.
  - unfold decodeBlock. rewrite Hs, Z.eqb_refl. cbn -[data_bits]. now rewrite Hd.
  - now rewrite decode_plain, Hd.
Qed.

Lemma decode_blocks_clean (m : nat) (extended verbose : bool) :
  forall ds blockNum,
    Forall (fun d => length d = (2 ^ m - 1 - m)%nat) ds ->
    decode_blocks m extended verbose blockNum (map (encoded m extended) ds)
    = (concat ds, []).
Proof.
  induction ds as [|d ds IH]; intros blockNum Hall; [reflexivity|].
  apply Forall_cons_iff in Hall. destruct Hall as [Hd Hall].
  cbn [map decode_blocks concat].
  rewrite clean_block_decodes by exact Hd.
  now rewrite IH by exact Hall.
Qed.

Lemma set_at_zeros (n : nat) : forall k, set_at k 0 (repeat 0 n) = repeat 0 n.
Proof.
  induction n as [|n IH]; intros [|k]; cbn [repeat set_at]; try reflexivity.
  now rewrite IH.
Qed.

Lemma place_zeros (n : nat) (positions : list nat) :
  forall j,
    (length (filter (fun i => negb (parity_position i)) positions) <= j)%nat ->
    place positions (repeat 0 j) (repeat 0 n) = Some (repeat 0 n).
Proof.
  induction positions as [|i rest IH]; intros j Hj; [reflexivity|].
  cbn [place filter] in *. destruct (parity_position i); cbn [negb] in Hj.
  - now apply IH.
  - cbn [length] in Hj. destruct j as [|j]; [lia|].
    cbn [repeat]. rewrite set_at_zeros. apply IH. lia.
Qed.

Lemma xor_over_zeros (c : nat -> bool) (n : nat) (positions : list nat) :
  forall parity, xor_over c (repeat 0 n) positions parity = parity.
Proof.
  unfold xor_over. induction positions as [|j rest IH]; intros parity; [reflexivity|].
  cbn [fold_left]. rewrite IH. destruct (c j); [|reflexivity].
  rewrite nth_repeat. apply Z.lxor_0_r.
Qed.

Lemma set_parities_zeros (indices : list nat) (n n' : nat) :
  set_parities indices n (repeat 0 n') = repeat 0 n'.
Proof.
  induction indices as [|i rest IH]; [reflexivity|].
  cbn [set_parities]. rewrite parity_without_xor_over, xor_over_zeros.
  now rewrite set_at_zeros.
Qed.

Lemma overall_parity_zeros (n : nat) : overall_parity (repeat 0 n) = 0.
Proof.
  unfold overall_parity. induction n as [|n IH]; [reflexivity | exact IH].
Qed.

(** A block of zero data bits is encoded as a block of zeros. *)
Lemma encoded_zeros (m : nat) (extended : bool) :
  encoded m extended (repeat 0 (2 ^ m - 1 - m))
  = repeat 0 (if extended then S (2 ^ m - 1) else 2 ^ m - 1).
Proof.
  unfold encoded, encodeBlock. rewrite Nat.shiftl_1_l.
  rewrite place_zeros.
  - rewrite set_parities_zeros. unfold sent_block.
    destruct extended; [|reflexivity].
    now rewrite overall_parity_zeros.
  - rewrite <- data_positions_count.
    rewrite (filter_ext_in (fun i => negb (parity_position i)) data_position);
      [reflexivity|].
    intros i Hi. apply in_seq in Hi. unfold parity_position, data_position.
    destruct (Nat.ltb_spec 0 i); [reflexivity | lia].
Qed.

Lemma zero_blocks (n z : nat) : concat (repeat (repeat 0 n) z) = repeat 0 (z * n).
Proof.
  induction z as [|z IH]; [reflexivity|].
  cbn [repeat concat Nat.mul]. now rewrite IH, repeat_app.
Qed.

(** Filling the last piece adds zero bits at the end. *)
Lemma concat_filled (k : nat) :
  (1 <= k)%nat ->
  forall l, exists q, concat (map (filled k) (chunks k l)) = l ++ repeat 0 q.
Proof.
  intros Hk.
  apply (chunks_ind k (fun l => exists q, _ = l ++ repeat 0 q) Hk).
  - exists O. reflexivity.
  - intros l Hne [q IH]. rewrite chunks_cons by assumption. cbn [map concat].
    destruct (Nat.le_gt_cases k (length l)) as [Hge|Hlt].
    + exists q. rewrite IH. unfold filled.
      rewrite length_firstn, Nat.min_l, Nat.sub_diag by exact Hge.
      cbn [repeat]. rewrite app_nil_r, app_assoc, firstn_skipn. reflexivity.
    + exists (k - length l)%nat.
      rewrite skipn_all2 by lia. cbn [chunks map concat].
      rewrite firstn_all2 by lia. unfold filled. cbn. now rewrite app_nil_r.
Qed.

(** The bytes packed from the bits of [data] followed by anything start
    with [data]. *)
Lemma pack_prefix (zs : list Z) :
  forall data,
    Forall is_byte data ->
    firstn (length data) (bitsToBytes (bytesToBits data ++ zs)) = data
    /\ (length data <= length (bitsToBytes (bytesToBits data ++ zs)))%nat.
Proof.
  induction data as [|b data IH]; intros Hbytes; [split; [reflexivity | cbn; lia]|].
  apply Forall_cons_iff in Hbytes. destruct Hbytes as [Hb Hbytes].
  destruct (IH Hbytes) as [IH1 IH2].
  rewrite bitsToBytes_chunks in *.
  rewrite bytesToBits_cons, <- app_assoc.
  rewrite chunks_app by (lia || now rewrite length_map, length_seq).
  cbn [map firstn length].
  assert (Hpack : pack_bits (map (bit_of_byte b) (seq 0 8)) = b).
  { pose proof (bytes_roundtrip [b] ltac:(now constructor)) as H.
    rewrite bitsToBytes_chunks in H.
    change (bytesToBits [b]) with (map (bit_of_byte b) (seq 0 8) ++ []) in H.
    rewrite chunks_app in H by (lia || now rewrite length_map, length_seq).
    cbn [map] in H. now injection H. }
  rewrite Hpack, IH1. split; [reflexivity | lia].
Qed.

(** ** A file through [encode] and [decode] *)

Lemma concat_length (n : nat) (blocks : list (list Z)) :
  Forall (fun block => length block = n) blocks ->
  length (concat blocks) = (length blocks * n)%nat.
Proof.
  induction 1 as [|block blocks Hb _ IH]; [reflexivity|].
  cbn [concat length]. rewrite length_app, Hb, IH. lia.
Qed.

(** What [decode] returns on a file made of a size, whole blocks and the
    start of a block. *)
Lemma decode_received (m : nat) (extended verbose : bool) (size : Z)
    (received : list (list Z)) (tail file : list Z) :
  let n := (if extended then S (2 ^ m - 1) else 2 ^ m - 1)%nat in
  (1 <= n)%nat -> 0 <= size < 2 ^ 64 ->
  bytesToBits file = size_bits size ++ concat received ++ tail ->
  Forall (fun block => length block = n) received -> (length tail < n)%nat ->
  Forall is_bit (fst (decode_blocks m extended verbose 0 received)) ->
  decode file m extended verbose
  = Done (let decodedData :=
            bitsToBytes (fst (decode_blocks m extended verbose 0 received)) in
          if size <? Z.of_nat (length decodedData)
          then firstn (Z.to_nat size) decodedData else decodedData,
          snd (decode_blocks m extended verbose 0 received)).
Proof.
  intros n Hn Hsize Hfile Hall Htail Hbits.
  unfold decode, decode_within. rewrite Nat.shiftl_1_l. fold n.
  destruct (read_size_spec size Hsize 64 (bitReader.newBitReader file)
              (concat received ++ tail)) as [r [Hread [Hto Hr]]];
    [lia | unfold reading; cbn; lia | exact Hfile |].
  replace (Z.shiftr size (Z.of_nat 64)) with 0 in Hread.
  2:{ rewrite Z.shiftr_div_pow2 by lia. symmetry. apply Z.div_small.
      change (2 ^ Z.of_nat 64) with (2 ^ 64). lia. }
  rewrite Hread.
  rewrite (decode_loop_spec m n extended verbose Hn received _ r
             bitWriter.newBitWriter O [] tail Hr Hto Hall Htail).
  - cbn [app fst snd]. now rewrite written_file by exact Hbits.
  - pose proof (bytesToBits_length file) as Hlen.
    rewrite Hfile, !length_app, (concat_length n _ Hall) in Hlen.
    nia.
Qed.

(** The bits of an encoded file: the size, the blocks, then the zero bits
    that fill the last byte, which may hold whole blocks of zeros. *)
Lemma file_layout (m : nat) (extended : bool) (size : Z) (ds : list (list Z)) :
  let k := (2 ^ m - 1 - m)%nat in
  let n := (if extended then S (2 ^ m - 1) else 2 ^ m - 1)%nat in
  (2 <= m)%nat ->
  Forall (fun d => length d = k /\ Forall is_bit d) ds ->
  exists z t,
    bytesToBits (bitsToBytes (size_bits size ++ concat (map (encoded m extended) ds)))
    = size_bits size
      ++ concat (map (encoded m extended) (ds ++ repeat (repeat 0 k) z))
      ++ repeat 0 t
    /\ (t < n)%nat
    /\ Forall (fun d => length d = k /\ Forall is_bit d) (ds ++ repeat (repeat 0 k) z)
    /\ Forall (fun block => length block = n)
              (map (encoded m extended) (ds ++ repeat (repeat 0 k) z)).
Proof.
  intros k n Hm Hds.
  pose proof (pow2_data_bits m Hm) as Hk. fold k in Hk.
  assert (Hn : (1 <= n)%nat) by (unfold n; destruct extended; lia).
  set (payload := concat (map (encoded m extended) ds)).
  set (stream := size_bits size ++ payload).
  assert (Hblocks : forall all,
            Forall (fun d => length d = k /\ Forall is_bit d) all ->
            Forall (fun block => length block = n /\ Forall is_bit block)
                   (map (encoded m extended) all)).
  { intros all Hall. apply Forall_map. eapply Forall_impl; [|exact Hall].
    intros d [Hd Hb].
    destruct (encoded_spec m extended d Hd Hb) as [_ [_ [_ [Hl Hbits]]]].
    now split. }
  assert (Hstream : Forall is_bit stream).
  { apply Forall_app. split; [apply size_bits_bits|].
    unfold payload. apply Forall_concat.
    eapply Forall_impl; [|exact (Hblocks ds Hds)]. now intros b [_ H]. }
  set (p := ((8 - length stream mod 8) mod 8)%nat).
  exists (p / n)%nat, (p mod n)%nat.
  assert (Hzero : encoded m extended (repeat 0 k) = repeat 0 n)
    by apply encoded_zeros.
  assert (Hall : Forall (fun d => length d = k /\ Forall is_bit d)
                        (ds ++ repeat (repeat 0 k) (p / n))).
  { apply Forall_app. split; [exact Hds|].
    apply Forall_forall. intros d Hd. apply repeat_spec in Hd. subst d.
    split; [apply repeat_length | apply zeros_bits]. }
  split; [|split; [apply Nat.mod_upper_bound; lia | split; [exact Hall|]]].
  - rewrite bitsToBytes_chunks.
    destruct (bytesToBits_packed stream) as [-> _].
    rewrite map_as_bit_bits by exact Hstream.
    unfold stream, padding. fold p. rewrite <- app_assoc. f_equal.
    rewrite map_app, concat_app, map_repeat, Hzero, zero_blocks.
    fold payload. rewrite <- app_assoc. f_equal.
    rewrite <- repeat_app. f_equal.
    pose proof (Nat.div_mod_eq p n). fold stream. fold p. lia.
  - eapply Forall_impl; [|exact (Hblocks _ Hall)]. now intros b [H _].
Qed.

Lemma decode_run (m : nat) (extended verbose : bool) (size : Z)
    (ds : list (list Z)) (file : list Z) :
  (2 <= m)%nat -> 0 <= size < 2 ^ 64 ->
  Forall (fun d => length d = (2 ^ m - 1 - m)%nat /\ Forall is_bit d) ds ->
  file = bitsToBytes (size_bits size ++ concat (map (encoded m extended) ds)) ->
  exists zeros,
    decode file m extended verbose
    = Done (let decodedData := bitsToBytes (concat ds ++ repeat 0 zeros) in
            if size <? Z.of_nat (length decodedData)
            then firstn (Z.to_nat size) decodedData else decodedData,
            []).
Proof.
  intros Hm Hsize Hds ->.
  destruct (file_layout m extended size ds Hm Hds)
    as [z [t [Hfile [Ht [Hall Hblocks]]]]].
  set (k := (2 ^ m - 1 - m)%nat) in *.
  assert (Hclean : decode_blocks m extended verbose 0
                     (map (encoded m extended) (ds ++ repeat (repeat 0 k) z))
                   = (concat ds ++ repeat 0 (z * k), [])).
  { rewrite decode_blocks_clean
      by (eapply Forall_impl; [|exact Hall]; now intros d [H _]).
    now rewrite concat_app, zero_blocks. }
  exists (z * k)%nat.
  pose proof (pow2_data_bits m Hm) as Hk.
  rewrite (decode_received m extended verbose size _ _ _
             ltac:(destruct extended; lia) Hsize Hfile Hblocks).
  - now rewrite Hclean.
  - now rewrite repeat_length.
  - rewrite Hclean. cbn [fst]. apply Forall_app. split; [|apply zeros_bits].
    apply Forall_concat. eapply Forall_impl; [|exact Hds]. now intros d [_ H].
Qed.

(** X26. A file through [encode] and [decode], for [m] from 2 to 62 (small
    enough for [1 << m] not to overflow) and data of fewer than [2^63] bytes
    (a length that is an [int]): [encode] returns a file, and [decode] of
    that file with the same [m] and the same [extended] flag returns the
    original bytes and logs nothing, whether verbose or not;
    the zero bits that fill the last block and the last byte are cut off by
    the size written at the head of the file. *)
Theorem hamming_file_round_trip (data : list Z) (m : nat) (extended verbose : bool) :
  (2 <= m <= 62)%nat -> Forall is_byte data ->
  Z.of_nat (length data) < 2 ^ 63 ->
  exists file,
    encode data m extended = Done file
    /\ decode file m extended verbose = Done (data, []).
Proof.
  intros [Hm _] Hbytes Hsize.
  pose proof (pow2_data_bits m Hm) as Hk.
  set (k := (2 ^ m - 1 - m)%nat) in *.
  set (ds := map (filled k) (chunks k (bytesToBits data))).
  assert (Hds : Forall (fun d => length d = k /\ Forall is_bit d) ds).
  { unfold ds. apply Forall_map.
    eapply Forall_impl; [|exact (chunks_pieces k Hk _ (bytesToBits_bits data))].
    intros c [Hlen Hc]. split; [now apply filled_length | now apply filled_bits]. }
  assert (Hpayload :
    flat_map (fun chunk => encoded m extended (filled k chunk))
             (chunks k (bytesToBits data))
    = concat (map (encoded m extended) ds)).
  { unfold ds. now rewrite flat_map_concat_map, map_map. }
  eexists. split; [rewrite (encode_run data m extended Hm); reflexivity|].
  fold k. rewrite Hpayload.
  destruct (decode_run m extended verbose (Z.of_nat (length data)) ds _
              Hm ltac:(lia) Hds eq_refl) as [zeros Hdec].
  rewrite Hdec. cbn zeta. do 2 f_equal.
  destruct (concat_filled k Hk (bytesToBits data)) as [q Hq].
  fold ds in Hq. rewrite Hq, <- app_assoc.
  destruct (pack_prefix (repeat 0 q ++ repeat 0 zeros) data Hbytes) as [Hfirst Hlen].
  rewrite Nat2Z.id.
  destruct (Z.ltb_spec (Z.of_nat (length data))
              (Z.of_nat (length (bitsToBytes
                                   (bytesToBits data ++ repeat 0 q ++ repeat 0 zeros)))));
    [exact Hfirst|].
  transitivity (firstn (length data)
                  (bitsToBytes (bytesToBits data ++ repeat 0 q ++ repeat 0 zeros)));
    [|exact Hfirst].
  symmetry. apply firstn_all2. lia.
Qed.

Lemma hamming_file_round_trip_witness :
  exists file,
    encode [0xA5; 0x3C; 0x00] 3 true = Done file
    /\ decode file 3 true true = Done ([0xA5; 0x3C; 0x00], []).
Proof.
  apply (hamming_file_round_trip [0xA5; 0x3C; 0x00] 3 true true).
  - lia.
  - repeat constructor; unfold is_byte; lia.
  - reflexivity.
Defined.

(** ** One bit of the file received in error *)

Lemma flip_bit_cons (p : nat) (x : Z) (block : list Z) :
  flip_bit (S (S p)) (x :: block) = x :: flip_bit (S p) block.
Proof. unfold flip_bit. cbn. now rewrite !Nat.sub_0_r. Qed.

Lemma flip_bit_app_l (a b : list Z) :
  forall q, (q < length a)%nat -> flip_bit (S q) (a ++ b) = flip_bit (S q) a ++ b.
Proof.
  induction a as [|x a IH]; intros q Hq; [cbn in Hq; lia|].
  destruct q as [|q]; [reflexivity|].
  cbn [app]. rewrite !flip_bit_cons, IH by (cbn in Hq; lia). reflexivity.
Qed.

Lemma flip_bit_app_r (a b : list Z) :
  forall q, (length a <= q)%nat ->
    flip_bit (S q) (a ++ b) = a ++ flip_bit (S (q - length a)) b.
Proof.
  induction a as [|x a IH]; intros q Hq.
  - cbn [app length]. now rewrite Nat.sub_0_r.
  - destruct q as [|q]; [cbn in Hq; lia|].
    cbn [app length Nat.sub]. rewrite flip_bit_cons, IH by (cbn in Hq; lia).
    reflexivity.
Qed.

Lemma flip_bit_bits (p : nat) (block : list Z) :
  Forall is_bit block -> Forall is_bit (flip_bit p block).
Proof.
  intros H. apply set_at_bits; [|exact H].
  apply lxor_bit; [now apply nth_bit | now right].
Qed.

(** A bit flipped in a sequence of blocks is a bit flipped in one of them. *)
Lemma flip_bit_concat (n : nat) :
  forall blocks q,
    Forall (fun block => length block = n) blocks ->
    (q < length (concat blocks))%nat ->
    exists pre block post o,
      blocks = pre ++ block :: post /\ (o < n)%nat
      /\ flip_bit (S q) (concat blocks) = concat (pre ++ flip_bit (S o) block :: post).
Proof.
  induction blocks as [|block blocks IH]; intros q Hall Hq; [cbn in Hq; lia|].
  apply Forall_cons_iff in Hall. destruct Hall as [Hlen Hall].
  cbn [concat] in *. rewrite length_app in Hq.
  destruct (Nat.lt_ge_cases q (length block)) as [Hlt|Hge].
  - exists [], block, blocks, q. split; [reflexivity|]. split; [lia|].
    cbn [app concat]. now apply flip_bit_app_l.
  - destruct (IH (q - length block)%nat Hall ltac:(lia))
      as [pre [b [post [o [-> [Ho Hflip]]]]]].
    exists (block :: pre), b, post, o. split; [reflexivity|]. split; [exact Ho|].
    rewrite flip_bit_app_r by exact Hge. rewrite Hflip. reflexivity.
Qed.

(** The bits of the file received with one bit flipped. *)
Lemma bit_flipped_bits (q : nat) (file : list Z) :
  bytesToBits (bit_flipped q file) = flip_bit (S q) (bytesToBits file).
Proof.
  unfold bit_flipped. rewrite bitsToBytes_chunks.
  destruct (bytesToBits_packed (flip_bit (S q) (bytesToBits file))) as [-> _].
  rewrite map_as_bit_bits by apply flip_bit_bits, bytesToBits_bits.
  unfold padding. rewrite flip_bit_length, bytesToBits_length.
  replace ((8 - (8 * length file) mod 8) mod 8)%nat with 0%nat.
  - apply app_nil_r.
  - rewrite Nat.mul_comm, Nat.Div0.mod_mul. reflexivity.
Qed.

(** One bit of an encoded block flipped: [decodeBlock] returns the data
    bits that were encoded, and reports at most the correction. *)
Lemma flipped_block_decodes (m : nat) (extended verbose : bool) (blockNum : nat)
    (dataBits : list Z) (o : nat) :
  length dataBits = (2 ^ m - 1 - m)%nat ->
  (o < (if extended then S (2 ^ m - 1) else 2 ^ m - 1))%nat ->
  exists messages,
    decodeBlock (flip_bit (S o) (encoded m extended dataBits)) m extended verbose
                blockNum
    = Some (dataBits, messages)
    /\ (messages = []
        \/ verbose = true /\ exists p, messages = [Corrected blockNum p]).
Proof.
  intros Hlen Ho.
  destruct (encodeBlock_spec dataBits m Hlen) as [block [He [Hl [Hz Hd]]]].
  assert (H1 : forall p, (1 <= p <= 2 ^ m - 1)%nat ->
            calculateSyndrome (flip_bit p block) m = p).
  { intros p Hp.
    destruct (syndrome_of_flips block m [p] Hl Hz) as [_ Hs];
      [intros q [<-|[]]; exact Hp|].
    cbn [fold_right] in Hs. rewrite Hs, Nat.lxor_0_r. apply below_pow2_mod. lia. }
  assert (H0 : calculateSyndrome block m = 0%nat).
  { destruct (syndrome_of_flips block m [] Hl Hz) as [_ Hs]; [intros p []|].
    cbn [fold_right] in Hs. now rewrite Nat.Div0.mod_0_l in Hs. }
  assert (Hfix : forall p, (1 <= p <= 2 ^ m - 1)%nat ->
            correct (flip_bit p block) p verbose blockNum
            = (block, if verbose then [Corrected blockNum p] else [])).
  { intros p Hp. unfold correct. rewrite flip_bit_length, Hl.
    destruct (Nat.ltb_spec (p - 1) (2 ^ m - 1)) as [_|]; [|lia].
    change (set_at (p - 1) (Z.lxor (nth (p - 1) (flip_bit p block) 0) 1)
                   (flip_bit p block))
      with (flip_bit p (flip_bit p block)).
    now rewrite flip_bit_twice by lia. }
  assert (Hmsg : forall p : nat,
            (if verbose then [Corrected blockNum p] else []) = []
            \/ verbose = true
               /\ exists p', (if verbose then [Corrected blockNum p] else [])
                             = [Corrected blockNum p']).
  { intros p. destruct verbose; [right; split; [reflexivity | now exists p] | now left]. }
  unfold encoded. rewrite He. unfold sent_block. destruct extended.
  - destruct o as [|o].
    + exists []. split; [|now left].
      change (flip_bit 1 (overall_parity block :: block))
        with (Z.lxor (overall_parity block) 1 :: block).
      unfold decodeBlock.
      rewrite H0, Z.eqb_sym, lxor_flip_differs. cbn -[data_bits]. now rewrite Hd.
    + rewrite flip_bit_cons.
      exists (if verbose then [Corrected blockNum (S o)] else []).
      split; [|apply Hmsg].
      unfold decodeBlock. rewrite H1 by lia.
      rewrite overall_parity_flip, lxor_flip_differs by lia. cbn [negb Nat.eqb].
      rewrite Hfix by lia. now rewrite Hd.
  - exists (if verbose then [Corrected blockNum (S o)] else []).
    split; [|apply Hmsg].
    unfold decodeBlock. rewrite H1 by lia. cbn [negb Nat.eqb].
    rewrite Hfix by lia. now rewrite Hd.
Qed.

(** The blocks of a file of which one arrives with a bit flipped. *)
Lemma decode_blocks_one_flipped (m : nat) (extended verbose : bool) :
  forall pre blockNum d post received messages,
    Forall (fun d => length d = (2 ^ m - 1 - m)%nat) pre ->
    Forall (fun d => length d = (2 ^ m - 1 - m)%nat) post ->
    decodeBlock received m extended verbose (blockNum + length pre)
    = Some (d, messages) ->
    decode_blocks m extended verbose blockNum
      (map (encoded m extended) pre ++ received :: map (encoded m extended) post)
    = (concat (pre ++ d :: post), messages).
Proof.
  induction pre as [|d0 pre IH];
    intros blockNum d post received messages Hpre Hpost Hdec.
  - cbn [map app length concat decode_blocks] in *.
    rewrite Nat.add_0_r in Hdec. rewrite Hdec.
    rewrite decode_blocks_clean by exact Hpost. now rewrite app_nil_r.
  - apply Forall_cons_iff in Hpre. destruct Hpre as [Hd0 Hpre].
    cbn [map app concat decode_blocks].
    rewrite clean_block_decodes by exact Hd0.
    rewrite (IH (S blockNum) d post received messages Hpre Hpost)
      by (cbn [length] in Hdec; now rewrite Nat.add_succ_comm).
    reflexivity.
Qed.

(** The data bits of a whole file, with the blocks of zeros that fill the
    last byte, start with the bits of the data. *)
Lemma trimmed_data (data zs : list Z) :
  Forall is_byte data ->
  (let decodedData := bitsToBytes (bytesToBits data ++ zs) in
   if Z.of_nat (length data) <? Z.of_nat (length decodedData)
   then firstn (Z.to_nat (Z.of_nat (length data))) decodedData
   else decodedData)
  = data.
Proof.
  intros Hbytes. cbn zeta.
  destruct (pack_prefix zs data Hbytes) as [Hfirst Hlen].
  rewrite Nat2Z.id.
  destruct (Z.ltb_spec (Z.of_nat (length data))
              (Z.of_nat (length (bitsToBytes (bytesToBits data ++ zs)))));
    [exact Hfirst|].
  transitivity (firstn (length data) (bitsToBytes (bytesToBits data ++ zs)));
    [|exact Hfirst].
  symmetry. apply firstn_all2. lia.
Qed.

(** X27. One bit in error anywhere after the size: for [m] from 2 to 62 and
    data of fewer than [2^63] bytes, [encode] returns a file such that,
    whichever single bit of it after the first 64 is flipped, [decode]
    still returns the original bytes; it logs nothing or, when verbose, the
    one correction it made, and never an uncorrectable error. *)
Theorem hamming_file_corrects_one_bit (data : list Z) (m : nat)
    (extended verbose : bool) :
  (2 <= m <= 62)%nat -> Forall is_byte data ->
  Z.of_nat (length data) < 2 ^ 63 ->
  exists file,
    encode data m extended = Done file
    /\ forall q, (64 <= q < 8 * length file)%nat ->
         exists messages,
           decode (bit_flipped q file) m extended verbose = Done (data, messages)
           /\ (messages = []
               \/ verbose = true
                  /\ exists blockNum p, messages = [Corrected blockNum p]).
Proof.
  intros [Hm _] Hbytes Hsize.
  pose proof (pow2_data_bits m Hm) as Hk.
  set (k := (2 ^ m - 1 - m)%nat) in *.
  set (n := (if extended then S (2 ^ m - 1) else 2 ^ m - 1)%nat).
  assert (Hn : (1 <= n)%nat) by (unfold n; destruct extended; lia).
  set (size := Z.of_nat (length data)).
  set (ds := map (filled k) (chunks k (bytesToBits data))).
  assert (Hds : Forall (fun d => length d = k /\ Forall is_bit d) ds).
  { unfold ds. apply Forall_map.
    eapply Forall_impl; [|exact (chunks_pieces k Hk _ (bytesToBits_bits data))].
    intros c [Hlen Hc]. split; [now apply filled_length | now apply filled_bits]. }
  assert (Hpayload :
    flat_map (fun chunk => encoded m extended (filled k chunk))
             (chunks k (bytesToBits data))
    = concat (map (encoded m extended) ds)).
  { unfold ds. now rewrite flat_map_concat_map, map_map. }
  eexists. split; [rewrite (encode_run data m extended Hm); reflexivity|].
  fold k size. rewrite Hpayload.
  set (file := bitsToBytes (size_bits size ++ concat (map (encoded m extended) ds))).
  destruct (file_layout m extended size ds Hm Hds)
    as [z [t [Hfile [Ht [Hall Hblocks]]]]].
  fold k n file in Hfile, Hall, Hblocks, Ht.
  set (all := ds ++ repeat (repeat 0 k) z) in *.
  assert (Hlen_all : Forall (fun d => length d = k) all)
    by (eapply Forall_impl; [|exact Hall]; now intros d [H _]).
  assert (Hdata : exists zs, concat all = bytesToBits data ++ zs).
  { destruct (concat_filled k Hk (bytesToBits data)) as [j Hj]. fold ds in Hj.
    exists (repeat 0 j ++ repeat 0 (z * k)).
    unfold all. now rewrite concat_app, zero_blocks, Hj, <- app_assoc. }
  destruct Hdata as [zs Hdata].
  assert (Hbits_all : Forall is_bit (concat all)).
  { apply Forall_concat. eapply Forall_impl; [|exact Hall]. now intros d [_ H]. }
  assert (Hheader : length (size_bits size) = 64%nat)
    by (unfold size_bits; now rewrite length_map, length_seq).
  intros q Hq.
  pose proof (bytesToBits_length file) as Hlen.
  rewrite Hfile, !length_app, Hheader, repeat_length in Hlen.
  (* the bits received *)
  pose proof (bit_flipped_bits q file) as Hreceived.
  rewrite Hfile, flip_bit_app_r in Hreceived by lia.
  rewrite Hheader in Hreceived.
  destruct (Nat.lt_ge_cases (q - 64)
              (length (concat (map (encoded m extended) all)))) as [Hin|Hout].
  - (* a bit of a block *)
    rewrite flip_bit_app_l in Hreceived by exact Hin.
    destruct (flip_bit_concat n _ (q - 64) Hblocks Hin)
      as [pre [block [post [o [Hsplit [Ho Hflip]]]]]].
    rewrite Hflip in Hreceived.
    apply map_eq_app in Hsplit.
    destruct Hsplit as [pre' [rest [Hall_eq [Hpre Hrest]]]].
    apply map_eq_cons in Hrest.
    destruct Hrest as [d [post' [-> [Hblock Hpost]]]].
    subst pre block post.
    rewrite Hall_eq in Hlen_all.
    apply Forall_app in Hlen_all. destruct Hlen_all as [Hpre' Hrest'].
    apply Forall_cons_iff in Hrest'. destruct Hrest' as [Hd Hpost'].
    destruct (flipped_block_decodes m extended verbose (0 + length pre') d o Hd Ho)
      as [messages [Hdec Hmsg]].
    pose proof (decode_blocks_one_flipped m extended verbose pre' 0 d post' _ _
                  Hpre' Hpost' Hdec) as Hblocks'.
    rewrite <- Hall_eq in Hblocks'.
    exists messages. split.
    + rewrite (decode_received m extended verbose size _ _ _ Hn
                 ltac:(unfold size; lia) Hreceived).
      * rewrite Hblocks'. cbn [fst snd]. rewrite Hdata.
        do 2 f_equal. exact (trimmed_data data zs Hbytes).
      * apply Forall_app. split.
        -- apply Forall_map. eapply Forall_impl; [|exact Hpre'].
           intros d' Hd'. 
           destruct (encodeBlock_spec d' m Hd') as [b [He [Hl _]]].
           unfold encoded. rewrite He. unfold sent_block, n.
           destruct extended; cbn [length]; lia.
        -- constructor.
           ++ rewrite flip_bit_length.
              destruct (encodeBlock_spec d m Hd) as [b [He [Hl _]]].
              unfold encoded. rewrite He. unfold sent_block, n.
              destruct extended; cbn [length]; lia.
           ++ apply Forall_map. eapply Forall_impl; [|exact Hpost'].
              intros d' Hd'.
              destruct (encodeBlock_spec d' m Hd') as [b [He [Hl _]]].
              unfold encoded. rewrite He. unfold sent_block, n.
              destruct extended; cbn [length]; lia.
      * now rewrite repeat_length.
      * rewrite Hblocks'. exact Hbits_all.
    + destruct Hmsg as [->|[Hv [p ->]]]; [now left|].
      right. split; [exact Hv|]. now exists (0 + length pre')%nat, p.
  - (* a bit after the last block *)
    rewrite flip_bit_app_r in Hreceived by exact Hout.
    assert (Hclean : decode_blocks m extended verbose 0 (map (encoded m extended) all)
                     = (concat all, []))
      by now apply decode_blocks_clean.
    exists []. split; [|now left].
    rewrite (decode_received m extended verbose size _ _ _ Hn
               ltac:(unfold size; lia) Hreceived Hblocks).
    + rewrite Hclean. cbn [fst snd]. rewrite Hdata.
      do 2 f_equal. exact (trimmed_data data zs Hbytes).
    + now rewrite flip_bit_length, repeat_length.
    + rewrite Hclean. exact Hbits_all.
Qed.

Lemma hamming_file_corrects_one_bit_witness :
  exists file,
    encode [0xA5; 0x3C] 3 false = Done file
    /\ forall q, (64 <= q < 8 * length file)%nat ->
         exists messages,
           decode (bit_flipped q file) 3 false true = Done ([0xA5; 0x3C], messages)
           /\ (messages = []
               \/ true = true
                  /\ exists blockNum p, messages = [Corrected blockNum p]).
Proof.
  apply (hamming_file_corrects_one_bit [0xA5; 0x3C] 3 false true).
  - lia.
  - repeat constructor; unfold is_byte; lia.
  - reflexivity.
Defined.

End HammingFiles.

(** * The checks of crc.go *)

Section Checks.

Import CRC.

(** ** Reflection *)

Lemma land_bit (data : Z) (i : Z) :
  0 <= i -> (Z.land data (Z.shiftl 1 i) =? 0) = negb (Z.testbit data i).
Proof.
  intros Hi. rewrite Z.shiftl_1_l.
  destruct (Z.testbit data i) eqn:Hbit; cbn [negb].
  - apply Z.eqb_neq. intros H.
    assert (Hb : Z.testbit (Z.land data (2 ^ i)) i = true)
      by (now rewrite Z.land_spec, Hbit, Z.pow2_bits_true).
    rewrite H, Z.bits_0 in Hb. discriminate.
  - apply Z.eqb_eq. apply Z.bits_inj'. intros j Hj.
    rewrite Z.land_spec, Z.bits_0, Z.pow2_bits_eqb by exact Hi.
    destruct (Z.eqb_spec i j) as [->|]; [now rewrite Hbit | apply andb_false_r].
Qed.

(** The bits of the result of the reflection loop after [n] rounds. *)
Lemma reflect_rounds (width : nat) (data : Z) :
  forall n, (n <= width)%nat ->
    let r := fold_left
               (fun r i =>
                  if negb (Z.land data (Z.shiftl 1 (Z.of_nat i)) =? 0)
                  then Z.lor r (Z.shiftl 1 (Z.of_nat width - 1 - Z.of_nat i))
                  else r)
               (seq 0 n) 0 in
    forall j, 0 <= j ->
      Z.testbit r j
      = (Z.of_nat width - Z.of_nat n <=? j) && (j <? Z.of_nat width)
        && Z.testbit data (Z.of_nat width - 1 - j).
Proof.
  induction n as [|n IH]; intros Hn r j Hj; subst r.
  - cbn [seq fold_left]. rewrite Z.bits_0.
    destruct (Z.leb_spec (Z.of_nat width - Z.of_nat 0) j),
             (Z.ltb_spec j (Z.of_nat width)); try reflexivity; lia.
  - rewrite seq_S, fold_left_app. cbn [fold_left Nat.add].
    rewrite land_bit, negb_involutive by lia.
    specialize (IH ltac:(lia) j Hj). cbn zeta in IH.
    destruct (Z.testbit data (Z.of_nat n)) eqn:Hbit.
    + rewrite Z.lor_spec, IH, Z.shiftl_1_l, Z.pow2_bits_eqb by lia.
      destruct (Z.eqb_spec (Z.of_nat width - 1 - Z.of_nat n) j) as [Heq|Hne].
      * replace (Z.of_nat width - 1 - j) with (Z.of_nat n) by lia. rewrite Hbit.
        destruct (Z.leb_spec (Z.of_nat width - Z.of_nat (S n)) j),
                 (Z.ltb_spec j (Z.of_nat width)); try lia.
      * rewrite orb_false_r.
        destruct (Z.leb_spec (Z.of_nat width - Z.of_nat n) j),
                 (Z.leb_spec (Z.of_nat width - Z.of_nat (S n)) j);
          try reflexivity; lia.
    + rewrite IH.
      destruct (Z.leb_spec (Z.of_nat width - Z.of_nat n) j),
               (Z.leb_spec (Z.of_nat width - Z.of_nat (S n)) j);
        try reflexivity; try lia.
      replace (Z.of_nat width - 1 - j) with (Z.of_nat n) by lia.
      rewrite Hbit. now rewrite !andb_false_r.
Qed.

Lemma reflect_bits_testbit (width : nat) (data j : Z) :
  0 <= j ->
  Z.testbit (reflect_bits width data) j
  = (j <? Z.of_nat width) && Z.testbit data (Z.of_nat width - 1 - j).
Proof.
  intros Hj. unfold reflect_bits.
  rewrite (reflect_rounds width data width (Nat.le_refl _) j Hj).
  rewrite Z.sub_diag.
  destruct (Z.leb_spec 0 j); [reflexivity | lia].
Qed.

Lemma reflect_rounds_nonneg (width : nat) (data : Z) (l : list nat) :
  forall r, 0 <= r ->
    0 <= fold_left
           (fun r i =>
              if negb (Z.land data (Z.shiftl 1 (Z.of_nat i)) =? 0)
              then Z.lor r (Z.shiftl 1 (Z.of_nat width - 1 - Z.of_nat i))
              else r) l r.
Proof.
  induction l as [|i l IH]; intros r Hr; [exact Hr|].
  cbn [fold_left]. apply IH.
  destruct (negb _); [|exact Hr].
  apply Z.lor_nonneg. split; [exact Hr|]. apply Z.shiftl_nonneg. lia.
Qed.

(** A number that is not negative and has no bit from [w] on is below
    [2^w]. *)
Lemma below_pow2 (x w : Z) :
  0 <= w -> 0 <= x -> (forall j, w <= j -> Z.testbit x j = false) -> x < 2 ^ w.
Proof.
  intros Hw Hx Hbits.
  replace x with (x mod 2 ^ w); [apply Z.mod_pos_bound; lia|].
  apply Z.bits_inj'. intros j Hj.
  destruct (Z.lt_ge_cases j w) as [Hlt|Hge].
  - now rewrite Z.mod_pow2_bits_low.
  - rewrite Z.mod_pow2_bits_high by lia. symmetry. now apply Hbits.
Qed.

Lemma no_high_bit (x w j : Z) :
  0 <= x < 2 ^ w -> w <= j -> Z.testbit x j = false.
Proof.
  intros Hx Hj.
  destruct (Z.eq_dec x 0) as [->|Hne]; [apply Z.bits_0|].
  apply Z.bits_above_log2; [lia|].
  apply Z.lt_le_trans with w; [|exact Hj].
  apply Z.log2_lt_pow2; lia.
Qed.

Lemma reflect_bits_spec (width : nat) (data : Z) :
  0 <= data < 2 ^ Z.of_nat width ->
  0 <= reflect_bits width data < 2 ^ Z.of_nat width
  /\ (forall i, 0 <= i < Z.of_nat width ->
        Z.testbit (reflect_bits width data) i
        = Z.testbit data (Z.of_nat width - 1 - i))
  /\ reflect_bits width (reflect_bits width data) = data.
Proof.
  intros Hdata.
  assert (Hnonneg : forall d, 0 <= reflect_bits width d)
    by (intros d; apply reflect_rounds_nonneg; lia).
  split; [split; [apply Hnonneg|]|split].
  - apply below_pow2; [lia | apply Hnonneg|].
    intros j Hj. rewrite reflect_bits_testbit by lia.
    destruct (Z.ltb_spec j (Z.of_nat width)); [lia | reflexivity].
  - intros i Hi. rewrite reflect_bits_testbit by lia.
    destruct (Z.ltb_spec i (Z.of_nat width)); [reflexivity | lia].
  - apply Z.bits_inj'. intros j Hj.
    rewrite reflect_bits_testbit by lia.
    destruct (Z.ltb_spec j (Z.of_nat width)) as [Hlt|Hge]; cbn [andb].
    + rewrite reflect_bits_testbit by lia.
      destruct (Z.ltb_spec (Z.of_nat width - 1 - j) (Z.of_nat width)); [|lia].
      cbn [andb]. f_equal. lia.
    + symmetry. now apply (no_high_bit data (Z.of_nat width)).
Qed.

(** X28. The three reflections reverse the order of the bits of their
    argument: bit [i] of the result is bit [width - 1 - i] of the argument,
    the result fits the width, and reflecting twice gives the argument
    back. *)
Theorem reflect_reverses_bits (width : nat) (reflect : Z -> Z) (data : Z) :
  In (width, reflect) [(8%nat, reflect8); (16%nat, reflect16); (32%nat, reflect32)] ->
  0 <= data < 2 ^ Z.of_nat width ->
  0 <= reflect data < 2 ^ Z.of_nat width
  /\ (forall i, 0 <= i < Z.of_nat width ->
        Z.testbit (reflect data) i = Z.testbit data (Z.of_nat width - 1 - i))
  /\ reflect (reflect data) = data.
Proof.
  intros [H|[H|[H|[]]]] Hdata; injection H as <- <-;
    exact (reflect_bits_spec _ data Hdata).
Qed.

Lemma reflect_reverses_bits_witness :
  0 <= reflect16 0x8005 < 2 ^ Z.of_nat 16
  /\ (forall i, 0 <= i < Z.of_nat 16 ->
        Z.testbit (reflect16 0x8005) i = Z.testbit 0x8005 (Z.of_nat 16 - 1 - i))
  /\ reflect16 (reflect16 0x8005) = 0x8005.
Proof.
  apply (reflect_reverses_bits 16 reflect16 0x8005).
  - right. left. reflexivity.
  - cbn. lia.
Defined.

(** ** The table and the shift register *)

Lemma land_lowest_bit (x : Z) : Z.land x 1 = Z.b2z (Z.testbit x 0).
Proof.
  change 1 with (Z.ones 1) at 1. rewrite Z.land_ones by lia.
  symmetry. apply Z.bit0_mod.
Qed.

(** A round leaves the bits above the lowest where they are, one place
    lower. *)
Lemma table_round_high (poly x h k : Z) :
  0 <= k ->
  table_round poly (Z.lxor x (Z.shiftl h (k + 1)))
  = Z.lxor (table_round poly x) (Z.shiftl h k).
Proof.
  intros Hk. unfold table_round.
  rewrite !land_lowest_bit, Z.lxor_spec, (Z.shiftl_spec_low h) by lia.
  rewrite xorb_false_r, Z.shiftr_lxor.
  rewrite Z.shiftr_shiftl_l by lia.
  replace (k + 1 - 1) with k by lia.
  destruct (Z.b2z (Z.testbit x 0) =? 1); [|reflexivity].
  rewrite !Z.lxor_assoc. f_equal. apply Z.lxor_comm.
Qed.

Lemma rounds_high (poly h : Z) :
  forall k x,
    Nat.iter k (table_round poly) (Z.lxor x (Z.shiftl h (Z.of_nat k)))
    = Z.lxor (Nat.iter k (table_round poly) x) h.
Proof.
  induction k as [|k IH]; intros x.
  - cbn [Nat.iter]. now rewrite Z.shiftl_0_r.
  - rewrite !Nat.iter_succ_r, Nat2Z.inj_succ, <- Z.add_1_r.
    rewrite table_round_high by lia. apply IH.
Qed.

Lemma table_entry (poly i : Z) :
  0 <= i < 256 ->
  nth (Z.to_nat i) (make_table poly) 0 = Nat.iter 8 (table_round poly) i.
Proof.
  intros Hi. unfold make_table.
  change 0 with ((fun i => Nat.iter 8 (table_round poly) (Z.of_nat i)) 0%nat) at 1.
  rewrite map_nth, seq_nth by lia. cbn [Nat.add]. now rewrite Z2Nat.id by lia.
Qed.

(** A number is its lowest byte and the rest, eight places up. *)
Lemma low_byte_and_rest (c : Z) :
  Z.lxor (c mod 256) (Z.shiftl (Z.shiftr c 8) 8) = c.
Proof.
  apply Z.bits_inj'. intros j Hj. rewrite Z.lxor_spec.
  change 256 with (2 ^ 8).
  destruct (Z.lt_ge_cases j 8) as [Hlt|Hge].
  - rewrite Z.mod_pow2_bits_low, Z.shiftl_spec_low by lia. apply xorb_false_r.
  - rewrite Z.mod_pow2_bits_high, Z.shiftl_spec, Z.shiftr_spec by lia.
    cbn [xorb]. f_equal. lia.
Qed.

Lemma lxor_low_byte (crc b : Z) :
  is_byte b -> Z.lxor (crc mod 256) b = Z.lxor crc b mod 256.
Proof.
  intros Hb. apply Z.bits_inj'. intros j Hj. change 256 with (2 ^ 8).
  destruct (Z.lt_ge_cases j 8) as [Hlt|Hge].
  - now rewrite Z.lxor_spec, !Z.mod_pow2_bits_low, Z.lxor_spec by lia.
  - rewrite Z.lxor_spec, !Z.mod_pow2_bits_high by lia.
    rewrite (no_high_bit b 8 j) by (unfold is_byte in Hb; lia). reflexivity.
Qed.

Lemma lxor_high (crc b : Z) :
  is_byte b -> Z.shiftr (Z.lxor crc b) 8 = Z.shiftr crc 8.
Proof.
  intros Hb. apply Z.bits_inj'. intros j Hj.
  rewrite !Z.shiftr_spec, Z.lxor_spec by lia.
  rewrite (no_high_bit b 8 (j + 8)) by (unfold is_byte in Hb; lia).
  apply xorb_false_r.
Qed.

(** One step of the table-driven loop is eight rounds of the register. *)
Lemma update_shifted_in (poly crc b : Z) :
  is_byte b -> update (make_table poly) crc b = shifted_in poly crc b.
Proof.
  intros Hb. unfold update, shifted_in.
  rewrite lxor_low_byte by exact Hb.
  rewrite table_entry by (apply Z.mod_pos_bound; lia).
  rewrite <- lxor_high with (b := b) by exact Hb.
  rewrite <- (rounds_high poly _ 8). now rewrite low_byte_and_rest.
Qed.

Lemma lxor_below (a b w : Z) :
  0 <= w -> 0 <= a < 2 ^ w -> 0 <= b < 2 ^ w -> 0 <= Z.lxor a b < 2 ^ w.
Proof.
  intros Hw Ha Hb.
  assert (H0 : 0 <= Z.lxor a b) by (apply Z.lxor_nonneg; lia).
  split; [exact H0|]. apply below_pow2; [exact Hw | exact H0|].
  intros j Hj.
  now rewrite Z.lxor_spec, (no_high_bit a w j), (no_high_bit b w j).
Qed.

Lemma shiftr_below (x w : Z) : 0 <= w -> 0 <= x < 2 ^ w -> 0 <= Z.shiftr x 1 < 2 ^ w.
Proof.
  intros Hw Hx. rewrite Z.shiftr_div_pow2 by lia. change (2 ^ 1) with 2.
  split; [apply Z.div_pos; lia|].
  apply Z.le_lt_trans with x; [|lia]. apply Z.div_le_upper_bound; lia.
Qed.

Lemma table_round_below (poly x w : Z) :
  0 <= w -> 0 <= poly < 2 ^ w -> 0 <= x < 2 ^ w ->
  0 <= table_round poly x < 2 ^ w.
Proof.
  intros Hw Hp Hx. unfold table_round.
  destruct (Z.land x 1 =? 1).
  - apply lxor_below; [exact Hw | now apply shiftr_below | exact Hp].
  - now apply shiftr_below.
Qed.

Lemma rounds_below (poly w : Z) (k : nat) :
  0 <= w -> 0 <= poly < 2 ^ w ->
  forall x, 0 <= x < 2 ^ w -> 0 <= Nat.iter k (table_round poly) x < 2 ^ w.
Proof.
  intros Hw Hp. induction k as [|k IH]; intros x Hx; [exact Hx|].
  cbn [Nat.iter]. apply table_round_below; [exact Hw | exact Hp | now apply IH].
Qed.

Lemma byte_below (b w : Z) : 8 <= w -> is_byte b -> 0 <= b < 2 ^ w.
Proof.
  intros Hw [H0 H1]. split; [exact H0|].
  apply Z.lt_le_trans with (2 ^ 8); [exact H1|].
  apply Z.pow_le_mono_r; lia.
Qed.

Lemma shifted_in_below (poly w crc b : Z) :
  8 <= w -> 0 <= poly < 2 ^ w -> 0 <= crc < 2 ^ w -> is_byte b ->
  0 <= shifted_in poly crc b < 2 ^ w.
Proof.
  intros Hw Hp Hc Hb. unfold shifted_in.
  apply rounds_below; [lia | exact Hp|].
  apply lxor_below; [lia | exact Hc | now apply byte_below].
Qed.

Lemma register_below (poly w : Z) (data : list Z) :
  8 <= w -> 0 <= poly < 2 ^ w -> Forall is_byte data ->
  forall crc, 0 <= crc < 2 ^ w ->
    0 <= fold_left (shifted_in poly) data crc < 2 ^ w.
Proof.
  intros Hw Hp Hdata. induction Hdata as [|b data Hb _ IH]; intros crc Hc; [exact Hc|].
  cbn [fold_left]. apply IH. now apply shifted_in_below.
Qed.

(** The table-driven loop of the widths 16 and 32. *)
Lemma table_loop (poly : Z) (data : list Z) :
  Forall is_byte data ->
  forall crc,
    fold_left (update (make_table poly)) data crc
    = fold_left (shifted_in poly) data crc.
Proof.
  induction 1 as [|b data Hb _ IH]; intros crc; [reflexivity|].
  cbn [fold_left]. now rewrite update_shifted_in, IH.
Qed.

(** The table-driven loop of the width 8. *)
Lemma table_loop8 (poly : Z) (data : list Z) :
  0 <= poly < 2 ^ 8 -> Forall is_byte data ->
  forall crc, 0 <= crc < 2 ^ 8 ->
    fold_left (fun crc b => nth (Z.to_nat (Z.lxor crc b)) (make_table poly) 0) data crc
    = fold_left (shifted_in poly) data crc.
Proof.
  intros Hp. induction 1 as [|b data Hb _ IH]; intros crc Hc; [reflexivity|].
  cbn [fold_left].
  rewrite table_entry by (apply (lxor_below crc b 8); [lia | exact Hc | exact Hb]).
  apply IH. apply (shifted_in_below poly 8); try assumption; lia.
Qed.

Lemma calculate_bitwise (width : nat) (calculate : list Z -> Z -> Z -> Z -> Z)
    (reflect : Z -> Z) (data : list Z) (poly initVal xorOut : Z) :
  In (width, calculate, reflect)
     [(32%nat, calculateCRC32, reflect32); (16%nat, calculateCRC16, reflect16);
      (8%nat, calculateCRC8, reflect8)] ->
  0 <= poly < 2 ^ Z.of_nat width -> 0 <= initVal < 2 ^ Z.of_nat width ->
  Forall is_byte data ->
  calculate data poly initVal xorOut = bitwise_crc (reflect poly) data initVal xorOut
  /\ 0 <= reflect poly < 2 ^ Z.of_nat width
  /\ 0 <= fold_left (shifted_in (reflect poly)) data initVal < 2 ^ Z.of_nat width.
Proof.
  intros Hin Hp Hi Hdata.
  assert (Hr : 0 <= reflect poly < 2 ^ Z.of_nat width).
  { destruct Hin as [H|[H|[H|[]]]]; injection H as <- <- <-;
      apply (reflect_bits_spec _ poly Hp). }
  assert (Hw : 8 <= Z.of_nat width)
    by (destruct Hin as [H|[H|[H|[]]]]; injection H as <- _ _; lia).
  split; [|split; [exact Hr | now apply register_below]].
  destruct Hin as [H|[H|[H|[]]]]; injection H as <- <- <-;
    unfold calculateCRC32, calculateCRC16, calculateCRC8, bitwise_crc,
           MakeTable, makeTable16, makeTable8; cbn zeta; f_equal.
  - now apply table_loop.
  - now apply table_loop.
  - now apply table_loop8.
Qed.

(** X29. The three checks computed by table are the checks computed bit by
    bit: for a polynomial and an initial value that fit the width and a
    sequence of bytes, each of [calculateCRC32], [calculateCRC16] and
    [calculateCRC8] returns what the shift register with the reflected
    polynomial leaves after taking in every byte of the data, eight rounds
    per byte, xored with [xorOut]; with an [xorOut] that fits the width so
    does the result. On the text 123456789 the parameters printed by the
    usage text give the check values of the three standards. *)
Theorem table_driven_is_bitwise (width : nat)
    (calculate : list Z -> Z -> Z -> Z -> Z) (reflect : Z -> Z)
    (data : list Z) (poly initVal xorOut : Z) :
  In (width, calculate, reflect)
     [(32%nat, calculateCRC32, reflect32); (16%nat, calculateCRC16, reflect16);
      (8%nat, calculateCRC8, reflect8)] ->
  0 <= poly < 2 ^ Z.of_nat width -> 0 <= initVal < 2 ^ Z.of_nat width ->
  Forall is_byte data ->
  calculate data poly initVal xorOut = bitwise_crc (reflect poly) data initVal xorOut
  /\ (0 <= xorOut < 2 ^ Z.of_nat width ->
      0 <= calculate data poly initVal xorOut < 2 ^ Z.of_nat width)
  /\ calculateCRC32 check_input 0x04C11DB7 0xFFFFFFFF 0xFFFFFFFF = 0xCBF43926
  /\ calculateCRC16 check_input 0x8005 0xFFFF 0x0 = 0x4B37
  /\ calculateCRC8 check_input 0x39 0x0 0x0 = 0x15.
Proof.
  intros Hin Hp Hi Hdata.
  destruct (calculate_bitwise width calculate reflect data poly initVal xorOut
              Hin Hp Hi Hdata) as [Heq [Hr Hreg]].
  split; [exact Heq|]. split.
  - intros Hx. rewrite Heq. unfold bitwise_crc.
    apply lxor_below; [lia | exact Hreg | exact Hx].
  - repeat split; vm_compute; reflexivity.
Qed.

Lemma table_driven_is_bitwise_witness :
  calculateCRC16 [0x01; 0x02] 0x8005 0xFFFF 0
  = bitwise_crc (reflect16 0x8005) [0x01; 0x02] 0xFFFF 0
  /\ (0 <= 0 < 2 ^ Z.of_nat 16 ->
      0 <= calculateCRC16 [0x01; 0x02] 0x8005 0xFFFF 0 < 2 ^ Z.of_nat 16)
  /\ calculateCRC32 check_input 0x04C11DB7 0xFFFFFFFF 0xFFFFFFFF = 0xCBF43926
  /\ calculateCRC16 check_input 0x8005 0xFFFF 0x0 = 0x4B37
  /\ calculateCRC8 check_input 0x39 0x0 0x0 = 0x15.
Proof.
  apply (table_driven_is_bitwise 16 calculateCRC16 reflect16 [0x01; 0x02] 0x8005 0xFFFF 0).
  - right. left. reflexivity.
  - cbn. lia.
  - cbn. lia.
  - repeat constructor; unfold is_byte; lia.
Defined.

(** ** A message followed by its check *)

Lemma low_bytes_bytes (count : nat) :
  forall c, Forall is_byte (low_bytes count c).
Proof.
  induction count as [|count IH]; intros c; cbn [low_bytes]; constructor.
  - unfold is_byte. apply Z.mod_pos_bound. lia.
  - apply IH.
Qed.

(** Taking in the bytes of [c], lowest first, is eight rounds per byte on
    the register xored with [c]. *)
Lemma low_bytes_in (poly : Z) (count : nat) :
  forall c crc,
    0 <= c < 2 ^ Z.of_nat (8 * count) ->
    fold_left (shifted_in poly) (low_bytes count c) crc
    = Nat.iter (8 * count) (table_round poly) (Z.lxor crc c).
Proof.
  induction count as [|count IH]; intros c crc Hc.
  - cbn in Hc. replace c with 0 by lia. cbn. now rewrite Z.lxor_0_r.
  - cbn [low_bytes fold_left].
    assert (Hrest : 0 <= Z.shiftr c 8 < 2 ^ Z.of_nat (8 * count)).
    { rewrite Z.shiftr_div_pow2 by lia. split; [apply Z.div_pos; lia|].
      apply Z.div_lt_upper_bound; [lia|].
      rewrite <- Z.pow_add_r by lia.
      replace (8 + Z.of_nat (8 * count)) with (Z.of_nat (8 * S count)) by lia.
      lia. }
    rewrite IH by exact Hrest.
    unfold shifted_in. rewrite <- (rounds_high poly (Z.shiftr c 8) 8).
    rewrite Z.lxor_assoc, low_byte_and_rest.
    replace (8 * S count)%nat with (8 * count + 8)%nat by lia.
    now rewrite Nat.iter_add.
Qed.

(** X30. A message followed by its own check, lowest byte first, checks to
    a value that depends neither on the message nor on the initial value:
    for parameters that fit the width it is [xorOut] after [width] rounds
    of the register, xored with [xorOut], which is zero when [xorOut] is
    zero and 0x2144DF1C for the default parameters of the tool. *)
Theorem message_with_its_check (width : nat)
    (calculate : list Z -> Z -> Z -> Z -> Z) (reflect : Z -> Z)
    (data : list Z) (poly initVal xorOut : Z) :
  In (width, calculate, reflect)
     [(32%nat, calculateCRC32, reflect32); (16%nat, calculateCRC16, reflect16);
      (8%nat, calculateCRC8, reflect8)] ->
  0 <= poly < 2 ^ Z.of_nat width -> 0 <= initVal < 2 ^ Z.of_nat width ->
  0 <= xorOut < 2 ^ Z.of_nat width -> Forall is_byte data ->
  calculate (data ++ low_bytes (width / 8) (calculate data poly initVal xorOut))
            poly initVal xorOut
  = residue width (reflect poly) xorOut
  /\ residue width (reflect poly) 0 = 0
  /\ residue 32 (reflect32 0x04C11DB7) 0xFFFFFFFF = 0x2144DF1C.
Proof.
  intros Hin Hp Hi Hx Hdata.
  destruct (calculate_bitwise width calculate reflect data poly initVal xorOut
              Hin Hp Hi Hdata) as [Heq [Hr Hreg]].
  assert (Hw : (8 * (width / 8))%nat = width)
    by (destruct Hin as [H|[H|[H|[]]]]; injection H as <- _ _; reflexivity).
  set (r := fold_left (shifted_in (reflect poly)) data initVal) in *.
  assert (Hc : 0 <= Z.lxor r xorOut < 2 ^ Z.of_nat width)
    by (apply lxor_below; [lia | exact Hreg | exact Hx]).
  split; [|split].
  - destruct (calculate_bitwise width calculate reflect
                (data ++ low_bytes (width / 8) (calculate data poly initVal xorOut))
                poly initVal xorOut Hin Hp Hi) as [-> _].
    { apply Forall_app. split; [exact Hdata | apply low_bytes_bytes]. }
    rewrite Heq. unfold bitwise_crc, residue. fold r.
    rewrite fold_left_app. fold r.
    rewrite low_bytes_in by (rewrite Hw; exact Hc).
    rewrite Hw. do 2 f_equal.
    rewrite <- Z.lxor_assoc, Z.lxor_nilpotent. apply Z.lxor_0_l.
  - unfold residue. rewrite Z.lxor_0_r.
    assert (H0 : forall k, Nat.iter k (table_round (reflect poly)) 0 = 0)
      by (induction k as [|k IH]; [reflexivity | now rewrite Nat.iter_succ, IH]).
    apply H0.
  - vm_compute. reflexivity.
Qed.

Lemma message_with_its_check_witness :
  calculateCRC16
    ([0x01; 0x02] ++ low_bytes (16 / 8) (calculateCRC16 [0x01; 0x02] 0x8005 0xFFFF 0))
    0x8005 0xFFFF 0
  = residue 16 (reflect16 0x8005) 0
  /\ residue 16 (reflect16 0x8005) 0 = 0
  /\ residue 32 (reflect32 0x04C11DB7) 0xFFFFFFFF = 0x2144DF1C.
Proof.
  apply (message_with_its_check 16 calculateCRC16 reflect16 [0x01; 0x02] 0x8005 0xFFFF 0).
  - right. left. reflexivity.
  - cbn. lia.
  - cbn. lia.
  - cbn. lia.
  - repeat constructor; unfold is_byte; lia.
Defined.

End Checks.
